(** * A shallow embedding of the websocket/UDP relay (main.go)

    The relay keeps a [Hub] of named rooms, each [Room] holding the set of
    connected clients, and fans every inbound frame out to the bounded
    outbound queues of the other members.  Go pointers are modelled as
    addresses into explicit heaps, channels as bounded buffers with a
    closed flag, and the goroutines of the server as labelled atomic steps
    of a transition system over the whole [World]. *)

From Stdlib Require Import ZArith NArith Lia List Ascii String Sorted.
From Stdlib Require Import DecimalString DecimalZ DecimalPos.
From Stdlib Require Decimal DecimalFacts.
From stdpp Require Import base option list gmap fin_maps strings pretty.

(** ** Channels

    [sendCh chan []byte] made with [make(chan []byte, 256)]: a FIFO buffer
    of frames, its capacity, and whether [close] has been called. *)

Record Chan := mkChan {
  buf : list string;
  cap : nat;
  closed : bool;
}.

Definition make_chan (n : nat) : Chan := mkChan [] n false.

(** [select { case ch <- msg: default: }].  The send is attempted without
    blocking: [enqueue] puts the message in the buffer when there is room
    and falls through to [default] when it is full.  A send on a closed
    channel panics, also inside a [select]; [None] is that panic. *)
Definition enqueue (msg : string) (ch : Chan) : Chan :=
  if decide (length (buf ch) < cap ch)
  then mkChan (buf ch ++ [msg]) (cap ch) (closed ch)
  else ch.

Definition try_send (msg : string) (ch : Chan) : option Chan :=
  if closed ch then None else Some (enqueue msg ch).

(** [close(ch)]; closing a closed channel panics. *)
Definition close_chan (ch : Chan) : option Chan :=
  if closed ch then None else Some (mkChan (buf ch) (cap ch) true).

(** One iteration of [for msg := range ch]: the head of the buffer, if
    any. *)
Definition try_recv (ch : Chan) : option (string * Chan) :=
  match buf ch with
  | [] => None
  | m :: rest => Some (m, mkChan rest (cap ch) (closed ch))
  end.

(** ** Clients, rooms and the hub *)

Definition client_ptr := positive.
Definition room_ptr := positive.

(** [conn] is the websocket connection: the frames written to it so far
    and whether [conn.Close()] has run. *)
Record Conn := mkConn {
  written : list string;
  conn_closed : bool;
}.

Record Client := mkClient {
  username : string;
  room : room_ptr;
  conn : Conn;
  sendCh : Chan;
}.

Record Room := mkRoom {
  name : string;
  clients : gmap client_ptr bool;
}.

Record Hub := mkHub {
  rooms : gmap string room_ptr;
}.

Definition NewHub : Hub := mkHub ∅.

Definition set_sendCh (ch : Chan) (c : Client) : Client :=
  mkClient (username c) (room c) (conn c) ch.

Definition set_conn (k : Conn) (c : Client) : Client :=
  mkClient (username c) (room c) k (sendCh c).

(** [Room.join]: [r.clients[c] = true]. *)
Definition join (c : client_ptr) (r : Room) : Room :=
  mkRoom (name r) (<[c := true]> (clients r)).

(** [Room.leave]: [delete(r.clients, c)]. *)
Definition leave (c : client_ptr) (r : Room) : Room :=
  mkRoom (name r) (delete c (clients r)).

(** [len(r.clients)]. *)
Definition member_count (r : Room) : nat := size (clients r).

Definition is_member (c : client_ptr) (r : Room) : Prop :=
  is_Some (clients r !! c).

(** The body of the loop of [Room.broadcast], run for the member [c]:
    nothing when [c] is the sender, otherwise the non-blocking send on
    [c.sendCh].  [sender] is [None] for the nil pointer.  [None] as a result
    is a panic of the broadcasting goroutine. *)
Definition broadcast_body (sender : option client_ptr) (msg : string)
    (c : client_ptr) (cs : gmap client_ptr Client) : option (gmap client_ptr Client) :=
  if decide (Some c = sender) then Some cs
  else
    cl ← cs !! c;
    ch ← try_send msg (sendCh cl);
    Some (<[c := set_sendCh ch cl]> cs).

(** [for c := range r.clients { ... }] along one iteration order. *)
Fixpoint broadcast_range (order : list client_ptr) (sender : option client_ptr)
    (msg : string) (cs : gmap client_ptr Client) : option (gmap client_ptr Client) :=
  match order with
  | [] => Some cs
  | c :: rest =>
      cs' ← broadcast_body sender msg c cs;
      broadcast_range rest sender msg cs'
  end.

(** The keys of [r.clients].  Go leaves the iteration order of a map
    unspecified; the theorems about [broadcast] hold for every order that
    is a permutation of these keys. *)
Definition members (r : Room) : list client_ptr := (map_to_list (clients r)).*1.

(** [Room.broadcast]. *)
Definition broadcast (r : Room) (sender : option client_ptr) (msg : string)
    (cs : gmap client_ptr Client) : option (gmap client_ptr Client) :=
  broadcast_range (members r) sender msg cs.

(** A client after [msg] has been offered to its queue. *)
Definition offered (msg : string) (cl : Client) : Client :=
  set_sendCh (enqueue msg (sendCh cl)) cl.

(** What an offer of [msg] makes of the client [cl], said of the queues
    themselves: [cl'] is [cl] with [msg] at the end of its queue when the
    queue had room, and [cl] with its queue as it was when the queue was
    full; nothing else of the client changes. *)
Definition offer_outcome (msg : string) (cl cl' : Client) : Prop :=
  username cl' = username cl ∧ room cl' = room cl ∧ conn cl' = conn cl ∧
  cap (sendCh cl') = cap (sendCh cl) ∧ closed (sendCh cl') = closed (sendCh cl) ∧
  (length (buf (sendCh cl)) < cap (sendCh cl) →
   buf (sendCh cl') = buf (sendCh cl) ++ [msg]) ∧
  (cap (sendCh cl) ≤ length (buf (sendCh cl)) →
   buf (sendCh cl') = buf (sendCh cl)).

(** [c] points to a client whose queue has not been closed. *)
Definition queue_open (cs : gmap client_ptr Client) (c : client_ptr) : Prop :=
  match cs !! c with
  | Some cl => closed (sendCh cl) = false
  | None => False
  end.

#[global] Instance queue_open_dec cs c : Decision (queue_open cs c).
Proof. unfold queue_open. destruct (cs !! c); apply _. Defined.

(** Every member a broadcast from [sender] will send to has an open
    queue. *)
Definition queues_open (r : Room) (sender : option client_ptr)
    (cs : gmap client_ptr Client) : Prop :=
  Forall (λ c, Some c = sender ∨ queue_open cs c) (members r).

#[global] Instance queues_open_dec r sender cs : Decision (queues_open r sender cs).
Proof. unfold queues_open. apply _. Defined.

(** [Hub.getRoom], on the hub and the heap of rooms it points into. *)
Definition getRoom (nm : string) (h : Hub) (rh : gmap room_ptr Room)
    : room_ptr * Hub * gmap room_ptr Room :=
  match rooms h !! nm with
  | Some r => (r, h, rh)
  | None =>
      let r := fresh (dom rh) in
      (r, mkHub (<[nm := r]> (rooms h)), <[r := mkRoom nm ∅]> rh)
  end.

(** ** Go strings

    A Go [string] and a [[]byte] are sequences of bytes: [string] here, one
    [ascii] per byte.  Byte and rune values are in [N]. *)

Definition byte_val (a : ascii) : N := N_of_ascii a.
Definition byte_of (n : N) : ascii := ascii_of_N (n mod 256).

(** [s[n:]] and [s[:n]] *)
Fixpoint slice_from (n : nat) (s : string) : string :=
  match n, s with
  | O, _ => s
  | S k, String _ t => slice_from k t
  | S _, EmptyString => EmptyString
  end.

Fixpoint slice_to (n : nat) (s : string) : string :=
  match n, s with
  | O, _ => EmptyString
  | S k, String a t => String a (slice_to k t)
  | S _, EmptyString => EmptyString
  end.

(** [s[i]], 0 past the end (never read there by the code below). *)
Definition byte_at (s : string) (i : nat) : N :=
  match String.get i s with
  | Some a => byte_val a
  | None => 0%N
  end.

Module utf8.

Definition RuneError : N := 0xFFFD.
Definition RuneSelf : N := 0x80.
Definition MaxRune : N := 0x10FFFF.
Definition UTFMax : nat := 4.

(** The tables [first] and [acceptRanges] of unicode/utf8: for a leading
    byte, the length of the sequence and the range allowed for the second
    byte; [None] for a byte that cannot start a sequence. *)
Definition first (s0 : N) : option (nat * N * N) :=
  if (s0 <? 0xC2)%N then None
  else if (s0 <=? 0xDF)%N then Some (2%nat, 0x80%N, 0xBF%N)
  else if (s0 =? 0xE0)%N then Some (3%nat, 0xA0%N, 0xBF%N)
  else if (s0 <=? 0xEC)%N then Some (3%nat, 0x80%N, 0xBF%N)
  else if (s0 =? 0xED)%N then Some (3%nat, 0x80%N, 0x9F%N)
  else if (s0 <=? 0xEF)%N then Some (3%nat, 0x80%N, 0xBF%N)
  else if (s0 =? 0xF0)%N then Some (4%nat, 0x90%N, 0xBF%N)
  else if (s0 <=? 0xF3)%N then Some (4%nat, 0x80%N, 0xBF%N)
  else if (s0 =? 0xF4)%N then Some (4%nat, 0x80%N, 0x8F%N)
  else None.

Definition is_cont (b : N) : bool := (0x80 <=? b)%N && (b <=? 0xBF)%N.

(** [utf8.DecodeRuneInString]: the first rune of [s] and its width in
    bytes; [(RuneError, 1)] for a byte that is not the start of a
    well-formed sequence, [(RuneError, 0)] for the empty string. *)
Definition DecodeRuneInString (s : string) : N * nat :=
  let n := String.length s in
  if (n <? 1)%nat then (RuneError, 0%nat)
  else
    let s0 := byte_at s 0 in
    if (s0 <? RuneSelf)%N then (s0, 1%nat)
    else match first s0 with
    | None => (RuneError, 1%nat)
    | Some (sz, lo, hi) =>
      if (n <? sz)%nat then (RuneError, 1%nat)
      else
        let s1 := byte_at s 1 in
        if (s1 <? lo)%N || (hi <? s1)%N then (RuneError, 1%nat)
        else if (sz <=? 2)%nat then
          (N.lor (N.shiftl (N.land s0 0x1F) 6) (N.land s1 0x3F), 2%nat)
        else
          let s2 := byte_at s 2 in
          if negb (is_cont s2) then (RuneError, 1%nat)
          else if (sz <=? 3)%nat then
            (N.lor (N.lor (N.shiftl (N.land s0 0x0F) 12)
                          (N.shiftl (N.land s1 0x3F) 6))
                   (N.land s2 0x3F), 3%nat)
          else
            let s3 := byte_at s 3 in
            if negb (is_cont s3) then (RuneError, 1%nat)
            else
              (N.lor (N.lor (N.lor (N.shiftl (N.land s0 0x07) 18)
                                   (N.shiftl (N.land s1 0x3F) 12))
                            (N.shiftl (N.land s2 0x3F) 6))
                     (N.land s3 0x3F), 4%nat)
    end.

Definition cont_byte (r : N) : ascii := byte_of (N.lor 0x80 (N.land r 0x3F)).

(** [utf8.AppendRune] on an empty buffer: the encoding of [r]; a
    surrogate or a value above [MaxRune] is encoded as [RuneError]. *)
Definition EncodeRune (r : N) : string :=
  if (r <? RuneSelf)%N then String (byte_of r) ""
  else if (r <=? 0x7FF)%N then
    String (byte_of (N.lor 0xC0 (N.shiftr r 6))) (String (cont_byte r) "")
  else
    let r := if (MaxRune <? r)%N || ((0xD800 <=? r)%N && (r <=? 0xDFFF)%N)
             then RuneError else r in
    if (r <=? 0xFFFF)%N then
      String (byte_of (N.lor 0xE0 (N.shiftr r 12)))
        (String (cont_byte (N.shiftr r 6)) (String (cont_byte r) ""))
    else
      String (byte_of (N.lor 0xF0 (N.shiftr r 18)))
        (String (cont_byte (N.shiftr r 12))
           (String (cont_byte (N.shiftr r 6)) (String (cont_byte r) ""))).

(** [for _, r := range s]: the runes of [s] in order.  [skip] counts the
    bytes of the current rune still to be passed over. *)
Fixpoint runes_from (skip : nat) (s : string) : list N :=
  match s with
  | EmptyString => []
  | String _ t =>
      match skip with
      | S k => runes_from k t
      | O => let '(r, size) := DecodeRuneInString s in
             r :: runes_from (size - 1) t
      end
  end.

Definition runes (s : string) : list N := runes_from 0 s.

(** [utf8.ValidString] *)
Fixpoint valid_from (skip : nat) (s : string) : bool :=
  match s with
  | EmptyString => true
  | String _ t =>
      match skip with
      | S k => valid_from k t
      | O => let '(r, size) := DecodeRuneInString s in
             if (r =? RuneError)%N && (size =? 1)%nat then false
             else valid_from (size - 1) t
      end
  end.

Definition ValidString (s : string) : bool := valid_from 0 s.

(** [utf8.DecodeLastRuneInString] *)
Definition RuneStart (b : N) : bool := negb (N.land b 0xC0 =? 0x80)%N.

(** the scan [for start--; start >= lim; start-- { if RuneStart(s[start]) {break} }],
    [k] steps left before [lim] is passed; the result is [start], or
    [None] when it ran below [lim]. *)
Fixpoint scan_back (s : string) (start : nat) (k : nat) : option nat :=
  match k with
  | O => None
  | S k' => if RuneStart (byte_at s start) then Some start
            else match start with
                 | O => None
                 | S p => scan_back s p k'
                 end
  end.

Definition DecodeLastRuneInString (s : string) : N * nat :=
  let e := String.length s in
  match e with
  | O => (RuneError, 0%nat)
  | S start =>
    let r := byte_at s start in
    if (r <? RuneSelf)%N then (r, 1%nat)
    else
      let lim := (e - UTFMax)%nat in
      let start' :=
        match start with
        | O => 0%nat
        | S p => match scan_back s p (S p - lim) with
                 | Some i => i
                 | None => lim
                 end
        end in
      let '(r, size) := DecodeRuneInString (slice_to (e - start') (slice_from start' s)) in
      if (start' + size =? e)%nat then (r, size) else (RuneError, 1%nat)
  end.

End utf8.

Module unicode.

(** [unicode.IsSpace]: the Latin-1 cases and the [White_Space] table. *)
Definition IsSpace (r : N) : bool :=
  if (r <=? 0xFF)%N then
    (r =? 0x09)%N || (r =? 0x0A)%N || (r =? 0x0B)%N || (r =? 0x0C)%N ||
    (r =? 0x0D)%N || (r =? 0x20)%N || (r =? 0x85)%N || (r =? 0xA0)%N
  else
    (r =? 0x1680)%N || ((0x2000 <=? r)%N && (r <=? 0x200A)%N) ||
    (r =? 0x2028)%N || (r =? 0x2029)%N || (r =? 0x202F)%N ||
    (r =? 0x205F)%N || (r =? 0x3000)%N.

(** [unicode.ToUpper].  Exact on ASCII and Latin-1 and on the two runes
    beyond them that the case tables send into ASCII (U+0131 to I, U+017F
    to S).  The rest of the tables is not carried here: every other rune
    is left in place, where Go may yield another rune outside ASCII, which
    no comparison in this program can tell apart. *)
Definition ToUpper (r : N) : N :=
  if (r <=? 0x7F)%N then
    if (0x61 <=? r)%N && (r <=? 0x7A)%N then (r - 0x20)%N else r
  else if (r =? 0xB5)%N then 0x39C%N
  else if (0xE0 <=? r)%N && (r <=? 0xFE)%N && negb (r =? 0xF7)%N then (r - 0x20)%N
  else if (r =? 0xFF)%N then 0x178%N
  else if (r =? 0x131)%N then 0x49%N
  else if (r =? 0x17F)%N then 0x53%N
  else r.

End unicode.

Module strings.

Fixpoint HasPrefix (s prefix : string) : bool :=
  match prefix, s with
  | EmptyString, _ => true
  | String p pt, String a t => if Ascii.eqb a p then HasPrefix t pt else false
  | String _ _, EmptyString => false
  end.

(** [strings.TrimPrefix] *)
Definition TrimPrefix (s prefix : string) : string :=
  if HasPrefix s prefix then slice_from (String.length prefix) s else s.

(** [strings.Index]: the byte offset of the first occurrence of [substr],
    or -1. *)
Fixpoint Index_from (i : Z) (s substr : string) : Z :=
  if HasPrefix s substr then i
  else match s with
       | EmptyString => (-1)%Z
       | String _ t => Index_from (i + 1)%Z t substr
       end.

Definition Index (s substr : string) : Z := Index_from 0 s substr.

(** The loop of [genSplit] for a non-empty separator, with [cuts] = n-1
    cuts still allowed. *)
Fixpoint genSplit (cuts : nat) (s sep : string) : list string :=
  match cuts with
  | O => [s]
  | S k =>
      let m := Index s sep in
      if (m <? 0)%Z then [s]
      else slice_to (Z.to_nat m) s
           :: genSplit k (slice_from (Z.to_nat m + String.length sep) s) sep
  end.

(** [strings.Split(s, sep)] sets n to [Count(s, sep) + 1], so its loop ends
    when no separator is left; [String.length s] cuts are never all used. *)
Definition Split (s sep : string) : list string := genSplit (String.length s) s sep.

(** [strings.SplitN(s, sep, n)] for n > 0. *)
Definition SplitN (s sep : string) (n : nat) : list string := genSplit (n - 1) s sep.

Definition asciiSpace (c : N) : bool :=
  (c =? 0x09)%N || (c =? 0x0A)%N || (c =? 0x0B)%N || (c =? 0x0C)%N ||
  (c =? 0x0D)%N || (c =? 0x20)%N.

(** [indexFunc(s, f, truth)]: offset of the first rune [r] with
    [f r = truth], ranging over the runes of [s]. *)
Fixpoint indexFunc_from (f : N → bool) (truth : bool) (skip i : nat) (s : string)
    : option nat :=
  match s with
  | EmptyString => None
  | String _ t =>
      match skip with
      | S k => indexFunc_from f truth k (S i) t
      | O => let '(r, wid) := utf8.DecodeRuneInString s in
             if Bool.eqb (f r) truth then Some i
             else indexFunc_from f truth (wid - 1) (S i) t
      end
  end.

Definition indexFunc (s : string) (f : N → bool) (truth : bool) : option nat :=
  indexFunc_from f truth 0 0 s.

(** [lastIndexFunc(s, f, truth)]: the loop
    [for i := len(s); i > 0; { r, size := DecodeLastRuneInString(s[0:i]); i -= size; ... }]. *)
Fixpoint lastIndexFunc_loop (fuel : nat) (s : string) (f : N → bool) (truth : bool)
    (i : nat) : option nat :=
  match fuel with
  | O => None
  | S k =>
      if (i =? 0)%nat then None
      else
        let '(r, size) := utf8.DecodeLastRuneInString (slice_to i s) in
        let i' := (i - size)%nat in
        if Bool.eqb (f r) truth then Some i'
        else lastIndexFunc_loop k s f truth i'
  end.

Definition lastIndexFunc (s : string) (f : N → bool) (truth : bool) : option nat :=
  lastIndexFunc_loop (String.length s) s f truth (String.length s).

Definition TrimLeftFunc (s : string) (f : N → bool) : string :=
  match indexFunc s f false with
  | None => ""
  | Some i => slice_from i s
  end.

Definition TrimRightFunc (s : string) (f : N → bool) : string :=
  match lastIndexFunc s f false with
  | Some i =>
      if (utf8.RuneSelf <=? byte_at s i)%N
      then slice_to (i + snd (utf8.DecodeRuneInString (slice_from i s))) s
      else slice_to (S i) s
  | None => ""
  end.

Definition TrimFunc (s : string) (f : N → bool) : string :=
  TrimRightFunc (TrimLeftFunc s f) f.

(** second loop of [TrimSpace]: [stop] runs down from [start + k]; [inl]
    is [stop] at the [break], [inr] is [stop] where a non-ASCII byte was
    met. *)
Fixpoint TrimSpace_stop (s : string) (start k : nat) : nat + nat :=
  match k with
  | O => inl start
  | S k' =>
      let c := byte_at s (start + k') in
      if (utf8.RuneSelf <=? c)%N then inr (start + k)%nat
      else if asciiSpace c then TrimSpace_stop s start k'
      else inl (start + k)%nat
  end.

(** first loop of [TrimSpace], at offset [start] with [t = s[start:]] *)
Fixpoint TrimSpace_start (s : string) (start : nat) (t : string) : string :=
  match t with
  | String a t' =>
      let c := byte_val a in
      if (utf8.RuneSelf <=? c)%N then TrimFunc t unicode.IsSpace
      else if asciiSpace c then TrimSpace_start s (S start) t'
      else
        match TrimSpace_stop s start (String.length t) with
        | inl stop => slice_to (stop - start) t
        | inr stop => TrimRightFunc (slice_to (stop - start) t) unicode.IsSpace
        end
  | EmptyString => ""
  end.

(** [strings.TrimSpace] *)
Definition TrimSpace (s : string) : string := TrimSpace_start s 0 s.

(** [strings.Map(mapping, s)] for a mapping that drops no rune: every rune
    of [s], an ill-formed byte counting as [RuneError], is mapped and
    written back in UTF-8. *)
Definition Map (mapping : N → N) (s : string) : string :=
  foldr (λ r acc, utf8.EncodeRune (mapping r) +:+ acc) "" (utf8.runes s).

Fixpoint map_bytes (f : N → N) (s : string) : string :=
  match s with
  | EmptyString => EmptyString
  | String a t => String (byte_of (f (byte_val a))) (map_bytes f t)
  end.

Fixpoint all_bytes (p : N → bool) (s : string) : bool :=
  match s with
  | EmptyString => true
  | String a t => p (byte_val a) && all_bytes p t
  end.

Definition is_lower (c : N) : bool := (0x61 <=? c)%N && (c <=? 0x7A)%N.

(** [strings.ToUpper]: a byte loop for an all-ASCII string, [Map] over
    [unicode.ToUpper] otherwise. *)
Definition ToUpper (s : string) : string :=
  let isASCII := all_bytes (λ c, (c <? utf8.RuneSelf)%N) s in
  let hasLower := negb (all_bytes (λ c, negb (is_lower c)) s) in
  if isASCII then
    if negb hasLower then s
    else map_bytes (λ c, if is_lower c then (c - 0x20)%N else c) s
  else Map unicode.ToUpper s.

Definition in_cutset (cutset : string) (a : ascii) : bool :=
  existsb (Ascii.eqb a) (list_ascii_of_string cutset).

Fixpoint trimLeftASCII (s cutset : string) : string :=
  match s with
  | String a t => if in_cutset cutset a then trimLeftASCII t cutset else s
  | EmptyString => EmptyString
  end.

Fixpoint trimRightASCII (s cutset : string) : string :=
  match s with
  | String a t =>
      match trimRightASCII t cutset with
      | EmptyString => if in_cutset cutset a then EmptyString else String a EmptyString
      | t' => String a t'
      end
  | EmptyString => EmptyString
  end.

(** [strings.Trim(s, cutset)] for a cutset of several ASCII bytes. *)
Definition Trim (s cutset : string) : string :=
  trimLeftASCII (trimRightASCII s cutset) cutset.

End strings.

Module strconv.

(** [strconv.FormatInt(z, 10)], which is also what the verb [%d] prints. *)
Definition Itoa (z : Z) : string := NilZero.string_of_int (Z.to_int z).

(** [strconv.ParseInt(s, 10, 64)] on a literal the JSON scanner has
    accepted: an optional minus sign and decimal digits, no leading zero.
    [None] is a syntax or range error. *)
Definition ParseInt64 (s : string) : option Z :=
  match NilZero.int_of_string s with
  | Some d =>
      let z := Z.of_int d in
      if (- 2 ^ 63 <=? z)%Z && (z <? 2 ^ 63)%Z then Some z else None
  | None => None
  end.

End strconv.

Module base64.

(** the alphabet of [base64.StdEncoding] *)
Definition encodeStd : string :=
  "ABCDEFGHIJKLMNOPQRSTUVWXYZabcdefghijklmnopqrstuvwxyz0123456789+/".

Definition padChar : ascii := "="%char.

Definition enc (i : N) : ascii :=
  match String.get (N.to_nat i) encodeStd with
  | Some a => a
  | None => padChar
  end.

(** [decodeMap], the inverse of the alphabet: the index of [a] in it. *)
Fixpoint find_index (a : ascii) (alphabet : string) (i : N) : option N :=
  match alphabet with
  | EmptyString => None
  | String b t => if Ascii.eqb a b then Some i else find_index a t (i + 1)%N
  end.

Definition dec (a : ascii) : option N := find_index a encodeStd 0.

Definition sextet (val : N) (shift : N) : ascii :=
  enc (N.land (N.shiftr val shift) 0x3F).

(** [StdEncoding.EncodeToString] *)
Fixpoint EncodeToString (src : string) : string :=
  match src with
  | String a (String b (String c t)) =>
      let val := N.lor (N.lor (N.shiftl (byte_val a) 16) (N.shiftl (byte_val b) 8))
                       (byte_val c) in
      String (sextet val 18) (String (sextet val 12) (String (sextet val 6)
        (String (sextet val 0) (EncodeToString t))))
  | String a (String b EmptyString) =>
      let val := N.lor (N.shiftl (byte_val a) 16) (N.shiftl (byte_val b) 8) in
      String (sextet val 18) (String (sextet val 12) (String (sextet val 6)
        (String padChar EmptyString)))
  | String a EmptyString =>
      let val := N.shiftl (byte_val a) 16 in
      String (sextet val 18) (String (sextet val 12)
        (String padChar (String padChar EmptyString)))
  | EmptyString => EmptyString
  end.

Definition quantum (x0 x1 x2 x3 : N) : N :=
  N.lor (N.lor (N.lor (N.shiftl x0 18) (N.shiftl x1 12)) (N.shiftl x2 6)) x3.

(** The quanta of the decoder, on input from which line breaks have been
    dropped: four characters give three bytes; padding is accepted only in
    the last quantum, as its last one or two characters. *)
Fixpoint decode_quanta (s : string) : option string :=
  match s with
  | EmptyString => Some EmptyString
  | String a (String b (String c (String d t))) =>
      match dec a, dec b with
      | Some x0, Some x1 =>
          if Ascii.eqb c padChar then
            if Ascii.eqb d padChar && String.eqb t EmptyString
            then Some (String (byte_of (N.shiftr (quantum x0 x1 0 0) 16)) EmptyString)
            else None
          else
            match dec c with
            | None => None
            | Some x2 =>
                if Ascii.eqb d padChar then
                  if String.eqb t EmptyString then
                    let val := quantum x0 x1 x2 0 in
                    Some (String (byte_of (N.shiftr val 16))
                           (String (byte_of (N.shiftr val 8)) EmptyString))
                  else None
                else
                  match dec d with
                  | None => None
                  | Some x3 =>
                      let val := quantum x0 x1 x2 x3 in
                      match decode_quanta t with
                      | None => None
                      | Some rest =>
                          Some (String (byte_of (N.shiftr val 16))
                                 (String (byte_of (N.shiftr val 8))
                                   (String (byte_of val) rest)))
                      end
                  end
            end
      | _, _ => None
      end
  | _ => None
  end.

Fixpoint drop_newlines (s : string) : string :=
  match s with
  | EmptyString => EmptyString
  | String a t =>
      if Ascii.eqb a "010"%char || Ascii.eqb a "013"%char
      then drop_newlines t
      else String a (drop_newlines t)
  end.

(** [StdEncoding.DecodeString]; [None] is a [CorruptInputError]. *)
Definition DecodeString (s : string) : option string :=
  decode_quanta (drop_newlines s).

End base64.

(** [s] with its ASCII capitals in lower case *)
Definition lower_ascii (s : string) : string :=
  strings.map_bytes (λ c, if (0x41 <=? c)%N && (c <=? 0x5A)%N then (c + 0x20)%N else c) s.

(** ** The envelope and its JSON form *)

(** [type Envelope struct].  [Payload] is a [[]byte]; [None] is the nil
    slice, which [encoding/json] prints as [null]. *)
Record Envelope := mkEnvelope {
  Room_ : string;
  Username : string;
  Ts : Z;
  Payload : option string;
}.

Definition DQUOTE : ascii := "034"%char.
Definition BACKSLASH : ascii := "092"%char.
Definition LF : string := String "010"%char EmptyString.

Module json.

Definition hex : string := "0123456789abcdef".

Definition hex_digit (n : N) : ascii :=
  match String.get (N.to_nat n) hex with
  | Some a => a
  | None => "0"%char
  end.

(** [htmlSafeSet]: the ASCII bytes written as they are. *)
Definition htmlSafe (b : N) : bool :=
  (0x20 <=? b)%N && negb (b =? 0x22)%N && negb (b =? 0x26)%N &&
  negb (b =? 0x3C)%N && negb (b =? 0x3E)%N && negb (b =? 0x5C)%N.

(** the escape written for an ASCII byte outside [htmlSafeSet] *)
Definition escape_ascii (b : N) : string :=
  if (b =? 0x5C)%N || (b =? 0x22)%N then String BACKSLASH (String (byte_of b) EmptyString)
  else if (b =? 0x08)%N then String BACKSLASH "b"
  else if (b =? 0x0C)%N then String BACKSLASH "f"
  else if (b =? 0x0A)%N then String BACKSLASH "n"
  else if (b =? 0x0D)%N then String BACKSLASH "r"
  else if (b =? 0x09)%N then String BACKSLASH "t"
  else String BACKSLASH
         (String "u" (String "0" (String "0"
            (String (hex_digit (N.shiftr b 4))
               (String (hex_digit (N.land b 0xF)) EmptyString))))).

(** The loop of [appendString] with [escapeHTML] set, between the quotes.
    [skip] bytes of the rune just decoded remain; [copy] tells whether they
    are written through (a well-formed rune) or were replaced by an
    escape. *)
Fixpoint appendString_from (skip : nat) (copy : bool) (s : string) : string :=
  match s with
  | EmptyString => EmptyString
  | String a t =>
      match skip with
      | S k =>
          if copy then String a (appendString_from k copy t)
          else appendString_from k copy t
      | O =>
          let b := byte_val a in
          if (b <? utf8.RuneSelf)%N then
            if htmlSafe b then String a (appendString_from 0 true t)
            else escape_ascii b +:+ appendString_from 0 true t
          else
            let '(c, size) := utf8.DecodeRuneInString s in
            if (c =? utf8.RuneError)%N && (size =? 1)%nat then
              String BACKSLASH "ufffd" +:+ appendString_from 0 true t
            else if (c =? 0x2028)%N || (c =? 0x2029)%N then
              String BACKSLASH "u202" +:+ String (hex_digit (N.land c 0xF)) EmptyString
                +:+ appendString_from (size - 1) false t
            else String a (appendString_from (size - 1) true t)
      end
  end.

Definition appendString (s : string) : string :=
  String DQUOTE (appendString_from 0 true s +:+ String DQUOTE EmptyString).

(** the encoder of a [[]byte] field *)
Definition appendBytes (p : option string) : string :=
  match p with
  | None => "null"
  | Some b => String DQUOTE (base64.EncodeToString b +:+ String DQUOTE EmptyString)
  end.

Definition key (k : string) : string :=
  String DQUOTE (k +:+ String DQUOTE ":").

(** [json.Marshal(env)] for an [Envelope]: its fields in order under their
    tags, with no white space.  Nothing in this struct makes it fail. *)
Definition Marshal (env : Envelope) : string :=
  "{" +:+ key "room" +:+ appendString (Room_ env) +:+ "," +:+
  key "username" +:+ appendString (Username env) +:+ "," +:+
  key "ts" +:+ strconv.Itoa (Ts env) +:+ "," +:+
  key "payload" +:+ appendBytes (Payload env) +:+ "}".

(** *** Decoding *)

Definition isSpace (a : ascii) : bool :=
  Ascii.eqb a " "%char || Ascii.eqb a "009"%char ||
  Ascii.eqb a "013"%char || Ascii.eqb a "010"%char.

Fixpoint skip_ws (s : string) : string :=
  match s with
  | String a t => if isSpace a then skip_ws t else s
  | EmptyString => EmptyString
  end.

Definition hex_val (a : ascii) : option N :=
  let c := byte_val a in
  if (0x30 <=? c)%N && (c <=? 0x39)%N then Some (c - 0x30)%N
  else if (0x61 <=? c)%N && (c <=? 0x66)%N then Some (c - 0x61 + 10)%N
  else if (0x41 <=? c)%N && (c <=? 0x46)%N then Some (c - 0x41 + 10)%N
  else None.

(** [getu4]: the rune of a [\uXXXX] escape at the head of [s]. *)
Definition getu4 (s : string) : option N :=
  match s with
  | String b (String u (String h0 (String h1 (String h2 (String h3 _))))) =>
      if Ascii.eqb b BACKSLASH && Ascii.eqb u "u"%char then
        match hex_val h0, hex_val h1, hex_val h2, hex_val h3 with
        | Some d0, Some d1, Some d2, Some d3 =>
            Some (d0 * 4096 + d1 * 256 + d2 * 16 + d3)%N
        | _, _, _, _ => None
        end
      else None
  | _ => None
  end.

Definition IsSurrogate (r : N) : bool := (0xD800 <=? r)%N && (r <? 0xE000)%N.

(** [utf16.DecodeRune] *)
Definition utf16_DecodeRune (r1 r2 : N) : N :=
  if (0xD800 <=? r1)%N && (r1 <? 0xDC00)%N && (0xDC00 <=? r2)%N && (r2 <? 0xE000)%N
  then ((r1 - 0xD800) * 1024 + (r2 - 0xDC00) + 0x10000)%N
  else utf8.RuneError.

Definition cons_result (out : string) (r : option (string * string))
    : option (string * string) :=
  match r with
  | Some (d, rest) => Some (out +:+ d, rest)
  | None => None
  end.

(** A string literal, read from just after its opening quote: the
    unquoted bytes ([unquoteBytes]) and the input after the closing quote.
    [skip] input bytes belong to what has been decoded already.  [None] is
    a syntax error. *)
Fixpoint unquote_from (skip : nat) (s : string) : option (string * string) :=
  match s with
  | EmptyString => None
  | String a t =>
      match skip with
      | S k => unquote_from k t
      | O =>
          let c := byte_val a in
          if Ascii.eqb a DQUOTE then Some (EmptyString, t)
          else if Ascii.eqb a BACKSLASH then
            match t with
            | EmptyString => None
            | String e _ =>
                let plain (x : ascii) :=
                  cons_result (String x EmptyString) (unquote_from 1 t) in
                if Ascii.eqb e DQUOTE || Ascii.eqb e BACKSLASH || Ascii.eqb e "/"%char
                then plain e
                else if Ascii.eqb e "b"%char then plain "008"%char
                else if Ascii.eqb e "f"%char then plain "012"%char
                else if Ascii.eqb e "n"%char then plain "010"%char
                else if Ascii.eqb e "r"%char then plain "013"%char
                else if Ascii.eqb e "t"%char then plain "009"%char
                else if Ascii.eqb e "u"%char then
                  match getu4 s with
                  | None => None
                  | Some rr =>
                      if IsSurrogate rr then
                        match getu4 (slice_from 6 s) with
                        | Some rr1 =>
                            let d := utf16_DecodeRune rr rr1 in
                            if (d =? utf8.RuneError)%N
                            then cons_result (utf8.EncodeRune utf8.RuneError)
                                             (unquote_from 5 t)
                            else cons_result (utf8.EncodeRune d) (unquote_from 11 t)
                        | None => cons_result (utf8.EncodeRune utf8.RuneError)
                                              (unquote_from 5 t)
                        end
                      else cons_result (utf8.EncodeRune rr) (unquote_from 5 t)
                  end
                else None
            end
          else if (c <? 0x20)%N then None
          else if (c <? utf8.RuneSelf)%N then
            cons_result (String a EmptyString) (unquote_from 0 t)
          else
            let '(rr, size) := utf8.DecodeRuneInString s in
            cons_result (utf8.EncodeRune rr) (unquote_from (size - 1) t)
      end
  end.

Definition is_digit (a : ascii) : bool :=
  let c := byte_val a in (0x30 <=? c)%N && (c <=? 0x39)%N.

Fixpoint span_digits (s : string) : string * string :=
  match s with
  | String a t =>
      if is_digit a then let '(d, rest) := span_digits t in (String a d, rest)
      else (EmptyString, s)
  | EmptyString => (EmptyString, EmptyString)
  end.

(** An integer literal: the text the scanner delimits, and the rest.  A
    leading zero followed by a digit is a syntax error; a fraction or an
    exponent cannot be stored in an [int64]. *)
Definition scan_int (s : string) : option (string * string) :=
  let '(sign, s1) :=
    match s with
    | String a t => if Ascii.eqb a "-"%char then (String a EmptyString, t)
                    else (EmptyString, s)
    | EmptyString => (EmptyString, s)
    end in
  let '(digits, rest) := span_digits s1 in
  match digits with
  | EmptyString => None
  | String d0 more =>
      if Ascii.eqb d0 "0"%char && negb (String.eqb more EmptyString) then None
      else
        match rest with
        | String a _ =>
            if Ascii.eqb a "."%char || Ascii.eqb a "e"%char || Ascii.eqb a "E"%char
            then None else Some (sign +:+ digits, rest)
        | EmptyString => Some (sign +:+ digits, rest)
        end
  end.

Inductive value :=
| VString (s : string)
| VInt (lit : string)
| VNull
| VBool (b : bool).

(** One JSON value of the kinds an envelope holds: a string, an integer,
    [null], [true] or [false].  Arrays, objects and other numbers are
    outside this fragment and read as [None], like a syntax error. *)
Definition parse_value (s : string) : option (value * string) :=
  match s with
  | String a t =>
      if Ascii.eqb a DQUOTE then
        match unquote_from 0 t with
        | Some (d, rest) => Some (VString d, rest)
        | None => None
        end
      else if strings.HasPrefix s "null" then Some (VNull, slice_from 4 s)
      else if strings.HasPrefix s "true" then Some (VBool true, slice_from 4 s)
      else if strings.HasPrefix s "false" then Some (VBool false, slice_from 5 s)
      else
        match scan_int s with
        | Some (lit, rest) => Some (VInt lit, rest)
        | None => None
        end
  | EmptyString => None
  end.

(** The field a key selects: the tag itself or, failing that, a tag equal
    to it up to the case of ASCII letters. *)
Definition field_of (k : string) : option nat :=
  let tags := ["room"; "username"; "ts"; "payload"] in
  match list_find (String.eqb k) tags with
  | Some (i, _) => Some i
  | None => fst <$> list_find (String.eqb (lower_ascii k)) tags
  end.

(** Storing a value in the field a key selects; an unknown key is
    skipped, [null] leaves a string or an integer as it is and makes the
    slice nil.  [None] is an [UnmarshalTypeError] or a base64 error. *)
Definition store (k : string) (v : value) (env : Envelope) : option Envelope :=
  match field_of k with
  | None => Some env
  | Some 0%nat =>
      match v with
      | VString s => Some (mkEnvelope s (Username env) (Ts env) (Payload env))
      | VNull => Some env
      | _ => None
      end
  | Some 1%nat =>
      match v with
      | VString s => Some (mkEnvelope (Room_ env) s (Ts env) (Payload env))
      | VNull => Some env
      | _ => None
      end
  | Some 2%nat =>
      match v with
      | VInt lit =>
          match strconv.ParseInt64 lit with
          | Some z => Some (mkEnvelope (Room_ env) (Username env) z (Payload env))
          | None => None
          end
      | VNull => Some env
      | _ => None
      end
  | Some _ =>
      match v with
      | VString s =>
          match base64.DecodeString s with
          | Some b => Some (mkEnvelope (Room_ env) (Username env) (Ts env) (Some b))
          | None => None
          end
      | VNull => Some (mkEnvelope (Room_ env) (Username env) (Ts env) None)
      | _ => None
      end
  end.

(** The members of an object, read from a key's opening quote on; every
    round consumes input, so [fuel] at least the length of the input is
    never used up. *)
Fixpoint parse_members (fuel : nat) (s : string) (env : Envelope) : option Envelope :=
  match fuel with
  | O => None
  | S fuel' =>
      match s with
      | String q t =>
          if Ascii.eqb q DQUOTE then
            match unquote_from 0 t with
            | None => None
            | Some (k, s1) =>
                match skip_ws s1 with
                | String colon s2 =>
                    if Ascii.eqb colon ":"%char then
                      match parse_value (skip_ws s2) with
                      | None => None
                      | Some (v, s3) =>
                          match store k v env with
                          | None => None
                          | Some env' =>
                              match skip_ws s3 with
                              | String sep s4 =>
                                  if Ascii.eqb sep ","%char
                                  then parse_members fuel' (skip_ws s4) env'
                                  else if Ascii.eqb sep "}"%char
                                  then match skip_ws s4 with
                                       | EmptyString => Some env'
                                       | _ => None
                                       end
                                  else None
                              | EmptyString => None
                              end
                          end
                      end
                    else None
                | EmptyString => None
                end
            end
          else None
      | EmptyString => None
      end
  end.

(** [json.Unmarshal(data, &env)] into a zero [Envelope]; [None] is an
    error. *)
Definition Unmarshal (data : string) : option Envelope :=
  let zero := mkEnvelope EmptyString EmptyString 0 None in
  match skip_ws data with
  | String b t =>
      if Ascii.eqb b "{"%char then
        match skip_ws t with
        | String c t' =>
            if Ascii.eqb c "}"%char then
              match skip_ws t' with
              | EmptyString => Some zero
              | _ => None
              end
            else parse_members (String.length data) (skip_ws t) zero
        | EmptyString => None
        end
      else None
  | EmptyString => None
  end.

End json.

(** [MarshalEnvelope]; [now] is what [time.Now().UnixNano()] returns. *)
Definition MarshalEnvelope (room user : string) (now : Z) (payload : option string)
    : string :=
  let env := mkEnvelope room user now payload in
  json.Marshal env.

(** ** The datagram header and the stream path *)

(** The body of the loop over the header parts in [parseUDPFrame], on the
    named results [room] and [user]. *)
Definition parse_part (acc : string * string) (part : string) : string * string :=
  let kv := strings.SplitN (strings.TrimSpace part) ":" 2 in
  match kv with
  | [kv0; kv1] =>
      let k := strings.ToUpper (strings.TrimSpace kv0) in
      let v := strings.TrimSpace kv1 in
      if String.eqb k "ROOM" then (v, snd acc)
      else if String.eqb k "USER" then (fst acc, v)
      else acc
  | _ => acc
  end.

(** [parseUDPFrame]: room, user and payload of a datagram. *)
Definition parseUDPFrame (b : string) : string * string * string :=
  let s := b in
  let i := strings.Index s LF in
  if (0 <=? i)%Z then
    let header := slice_to (Z.to_nat i) s in
    let payload := slice_from (Z.to_nat i + 1) s in
    let '(room, user) := fold_left parse_part (strings.Split header ";") (EmptyString, EmptyString) in
    (room, user, payload)
  else (EmptyString, EmptyString, b).

(** The loop of [splitTrim] over the runes of [s]: the segments closed so
    far and the builder [cur]. *)
Definition splitTrim_step (sep : N) (st : list string * string) (r : N)
    : list string * string :=
  let '(out, cur) := st in
  if (r =? sep)%N then (out ++ [strings.Trim cur "/ "], EmptyString)
  else (out, cur +:+ utf8.EncodeRune r).

(** [splitTrim] *)
Definition splitTrim (s : string) (sep : N) : list string :=
  let s := strings.TrimSpace s in
  if String.eqb s EmptyString then []
  else
    let '(out, cur) := fold_left (splitTrim_step sep) (utf8.runes s) ([], EmptyString) in
    let out := if (0 <? String.length cur)%nat
               then out ++ [strings.Trim cur "/ "] else out in
    filter (λ p, p ≠ EmptyString) out.

Definition SLASH : N := 0x2F.

(** The path parsing of [HandleWebSocket]: room name and username for the
    request path, [now] being the clock reading behind the anonymous
    name. *)
Definition ws_identity (path : string) (now : Z) : string * string :=
  let path := strings.TrimPrefix path "/ws" in
  let parts := splitTrim path SLASH in
  let roomName := "global" in
  let username := "anon-" +:+ strconv.Itoa now in
  let roomName :=
    match parts !! 0%nat with
    | Some p0 => if (1 <=? length parts)%nat && negb (String.eqb p0 EmptyString)
                 then p0 else roomName
    | None => roomName
    end in
  let username :=
    match parts !! 1%nat with
    | Some p1 => if (2 <=? length parts)%nat && negb (String.eqb p1 EmptyString)
                 then p1 else username
    | None => username
    end in
  (roomName, username).

(** ** The datagram bridge *)

Record UDPAddr := mkUDPAddr {
  IP : string;
  Port : Z;
}.

Record peer := mkPeer {
  addr : UDPAddr;
  last : Z;
}.

#[global] Instance UDPAddr_eq_dec : EqDecision UDPAddr.
Proof. solve_decision. Defined.

#[global] Instance peer_eq_dec : EqDecision peer.
Proof. solve_decision. Defined.

(** The defaults applied to what [parseUDPFrame] returned. *)
Definition udp_identity (data : string) (t_user : Z) : string * string * string :=
  let '(roomName, username, payload) := parseUDPFrame data in
  let roomName := if String.eqb roomName EmptyString then "global" else roomName in
  let username := if String.eqb username EmptyString
                  then "udp-" +:+ strconv.Itoa t_user else username in
  (roomName, username, payload).

(** The peer table after [rooms[roomName][username] = &peer{remote, now}],
    the room's table being created when missing. *)
Definition udp_upsert (roomName username : string) (remote : UDPAddr) (t_last : Z)
    (rooms : gmap string (gmap string peer)) : gmap string (gmap string peer) :=
  let rooms := match rooms !! roomName with
               | Some _ => rooms
               | None => <[roomName := ∅]> rooms
               end in
  let table := default ∅ (rooms !! roomName) in
  <[roomName := <[username := mkPeer remote t_last]> table]> rooms.

(** The forwarding loop over the entries of the room's table, in the order
    the map yields them: one [WriteToUDP(payload, p.addr)] per entry under
    another username. *)
Fixpoint udp_forward (username payload : string) (entries : list (string * peer))
    : list (string * UDPAddr) :=
  match entries with
  | [] => []
  | (uname, p) :: rest =>
      if String.eqb uname username then udp_forward username payload rest
      else (payload, addr p) :: udp_forward username payload rest
  end.

(** ** The server as a transition system

    Every goroutine advances by atomic steps.  [Hub.getRoom], [Room.join]
    and [Room.leave] run under a write lock and are one step each.
    [Room.broadcast] holds the read lock of its room from [RLock] to
    [RUnlock]: it is a [Flight] that performs one loop iteration per step,
    so that several broadcasts, the writers and the other handlers
    interleave with it; only the write-locked operations on the same room
    have to wait until no flight is left there. *)

Definition flight_id := positive.

(** where the goroutine of [HandleWebSocket] stands: [Joined] from the
    return of [room.join] on, before the [go] statement that starts the
    writer as well as in the reader loop between two frames *)
Inductive handler_pc :=
| Connected
| Joined
| Broadcasting (i : flight_id)
| Left
| Closed.

(** where the writer goroutine stands *)
Inductive writer_pc :=
| NotStarted
| Running
| Exited.

#[global] Instance handler_pc_eq_dec : EqDecision handler_pc.
Proof. solve_decision. Defined.

#[global] Instance writer_pc_eq_dec : EqDecision writer_pc.
Proof. solve_decision. Defined.

(** the locals of one run of the handler *)
Record Session := mkSession {
  roomName : string;
  h_pc : handler_pc;
  w_pc : writer_pc;
}.

(** a broadcast in progress: the room whose read lock it holds, its
    arguments, and the members the [range] has still to yield *)
Record Flight := mkFlight {
  fl_room : room_ptr;
  fl_sender : option client_ptr;
  fl_msg : string;
  fl_todo : list client_ptr;
}.

Record World := mkWorld {
  hub : Hub;
  room_heap : gmap room_ptr Room;
  client_heap : gmap client_ptr Client;
  sessions : gmap client_ptr Session;
  flights : gmap flight_id Flight;
  udp_rooms : gmap string (gmap string peer);
  udp_sent : list (string * UDPAddr);
  udp_busy : bool;
}.

Definition init_world : World :=
  mkWorld NewHub ∅ ∅ ∅ ∅ ∅ [] false.

(** The steps: a connection is upgraded and its client built
    ([EvConnect]); [room.join] ([EvJoin]); the [go] statement that starts
    the writer ([EvGo]);
    [ReadMessage] returns a frame and [room.broadcast] takes the read lock
    ([EvRead]); one iteration of the loop of a broadcast ([EvOffer]); its
    [RUnlock] and return ([EvDone]); [ReadMessage] fails and [room.leave]
    runs ([EvLeave]); [close(client.sendCh)] ([EvClose]); the writer takes
    a frame and writes it, with or without success ([EvWrite]); the writer
    finds the queue closed and drained ([EvWriterEnd]); one round of the
    UDP loop up to the read lock of its broadcast ([EvDatagram]).  Clock
    readings and the orders in which maps yield their keys come with the
    event. *)
Inductive event :=
| EvConnect (path : string) (now : Z)
| EvJoin (c : client_ptr)
| EvGo (c : client_ptr)
| EvRead (c : client_ptr) (msg : string) (now : Z) (order : list client_ptr)
| EvOffer (i : flight_id)
| EvDone (i : flight_id)
| EvLeave (c : client_ptr)
| EvClose (c : client_ptr)
| EvWrite (c : client_ptr) (ok : bool)
| EvWriterEnd (c : client_ptr)
| EvDatagram (data : string) (remote : UDPAddr) (t_user t_last t_env : Z)
    (entries : list (string * peer)) (order : list client_ptr).

Inductive outcome :=
| Next (w : World)
| Panic
| Disabled.

(** the write lock of room [r] can be taken: no broadcast holds its read
    lock *)
Definition unlocked (r : room_ptr) (w : World) : bool :=
  bool_decide (map_Forall (λ _ f, fl_room f ≠ r) (flights w)).

Definition set_h_pc (pc : handler_pc) (s : Session) : Session :=
  mkSession (roomName s) pc (w_pc s).

Definition set_w_pc (pc : writer_pc) (s : Session) : Session :=
  mkSession (roomName s) (h_pc s) pc.

Definition set_sessions (ss : gmap client_ptr Session) (w : World) : World :=
  mkWorld (hub w) (room_heap w) (client_heap w) ss
    (flights w) (udp_rooms w) (udp_sent w) (udp_busy w).

Definition set_rooms (rh : gmap room_ptr Room) (w : World) : World :=
  mkWorld (hub w) rh (client_heap w) (sessions w)
    (flights w) (udp_rooms w) (udp_sent w) (udp_busy w).

Definition set_clients (ch : gmap client_ptr Client) (w : World) : World :=
  mkWorld (hub w) (room_heap w) ch (sessions w)
    (flights w) (udp_rooms w) (udp_sent w) (udp_busy w).

Definition set_flights (fs : gmap flight_id Flight) (w : World) : World :=
  mkWorld (hub w) (room_heap w) (client_heap w) (sessions w)
    fs (udp_rooms w) (udp_sent w) (udp_busy w).

Definition set_udp (tbl : gmap string (gmap string peer))
    (out : list (string * UDPAddr)) (busy : bool) (w : World) : World :=
  mkWorld (hub w) (room_heap w) (client_heap w) (sessions w)
    (flights w) tbl out busy.

(** [hub.getRoom(nm)] in the world *)
Definition world_getRoom (nm : string) (w : World) : room_ptr * World :=
  let '(r, h, rh) := getRoom nm (hub w) (room_heap w) in
  (r, mkWorld h rh (client_heap w) (sessions w)
        (flights w) (udp_rooms w) (udp_sent w) (udp_busy w)).

(** the upgrade succeeded; [hub.getRoom(roomName)], [client := &Client{...}] *)
Definition step_connect (path : string) (now : Z) (w : World) : outcome :=
  let '(rn, un) := ws_identity path now in
  let '(r, w1) := world_getRoom rn w in
  let c := fresh (dom (client_heap w1)) in
  let cl := mkClient un r (mkConn [] false) (make_chan 256) in
  Next (set_sessions (<[c := mkSession rn Connected NotStarted]> (sessions w1))
          (set_clients (<[c := cl]> (client_heap w1)) w1)).

(** [room.join(client)] *)
Definition step_join (c : client_ptr) (w : World) : outcome :=
  match sessions w !! c, client_heap w !! c with
  | Some s, Some cl =>
      if decide (h_pc s = Connected) then
        if unlocked (room cl) w then
          match room_heap w !! room cl with
          | Some rm =>
              Next (set_sessions (<[c := set_h_pc Joined s]> (sessions w))
                      (set_rooms (<[room cl := join c rm]> (room_heap w)) w))
          | None => Panic
          end
        else Disabled
      else Disabled
  | _, _ => Disabled
  end.

(** [go func() { ... }]: the handler, back from [room.join], starts the
    writer and goes on to its reader loop *)
Definition step_go (c : client_ptr) (w : World) : outcome :=
  match sessions w !! c with
  | Some s =>
      if decide (h_pc s = Joined ∧ w_pc s = NotStarted) then
        Next (set_sessions (<[c := set_w_pc Running s]> (sessions w)) w)
      else Disabled
  | None => Disabled
  end.

(** [ReadMessage] returned [msg]; [MarshalEnvelope]; [room.broadcast] takes
    the read lock and starts to range over [r.clients], which will yield
    its keys in [order].  The reader loop comes after the [go]
    statement. *)
Definition step_read (c : client_ptr) (msg : string) (now : Z)
    (order : list client_ptr) (w : World) : outcome :=
  match sessions w !! c, client_heap w !! c with
  | Some s, Some cl =>
      if decide (h_pc s = Joined ∧ w_pc s ≠ NotStarted) then
        match room_heap w !! room cl with
        | Some rm =>
            if decide (order ≡ₚ members rm) then
              let envelope := MarshalEnvelope (roomName s) (username cl) now (Some msg) in
              let i := fresh (dom (flights w)) in
              Next (set_sessions (<[c := set_h_pc (Broadcasting i) s]> (sessions w))
                      (set_flights (<[i := mkFlight (room cl) (Some c) envelope order]>
                                      (flights w)) w))
            else Disabled
        | None => Panic
        end
      else Disabled
  | _, _ => Disabled
  end.

(** one iteration of the loop of a broadcast *)
Definition step_offer (i : flight_id) (w : World) : outcome :=
  match flights w !! i with
  | Some f =>
      match fl_todo f with
      | c :: rest =>
          match broadcast_body (fl_sender f) (fl_msg f) c (client_heap w) with
          | Some ch =>
              Next (set_flights
                      (<[i := mkFlight (fl_room f) (fl_sender f) (fl_msg f) rest]>
                         (flights w))
                      (set_clients ch w))
          | None => Panic
          end
      | [] => Disabled
      end
  | None => Disabled
  end.

(** the [range] is over: [r.mu.RUnlock()], and [broadcast] returns to the
    reader loop or to the UDP loop *)
Definition step_done (i : flight_id) (w : World) : outcome :=
  match flights w !! i with
  | Some f =>
      match fl_todo f with
      | [] =>
          let w1 := set_flights (delete i (flights w)) w in
          match fl_sender f with
          | Some c =>
              match sessions w !! c with
              | Some s => Next (set_sessions (<[c := set_h_pc Joined s]> (sessions w)) w1)
              | None => Disabled
              end
          | None => Next (set_udp (udp_rooms w) (udp_sent w) false w1)
          end
      | _ :: _ => Disabled
      end
  | None => Disabled
  end.

(** [ReadMessage] failed and the reader loop is left; [room.leave(client)] *)
Definition step_leave (c : client_ptr) (w : World) : outcome :=
  match sessions w !! c, client_heap w !! c with
  | Some s, Some cl =>
      if decide (h_pc s = Joined ∧ w_pc s ≠ NotStarted) then
        if unlocked (room cl) w then
          match room_heap w !! room cl with
          | Some rm =>
              Next (set_sessions (<[c := set_h_pc Left s]> (sessions w))
                      (set_rooms (<[room cl := leave c rm]> (room_heap w)) w))
          | None => Panic
          end
        else Disabled
      else Disabled
  | _, _ => Disabled
  end.

(** [close(client.sendCh)] *)
Definition step_close (c : client_ptr) (w : World) : outcome :=
  match sessions w !! c, client_heap w !! c with
  | Some s, Some cl =>
      if decide (h_pc s = Left) then
        match close_chan (sendCh cl) with
        | Some ch =>
            Next (set_sessions (<[c := set_h_pc Closed s]> (sessions w))
                    (set_clients (<[c := set_sendCh ch cl]> (client_heap w)) w))
        | None => Panic
        end
      else Disabled
  | _, _ => Disabled
  end.

(** the writer takes a frame from [sendCh]; [WriteMessage] succeeds, or
    fails and the writer returns through [conn.Close()] *)
Definition step_write (c : client_ptr) (ok : bool) (w : World) : outcome :=
  match sessions w !! c, client_heap w !! c with
  | Some s, Some cl =>
      if decide (w_pc s = Running) then
        match try_recv (sendCh cl) with
        | Some (m, ch) =>
            let k := if ok then mkConn (written (conn cl) ++ [m]) (conn_closed (conn cl))
                     else mkConn (written (conn cl)) true in
            let s' := if ok then s else set_w_pc Exited s in
            Next (set_sessions (<[c := s']> (sessions w))
                    (set_clients (<[c := set_conn k (set_sendCh ch cl)]> (client_heap w)) w))
        | None => Disabled
        end
      else Disabled
  | _, _ => Disabled
  end.

(** [sendCh] is closed and drained: the [range] of the writer ends,
    [conn.Close()] *)
Definition step_writer_end (c : client_ptr) (w : World) : outcome :=
  match sessions w !! c, client_heap w !! c with
  | Some s, Some cl =>
      if decide (w_pc s = Running) then
        match buf (sendCh cl), closed (sendCh cl) with
        | [], true =>
            Next (set_sessions (<[c := set_w_pc Exited s]> (sessions w))
                    (set_clients
                       (<[c := set_conn (mkConn (written (conn cl)) true) cl]>
                          (client_heap w)) w))
        | _, _ => Disabled
        end
      else Disabled
  | _, _ => Disabled
  end.

(** One round of the loop of [StartUDPRelay]: the datagram is parsed, the
    peer entry written, the payload forwarded to the other entries of the
    room's table, which the map yields as [entries]; then
    [hub.getRoom(roomName).broadcast(nil, env)] takes the read lock. *)
Definition step_datagram (data : string) (remote : UDPAddr) (t_user t_last t_env : Z)
    (entries : list (string * peer)) (order : list client_ptr) (w : World) : outcome :=
  if udp_busy w then Disabled
  else
    let '(rn, un, payload) := udp_identity data t_user in
    let tbl := udp_upsert rn un remote t_last (udp_rooms w) in
    if decide (entries ≡ₚ map_to_list (default ∅ (tbl !! rn))) then
      let out := udp_forward un payload entries in
      let env := MarshalEnvelope rn un t_env (Some payload) in
      let '(r, w1) := world_getRoom rn w in
      match room_heap w1 !! r with
      | Some rm =>
          if decide (order ≡ₚ members rm) then
            let i := fresh (dom (flights w1)) in
            Next (set_udp tbl (udp_sent w ++ out) true
                    (set_flights (<[i := mkFlight r None env order]> (flights w1)) w1))
          else Disabled
      | None => Panic
      end
    else Disabled.

Definition step (ev : event) (w : World) : outcome :=
  match ev with
  | EvConnect path now => step_connect path now w
  | EvJoin c => step_join c w
  | EvGo c => step_go c w
  | EvRead c msg now order => step_read c msg now order w
  | EvOffer i => step_offer i w
  | EvDone i => step_done i w
  | EvLeave c => step_leave c w
  | EvClose c => step_close c w
  | EvWrite c ok => step_write c ok w
  | EvWriterEnd c => step_writer_end c w
  | EvDatagram data remote t_user t_last t_env entries order =>
      step_datagram data remote t_user t_last t_env entries order w
  end.

(** a schedule run from a world; it stops at the first step that panics
    or is not enabled *)
Fixpoint run (evs : list event) (w : World) : outcome :=
  match evs with
  | [] => Next w
  | ev :: rest =>
      match step ev w with
      | Next w' => run rest w'
      | o => o
      end
  end.

Definition reachable (w : World) : Prop :=
  ∃ evs, run evs init_world = Next w.

(** *** What every reachable world satisfies *)

Record world_inv (w : World) : Prop := mk_world_inv {
  (* a name in the hub leads to a room of that name *)
  inv_hub : ∀ nm r, rooms (hub w) !! nm = Some r →
      ∃ rm, room_heap w !! r = Some rm ∧ name rm = nm;
  (* a client has its room and its session *)
  inv_client : ∀ c cl, client_heap w !! c = Some cl →
      is_Some (room_heap w !! room cl) ∧ is_Some (sessions w !! c);
  inv_session : ∀ c s, sessions w !! c = Some s → is_Some (client_heap w !! c);
  (* a member of a room is a client of that room, past its join, with
     an open queue *)
  inv_member : ∀ rp rm c, room_heap w !! rp = Some rm → is_member c rm →
      ∃ cl s, client_heap w !! c = Some cl ∧ sessions w !! c = Some s ∧
              room cl = rp ∧ closed (sendCh cl) = false ∧
              (h_pc s = Joined ∨ ∃ i, h_pc s = Broadcasting i);
  (* a queue is closed only once the handler has closed it *)
  inv_closed : ∀ c cl s, client_heap w !! c = Some cl → sessions w !! c = Some s →
      closed (sendCh cl) = true → h_pc s = Closed;
  (* a broadcast ranges over members of its room *)
  inv_flight : ∀ i f, flights w !! i = Some f →
      ∃ rm, room_heap w !! fl_room f = Some rm ∧ ∀ c, c ∈ fl_todo f → is_member c rm;
  (* a broadcast of a handler is the one that handler is in *)
  inv_owner : ∀ i f c, flights w !! i = Some f → fl_sender f = Some c →
      ∃ s, sessions w !! c = Some s ∧ h_pc s = Broadcasting i;
  (* a handler between its join and its leave has its client in its room *)
  inv_joined : ∀ c cl s, client_heap w !! c = Some cl → sessions w !! c = Some s →
      (h_pc s = Joined ∨ ∃ i, h_pc s = Broadcasting i) →
      ∃ rm, room_heap w !! room cl = Some rm ∧ is_member c rm;
}.

(** where the handler of [c] stands *)
Definition pc_of (w : World) (c : client_ptr) : option handler_pc :=
  h_pc <$> sessions w !! c.

(** the handler has left the room *)
Definition torn_down (w : World) (c : client_ptr) : Prop :=
  pc_of w c = Some Left ∨ pc_of w c = Some Closed.

(** Two client heaps that differ only in what the queues and the
    connections hold. *)
Definition same_clients (cs cs' : gmap client_ptr Client) : Prop :=
  ∀ c, match cs !! c, cs' !! c with
       | Some a, Some b => room a = room b ∧ closed (sendCh a) = closed (sendCh b)
       | None, None => True
       | _, _ => False
       end.


(** ** Words for the statements about headers and paths *)

Fixpoint has_byte (c : ascii) (s : string) : bool :=
  match s with
  | EmptyString => false
  | String a t => Ascii.eqb a c || has_byte c t
  end.

Definition LF_byte : ascii := "010"%char.

(** printable ASCII other than the space *)
Definition plain_byte (c : N) : bool := (0x21 <=? c)%N && (c <=? 0x7E)%N.
Definition plain (s : string) : bool := strings.all_bytes plain_byte s.

Definition lower_byte (a : ascii) : ascii :=
  byte_of (let c := byte_val a in if (0x41 <=? c)%N && (c <=? 0x5A)%N then (c + 0x20)%N else c).

Definition upper_byte (a : ascii) : ascii :=
  byte_of (let c := byte_val a in if strings.is_lower c then (c - 0x20)%N else c).

(** The header as the specification words it: pairs [KEY:value] joined by
    semicolons. *)
Fixpoint join_header (pairs : list (string * string)) : string :=
  match pairs with
  | [] => EmptyString
  | (k, v) :: rest =>
      match rest with
      | [] => k +:+ ":" +:+ v
      | _ :: _ => k +:+ ":" +:+ v +:+ ";" +:+ join_header rest
      end
  end.

(** The value the header gives for [key] (in lower case): that of the last
    pair whose key is [key] up to the case of its letters, [dflt] when
    there is none. *)
Fixpoint spec_header_value (key : string) (pairs : list (string * string))
    (dflt : string) : string :=
  match pairs with
  | [] => dflt
  | (k, v) :: rest =>
      spec_header_value key rest
        (if String.eqb (lower_ascii k) key then v else dflt)
  end.

(** keys and values of plain text that the separators do not occur in *)
Definition clean_pair (kv : string * string) : Prop :=
  plain kv.1 = true ∧ has_byte ":" kv.1 = false ∧ has_byte ";" kv.1 = false ∧
  plain kv.2 = true ∧ has_byte ";" kv.2 = false.

Definition part_of (kv : string * string) : string := kv.1 +:+ ":" +:+ kv.2.

(** What [utf8.DecodeRuneInString] finds at the head of a string: nothing,
    an ASCII byte, a byte that starts no well-formed sequence, or a
    well-formed sequence of two to four bytes, which is the encoding of
    the rune returned and is decoded alike before any other tail. *)
Definition rune_head (s : string) (r : N) (size : nat) : Prop :=
  (s = EmptyString ∧ r = utf8.RuneError ∧ size = 0) ∨
  (∃ a t, s = String a t ∧ size = 1 ∧ (byte_val a < 0x80)%N ∧ r = byte_val a) ∨
  (∃ a t, s = String a t ∧ size = 1 ∧ (0x80 ≤ byte_val a)%N ∧ r = utf8.RuneError) ∨
  (∃ a p t, s = String a p +:+ t ∧ size = S (String.length p) ∧
     1 ≤ String.length p ≤ 3 ∧ (0x80 ≤ byte_val a)%N ∧ (0x80 ≤ r ≤ 0x10FFFF)%N ∧
     utf8.EncodeRune r = String a p ∧
     ∀ t', utf8.DecodeRuneInString (String a p +:+ t') = (r, size)).

(** ** Words for the statements about envelopes *)

(** A byte a JSON string literal holds as it is. *)
Definition literal_byte (c : N) : bool :=
  (0x20 <=? c)%N && (c <? 0x80)%N && negb (c =? 0x22)%N && negb (c =? 0x5C)%N.

(** What [parse_members] does after a member: a comma and the next
    member, or the closing brace and the end of the input. *)
Definition after_member (fuel : nat) (rest : string) (env : Envelope) : option Envelope :=
  match json.skip_ws rest with
  | String sep r =>
      if Ascii.eqb sep ","%char then json.parse_members fuel (json.skip_ws r) env
      else if Ascii.eqb sep "}"%char then
        match json.skip_ws r with
        | EmptyString => Some env
        | _ => None
        end
      else None
  | EmptyString => None
  end.

(** ** A small room used in the examples *)

Definition demo_client (u : string) (q : list string) (n : nat) : Client :=
  mkClient u 1%positive (mkConn [] false) (mkChan q n false).

Definition demo_room : Room :=
  mkRoom "global" (<[1%positive := true]> (<[2%positive := true]> (<[3%positive := true]> ∅))).

Definition demo_clients : gmap client_ptr Client :=
  <[1%positive := demo_client "A" [] 2]>
    (<[2%positive := demo_client "B" ["m0"; "m1"] 2]>
       (<[3%positive := demo_client "C" ["m0"] 2]> ∅)).

(** A schedule: three clients connect to room [global], join and start
    their writers; A's frame is broadcast; C leaves and closes its queue;
    the writer of B writes; a datagram of [bob] is injected and reaches
    its first member. *)
Definition demo_schedule : list event :=
  [EvConnect "/ws/global/A" 1; EvConnect "/ws/global/B" 2; EvConnect "/ws/global/C" 3;
   EvJoin 1%positive; EvJoin 2%positive; EvJoin 3%positive;
   EvGo 1%positive; EvGo 2%positive; EvGo 3%positive;
   EvRead 1%positive "ping" 10 [3; 1; 2]%positive;
   EvOffer 1%positive; EvOffer 1%positive; EvOffer 1%positive; EvDone 1%positive;
   EvLeave 3%positive; EvClose 3%positive; EvWrite 2%positive true;
   EvDatagram ("ROOM:global;USER:bob" +:+ LF +:+ "xyz") (mkUDPAddr "10.0.0.7" 4000) 1 2 3
     [("bob", mkPeer (mkUDPAddr "10.0.0.7" 4000) 2)] [1; 2]%positive;
   EvOffer 1%positive].

Definition demo_world : World :=
  match run demo_schedule init_world with
  | Next w => w
  | _ => init_world
  end.

(** ** Two datagrams in one room *)

Definition udp_demo_prefix : list event :=
  [EvConnect "/ws/lab/A" 1; EvJoin 1%positive;
   EvDatagram ("ROOM:lab;USER:bob" +:+ LF +:+ "xyz") (mkUDPAddr "10.0.0.7" 4000) 1 2 3
     [("bob", mkPeer (mkUDPAddr "10.0.0.7" 4000) 2)] [1%positive];
   EvOffer 1%positive; EvDone 1%positive].

Definition udp_demo_before : World :=
  match run udp_demo_prefix init_world with
  | Next w => w
  | _ => init_world
  end.

Definition udp_demo_datagram : event :=
  EvDatagram ("user: carol ; room:lab" +:+ LF +:+ "pq") (mkUDPAddr "10.0.0.9" 4100) 4 5 6
    [("carol", mkPeer (mkUDPAddr "10.0.0.9" 4100) 5);
     ("bob", mkPeer (mkUDPAddr "10.0.0.7" 4000) 2)] [1%positive].

Definition udp_demo_after : World :=
  match step udp_demo_datagram udp_demo_before with
  | Next w => w
  | _ => udp_demo_before
  end.

(** ** Words for further statements about the server *)

(** [m] is an envelope stamped with the room name [rn]. *)
Definition envelope_for (rn m : string) : Prop :=
  ∃ user ts payload, m = MarshalEnvelope rn user ts (Some payload).

Definition is_datagram (ev : event) : bool :=
  match ev with
  | EvDatagram _ _ _ _ _ _ _ => true
  | _ => false
  end.

(** every queue is the one [make(chan []byte, 256)] returned, filled
    within its capacity *)
Definition queues_bounded (w : World) : Prop :=
  ∀ c cl, client_heap w !! c = Some cl →
    cap (sendCh cl) = 256 ∧ length (buf (sendCh cl)) ≤ 256.

(** The writer of a client is started by the handler after [join], before
    the reader loop, and it alone closes the connection, when it returns.
    Nothing is queued for a client before its [join], and nothing is
    written before its writer is started. *)
Definition lifecycle (w : World) : Prop :=
  ∀ c cl s, client_heap w !! c = Some cl → sessions w !! c = Some s →
    (h_pc s = Connected → w_pc s = NotStarted ∧ buf (sendCh cl) = []) ∧
    (conn_closed (conn cl) = true ↔ w_pc s = Exited) ∧
    (w_pc s = NotStarted →
     (h_pc s = Connected ∨ h_pc s = Joined) ∧ written (conn cl) = []).

(** Every room is the one the hub holds under its name, and every client
    points to the room the hub holds under the room name of its handler. *)
Definition registry (w : World) : Prop :=
  (∀ r rm, room_heap w !! r = Some rm → rooms (hub w) !! name rm = Some r) ∧
  (∀ c cl s, client_heap w !! c = Some cl → sessions w !! c = Some s →
     rooms (hub w) !! roomName s = Some (room cl)).

(** Every broadcast in progress carries an envelope of its room, and every
    frame queued for a client or written to it is an envelope of the room
    of that client. *)
Definition frames_in_room (w : World) : Prop :=
  (∀ i f, flights w !! i = Some f →
     ∃ rm, room_heap w !! fl_room f = Some rm ∧ envelope_for (name rm) (fl_msg f)) ∧
  (∀ c cl s m, client_heap w !! c = Some cl → sessions w !! c = Some s →
     m ∈ written (conn cl) ++ buf (sendCh cl) → envelope_for (roomName s) m).

(** The broadcast of a reader carries the envelope of that reader: its
    room name and its username. *)
Definition flights_signed (w : World) : Prop :=
  ∀ i f c, flights w !! i = Some f → fl_sender f = Some c →
    ∃ cl s ts payload,
      client_heap w !! c = Some cl ∧ sessions w !! c = Some s ∧
      fl_msg f = MarshalEnvelope (roomName s) (username cl) ts (Some payload).

(** the members a broadcast has still to offer its frame to are distinct *)
Definition flights_nodup (w : World) : Prop :=
  ∀ i f, flights w !! i = Some f → NoDup (fl_todo f).

(** ** Words for further statements about paths *)

(** a path segment of plain text: not empty, without a slash *)
Definition segment (s : string) : Prop :=
  s ≠ EmptyString ∧ plain s = true ∧ has_byte "/" s = false.

(** the path [/s1/s2/.../sn] *)
Fixpoint join_path (segs : list string) : string :=
  match segs with
  | [] => EmptyString
  | s :: rest => "/" +:+ s +:+ join_path rest
  end.

(** What [splitTrim] returns for the segments closed so far and the
    builder, once its loop is over. *)
Definition splitTrim_finish (st : list string * string) : list string :=
  let '(out, cur) := st in
  let out := if (0 <? String.length cur)%nat
             then out ++ [strings.Trim cur "/ "] else out in
  filter (λ p, p ≠ EmptyString) out.

(** A byte that is not below 0x20 and is none of [&], [<] and [>]: the
    bytes [encoding/json] never writes as they are.  The byte 0x7F and the
    bytes of the runes U+0080 to U+009F are not among them. *)
Definition wire_byte (c : N) : bool :=
  (0x20 <=? c)%N && negb (c =? 0x26)%N && negb (c =? 0x3C)%N && negb (c =? 0x3E)%N.

(** Such a byte of ASCII. *)
Definition text_byte (c : N) : bool := wire_byte c && (c <? utf8.RuneSelf)%N.

(** ** The statistics of the functional test

    [sortFloats] and [percentile] of the test file work on [[]float64].
    The sort reads its elements only through the comparison [a[j] > v],
    which is the parameter [gt]; [zero] is the float 0.  A slice is a list
    read and written by index; [None] is the panic of an index out of
    range (or a loop out of fuel, which the theorems show does not
    happen). *)

Section floats.
Context {F : Type}.
Variable gt : F → F → bool.
Variable zero : F.

(** [a[i]] *)
Definition index (a : list F) (i : Z) : option F :=
  if (0 <=? i)%Z then a !! Z.to_nat i else None.

(** [a[i] = x] *)
Definition assign (a : list F) (i : Z) (x : F) : option (list F) :=
  if (0 <=? i)%Z && (i <? Z.of_nat (length a))%Z
  then Some (<[Z.to_nat i := x]> a) else None.

(** [for j >= 0 && a[j] > v { a[j+1] = a[j]; j-- }]: the slice and [j]
    when the loop is left *)
Fixpoint shift_right (fuel : nat) (a : list F) (j : Z) (v : F) : option (list F * Z) :=
  if (0 <=? j)%Z then
    x ← index a j;
    if gt x v then
      match fuel with
      | O => None
      | S fuel' => a' ← assign a (j + 1) x; shift_right fuel' a' (j - 1) v
      end
    else Some (a, j)
  else Some (a, j).

(** [for i := 1; i < len(a); i++ { ... }], from [i] on *)
Fixpoint sort_from (fuel : nat) (a : list F) (i : Z) : option (list F) :=
  match fuel with
  | O => None
  | S fuel' =>
      if (i <? Z.of_nat (length a))%Z then
        v ← index a i;
        '(a1, j) ← shift_right (Z.to_nat i) a (i - 1) v;
        a2 ← assign a1 (j + 1) v;
        sort_from fuel' a2 (i + 1)
      else Some a
  end.

(** the order the sort establishes between neighbours: [!(x > y)] *)
Definition not_gt (x y : F) : Prop := gt x y = false.

(** [sortFloats(a)]: the slice it leaves in [a] *)
Definition sortFloats (a : list F) : option (list F) :=
  sort_from (S (length a)) a 1.

(** [percentile(vals, p)].  [rank] is the value of
    [int((p/100.0)*float64(len(cp)-1) + 0.5)], a floating-point
    expression that is not modelled: the theorems hold whatever integer it
    yields. *)
Definition percentile (vals : list F) (rank : Z) : option F :=
  if (length vals =? 0)%nat then Some zero
  else
    cp ← sortFloats vals;
    let idx := rank in
    let idx := if (idx <? 0)%Z then 0%Z else idx in
    let idx := if (Z.of_nat (length cp) <=? idx)%Z
               then (Z.of_nat (length cp) - 1)%Z else idx in
    index cp idx.

End floats.

(** ** A broadcast under way

    The demo schedule stopped after the first offer of A's frame: the
    reader of A holds the read lock of the room, C has the frame, A (the
    sender) and B are still to be visited. *)
Definition reading_demo_schedule : list event := take 11 demo_schedule.

Definition reading_demo : World :=
  match run reading_demo_schedule init_world with
  | Next w => w
  | _ => init_world
  end.

(** * Properties *)

(** ** Channels and broadcast *)

Lemma try_send_open msg ch :
  closed ch = false → try_send msg ch = Some (enqueue msg ch).
Proof. unfold try_send. by intros ->. Qed.

Lemma enqueue_closed msg ch : closed (enqueue msg ch) = closed ch.
Proof. unfold enqueue. by case_decide. Qed.

Lemma enqueue_full msg ch : cap ch ≤ length (buf ch) → enqueue msg ch = ch.
Proof. unfold enqueue. intros. case_decide; [lia | done]. Qed.

Lemma enqueue_room msg ch :
  length (buf ch) < cap ch →
  enqueue msg ch = mkChan (buf ch ++ [msg]) (cap ch) (closed ch).
Proof. unfold enqueue. intros. case_decide; [done | lia]. Qed.

Lemma elem_of_members c r : c ∈ members r ↔ is_member c r.
Proof.
  unfold members, is_member. rewrite list_elem_of_fmap. split.
  - intros [[c' b] [-> H%elem_of_map_to_list]]. by exists b.
  - intros [b H]. exists (c, b). split; [done|]. by apply elem_of_map_to_list.
Qed.

Lemma NoDup_members r : NoDup (members r).
Proof. apply NoDup_fst_map_to_list. Qed.

Lemma broadcast_body_sender msg c cs :
  broadcast_body (Some c) msg c cs = Some cs.
Proof. unfold broadcast_body. by rewrite decide_True. Qed.

Lemma broadcast_body_other sender msg c cs cl :
  Some c ≠ sender → cs !! c = Some cl → closed (sendCh cl) = false →
  broadcast_body sender msg c cs = Some (<[c := offered msg cl]> cs).
Proof.
  intros Hne Hc Hopen. unfold broadcast_body. rewrite decide_False by done.
  rewrite Hc. simpl. by rewrite try_send_open.
Qed.

(** The loop over an order without repetition: it ends normally when the
    recipients' queues are open, and has then offered the message to
    exactly the clients of the order other than the sender. *)
Lemma broadcast_range_spec order sender msg cs :
  NoDup order →
  Forall (λ c, Some c = sender ∨ queue_open cs c) order →
  ∃ cs', broadcast_range order sender msg cs = Some cs' ∧
    ∀ c, cs' !! c =
         if decide (c ∈ order ∧ Some c ≠ sender)
         then offered msg <$> cs !! c else cs !! c.
Proof.
  revert cs. induction order as [|c0 order IH]; intros cs Hnd Hopen.
  - exists cs. split; [done|]. intros c. rewrite decide_False; [done|].
    intros [H _]. by apply not_elem_of_nil in H.
  - apply NoDup_cons in Hnd as [Hc0 Hnd].
    apply Forall_cons in Hopen as [Hopen0 Hopen]. simpl.
    destruct (decide (Some c0 = sender)) as [Heq|Hne].
    + subst sender. rewrite broadcast_body_sender. simpl.
      destruct (IH cs Hnd Hopen) as (cs' & -> & Hcs'). exists cs'. split; [done|].
      intros c. rewrite Hcs'. destruct (decide (c = c0)) as [->|Hcc].
      * rewrite !decide_False; [done | intros [_ ?]; done | intros [_ ?]; done].
      * apply decide_ext. rewrite elem_of_cons. naive_solver.
    + destruct Hopen0 as [?|Hq]; [done|]. unfold queue_open in Hq.
      destruct (cs !! c0) as [cl|] eqn:Hcl; [|done].
      rewrite (broadcast_body_other _ _ _ _ cl) by done. simpl.
      destruct (IH (<[c0 := offered msg cl]> cs) Hnd) as (cs' & -> & Hcs').
      { eapply Forall_impl; [exact Hopen|]. intros c [?|Hqc]; [by left|right].
        unfold queue_open in *. destruct (decide (c = c0)) as [->|Hcc].
        - rewrite lookup_insert_eq. simpl. by rewrite enqueue_closed.
        - by rewrite lookup_insert_ne. }
      exists cs'. split; [done|]. intros c. rewrite Hcs'.
      destruct (decide (c = c0)) as [->|Hcc].
      * rewrite decide_False by (intros [? _]; done).
        rewrite decide_True by (split; [left|]; done).
        by rewrite lookup_insert_eq, Hcl.
      * rewrite lookup_insert_ne by done.
        apply decide_ext. rewrite elem_of_cons. naive_solver.
Qed.

Lemma broadcast_range_members r order sender msg cs :
  order ≡ₚ members r →
  queues_open r sender cs →
  ∃ cs', broadcast_range order sender msg cs = Some cs' ∧
    ∀ c, cs' !! c =
         if decide (is_member c r ∧ Some c ≠ sender)
         then offered msg <$> cs !! c else cs !! c.
Proof.
  intros Hperm Hopen.
  destruct (broadcast_range_spec order sender msg cs) as (cs' & Hrun & Hcs').
  - rewrite Hperm. apply NoDup_members.
  - unfold queues_open in Hopen. by rewrite Hperm.
  - exists cs'. split; [done|]. intros c. rewrite Hcs'.
    apply decide_ext. by rewrite Hperm, elem_of_members.
Qed.

Lemma offered_outcome msg cl : offer_outcome msg cl (offered msg cl).
Proof.
  unfold offer_outcome, offered, enqueue.
  case_decide; cbn; split_and!; intros; try done; lia.
Qed.

(** C1.  [Room.broadcast(sender, msg)], whatever order the map yields its
    keys in, returns normally when the recipients' queues are open, and
    then [msg] has been offered to the queue of every member other than
    [sender]: the queue of such a member has [msg] at its end when it had
    room, and is as it was when it was full, and nothing else of the
    member has changed.  The sender and every client outside the room are
    left as they were; with a nil sender every member has been offered
    [msg]. *)
Theorem broadcast_offers_to_every_member_but_sender
    (r : Room) (sender : option client_ptr) (msg : string)
    (cs : gmap client_ptr Client) (order : list client_ptr) :
  order ≡ₚ members r →
  queues_open r sender cs →
  ∃ cs', broadcast_range order sender msg cs = Some cs' ∧
    (∀ c, is_member c r → Some c ≠ sender →
          ∃ cl cl', cs !! c = Some cl ∧ cs' !! c = Some cl' ∧
                    offer_outcome msg cl cl') ∧
    (∀ c, sender = Some c → cs' !! c = cs !! c) ∧
    (∀ c, ¬ is_member c r → cs' !! c = cs !! c) ∧
    (sender = None →
     ∀ c, is_member c r →
          ∃ cl cl', cs !! c = Some cl ∧ cs' !! c = Some cl' ∧
                    offer_outcome msg cl cl').
Proof.
  intros Hperm Hopen.
  destruct (broadcast_range_members r order sender msg cs Hperm Hopen)
    as (cs' & Hrun & Hcs').
  assert (Hrecv : ∀ c, is_member c r → Some c ≠ sender →
            ∃ cl cl', cs !! c = Some cl ∧ cs' !! c = Some cl' ∧
                      offer_outcome msg cl cl').
  { intros c Hm Hne. rewrite Hcs', decide_True by done.
    unfold queues_open in Hopen. rewrite Forall_forall in Hopen.
    destruct (Hopen c) as [?|Hq]; [by apply elem_of_members | done |].
    unfold queue_open in Hq. destruct (cs !! c) as [cl|]; [|done].
    exists cl, (offered msg cl). split; [done|]. split; [done|].
    apply offered_outcome. }
  exists cs'. split; [done|]. split; [done|]. split; [|split].
  - intros c ->. rewrite Hcs', decide_False; [done|]. intros [_ ?]. done.
  - intros c Hn. rewrite Hcs', decide_False; [done|]. intros [? _]. done.
  - intros -> c Hm. by apply Hrecv.
Qed.

Lemma broadcast_offers_to_every_member_but_sender_witness :
  ∃ cs', broadcast_range (members demo_room) (Some 1%positive) "ping" demo_clients = Some cs' ∧
    (∀ c, is_member c demo_room → Some c ≠ Some 1%positive →
          ∃ cl cl', demo_clients !! c = Some cl ∧ cs' !! c = Some cl' ∧
                    offer_outcome "ping" cl cl') ∧
    (∀ c, Some 1%positive = Some c → cs' !! c = demo_clients !! c) ∧
    (∀ c, ¬ is_member c demo_room → cs' !! c = demo_clients !! c) ∧
    (Some 1%positive = None →
     ∀ c, is_member c demo_room →
          ∃ cl cl', demo_clients !! c = Some cl ∧ cs' !! c = Some cl' ∧
                    offer_outcome "ping" cl cl').
Proof.
  apply (broadcast_offers_to_every_member_but_sender
           demo_room (Some 1%positive) "ping" demo_clients (members demo_room)).
  - reflexivity.
  - apply (bool_decide_unpack _). vm_compute. exact I.
Defined.

(** C2.  A recipient whose queue is full keeps its queue as it was, the
    broadcast returns all the same, the sender is left untouched, and
    every recipient with room in its queue has [msg] appended, whatever
    the state of the other queues. *)
Theorem broadcast_drops_only_on_full_queue
    (r : Room) (sender : option client_ptr) (msg : string)
    (cs : gmap client_ptr Client) (order : list client_ptr) :
  order ≡ₚ members r →
  queues_open r sender cs →
  ∃ cs', broadcast_range order sender msg cs = Some cs' ∧
    (∀ c cl, is_member c r → Some c ≠ sender → cs !! c = Some cl →
       (cap (sendCh cl) ≤ length (buf (sendCh cl)) → cs' !! c = Some cl) ∧
       (length (buf (sendCh cl)) < cap (sendCh cl) →
        cs' !! c = Some (set_sendCh
                           (mkChan (buf (sendCh cl) ++ [msg]) (cap (sendCh cl)) false)
                           cl))) ∧
    (∀ c, sender = Some c → cs' !! c = cs !! c).
Proof.
  intros Hperm Hopen.
  destruct (broadcast_range_members r order sender msg cs Hperm Hopen)
    as (cs' & Hrun & Hcs').
  exists cs'. split; [done|]. split.
  - intros c cl Hm Hne Hcl.
    assert (Hq : closed (sendCh cl) = false).
    { unfold queues_open in Hopen. rewrite Forall_forall in Hopen.
      destruct (Hopen c) as [?|Hq]; [by apply elem_of_members | done |].
      unfold queue_open in Hq. by rewrite Hcl in Hq. }
    rewrite Hcs', decide_True, Hcl by done. simpl. unfold offered. split; intros Hlen.
    + rewrite enqueue_full by done. by destruct cl.
    + rewrite enqueue_room by done. by rewrite Hq.
  - intros c ->. rewrite Hcs', decide_False; [done|]. intros [_ ?]. done.
Qed.

Lemma broadcast_drops_only_on_full_queue_witness :
  ∃ cs', broadcast_range (members demo_room) (Some 1%positive) "ping" demo_clients = Some cs' ∧
    (∀ c cl, is_member c demo_room → Some c ≠ Some 1%positive →
       demo_clients !! c = Some cl →
       (cap (sendCh cl) ≤ length (buf (sendCh cl)) → cs' !! c = Some cl) ∧
       (length (buf (sendCh cl)) < cap (sendCh cl) →
        cs' !! c = Some (set_sendCh
                           (mkChan (buf (sendCh cl) ++ ["ping"]) (cap (sendCh cl)) false)
                           cl))) ∧
    (∀ c, Some 1%positive = Some c → cs' !! c = demo_clients !! c).
Proof.
  apply (broadcast_drops_only_on_full_queue
           demo_room (Some 1%positive) "ping" demo_clients (members demo_room)).
  - reflexivity.
  - apply (bool_decide_unpack _). vm_compute. exact I.
Defined.

(** The demo: B's queue is full and stays as it is, C has room and gets
    the frame, A sent it and gets nothing. *)
Example broadcast_demo :
  (λ cs', (buf ∘ sendCh <$> cs' !! 1%positive,
           buf ∘ sendCh <$> cs' !! 2%positive,
           buf ∘ sendCh <$> cs' !! 3%positive))
    <$> broadcast demo_room (Some 1%positive) "ping" demo_clients
  = Some (Some [], Some ["m0"; "m1"], Some ["m0"; "ping"]).
Proof. vm_compute. reflexivity. Qed.

(** ** The hub *)

Lemma getRoom_cases nm h rh :
  (∃ r, rooms h !! nm = Some r ∧ getRoom nm h rh = (r, h, rh)) ∨
  (rooms h !! nm = None ∧
   getRoom nm h rh = (fresh (dom rh), mkHub (<[nm := fresh (dom rh)]> (rooms h)),
                      <[fresh (dom rh) := mkRoom nm ∅]> rh)).
Proof.
  unfold getRoom. destruct (rooms h !! nm) as [r|]; [left; by exists r | by right].
Qed.

Lemma fresh_room_unallocated (rh : gmap room_ptr Room) : rh !! fresh (dom rh) = None.
Proof. apply not_elem_of_dom, is_fresh. Qed.

Lemma getRoom_registers nm h rh r h1 rh1 :
  getRoom nm h rh = (r, h1, rh1) → rooms h1 !! nm = Some r.
Proof.
  destruct (getRoom_cases nm h rh) as [(r0 & Hr & ->)|[Hn ->]]; intros [= <- <- <-].
  - done.
  - simpl. apply lookup_insert_eq.
Qed.

Lemma getRoom_again nm h rh r h1 rh1 :
  getRoom nm h rh = (r, h1, rh1) → getRoom nm h1 rh1 = (r, h1, rh1).
Proof.
  intros H. pose proof (getRoom_registers _ _ _ _ _ _ H) as Hr.
  unfold getRoom. by rewrite Hr.
Qed.

Lemma getRoom_keeps_names nm h rh r h1 rh1 nm' r' :
  getRoom nm h rh = (r, h1, rh1) →
  rooms h !! nm' = Some r' → rooms h1 !! nm' = Some r'.
Proof.
  destruct (getRoom_cases nm h rh) as [(r0 & Hr & ->)|[Hn ->]]; intros [= <- <- <-] H.
  - done.
  - simpl. rewrite lookup_insert_ne; [done|]. intros ->. congruence.
Qed.

Lemma getRoom_keeps_rooms nm h rh r h1 rh1 rp rm :
  getRoom nm h rh = (r, h1, rh1) →
  rh !! rp = Some rm → rh1 !! rp = Some rm.
Proof.
  destruct (getRoom_cases nm h rh) as [(r0 & Hr & ->)|[Hn ->]]; intros [= <- <- <-] H.
  - done.
  - rewrite lookup_insert_ne; [done|]. intros <-.
    rewrite fresh_room_unallocated in H. done.
Qed.

Lemma getRoom_new_rooms nm h rh r h1 rh1 rp rm :
  getRoom nm h rh = (r, h1, rh1) →
  rh1 !! rp = Some rm → rh !! rp = Some rm ∨ (rh !! rp = None ∧ rp = r ∧ rm = mkRoom nm ∅).
Proof.
  destruct (getRoom_cases nm h rh) as [(r0 & Hr & ->)|[Hn ->]]; intros [= <- <- <-] H.
  - by left.
  - destruct (decide (rp = fresh (dom rh))) as [->|Hne].
    + rewrite lookup_insert_eq in H. right. split; [apply fresh_room_unallocated|].
      split; congruence.
    + rewrite lookup_insert_ne in H by done. by left.
Qed.

Lemma getRoom_names_back nm h rh r h1 rh1 nm' r' :
  getRoom nm h rh = (r, h1, rh1) →
  rooms h1 !! nm' = Some r' → rooms h !! nm' = Some r' ∨ (nm' = nm ∧ r' = r).
Proof.
  destruct (getRoom_cases nm h rh) as [(r0 & Hr & ->)|[Hn ->]]; intros [= <- <- <-] H.
  - by left.
  - simpl in H. destruct (decide (nm' = nm)) as [->|Hne].
    + rewrite lookup_insert_eq in H. right. split; congruence.
    + rewrite lookup_insert_ne in H by done. by left.
Qed.

(** ** Invariant of the transition system *)

Lemma world_inv_init : world_inv init_world.
Proof.
  split; simpl; intros *; try rewrite lookup_empty; try done.
Qed.

Lemma world_getRoom_inv nm w r w1 :
  world_inv w → world_getRoom nm w = (r, w1) →
  world_inv w1 ∧
  (∃ rm, room_heap w1 !! r = Some rm ∧ name rm = nm) ∧
  rooms (hub w1) !! nm = Some r ∧
  client_heap w1 = client_heap w ∧ sessions w1 = sessions w ∧
  flights w1 = flights w ∧ udp_rooms w1 = udp_rooms w ∧
  udp_sent w1 = udp_sent w ∧ udp_busy w1 = udp_busy w.
Proof.
  intros Hinv. unfold world_getRoom.
  destruct (getRoom nm (hub w) (room_heap w)) as [[r0 h1] rh1] eqn:Hg.
  intros [= <- <-]. simpl.
  assert (Hreg := getRoom_registers _ _ _ _ _ _ Hg).
  assert (Hhub : ∀ nm0 r1, rooms h1 !! nm0 = Some r1 →
                   ∃ rm, rh1 !! r1 = Some rm ∧ name rm = nm0).
  { intros nm0 r1 H1.
    destruct (getRoom_names_back _ _ _ _ _ _ _ _ Hg H1) as [Hold|[-> ->]].
    - destruct (inv_hub w Hinv _ _ Hold) as (rm & Hrm & Hnm).
      exists rm. split; [|done]. eapply getRoom_keeps_rooms; eauto.
    - destruct (getRoom_cases nm (hub w) (room_heap w)) as [(r1 & Hr & Heq)|[Hn Heq]];
        rewrite Heq in Hg; injection Hg as <- <- <-.
      + apply (inv_hub w Hinv _ _ Hr).
      + exists (mkRoom nm ∅). split; [apply lookup_insert_eq | done]. }
  split; [|split; [by apply Hhub | done]].
  split; simpl.
  - exact Hhub.
  - intros c cl Hc. destruct (inv_client w Hinv _ _ Hc) as [[rm Hrm] Hs].
    split; [|done]. exists rm. eapply getRoom_keeps_rooms; eauto.
  - apply (inv_session w Hinv).
  - intros rp rm c Hrp Hm.
    destruct (getRoom_new_rooms _ _ _ _ _ _ _ _ Hg Hrp) as [Hold|(_ & _ & ->)].
    + apply (inv_member w Hinv _ _ _ Hold Hm).
    + destruct Hm as [b Hb]. simpl in Hb. by rewrite lookup_empty in Hb.
  - apply (inv_closed w Hinv).
  - intros i f Hf. destruct (inv_flight w Hinv _ _ Hf) as (rm & Hrm & Htodo).
    exists rm. split; [|done]. eapply getRoom_keeps_rooms; eauto.
  - apply (inv_owner w Hinv).
  - intros c cl s Hc Hs Hpc.
    destruct (inv_joined w Hinv _ _ _ Hc Hs Hpc) as (rm & Hrm & Hm).
    exists rm. split; [|done]. eapply getRoom_keeps_rooms; eauto.
Qed.

Ltac step_cases H :=
  repeat match type of H with
         | context [match ?x with _ => _ end] => destruct x eqn:?; try discriminate H
         | context [if ?x then _ else _] => destruct x eqn:?; try discriminate H
         end;
  try (injection H as <-).

Lemma is_member_join c c' r : is_member c' (join c r) ↔ c' = c ∨ is_member c' r.
Proof.
  unfold is_member, join. simpl. rewrite lookup_insert_is_Some. split.
  - intros [->|[_ H]]; auto.
  - intros [->|H]; [by left|]. destruct (decide (c = c')); [by left | by right].
Qed.

Lemma is_member_leave c c' r : is_member c' (leave c r) ↔ c' ≠ c ∧ is_member c' r.
Proof.
  unfold is_member, leave. simpl. rewrite lookup_delete_is_Some.
  split; intros [? ?]; split; auto.
Qed.

Lemma not_closed_unless_Closed w c cl s :
  world_inv w → client_heap w !! c = Some cl → sessions w !! c = Some s →
  h_pc s ≠ Closed → closed (sendCh cl) = false.
Proof.
  intros Hinv Hc Hs Hpc. destruct (closed (sendCh cl)) eqn:E; [|done].
  by pose proof (inv_closed w Hinv _ _ _ Hc Hs E).
Qed.

Lemma member_pc w rp rm c s :
  world_inv w → room_heap w !! rp = Some rm → is_member c rm →
  sessions w !! c = Some s → h_pc s = Joined ∨ ∃ i, h_pc s = Broadcasting i.
Proof.
  intros Hinv Hrp Hm Hs.
  destruct (inv_member w Hinv _ _ _ Hrp Hm) as (cl & s' & _ & Hs' & _ & _ & Hpc).
  by simplify_eq.
Qed.

Lemma step_connect_inv path now w w' :
  world_inv w → step_connect path now w = Next w' → world_inv w'.
Proof.
  intros Hinv H. unfold step_connect in H.
  destruct (ws_identity path now) as [rn un].
  destruct (world_getRoom rn w) as [r w1] eqn:Hg.
  destruct (world_getRoom_inv _ _ _ _ Hinv Hg)
    as (Hinv1 & (rm & Hrm & _) & _ & Hch & Hss & _).
  injection H as <-.
  set (c := fresh (dom (client_heap w1))).
  assert (Hfresh : client_heap w1 !! c = None) by apply not_elem_of_dom, is_fresh.
  assert (Hnos : sessions w1 !! c = None).
  { destruct (sessions w1 !! c) as [s|] eqn:E; [|done].
    destruct (inv_session w1 Hinv1 _ _ E) as [cl Hcl]. congruence. }
  split; simpl.
  - apply (inv_hub w1 Hinv1).
  - intros c' cl'. destruct (decide (c' = c)) as [->|Hne].
    + rewrite !lookup_insert_eq. intros [= <-]. simpl. eauto.
    + rewrite !lookup_insert_ne by done. apply (inv_client w1 Hinv1).
  - intros c' s'. destruct (decide (c' = c)) as [->|Hne].
    + rewrite !lookup_insert_eq. eauto.
    + rewrite !lookup_insert_ne by done. apply (inv_session w1 Hinv1).
  - intros rp rm' c' Hrp Hm.
    destruct (inv_member w1 Hinv1 _ _ _ Hrp Hm) as (cl & s & Hc & Hs & Hrest).
    assert (c' ≠ c) by congruence.
    exists cl, s. by rewrite !lookup_insert_ne.
  - intros c' cl' s'. destruct (decide (c' = c)) as [->|Hne].
    + rewrite !lookup_insert_eq. intros [= <-] _. done.
    + rewrite !lookup_insert_ne by done. apply (inv_closed w1 Hinv1).
  - apply (inv_flight w1 Hinv1).
  - intros i f c' Hf Hsnd.
    destruct (inv_owner w1 Hinv1 _ _ _ Hf Hsnd) as (s & Hs & Hpc).
    assert (c' ≠ c) by congruence.
    exists s. by rewrite lookup_insert_ne.
  - intros c' cl' s'. destruct (decide (c' = c)) as [->|Hne].
    + rewrite !lookup_insert_eq. intros _ [= <-]. simpl. intros [?|[? ?]]; done.
    + rewrite !lookup_insert_ne by done. apply (inv_joined w1 Hinv1).
Qed.

Lemma step_join_inv c w w' :
  world_inv w → step_join c w = Next w' → world_inv w'.
Proof.
  intros Hinv H. unfold step_join in H. step_cases H.
  rename s into ss, c0 into cl, r into rm.
  rename Heqo into Hs, Heqo0 into Hc, e into Hpc, Heqo1 into Hrm.
  split; simpl.
  - intros nm r Hr. destruct (inv_hub w Hinv _ _ Hr) as (rm' & Hrm' & Hnm).
    destruct (decide (r = room cl)) as [->|Hne].
    + rewrite lookup_insert_eq. exists (join c rm). split; [done|]. simpl. congruence.
    + rewrite lookup_insert_ne by done. eauto.
  - intros c' cl' Hc'. destruct (inv_client w Hinv _ _ Hc') as [Hr Hss]. split.
    + rewrite lookup_insert_is_Some. destruct (decide (room cl = room cl')); auto.
    + rewrite lookup_insert_is_Some. destruct (decide (c = c')); auto.
  - intros c' s'. destruct (decide (c' = c)) as [->|Hne].
    + rewrite lookup_insert_eq. eauto.
    + rewrite lookup_insert_ne by done. apply (inv_session w Hinv).
  - intros rp rm' c' Hrp Hm.
    destruct (decide (c' = c)) as [->|Hne].
    + exists cl, (set_h_pc Joined ss).
      rewrite lookup_insert_eq. split; [done|]. split; [done|]. split.
      * destruct (decide (rp = room cl)) as [->|Hrne]; [done|].
        rewrite lookup_insert_ne in Hrp by done.
        destruct (member_pc w _ _ _ _ Hinv Hrp Hm Hs) as [?|[? ?]]; congruence.
      * split; [|by left]. eapply not_closed_unless_Closed; eauto. congruence.
    + rewrite lookup_insert_ne by done.
      destruct (decide (rp = room cl)) as [->|Hrne].
      * rewrite lookup_insert_eq in Hrp. injection Hrp as <-.
        apply is_member_join in Hm as [?|Hm]; [done|].
        apply (inv_member w Hinv _ _ _ Hrm Hm).
      * rewrite lookup_insert_ne in Hrp by done.
        apply (inv_member w Hinv _ _ _ Hrp Hm).
  - intros c' cl' s' Hc'. destruct (decide (c' = c)) as [->|Hne].
    + rewrite lookup_insert_eq. intros [= <-] Hcl. simplify_eq.
      pose proof (inv_closed w Hinv _ _ _ Hc Hs Hcl). congruence.
    + rewrite lookup_insert_ne by done. by apply (inv_closed w Hinv).
  - intros i f Hf. destruct (inv_flight w Hinv _ _ Hf) as (rm' & Hrm' & Htodo).
    destruct (decide (fl_room f = room cl)) as [Heq|Hne].
    + rewrite Heq, lookup_insert_eq. exists (join c rm). split; [done|].
      intros c' Hin. apply is_member_join. right.
      rewrite Heq in Hrm'. simplify_eq. by apply Htodo.
    + rewrite lookup_insert_ne by done. eauto.
  - intros i f c' Hf Hsnd.
    destruct (inv_owner w Hinv _ _ _ Hf Hsnd) as (s & Hs' & Hpc').
    destruct (decide (c' = c)) as [->|Hne]; [congruence|].
    exists s. by rewrite lookup_insert_ne.
  - intros c' cl' s' Hc'. destruct (decide (c' = c)) as [->|Hne].
    + intros _ _. rewrite Hc in Hc'. injection Hc' as <-.
      rewrite lookup_insert_eq. exists (join c rm). split; [done|].
      apply is_member_join. by left.
    + rewrite lookup_insert_ne by done. intros Hs' Hpc'.
      destruct (inv_joined w Hinv _ _ _ Hc' Hs' Hpc') as (rm' & Hrm' & Hm).
      destruct (decide (room cl' = room cl)) as [Heq|Hrne].
      * rewrite Heq, lookup_insert_eq. exists (join c rm). split; [done|].
        apply is_member_join. right. rewrite Heq in Hrm'. by simplify_eq.
      * rewrite lookup_insert_ne by done. eauto.
Qed.

Lemma unlocked_no_flight r w i f :
  unlocked r w = true → flights w !! i = Some f → fl_room f ≠ r.
Proof.
  unfold unlocked. intros H%bool_decide_eq_true Hf. by apply (H i f).
Qed.

Lemma step_leave_inv c w w' :
  world_inv w → step_leave c w = Next w' → world_inv w'.
Proof.
  intros Hinv H. unfold step_leave in H. step_cases H.
  rename s into ss, c0 into cl, r into rm.
  rename Heqo into Hs, Heqo0 into Hc, a into Hpcw, Heqo1 into Hrm, Heqb into Hunl.
  destruct Hpcw as [Hpc Hwpc].
  split; simpl.
  - intros nm r Hr. destruct (inv_hub w Hinv _ _ Hr) as (rm' & Hrm' & Hnm).
    destruct (decide (r = room cl)) as [->|Hne].
    + rewrite lookup_insert_eq. exists (leave c rm). split; [done|]. simpl. congruence.
    + rewrite lookup_insert_ne by done. eauto.
  - intros c' cl' Hc'. destruct (inv_client w Hinv _ _ Hc') as [Hr Hss]. split.
    + rewrite lookup_insert_is_Some. destruct (decide (room cl = room cl')); auto.
    + rewrite lookup_insert_is_Some. destruct (decide (c = c')); auto.
  - intros c' s'. destruct (decide (c' = c)) as [->|Hne].
    + rewrite lookup_insert_eq. eauto.
    + rewrite lookup_insert_ne by done. apply (inv_session w Hinv).
  - intros rp rm' c' Hrp Hm.
    assert (c' ≠ c ∧ ∃ rm0, room_heap w !! rp = Some rm0 ∧ is_member c' rm0)
      as [Hne (rm0 & Hrm0 & Hm0)].
    { destruct (decide (rp = room cl)) as [->|Hrne].
      - rewrite lookup_insert_eq in Hrp. injection Hrp as <-.
        apply is_member_leave in Hm as [? Hm]. eauto.
      - rewrite lookup_insert_ne in Hrp by done. split; [|eauto].
        intros ->. destruct (inv_member w Hinv _ _ _ Hrp Hm) as (cl' & _ & ? & _ & ? & _).
        congruence. }
    rewrite lookup_insert_ne by done. apply (inv_member w Hinv _ _ _ Hrm0 Hm0).
  - intros c' cl' s' Hc'. destruct (decide (c' = c)) as [->|Hne].
    + rewrite lookup_insert_eq. intros [= <-] Hcl. simplify_eq.
      pose proof (inv_closed w Hinv _ _ _ Hc Hs Hcl). congruence.
    + rewrite lookup_insert_ne by done. by apply (inv_closed w Hinv).
  - intros i f Hf. destruct (inv_flight w Hinv _ _ Hf) as (rm' & Hrm' & Htodo).
    pose proof (unlocked_no_flight _ _ _ _ Hunl Hf).
    rewrite lookup_insert_ne by done. eauto.
  - intros i f c' Hf Hsnd.
    destruct (inv_owner w Hinv _ _ _ Hf Hsnd) as (s & Hs' & Hpc').
    destruct (decide (c' = c)) as [->|Hne]; [congruence|].
    exists s. by rewrite lookup_insert_ne.
  - intros c' cl' s' Hc'. destruct (decide (c' = c)) as [->|Hne].
    + rewrite lookup_insert_eq. intros [= <-]. simpl. intros [?|[? ?]]; done.
    + rewrite lookup_insert_ne by done. intros Hs' Hpc'.
      destruct (inv_joined w Hinv _ _ _ Hc' Hs' Hpc') as (rm' & Hrm' & Hm).
      destruct (decide (room cl' = room cl)) as [Heq|Hrne].
      * rewrite Heq, lookup_insert_eq. exists (leave c rm). split; [done|].
        apply is_member_leave. split; [done|]. rewrite Heq in Hrm'. by simplify_eq.
      * rewrite lookup_insert_ne by done. eauto.
Qed.

Lemma step_read_inv c msg now order w w' :
  world_inv w → step_read c msg now order w = Next w' → world_inv w'.
Proof.
  intros Hinv H. unfold step_read in H. step_cases H.
  rename s into ss, c0 into cl, r into rm.
  rename Heqo into Hs, Heqo0 into Hc, a into Hpcw, Heqo1 into Hrm, p into Hperm.
  destruct Hpcw as [Hpc Hwpc].
  set (i := fresh (dom (flights w))).
  assert (Hfresh : flights w !! i = None) by apply not_elem_of_dom, is_fresh.
  split; simpl.
  - apply (inv_hub w Hinv).
  - intros c' cl' Hc'. destruct (inv_client w Hinv _ _ Hc') as [Hr Hss].
    split; [done|]. rewrite lookup_insert_is_Some. destruct (decide (c = c')); auto.
  - intros c' s'. destruct (decide (c' = c)) as [->|Hne].
    + rewrite lookup_insert_eq. eauto.
    + rewrite lookup_insert_ne by done. apply (inv_session w Hinv).
  - intros rp rm' c' Hrp Hm.
    destruct (inv_member w Hinv _ _ _ Hrp Hm) as (cl' & s' & Hc' & Hs' & Hr & Hcl & Hpc').
    destruct (decide (c' = c)) as [->|Hne].
    + simplify_eq. exists cl, (set_h_pc (Broadcasting i) ss).
      rewrite lookup_insert_eq. repeat split; try done. right. by exists i.
    + exists cl', s'. by rewrite lookup_insert_ne.
  - intros c' cl' s' Hc'. destruct (decide (c' = c)) as [->|Hne].
    + rewrite lookup_insert_eq. intros [= <-] Hcl. simplify_eq.
      pose proof (inv_closed w Hinv _ _ _ Hc Hs Hcl). congruence.
    + rewrite lookup_insert_ne by done. by apply (inv_closed w Hinv).
  - intros j f. destruct (decide (j = i)) as [->|Hne].
    + rewrite lookup_insert_eq. intros [= <-]. simpl. exists rm. split; [done|].
      intros c' Hin. apply elem_of_members. by rewrite <- Hperm.
    + rewrite lookup_insert_ne by done. apply (inv_flight w Hinv).
  - intros j f c'. destruct (decide (j = i)) as [->|Hne].
    + rewrite lookup_insert_eq. intros [= <-] [= <-].
      exists (set_h_pc (Broadcasting i) ss). by rewrite lookup_insert_eq.
    + rewrite lookup_insert_ne by done. intros Hf Hsnd.
      destruct (inv_owner w Hinv _ _ _ Hf Hsnd) as (s & Hs' & Hpc').
      destruct (decide (c' = c)) as [->|Hcne]; [congruence|].
      exists s. by rewrite lookup_insert_ne.
  - intros c' cl' s' Hc'. destruct (decide (c' = c)) as [->|Hne].
    + intros _ _. apply (inv_joined w Hinv _ _ _ Hc' Hs). by left.
    + rewrite lookup_insert_ne by done. by apply (inv_joined w Hinv).
Qed.


Lemma same_clients_refl cs : same_clients cs cs.
Proof. intros c. by destruct (cs !! c). Qed.

Lemma same_clients_insert cs c a b :
  cs !! c = Some a → room a = room b → closed (sendCh a) = closed (sendCh b) →
  same_clients cs (<[c := b]> cs).
Proof.
  intros Hc Hr Hcl c'. destruct (decide (c' = c)) as [->|Hne].
  - by rewrite lookup_insert_eq, Hc.
  - rewrite lookup_insert_ne by done. by destruct (cs !! c').
Qed.

Lemma same_clients_lookup cs cs' c b :
  same_clients cs cs' → cs' !! c = Some b →
  ∃ a, cs !! c = Some a ∧ room a = room b ∧ closed (sendCh a) = closed (sendCh b).
Proof.
  intros H Hb. specialize (H c). rewrite Hb in H.
  destruct (cs !! c) as [a|]; [|done]. by exists a.
Qed.

Lemma same_clients_lookup_l cs cs' c a :
  same_clients cs cs' → cs !! c = Some a →
  ∃ b, cs' !! c = Some b ∧ room a = room b ∧ closed (sendCh a) = closed (sendCh b).
Proof.
  intros H Ha. specialize (H c). rewrite Ha in H.
  destruct (cs' !! c) as [b|]; [|done]. by exists b.
Qed.

Lemma broadcast_body_same sender msg c cs cs' :
  broadcast_body sender msg c cs = Some cs' → same_clients cs cs'.
Proof.
  unfold broadcast_body. case_decide.
  - intros [= <-]. apply same_clients_refl.
  - destruct (cs !! c) as [cl|] eqn:Hc; [|done]. simpl.
    unfold try_send. destruct (closed (sendCh cl)) eqn:Hcl; [done|]. simpl.
    intros [= <-]. eapply same_clients_insert; [done..|].
    simpl. by rewrite enqueue_closed.
Qed.

(** The invariant only reads the room and the closed flag of a client,
    the program counter of a handler, and of a flight its room, its sender
    and what it has still to visit. *)
Lemma world_inv_frame w cs ss fs tbl out busy :
  world_inv w →
  same_clients (client_heap w) cs →
  (∀ c, h_pc <$> ss !! c = h_pc <$> sessions w !! c) →
  (∀ i f', fs !! i = Some f' →
     ∃ f, flights w !! i = Some f ∧ fl_room f' = fl_room f ∧
          fl_sender f' = fl_sender f ∧ fl_todo f' ⊆ fl_todo f) →
  world_inv (mkWorld (hub w) (room_heap w) cs ss fs tbl out busy).
Proof.
  intros Hinv Hcs Hss Hfs.
  assert (Hs_back : ∀ c s', ss !! c = Some s' →
            ∃ s, sessions w !! c = Some s ∧ h_pc s = h_pc s').
  { intros c s' Hs'. specialize (Hss c). rewrite Hs' in Hss. simpl in Hss.
    destruct (sessions w !! c) as [s|]; [|done]. exists s. split; [done|].
    simpl in Hss. congruence. }
  assert (Hs_fwd : ∀ c s, sessions w !! c = Some s →
            ∃ s', ss !! c = Some s' ∧ h_pc s = h_pc s').
  { intros c s Hs. specialize (Hss c). rewrite Hs in Hss. simpl in Hss.
    destruct (ss !! c) as [s'|]; [|done]. exists s'. split; [done|].
    simpl in Hss. congruence. }
  split; simpl.
  - apply (inv_hub w Hinv).
  - intros c b Hb. destruct (same_clients_lookup _ _ _ _ Hcs Hb) as (a & Ha & Hr & _).
    destruct (inv_client w Hinv _ _ Ha) as [Hrm [s Hs]]. rewrite <- Hr. split; [done|].
    destruct (Hs_fwd _ _ Hs) as (s' & -> & _). eauto.
  - intros c s' Hs'. destruct (Hs_back _ _ Hs') as (s & Hs & _).
    destruct (inv_session w Hinv _ _ Hs) as [a Ha].
    destruct (same_clients_lookup_l _ _ _ _ Hcs Ha) as (b & -> & _). eauto.
  - intros rp rm c Hrp Hm.
    destruct (inv_member w Hinv _ _ _ Hrp Hm) as (a & s & Ha & Hs & Hr & Hcl & Hpc).
    destruct (same_clients_lookup_l _ _ _ _ Hcs Ha) as (b & Hb & Hrb & Hclb).
    destruct (Hs_fwd _ _ Hs) as (s' & Hs' & Hpc').
    exists b, s'. rewrite <- Hrb, <- Hclb, <- Hpc'. done.
  - intros c b s' Hb Hs' Hcl.
    destruct (same_clients_lookup _ _ _ _ Hcs Hb) as (a & Ha & _ & Hcla).
    destruct (Hs_back _ _ Hs') as (s & Hs & Hpc). rewrite <- Hpc.
    apply (inv_closed w Hinv _ _ _ Ha Hs). congruence.
  - intros i f' Hf'. destruct (Hfs _ _ Hf') as (f & Hf & Hr & _ & Htodo).
    destruct (inv_flight w Hinv _ _ Hf) as (rm & Hrm & Hmem).
    exists rm. rewrite Hr. split; [done|]. intros c Hin. apply Hmem. by apply Htodo.
  - intros i f' c Hf' Hsnd. destruct (Hfs _ _ Hf') as (f & Hf & _ & Hsf & _).
    rewrite Hsf in Hsnd. destruct (inv_owner w Hinv _ _ _ Hf Hsnd) as (s & Hs & Hpc).
    destruct (Hs_fwd _ _ Hs) as (s' & Hs' & Hpc'). exists s'. split; [done|]. congruence.
  - intros c b s' Hb Hs' Hpc.
    destruct (same_clients_lookup _ _ _ _ Hcs Hb) as (a & Ha & Hr & _).
    destruct (Hs_back _ _ Hs') as (s & Hs & Hpcs). rewrite <- Hr.
    apply (inv_joined w Hinv _ _ _ Ha Hs). by rewrite Hpcs.
Qed.

Lemma flights_refl (w : World) i f' :
  flights w !! i = Some f' →
  ∃ f, flights w !! i = Some f ∧ fl_room f' = fl_room f ∧
       fl_sender f' = fl_sender f ∧ fl_todo f' ⊆ fl_todo f.
Proof. intros H. by exists f'. Qed.

Lemma step_offer_inv i w w' :
  world_inv w → step_offer i w = Next w' → world_inv w'.
Proof.
  intros Hinv H. unfold step_offer in H. step_cases H.
  rename Heqo into Hf, Heql into Htodo, Heqo0 into Hb.
  unfold set_flights, set_clients. simpl.
  apply world_inv_frame; [done | by eapply broadcast_body_same | done |].
  intros j f'. destruct (decide (j = i)) as [->|Hne].
  - rewrite lookup_insert_eq. intros [= <-]. simpl. exists f.
    rewrite Htodo. repeat split; try done. set_solver.
  - rewrite lookup_insert_ne by done. apply flights_refl.
Qed.

Lemma step_write_inv c ok w w' :
  world_inv w → step_write c ok w = Next w' → world_inv w'.
Proof.
  intros Hinv H. unfold step_write in H.
  destruct (sessions w !! c) as [ss|] eqn:Hs; [|done].
  destruct (client_heap w !! c) as [cl|] eqn:Hc; [|done].
  case_decide; [|done].
  destruct (try_recv (sendCh cl)) as [[m ch]|] eqn:Hrecv; [|done].
  injection H as <-. unfold set_sessions, set_clients. simpl.
  apply world_inv_frame; [done | | | apply flights_refl].
  - eapply same_clients_insert; [done | done |]. simpl.
    unfold try_recv in Hrecv. destruct (buf (sendCh cl)); [done|].
    by injection Hrecv as <- <-.
  - intros c'. destruct (decide (c' = c)) as [->|Hne].
    + rewrite lookup_insert_eq, Hs. by destruct ok.
    + by rewrite lookup_insert_ne.
Qed.

Lemma step_writer_end_inv c w w' :
  world_inv w → step_writer_end c w = Next w' → world_inv w'.
Proof.
  intros Hinv H. unfold step_writer_end in H. step_cases H.
  rename s into ss, c0 into cl, Heqo into Hs, Heqo0 into Hc.
  unfold set_sessions, set_clients. simpl.
  apply world_inv_frame; [done | | | apply flights_refl].
  - by eapply same_clients_insert.
  - intros c'. destruct (decide (c' = c)) as [->|Hne].
    + by rewrite lookup_insert_eq, Hs.
    + by rewrite lookup_insert_ne.
Qed.

Lemma step_done_inv i w w' :
  world_inv w → step_done i w = Next w' → world_inv w'.
Proof.
  intros Hinv H. unfold step_done in H.
  destruct (flights w !! i) as [f|] eqn:Hf; [|done].
  destruct (fl_todo f) eqn:Htodo; [|done].
  assert (Hrest : ∀ j f', delete i (flights w) !! j = Some f' →
            ∃ f0, flights w !! j = Some f0 ∧ fl_room f' = fl_room f0 ∧
                  fl_sender f' = fl_sender f0 ∧ fl_todo f' ⊆ fl_todo f0).
  { intros j f' Hj. apply lookup_delete_Some in Hj as [_ Hj]. by exists f'. }
  destruct (fl_sender f) as [c|] eqn:Hsnd.
  - destruct (sessions w !! c) as [ss|] eqn:Hs; [|done]. injection H as <-.
    destruct (inv_owner w Hinv _ _ _ Hf Hsnd) as (s0 & Hs0 & Hpc). simplify_eq.
    split; simpl.
    + apply (inv_hub w Hinv).
    + intros c' cl' Hc'. destruct (inv_client w Hinv _ _ Hc') as [Hr Hss].
      split; [done|]. rewrite lookup_insert_is_Some. destruct (decide (c = c')); auto.
    + intros c' s'. destruct (decide (c' = c)) as [->|Hne].
      * rewrite lookup_insert_eq. intros _. by apply (inv_session w Hinv _ _ Hs).
      * rewrite lookup_insert_ne by done. apply (inv_session w Hinv).
    + intros rp rm' c' Hrp Hm.
      destruct (inv_member w Hinv _ _ _ Hrp Hm) as (cl' & s' & Hc' & Hs' & Hr & Hcl & Hpc').
      destruct (decide (c' = c)) as [->|Hne].
      * exists cl', (set_h_pc Joined ss).
        rewrite lookup_insert_eq. repeat split; try done. by left.
      * exists cl', s'. by rewrite lookup_insert_ne.
    + intros c' cl' s' Hc'. destruct (decide (c' = c)) as [->|Hne].
      * rewrite lookup_insert_eq. intros [= <-] Hcl.
        pose proof (inv_closed w Hinv _ _ _ Hc' Hs Hcl). congruence.
      * rewrite lookup_insert_ne by done. by apply (inv_closed w Hinv).
    + intros j f' Hj. apply lookup_delete_Some in Hj as [_ Hj].
      apply (inv_flight w Hinv _ _ Hj).
    + intros j f' c' Hj Hsnd'. apply lookup_delete_Some in Hj as [Hji Hj].
      destruct (inv_owner w Hinv _ _ _ Hj Hsnd') as (s & Hs' & Hpc').
      destruct (decide (c' = c)) as [->|Hcne]; [congruence|].
      exists s. by rewrite lookup_insert_ne.
    + intros c' cl' s' Hc'. destruct (decide (c' = c)) as [->|Hne].
      * intros _ _. apply (inv_joined w Hinv _ _ _ Hc' Hs). right. by exists i.
      * rewrite lookup_insert_ne by done. by apply (inv_joined w Hinv).
  - injection H as <-. unfold set_udp, set_flights. simpl.
    apply world_inv_frame; [done | apply same_clients_refl | done | done].
Qed.

Lemma step_close_inv c w w' :
  world_inv w → step_close c w = Next w' → world_inv w'.
Proof.
  intros Hinv H. unfold step_close in H. step_cases H.
  rename s into ss, c0 into cl, c1 into ch.
  rename Heqo into Hs, Heqo0 into Hc, e into Hpc, Heqo1 into Hch.
  split; simpl.
  - apply (inv_hub w Hinv).
  - intros c' cl'. destruct (decide (c' = c)) as [->|Hne].
    + rewrite !lookup_insert_eq. intros [= <-]. simpl.
      destruct (inv_client w Hinv _ _ Hc). eauto.
    + rewrite !lookup_insert_ne by done. apply (inv_client w Hinv).
  - intros c' s'. destruct (decide (c' = c)) as [->|Hne].
    + rewrite !lookup_insert_eq. eauto.
    + rewrite !lookup_insert_ne by done. apply (inv_session w Hinv).
  - intros rp rm' c' Hrp Hm.
    destruct (inv_member w Hinv _ _ _ Hrp Hm) as (cl' & s' & Hc' & Hs' & Hr & Hcl & Hpc').
    destruct (decide (c' = c)) as [->|Hne].
    + simplify_eq. destruct Hpc' as [?|[? ?]]; congruence.
    + exists cl', s'. by rewrite !lookup_insert_ne.
  - intros c' cl' s'. destruct (decide (c' = c)) as [->|Hne].
    + rewrite !lookup_insert_eq. by intros [= <-] [= <-].
    + rewrite !lookup_insert_ne by done. apply (inv_closed w Hinv).
  - apply (inv_flight w Hinv).
  - intros i f c' Hf Hsnd.
    destruct (inv_owner w Hinv _ _ _ Hf Hsnd) as (s & Hs' & Hpc').
    destruct (decide (c' = c)) as [->|Hne]; [congruence|].
    exists s. by rewrite lookup_insert_ne.
  - intros c' cl' s'. destruct (decide (c' = c)) as [->|Hne].
    + rewrite !lookup_insert_eq. intros _ [= <-]. simpl. intros [?|[? ?]]; done.
    + rewrite !lookup_insert_ne by done. apply (inv_joined w Hinv).
Qed.

Lemma step_datagram_inv data remote t_user t_last t_env entries order w w' :
  world_inv w →
  step_datagram data remote t_user t_last t_env entries order w = Next w' →
  world_inv w'.
Proof.
  intros Hinv H. unfold step_datagram in H.
  destruct (udp_busy w); [done|].
  destruct (udp_identity data t_user) as [[rn un] payload].
  destruct (decide _) as [Hent|]; [|done].
  destruct (world_getRoom rn w) as [r w1] eqn:Hg.
  destruct (world_getRoom_inv _ _ _ _ Hinv Hg) as (Hinv1 & (rm & Hrm & _) & _).
  rewrite Hrm in H. destruct (decide _) as [Hperm|]; [|done]. injection H as <-.
  set (i := fresh (dom (flights w1))).
  assert (Hfresh : flights w1 !! i = None) by apply not_elem_of_dom, is_fresh.
  split; simpl.
  - apply (inv_hub w1 Hinv1).
  - apply (inv_client w1 Hinv1).
  - apply (inv_session w1 Hinv1).
  - apply (inv_member w1 Hinv1).
  - apply (inv_closed w1 Hinv1).
  - intros j f. destruct (decide (j = i)) as [->|Hne].
    + rewrite lookup_insert_eq. intros [= <-]. simpl. exists rm. split; [done|].
      intros c' Hin. apply elem_of_members. by rewrite <- Hperm.
    + rewrite lookup_insert_ne by done. apply (inv_flight w1 Hinv1).
  - intros j f c'. destruct (decide (j = i)) as [->|Hne].
    + rewrite lookup_insert_eq. by intros [= <-].
    + rewrite lookup_insert_ne by done. apply (inv_owner w1 Hinv1).
  - apply (inv_joined w1 Hinv1).
Qed.

Lemma step_go_inv c w w' :
  world_inv w → step_go c w = Next w' → world_inv w'.
Proof.
  intros Hinv H. unfold step_go in H.
  destruct (sessions w !! c) as [ss|] eqn:Hs; [|done].
  case_decide; [|done]. injection H as <-. unfold set_sessions.
  apply world_inv_frame; [done | apply same_clients_refl | | apply flights_refl].
  intros c'. destruct (decide (c' = c)) as [->|Hne].
  - by rewrite lookup_insert_eq, Hs.
  - by rewrite lookup_insert_ne.
Qed.

Lemma step_inv ev w w' : world_inv w → step ev w = Next w' → world_inv w'.
Proof.
  destruct ev; cbn [step];
    [ apply step_connect_inv | apply step_join_inv | apply step_go_inv
    | apply step_read_inv
    | apply step_offer_inv | apply step_done_inv | apply step_leave_inv
    | apply step_close_inv | apply step_write_inv | apply step_writer_end_inv
    | apply step_datagram_inv ].
Qed.

Lemma run_inv evs w w' : world_inv w → run evs w = Next w' → world_inv w'.
Proof.
  revert w. induction evs as [|ev evs IH]; intros w Hinv; simpl.
  - by intros [= <-].
  - destruct (step ev w) as [w1| |] eqn:Hstep; [|done..].
    apply IH. by eapply step_inv.
Qed.

Lemma reachable_inv w : reachable w → world_inv w.
Proof. intros [evs H]. eapply run_inv; [apply world_inv_init | done]. Qed.

(** No step of a world that satisfies the invariant panics: no send on a
    closed channel, no second [close], no nil room. *)
Lemma step_no_panic ev w : world_inv w → step ev w ≠ Panic.
Proof.
  intros Hinv. destruct ev; simpl.
  - unfold step_connect. destruct (ws_identity _ _). by destruct (world_getRoom _ _).
  - unfold step_join. destruct (sessions w !! c) as [s|]; [|done].
    destruct (client_heap w !! c) as [cl|] eqn:Hc; [|done].
    destruct (inv_client w Hinv _ _ Hc) as [[rm ->] _].
    case_decide; [|done]. by destruct (unlocked _ _).
  - unfold step_go. destruct (sessions w !! c) as [s|]; [|done]. by case_decide.
  - unfold step_read. destruct (sessions w !! c) as [s|]; [|done].
    destruct (client_heap w !! c) as [cl|] eqn:Hc; [|done].
    destruct (inv_client w Hinv _ _ Hc) as [[rm ->] _].
    case_decide; [|done]. by case_decide.
  - unfold step_offer. destruct (flights w !! i) as [f|] eqn:Hf; [|done].
    destruct (fl_todo f) as [|c rest] eqn:Htodo; [done|].
    destruct (inv_flight w Hinv _ _ Hf) as (rm & Hrm & Hmem).
    destruct (inv_member w Hinv _ _ c Hrm) as (cl & s & Hc & _ & _ & Hcl & _).
    { apply Hmem. rewrite Htodo. by left. }
    unfold broadcast_body. case_decide; [done|].
    rewrite Hc. simpl. by rewrite try_send_open.
  - unfold step_done. destruct (flights w !! i) as [f|]; [|done].
    destruct (fl_todo f); [|done]. destruct (fl_sender f); [|done].
    by destruct (sessions w !! c).
  - unfold step_leave. destruct (sessions w !! c) as [s|]; [|done].
    destruct (client_heap w !! c) as [cl|] eqn:Hc; [|done].
    destruct (inv_client w Hinv _ _ Hc) as [[rm ->] _].
    case_decide; [|done]. by destruct (unlocked _ _).
  - unfold step_close. destruct (sessions w !! c) as [s|] eqn:Hs; [|done].
    destruct (client_heap w !! c) as [cl|] eqn:Hc; [|done].
    case_decide as Hpc; [|done].
    unfold close_chan. rewrite (not_closed_unless_Closed w c cl s); [done..|congruence].
  - unfold step_write. destruct (sessions w !! c) as [s|]; [|done].
    destruct (client_heap w !! c) as [cl|]; [|done].
    case_decide; [|done]. by destruct (try_recv _) as [[? ?]|].
  - unfold step_writer_end. destruct (sessions w !! c) as [s|]; [|done].
    destruct (client_heap w !! c) as [cl|]; [|done].
    case_decide; [|done]. destruct (buf _); [|done]. by destruct (closed _).
  - unfold step_datagram. destruct (udp_busy w); [done|].
    destruct (udp_identity data t_user) as [[rn un] payload].
    case_decide; [|done].
    destruct (world_getRoom rn w) as [r w1] eqn:Hg.
    destruct (world_getRoom_inv _ _ _ _ Hinv Hg) as (_ & (rm & -> & _) & _).
    by case_decide.
Qed.


Lemma run_app e1 e2 w w' :
  run (e1 ++ e2) w = Next w' ↔ ∃ w1, run e1 w = Next w1 ∧ run e2 w1 = Next w'.
Proof.
  revert w. induction e1 as [|ev e1 IH]; intros w; simpl.
  - split; [eauto|]. by intros (w1 & [= <-] & ?).
  - destruct (step ev w) as [w0| |]; [apply IH| |]; split; try done; by intros (? & ? & _).
Qed.

Lemma run_cons_inv ev evs w w' :
  run (ev :: evs) w = Next w' → ∃ w1, step ev w = Next w1 ∧ run evs w1 = Next w'.
Proof. simpl. destruct (step ev w) as [w1| |]; [eauto|done..]. Qed.

Ltac pc_insert c d :=
  unfold pc_of; simpl;
  destruct (decide (c = d)) as [->|?];
  [rewrite lookup_insert_eq | rewrite lookup_insert_ne by done; by left].

(** The handler of a client moves along
    Connected, Joined, Broadcasting and back, Left, Closed,
    and only its own events move it. *)
Lemma step_pc ev w w' c :
  world_inv w → step ev w = Next w' →
  pc_of w' c = pc_of w c ∨
  (pc_of w c = None ∧ pc_of w' c = Some Connected) ∨
  (ev = EvJoin c ∧ pc_of w c = Some Connected ∧ pc_of w' c = Some Joined) ∨
  (∃ i, pc_of w c = Some Joined ∧ pc_of w' c = Some (Broadcasting i)) ∨
  (∃ i, pc_of w c = Some (Broadcasting i) ∧ pc_of w' c = Some Joined) ∨
  (ev = EvLeave c ∧ pc_of w c = Some Joined ∧ pc_of w' c = Some Left) ∨
  (ev = EvClose c ∧ pc_of w c = Some Left ∧ pc_of w' c = Some Closed).
Proof.
  intros Hinv H.
  destruct ev as [path now|d|d|d msg now order|i|i|d|d|d ok|d|
                  data remote t_user t_last t_env entries order]; simpl in H.
  - unfold step_connect in H. destruct (ws_identity path now) as [rn un].
    destruct (world_getRoom rn w) as [r w1] eqn:Hg.
    destruct (world_getRoom_inv _ _ _ _ Hinv Hg) as (Hinv1 & _ & _ & Hch & Hss & _).
    injection H as <-. unfold pc_of. simpl. rewrite Hss, Hch.
    destruct (decide (c = fresh (dom (client_heap w)))) as [->|Hne].
    + right. left. rewrite lookup_insert_eq. split; [|done].
      destruct (sessions w !! fresh (dom (client_heap w))) as [s|] eqn:E; [|done].
      destruct (inv_session w Hinv _ _ E) as [cl Hcl].
      pose proof (is_fresh (dom (client_heap w))) as Hf.
      apply not_elem_of_dom in Hf. congruence.
    + left. by rewrite lookup_insert_ne.
  - unfold step_join in H.
    destruct (sessions w !! d) as [s|] eqn:Hs; [|done].
    destruct (client_heap w !! d) as [cl|]; [|done].
    case_decide as Hpc; [|done]. destruct (unlocked _ _); [|done].
    destruct (room_heap w !! room cl); [|done]. injection H as <-.
    pc_insert c d. right. right. left. by rewrite Hs, <- Hpc.
  - unfold step_go in H.
    destruct (sessions w !! d) as [s|] eqn:Hs; [|done].
    case_decide; [|done]. injection H as <-.
    pc_insert c d. left. by rewrite Hs.
  - unfold step_read in H.
    destruct (sessions w !! d) as [s|] eqn:Hs; [|done].
    destruct (client_heap w !! d) as [cl|]; [|done].
    case_decide as Hpcw; [|done]. destruct Hpcw as [Hpc _].
    destruct (room_heap w !! room cl); [|done]. case_decide; [|done].
    injection H as <-. pc_insert c d.
    do 3 right. left. exists (fresh (dom (flights w))). by rewrite Hs, <- Hpc.
  - unfold step_offer in H. step_cases H. by left.
  - unfold step_done in H.
    destruct (flights w !! i) as [f|] eqn:Hf; [|done].
    destruct (fl_todo f); [|done].
    destruct (fl_sender f) as [c0|] eqn:Hsnd.
    + destruct (sessions w !! c0) as [ss|] eqn:Hs; [|done]. injection H as <-.
      pc_insert c c0.
      destruct (inv_owner w Hinv _ _ _ Hf Hsnd) as (s0 & Hs0 & Hpc).
      do 4 right. left. exists i. rewrite Hs in *. simplify_eq. simpl. by rewrite Hpc.
    + injection H as <-. by left.
  - unfold step_leave in H.
    destruct (sessions w !! d) as [s|] eqn:Hs; [|done].
    destruct (client_heap w !! d) as [cl|]; [|done].
    case_decide as Hpcw; [|done]. destruct Hpcw as [Hpc _]. destruct (unlocked _ _); [|done].
    destruct (room_heap w !! room cl); [|done]. injection H as <-.
    pc_insert c d. do 5 right. left. by rewrite Hs, <- Hpc.
  - unfold step_close in H.
    destruct (sessions w !! d) as [s|] eqn:Hs; [|done].
    destruct (client_heap w !! d) as [cl|]; [|done].
    case_decide as Hpc; [|done]. destruct (close_chan _); [|done]. injection H as <-.
    pc_insert c d. do 6 right. by rewrite Hs, <- Hpc.
  - unfold step_write in H.
    destruct (sessions w !! d) as [ss|] eqn:Hs; [|done].
    destruct (client_heap w !! d) as [cl|] eqn:Hc; [|done].
    case_decide; [|done].
    destruct (try_recv (sendCh cl)) as [[m ch]|] eqn:Hrecv; [|done].
    injection H as <-. pc_insert c d. left. rewrite Hs. by destruct ok.
  - unfold step_writer_end in H.
    destruct (sessions w !! d) as [ss|] eqn:Hs; [|done].
    destruct (client_heap w !! d) as [cl|] eqn:Hc; [|done].
    case_decide; [|done]. destruct (buf _); [|done]. destruct (closed _); [|done].
    injection H as <-. pc_insert c d. left. by rewrite Hs.
  - unfold step_datagram in H. destruct (udp_busy w); [done|].
    destruct (udp_identity data t_user) as [[rn un] payload].
    case_decide; [|done].
    destruct (world_getRoom rn w) as [r w1] eqn:Hg.
    destruct (world_getRoom_inv _ _ _ _ Hinv Hg) as (_ & (rm & Hrm & _) & _ & _ & Hss & _).
    rewrite Hrm in H. case_decide; [|done]. injection H as <-.
    left. unfold pc_of. simpl. by rewrite Hss.
Qed.

Lemma step_leave_pc c w w' :
  step (EvLeave c) w = Next w' → pc_of w c = Some Joined ∧ pc_of w' c = Some Left.
Proof.
  simpl. intros H. unfold step_leave in H. step_cases H.
  unfold pc_of. simpl. rewrite lookup_insert_eq, Heqo. simpl.
  match goal with Hpc : _ ∧ _ |- _ => by rewrite (proj1 Hpc) end.
Qed.

Lemma step_close_pc c w w' :
  step (EvClose c) w = Next w' → pc_of w c = Some Left ∧ pc_of w' c = Some Closed.
Proof.
  simpl. intros H. unfold step_close in H. step_cases H.
  unfold pc_of. simpl. rewrite lookup_insert_eq, Heqo. simpl. by rewrite e.
Qed.


Lemma step_torn_down ev w w' c :
  world_inv w → step ev w = Next w' →
  (torn_down w' c ↔ torn_down w c ∨ ev = EvLeave c) ∧
  (pc_of w' c = Some Closed ↔ pc_of w c = Some Closed ∨ ev = EvClose c).
Proof.
  intros Hinv Hstep. unfold torn_down.
  destruct (step_pc _ _ _ c Hinv Hstep) as [Heq|[H|[H|[H|[H|[H|H]]]]]].
  - rewrite Heq. split; split; [tauto | | tauto |].
    + intros [?| ->]; [done|]. apply step_leave_pc in Hstep as [_ ?]. left. congruence.
    + intros [?| ->]; [done|]. apply step_close_pc in Hstep as [_ ?]. congruence.
  - destruct H as [H1 H2]. rewrite H1, H2. split; split.
    + intros [?|?]; congruence.
    + intros [[?|?]| ->]; [congruence..|].
      apply step_leave_pc in Hstep as [? _]. congruence.
    + congruence.
    + intros [?| ->]; [congruence|]. apply step_close_pc in Hstep as [? _]. congruence.
  - destruct H as (Hev & H1 & H2). rewrite H1, H2. subst ev. split; split.
    + intros [?|?]; congruence.
    + intros [[?|?]|?]; congruence.
    + congruence.
    + intros [?|?]; congruence.
  - destruct H as (i & H1 & H2). rewrite H1, H2. split; split.
    + intros [?|?]; congruence.
    + intros [[?|?]| ->]; [congruence..|].
      apply step_leave_pc in Hstep as [_ ?]. congruence.
    + congruence.
    + intros [?| ->]; [congruence|]. apply step_close_pc in Hstep as [? _]. congruence.
  - destruct H as (i & H1 & H2). rewrite H1, H2. split; split.
    + intros [?|?]; congruence.
    + intros [[?|?]| ->]; [congruence..|].
      apply step_leave_pc in Hstep as [? _]. congruence.
    + congruence.
    + intros [?| ->]; [congruence|]. apply step_close_pc in Hstep as [? _]. congruence.
  - destruct H as (Hev & H1 & H2). rewrite H1, H2. subst ev. split; split.
    + by right.
    + by left.
    + congruence.
    + intros [?|?]; congruence.
  - destruct H as (Hev & H1 & H2). rewrite H1, H2. subst ev. split; split.
    + left. by left.
    + by right.
    + by right.
    + done.
Qed.

(** What the events of a schedule say about where a handler stands. *)
Lemma run_trace evs w c :
  run evs init_world = Next w →
  (EvLeave c ∈ evs ↔ torn_down w c) ∧ (EvClose c ∈ evs ↔ pc_of w c = Some Closed).
Proof.
  revert w. induction evs as [|ev evs IH] using rev_ind; intros w.
  - simpl. intros [= <-]. unfold torn_down, pc_of. simpl. rewrite lookup_empty. simpl.
    split; split; try (intros H; by apply not_elem_of_nil in H); try done.
    by intros [?|?].
  - intros (w1 & Hrun & Hstep)%run_app.
    apply run_cons_inv in Hstep as (w2 & Hstep & [= <-]).
    destruct (IH _ Hrun) as [IHl IHc].
    assert (Hinv : world_inv w1) by (apply reachable_inv; by exists evs).
    destruct (step_torn_down _ _ _ c Hinv Hstep) as [Hl Hc].
    rewrite !elem_of_app, !list_elem_of_singleton, Hl, Hc, IHl, IHc.
    split; split; intros [?|?]; auto.
Qed.

(** [close(client.sendCh)] runs at most once for a client, and only after
    its [room.leave]. *)
Lemma close_once_after_leave evs w c e1 e2 :
  run evs init_world = Next w →
  evs = e1 ++ EvClose c :: e2 →
  EvLeave c ∈ e1 ∧ (EvClose c ∉ e1) ∧ (EvClose c ∉ e2).
Proof.
  intros Hrun ->.
  apply run_app in Hrun as (w1 & Hrun1 & Hrun2).
  apply run_cons_inv in Hrun2 as (w2 & Hstep & Hrun2).
  destruct (run_trace _ _ c Hrun1) as [Hl Hc].
  pose proof (step_close_pc _ _ _ Hstep) as [Hpc1 Hpc2].
  split; [|split].
  - apply Hl. by left.
  - intros Hin%Hc. congruence.
  - intros Hin. apply list_elem_of_split in Hin as (e3 & e4 & ->).
    assert (Hrun12 : run (e1 ++ [EvClose c]) init_world = Next w2).
    { apply run_app. exists w1. split; [done|]. simpl. simpl in Hstep. by rewrite Hstep. }
    apply run_app in Hrun2 as (w3 & Hrun3 & Hrun4).
    apply run_cons_inv in Hrun4 as (w4 & Hstep4 & _).
    assert (Hrun13 : run ((e1 ++ [EvClose c]) ++ e3) init_world = Next w3).
    { apply run_app. eauto. }
    destruct (run_trace _ _ c Hrun13) as [_ Hc3].
    pose proof (step_close_pc _ _ _ Hstep4) as [Hpc3 _].
    assert (pc_of w3 c = Some Closed); [|congruence].
    apply Hc3. rewrite !elem_of_app, list_elem_of_singleton. auto.
Qed.

Lemma broadcast_body_elsewhere sender msg c0 cs cs' c :
  broadcast_body sender msg c0 cs = Some cs' → c ≠ c0 → cs' !! c = cs !! c.
Proof.
  unfold broadcast_body. case_decide; [by intros [= <-]|].
  destruct (cs !! c0) as [cl|]; [|done]. simpl.
  destruct (try_send msg (sendCh cl)); [|done]. simpl.
  intros [= <-] Hne. by rewrite lookup_insert_ne.
Qed.

Lemma broadcast_range_elsewhere order sender msg cs cs' c :
  broadcast_range order sender msg cs = Some cs' → c ∉ order → cs' !! c = cs !! c.
Proof.
  revert cs. induction order as [|c0 order IH]; intros cs; simpl.
  - by intros [= <-].
  - destruct (broadcast_body sender msg c0 cs) as [cs1|] eqn:Hb; [|done]. simpl.
    intros Hrun Hnin. apply not_elem_of_cons in Hnin as [Hne Hnin].
    rewrite (IH _ Hrun Hnin). by eapply broadcast_body_elsewhere.
Qed.

(** Once the handler of [c] has left its room, no step adds to the queue
    of [c]: what it holds is always a suffix of what it held. *)
Lemma step_torn_queue ev w w' c cl :
  world_inv w → step ev w = Next w' → torn_down w c →
  client_heap w !! c = Some cl →
  ∃ cl', client_heap w' !! c = Some cl' ∧
         buf (sendCh cl') `suffix_of` buf (sendCh cl).
Proof.
  intros Hinv H Htorn Hc.
  assert (Hsame : client_heap w' = client_heap w →
            ∃ cl', client_heap w' !! c = Some cl' ∧
                   buf (sendCh cl') `suffix_of` buf (sendCh cl)).
  { intros ->. by exists cl. }
  destruct ev as [path now|d|d|d msg now order|i|i|d|d|d ok|d|
                  data remote t_user t_last t_env entries order]; simpl in H.
  - unfold step_connect in H. destruct (ws_identity path now) as [rn un].
    destruct (world_getRoom rn w) as [r w1] eqn:Hg.
    destruct (world_getRoom_inv _ _ _ _ Hinv Hg) as (_ & _ & _ & Hch & _).
    injection H as <-. simpl. rewrite Hch. exists cl. split; [|done].
    rewrite lookup_insert_ne; [done|]. intros <-.
    pose proof (is_fresh (dom (client_heap w))) as Hf.
    apply not_elem_of_dom in Hf. congruence.
  - unfold step_join in H. step_cases H. by apply Hsame.
  - unfold step_go in H. step_cases H. by apply Hsame.
  - unfold step_read in H. step_cases H. by apply Hsame.
  - unfold step_offer in H.
    destruct (flights w !! i) as [f|] eqn:Hf; [|done].
    destruct (fl_todo f) as [|c0 rest] eqn:Htodo; [done|].
    destruct (broadcast_body _ _ _ _) as [ch|] eqn:Hb; [|done]. injection H as <-.
    simpl. exists cl. split; [|done].
    rewrite (broadcast_body_elsewhere _ _ _ _ _ c Hb); [done|]. intros ->.
    destruct (inv_flight w Hinv _ _ Hf) as (rm & Hrm & Hmem).
    destruct (inv_member w Hinv _ _ c0 Hrm) as (cl0 & s & _ & Hs & _ & _ & Hpc).
    { apply Hmem. rewrite Htodo. by left. }
    unfold torn_down, pc_of in Htorn. rewrite Hs in Htorn. simpl in Htorn.
    destruct Htorn as [?|?], Hpc as [?|[? ?]]; congruence.
  - unfold step_done in H. step_cases H; by apply Hsame.
  - unfold step_leave in H. step_cases H. by apply Hsame.
  - unfold step_close in H.
    destruct (sessions w !! d) as [s|]; [|done].
    destruct (client_heap w !! d) as [cl0|] eqn:Hd; [|done].
    case_decide; [|done].
    unfold close_chan in H. destruct (closed (sendCh cl0)); [done|].
    injection H as <-. simpl. destruct (decide (c = d)) as [->|Hne].
    + rewrite lookup_insert_eq. eexists. split; [done|]. simpl.
      rewrite Hd in Hc. by injection Hc as <-.
    + rewrite lookup_insert_ne by done. by exists cl.
  - unfold step_write in H.
    destruct (sessions w !! d) as [s|]; [|done].
    destruct (client_heap w !! d) as [cl0|] eqn:Hd; [|done].
    case_decide; [|done].
    destruct (try_recv (sendCh cl0)) as [[m ch]|] eqn:Hrecv; [|done].
    injection H as <-. simpl. destruct (decide (c = d)) as [->|Hne].
    + rewrite lookup_insert_eq. eexists. split; [done|]. simpl.
      rewrite Hd in Hc. injection Hc as <-.
      unfold try_recv in Hrecv. destruct (buf (sendCh cl0)) as [|m0 q]; [done|].
      injection Hrecv as <- <-. simpl. by apply suffix_cons_r.
    + rewrite lookup_insert_ne by done. by exists cl.
  - unfold step_writer_end in H.
    destruct (sessions w !! d) as [s|]; [|done].
    destruct (client_heap w !! d) as [cl0|] eqn:Hd; [|done].
    case_decide; [|done]. destruct (buf (sendCh cl0)) eqn:Hbuf; [|done].
    destruct (closed (sendCh cl0)); [|done].
    injection H as <-. simpl. destruct (decide (c = d)) as [->|Hne].
    + rewrite lookup_insert_eq. eexists. split; [done|]. simpl.
      rewrite Hd in Hc. by injection Hc as <-.
    + rewrite lookup_insert_ne by done. by exists cl.
  - unfold step_datagram in H. destruct (udp_busy w); [done|].
    destruct (udp_identity data t_user) as [[rn un] payload].
    case_decide; [|done].
    destruct (world_getRoom rn w) as [r w1] eqn:Hg.
    destruct (world_getRoom_inv _ _ _ _ Hinv Hg) as (_ & (rm & Hrm & _) & _ & Hch & _).
    rewrite Hrm in H. case_decide; [|done]. injection H as <-.
    simpl. rewrite Hch. by exists cl.
Qed.

Lemma run_torn_queue evs w w' c cl :
  world_inv w → run evs w = Next w' → torn_down w c →
  client_heap w !! c = Some cl →
  ∃ cl', client_heap w' !! c = Some cl' ∧
         buf (sendCh cl') `suffix_of` buf (sendCh cl).
Proof.
  revert w cl. induction evs as [|ev evs IH]; intros w cl Hinv Hrun Htorn Hc.
  - injection Hrun as <-. by exists cl.
  - apply run_cons_inv in Hrun as (w1 & Hstep & Hrun).
    destruct (step_torn_queue _ _ _ _ _ Hinv Hstep Htorn Hc) as (cl1 & Hc1 & Hsuf1).
    destruct (IH w1 cl1) as (cl' & Hc' & Hsuf'); [by eapply step_inv | done | | done |].
    + apply (step_torn_down _ _ _ c Hinv Hstep). by left.
    + exists cl'. split; [done|]. by etrans.
Qed.

Lemma world_getRoom_hub nm w r w1 nm' r' :
  world_getRoom nm w = (r, w1) →
  rooms (hub w) !! nm' = Some r' → rooms (hub w1) !! nm' = Some r'.
Proof.
  unfold world_getRoom.
  destruct (getRoom nm (hub w) (room_heap w)) as [[r0 h1] rh1] eqn:Hg.
  intros [= <- <-]. simpl. by eapply getRoom_keeps_names.
Qed.

(** A name of the hub keeps the room it has. *)
Lemma step_hub ev w w' nm r :
  step ev w = Next w' →
  rooms (hub w) !! nm = Some r → rooms (hub w') !! nm = Some r.
Proof.
  intros H Hr.
  destruct ev as [path now|d|d|d msg now order|i|i|d|d|d ok|d|
                  data remote t_user t_last t_env entries order]; simpl in H.
  - unfold step_connect in H. destruct (ws_identity path now) as [rn un].
    destruct (world_getRoom rn w) as [r0 w1] eqn:Hg. injection H as <-. simpl.
    by eapply world_getRoom_hub.
  - unfold step_join in H. step_cases H. done.
  - unfold step_go in H. step_cases H. done.
  - unfold step_read in H. step_cases H. done.
  - unfold step_offer in H. step_cases H. done.
  - unfold step_done in H. step_cases H; done.
  - unfold step_leave in H. step_cases H. done.
  - unfold step_close in H. step_cases H. done.
  - unfold step_write in H.
    destruct (sessions w !! d); [|done]. destruct (client_heap w !! d); [|done].
    case_decide; [|done]. destruct (try_recv _) as [[? ?]|]; [|done].
    by injection H as <-.
  - unfold step_writer_end in H. step_cases H. done.
  - unfold step_datagram in H. destruct (udp_busy w); [done|].
    destruct (udp_identity data t_user) as [[rn un] payload].
    case_decide; [|done].
    destruct (world_getRoom rn w) as [r0 w1] eqn:Hg.
    destruct (room_heap w1 !! r0); [|done]. case_decide; [|done].
    injection H as <-. simpl. by eapply world_getRoom_hub.
Qed.

Lemma run_hub evs w w' nm r :
  run evs w = Next w' →
  rooms (hub w) !! nm = Some r → rooms (hub w') !! nm = Some r.
Proof.
  revert w. induction evs as [|ev evs IH]; intros w Hrun Hr.
  - by injection Hrun as <-.
  - apply run_cons_inv in Hrun as (w1 & Hstep & Hrun).
    eapply IH; [done|]. by eapply step_hub.
Qed.

(** C3.  [Hub.getRoom] always returns: the room it returns is the one the
    hub holds under the name afterwards; a second call returns the same
    room and changes nothing; the rooms held under other names stay; a
    room made for a new name is a fresh one, empty and of that name; and
    along every schedule of the server a name, once it has a room, keeps
    that very room. *)
Theorem getRoom_idempotent (nm : string) (h : Hub) (rh : gmap room_ptr Room) :
  ∃ r h1 rh1,
    getRoom nm h rh = (r, h1, rh1) ∧
    rooms h1 !! nm = Some r ∧
    getRoom nm h1 rh1 = (r, h1, rh1) ∧
    (∀ nm' r', rooms h !! nm' = Some r' → rooms h1 !! nm' = Some r') ∧
    (rooms h !! nm = None → rh !! r = None ∧ rh1 !! r = Some (mkRoom nm ∅)) ∧
    (∀ evs evs' w w' r0,
       run evs init_world = Next w → run evs' w = Next w' →
       rooms (hub w) !! nm = Some r0 →
       rooms (hub w') !! nm = Some r0 ∧
       ∃ rm, room_heap w' !! r0 = Some rm ∧ name rm = nm).
Proof.
  destruct (getRoom nm h rh) as [[r h1] rh1] eqn:Hg. exists r, h1, rh1.
  split; [done|]. split; [by eapply getRoom_registers|].
  split; [by eapply getRoom_again|].
  split; [intros nm' r'; by eapply getRoom_keeps_names|]. split.
  - intros Hnone. destruct (getRoom_cases nm h rh) as [(r0 & Hr & _)|[_ Heq]]; [congruence|].
    rewrite Heq in Hg. injection Hg as <- <- <-.
    split; [apply fresh_room_unallocated | apply lookup_insert_eq].
  - intros evs evs' w w' r0 Hrun Hrun' Hr0.
    pose proof (run_hub _ _ _ _ _ Hrun' Hr0) as Hr0'. split; [done|].
    assert (Hinv : world_inv w').
    { eapply run_inv; [|exact Hrun']. apply reachable_inv. by exists evs. }
    apply (inv_hub w' Hinv _ _ Hr0').
Qed.

Lemma getRoom_idempotent_witness :
  ∃ r h1 rh1,
    getRoom "global" NewHub ∅ = (r, h1, rh1) ∧
    rooms h1 !! "global" = Some r ∧
    getRoom "global" h1 rh1 = (r, h1, rh1) ∧
    (∀ nm' r', rooms NewHub !! nm' = Some r' → rooms h1 !! nm' = Some r') ∧
    (rooms NewHub !! "global" = None →
     (∅ : gmap room_ptr Room) !! r = None ∧ rh1 !! r = Some (mkRoom "global" ∅)) ∧
    (∀ evs evs' w w' r0,
       run evs init_world = Next w → run evs' w = Next w' →
       rooms (hub w) !! "global" = Some r0 →
       rooms (hub w') !! "global" = Some r0 ∧
       ∃ rm, room_heap w' !! r0 = Some rm ∧ name rm = "global").
Proof. exact (getRoom_idempotent "global" NewHub ∅). Defined.

(** Two connections to the same room name get the same room. *)
Example getRoom_demo :
  match run [EvConnect "/ws/lobby/ann" 1; EvConnect "/ws/lobby/bob" 2] init_world with
  | Next w => (room <$> client_heap w !! 1%positive,
               room <$> client_heap w !! 2%positive,
               size (room_heap w))
  | _ => (None, None, 0)
  end = (Some 1%positive, Some 1%positive, 1).
Proof. vm_compute. reflexivity. Qed.

(** ** Join and leave *)

Lemma join_join c r : join c (join c r) = join c r.
Proof. unfold join. simpl. by rewrite insert_insert_eq. Qed.

Lemma join_member c r : clients r !! c = Some true → join c r = r.
Proof. intros H. unfold join. rewrite insert_id by done. by destruct r. Qed.

Lemma leave_absent c r : ¬ is_member c r → leave c r = r.
Proof.
  intros H. unfold leave. rewrite delete_id; [by destruct r|].
  unfold is_member in H. by apply eq_None_not_Some.
Qed.

Lemma leave_count c r : is_member c r → S (member_count (leave c r)) = member_count r.
Proof.
  intros [b Hb]. unfold member_count, leave. simpl.
  rewrite <- (insert_delete_id (clients r) c b Hb) at 2.
  rewrite map_size_insert_None; [done|]. apply lookup_delete_eq.
Qed.

Lemma join_count c r : is_member c r → member_count (join c r) = member_count r.
Proof.
  intros [b Hb]. unfold member_count, join. simpl.
  by rewrite map_size_insert_Some.
Qed.

(** What [room.leave] does in the world: the room of the client loses
    exactly this member. *)
Lemma step_leave_room c w w' :
  world_inv w → step (EvLeave c) w = Next w' →
  ∃ cl rm, client_heap w !! c = Some cl ∧ room_heap w !! room cl = Some rm ∧
           is_member c rm ∧ room_heap w' !! room cl = Some (leave c rm).
Proof.
  intros Hinv H. simpl in H. unfold step_leave in H.
  destruct (sessions w !! c) as [s|] eqn:Hs; [|done].
  destruct (client_heap w !! c) as [cl|] eqn:Hc; [|done].
  case_decide as Hpcw; [|done]. destruct Hpcw as [Hpc _].
  destruct (unlocked _ _); [|done].
  destruct (room_heap w !! room cl) as [rm|] eqn:Hrm; [|done]. injection H as <-.
  exists cl, rm. simpl. rewrite lookup_insert_eq. repeat split; try done.
  destruct (inv_joined w Hinv _ _ _ Hc Hs) as (rm' & Hrm' & Hm); [by left|].
  by simplify_eq.
Qed.

(** C7.  [Room.join] makes the client a member and keeps the others;
    joining twice is joining once, and joining as a member changes neither
    the room nor its size.  [Room.leave] removes the client and keeps the
    others; it changes nothing when the client is not a member, and takes
    the size of the room down by one when it is.  After it no broadcast in
    the room touches the client; and once the handler of a client has run
    its [room.leave], no schedule of the server adds a frame to the queue
    of that client. *)
Theorem join_leave_membership (r : Room) (c : client_ptr) :
  is_member c (join c r) ∧
  (∀ c', c' ≠ c → is_member c' (join c r) ↔ is_member c' r) ∧
  join c (join c r) = join c r ∧
  (clients r !! c = Some true → join c r = r) ∧
  (is_member c r → member_count (join c r) = member_count r) ∧
  ¬ is_member c (leave c r) ∧
  (∀ c', c' ≠ c → is_member c' (leave c r) ↔ is_member c' r) ∧
  (¬ is_member c r → leave c r = r) ∧
  (is_member c r → S (member_count (leave c r)) = member_count r) ∧
  (∀ order sender msg cs cs',
     order ≡ₚ members (leave c r) →
     broadcast_range order sender msg cs = Some cs' → cs' !! c = cs !! c) ∧
  (∀ evs w w1 evs' w',
     run evs init_world = Next w → step (EvLeave c) w = Next w1 →
     run evs' w1 = Next w' →
     ∃ cl rm cl',
       client_heap w !! c = Some cl ∧ room_heap w !! room cl = Some rm ∧
       is_member c rm ∧ room_heap w1 !! room cl = Some (leave c rm) ∧
       S (member_count (leave c rm)) = member_count rm ∧
       client_heap w' !! c = Some cl' ∧
       buf (sendCh cl') `suffix_of` buf (sendCh cl)).
Proof.
  split; [apply is_member_join; by left|].
  split; [intros c' Hne; rewrite is_member_join; tauto|].
  split; [apply join_join|]. split; [apply join_member|]. split; [apply join_count|].
  split; [rewrite is_member_leave; by intros [? _]|].
  split; [intros c' Hne; rewrite is_member_leave; tauto|].
  split; [apply leave_absent|]. split; [apply leave_count|]. split.
  - intros order sender msg cs cs' Hperm Hrun.
    eapply broadcast_range_elsewhere; [done|].
    rewrite Hperm, elem_of_members, is_member_leave. by intros [? _].
  - intros evs w w1 evs' w' Hrun Hstep Hrun'.
    assert (Hinv : world_inv w) by (apply reachable_inv; by exists evs).
    destruct (step_leave_room _ _ _ Hinv Hstep) as (cl & rm & Hc & Hrm & Hm & Hrm1).
    assert (Hc1 : client_heap w1 !! c = Some cl).
    { simpl in Hstep. unfold step_leave in Hstep. step_cases Hstep. simpl. congruence. }
    destruct (run_torn_queue evs' w1 w' c cl) as (cl' & Hc' & Hsuf); try done.
    { by eapply step_inv. }
    { left. by apply (step_leave_pc _ _ _ Hstep). }
    exists cl, rm, cl'. repeat split; try done. by apply leave_count.
Qed.

Lemma run_torn_down evs w w' c :
  world_inv w → run evs w = Next w' → torn_down w c → torn_down w' c.
Proof.
  revert w. induction evs as [|ev evs IH]; intros w Hinv Hrun Htorn.
  - by injection Hrun as <-.
  - apply run_cons_inv in Hrun as (w1 & Hstep & Hrun).
    eapply IH; [by eapply step_inv | done |].
    apply (step_torn_down _ _ _ c Hinv Hstep). by left.
Qed.

(** [room.leave] runs at most once for a client. *)
Lemma leave_once evs w c e1 e2 :
  run evs init_world = Next w →
  evs = e1 ++ EvLeave c :: e2 →
  (EvLeave c ∉ e1) ∧ (EvLeave c ∉ e2).
Proof.
  intros Hrun ->.
  apply run_app in Hrun as (w1 & Hrun1 & Hrun2).
  apply run_cons_inv in Hrun2 as (w2 & Hstep & Hrun2).
  destruct (run_trace _ _ c Hrun1) as [Hl _].
  pose proof (step_leave_pc _ _ _ Hstep) as [Hpc1 Hpc2].
  assert (Hinv1 : world_inv w1) by (apply reachable_inv; by exists e1).
  split.
  - intros Hin%Hl. destruct Hin; congruence.
  - intros Hin. apply list_elem_of_split in Hin as (e3 & e4 & ->).
    apply run_app in Hrun2 as (w3 & Hrun3 & Hrun4).
    apply run_cons_inv in Hrun4 as (w4 & Hstep4 & _).
    pose proof (step_leave_pc _ _ _ Hstep4) as [Hpc3 _].
    assert (Htorn : torn_down w3 c).
    { eapply run_torn_down; [by eapply step_inv | done | by left]. }
    destruct Htorn; congruence.
Qed.

Lemma close_enabled w c :
  world_inv w → pc_of w c = Some Left → ∃ w', step (EvClose c) w = Next w'.
Proof.
  intros Hinv Hpc. unfold pc_of in Hpc. simpl. unfold step_close.
  destruct (sessions w !! c) as [s|] eqn:Hs; [|done]. simpl in Hpc.
  injection Hpc as Hpc.
  destruct (inv_session w Hinv _ _ Hs) as [cl Hc]. rewrite Hc.
  rewrite decide_True by done. unfold close_chan.
  rewrite (not_closed_unless_Closed w c cl s); [eauto|done..|congruence].
Qed.

(** C8.  Along every schedule of the server: a client whose queue is
    closed has its handler past [close(client.sendCh)] and is a member of
    no room; [close(client.sendCh)] runs at most once for a client, and
    only after the [room.leave] of that client, which runs at most once
    too; a handler that has left its room can always close its queue; and
    no step panics, so no frame is ever sent on a closed queue. *)
Theorem queue_closed_only_after_leave (evs : list event) (w : World) :
  run evs init_world = Next w →
  (∀ c cl, client_heap w !! c = Some cl → closed (sendCh cl) = true →
     pc_of w c = Some Closed ∧
     ∀ rp rm, room_heap w !! rp = Some rm → ¬ is_member c rm) ∧
  (∀ c e1 e2, evs = e1 ++ EvClose c :: e2 →
     EvLeave c ∈ e1 ∧ (EvClose c ∉ e1) ∧ (EvClose c ∉ e2)) ∧
  (∀ c e1 e2, evs = e1 ++ EvLeave c :: e2 →
     (EvLeave c ∉ e1) ∧ (EvLeave c ∉ e2)) ∧
  (∀ c, pc_of w c = Some Left → ∃ w', step (EvClose c) w = Next w') ∧
  (∀ ev, step ev w ≠ Panic).
Proof.
  intros Hrun.
  assert (Hinv : world_inv w) by (apply reachable_inv; by exists evs).
  split; [|split; [|split; [|split]]].
  - intros c cl Hc Hcl.
    destruct (inv_client w Hinv _ _ Hc) as [_ [s Hs]].
    pose proof (inv_closed w Hinv _ _ _ Hc Hs Hcl) as Hpc. split.
    + unfold pc_of. rewrite Hs. simpl. by rewrite Hpc.
    + intros rp rm Hrp Hm.
      destruct (inv_member w Hinv _ _ _ Hrp Hm) as (cl' & s' & Hc' & _ & _ & Hopen & _).
      congruence.
  - intros c e1 e2 Heq. by eapply close_once_after_leave.
  - intros c e1 e2 Heq. by eapply leave_once.
  - intros c. by apply close_enabled.
  - intros ev. by apply step_no_panic.
Qed.


Lemma demo_schedule_runs : run demo_schedule init_world = Next demo_world.
Proof. vm_compute. reflexivity. Qed.

Lemma queue_closed_only_after_leave_witness :
  (∀ c cl, client_heap demo_world !! c = Some cl → closed (sendCh cl) = true →
     pc_of demo_world c = Some Closed ∧
     ∀ rp rm, room_heap demo_world !! rp = Some rm → ¬ is_member c rm) ∧
  (∀ c e1 e2, demo_schedule = e1 ++ EvClose c :: e2 →
     EvLeave c ∈ e1 ∧ (EvClose c ∉ e1) ∧ (EvClose c ∉ e2)) ∧
  (∀ c e1 e2, demo_schedule = e1 ++ EvLeave c :: e2 →
     (EvLeave c ∉ e1) ∧ (EvLeave c ∉ e2)) ∧
  (∀ c, pc_of demo_world c = Some Left → ∃ w', step (EvClose c) demo_world = Next w') ∧
  (∀ ev, step ev demo_world ≠ Panic).
Proof.
  apply (queue_closed_only_after_leave demo_schedule demo_world).
  vm_compute. reflexivity.
Defined.

(** In the demo C has left and closed its queue: it is in no room, the
    frame A sent before is still in its queue, and the datagram injected
    afterwards went to A only so far. *)
Example teardown_demo :
  (closed ∘ sendCh <$> client_heap demo_world !! 3%positive,
   pc_of demo_world 3%positive,
   members <$> room_heap demo_world !! 1%positive,
   length ∘ buf ∘ sendCh <$> client_heap demo_world !! 3%positive,
   length ∘ buf ∘ sendCh <$> client_heap demo_world !! 1%positive,
   length ∘ written ∘ conn <$> client_heap demo_world !! 2%positive)
  = (Some true, Some Closed, Some [2; 1]%positive, Some 1, Some 1, Some 1).
Proof. vm_compute. reflexivity. Qed.

(** Closing before leaving is not a step of the handler, and a second
    [close] neither. *)
Example close_before_leave_disabled :
  run [EvConnect "/ws/global/A" 1; EvJoin 1%positive; EvGo 1%positive;
       EvClose 1%positive] init_world = Disabled
  ∧ run [EvConnect "/ws/global/A" 1; EvJoin 1%positive; EvGo 1%positive;
         EvLeave 1%positive; EvClose 1%positive; EvClose 1%positive] init_world = Disabled.
Proof. split; vm_compute; reflexivity. Qed.


(** ** Strings *)

Lemma app_cons a s t : String a s +:+ t = String a (s +:+ t).
Proof. reflexivity. Qed.

Lemma app_nil_l t : EmptyString +:+ t = t.
Proof. reflexivity. Qed.

Lemma app_nil_r s : s +:+ EmptyString = s.
Proof. induction s as [|a s IH]; [done|]. by rewrite app_cons, IH. Qed.

Lemma app_assoc' s t u : (s +:+ t) +:+ u = s +:+ (t +:+ u).
Proof. induction s as [|a s IH]; [done|]. by rewrite !app_cons, IH. Qed.

Lemma length_app' s t : String.length (s +:+ t) = String.length s + String.length t.
Proof. induction s as [|a s IH]; [done|]. rewrite app_cons. simpl. by rewrite IH. Qed.

Lemma slice_to_app s t : slice_to (String.length s) (s +:+ t) = s.
Proof. induction s as [|a s IH]; [by destruct t|]. rewrite app_cons. simpl. by rewrite IH. Qed.

Lemma slice_from_app s t : slice_from (String.length s) (s +:+ t) = t.
Proof. induction s as [|a s IH]; [done|]. by rewrite app_cons. Qed.

Lemma slice_to_all s : slice_to (String.length s) s = s.
Proof. induction s as [|a s IH]; [done|]. simpl. by rewrite IH. Qed.

Lemma has_byte_app c s t : has_byte c (s +:+ t) = has_byte c s || has_byte c t.
Proof.
  induction s as [|a s IH]; [done|]. rewrite app_cons. simpl.
  by rewrite IH, orb_assoc.
Qed.

Lemma HasPrefix_byte a t c :
  strings.HasPrefix (String a t) (String c EmptyString) = Ascii.eqb a c.
Proof. simpl. destruct (Ascii.eqb a c); [by destruct t | done]. Qed.

Lemma HasPrefix_byte_nil c : strings.HasPrefix EmptyString (String c EmptyString) = false.
Proof. done. Qed.

Lemma Index_from_absent c s i :
  has_byte c s = false → strings.Index_from i s (String c EmptyString) = (-1)%Z.
Proof.
  revert i. induction s as [|a s IH]; intros i; [done|].
  simpl has_byte. intros [Ha Hs]%orb_false_iff.
  cbn [strings.Index_from]. rewrite HasPrefix_byte, Ha. by apply IH.
Qed.

Lemma Index_from_first c pre post i :
  has_byte c pre = false →
  strings.Index_from i (pre +:+ String c post) (String c EmptyString)
  = (i + Z.of_nat (String.length pre))%Z.
Proof.
  revert i. induction pre as [|a pre IH]; intros i.
  - intros _. rewrite app_nil_l. cbn [strings.Index_from].
    rewrite HasPrefix_byte, Ascii.eqb_refl. simpl. lia.
  - simpl has_byte. intros [Ha Hs]%orb_false_iff. rewrite app_cons.
    cbn [strings.Index_from]. rewrite HasPrefix_byte, Ha, IH by done.
    simpl String.length. lia.
Qed.

Lemma Index_absent c s :
  has_byte c s = false → strings.Index s (String c EmptyString) = (-1)%Z.
Proof. apply Index_from_absent. Qed.

Lemma Index_first c pre post :
  has_byte c pre = false →
  strings.Index (pre +:+ String c post) (String c EmptyString)
  = Z.of_nat (String.length pre).
Proof. intros H. unfold strings.Index. by rewrite Index_from_first. Qed.

(** The datagram is cut at its first line break, whatever the line
    holds. *)
Lemma parseUDPFrame_cut pre post :
  has_byte LF_byte pre = false →
  parseUDPFrame (pre +:+ LF +:+ post)
  = (fold_left parse_part (strings.Split pre ";") (EmptyString, EmptyString), post).
Proof.
  intros Hpre. unfold parseUDPFrame, LF.
  change (String "010"%char EmptyString +:+ post) with (String LF_byte post).
  change (String "010"%char EmptyString) with (String LF_byte EmptyString).
  rewrite Index_first by done.
  rewrite (proj2 (Z.leb_le _ _)) by lia. rewrite Nat2Z.id.
  rewrite slice_to_app.
  replace (String.length pre + 1) with (String.length (pre +:+ String LF_byte EmptyString)).
  2:{ rewrite length_app'. simpl. lia. }
  change (String LF_byte post) with (String LF_byte EmptyString +:+ post).
  rewrite <- app_assoc', slice_from_app.
  by destruct (fold_left _ _ _).
Qed.

Lemma parseUDPFrame_no_line_break b :
  has_byte LF_byte b = false → parseUDPFrame b = (EmptyString, EmptyString, b).
Proof.
  intros H. unfold parseUDPFrame, LF.
  change (String "010"%char EmptyString) with (String LF_byte EmptyString).
  by rewrite Index_absent.
Qed.


(** ** Slices keep bytes out *)

Lemma slice_to_nil n : slice_to n EmptyString = EmptyString.
Proof. by destruct n. Qed.

Lemma slice_from_nil n : slice_from n EmptyString = EmptyString.
Proof. by destruct n. Qed.

Lemma has_byte_slice_to c n s : has_byte c s = false → has_byte c (slice_to n s) = false.
Proof.
  revert n. induction s as [|a s IH]; intros [|n]; try done.
  simpl. intros [-> Hs]%orb_false_iff. simpl. by apply IH.
Qed.

Lemma has_byte_slice_from c n s : has_byte c s = false → has_byte c (slice_from n s) = false.
Proof.
  revert n. induction s as [|a s IH]; intros [|n]; try done.
  simpl. intros [_ Hs]%orb_false_iff. by apply IH.
Qed.

Lemma has_byte_TrimLeftFunc c s f :
  has_byte c s = false → has_byte c (strings.TrimLeftFunc s f) = false.
Proof.
  intros H. unfold strings.TrimLeftFunc. destruct (strings.indexFunc s f false); [|done].
  by apply has_byte_slice_from.
Qed.

Lemma has_byte_TrimRightFunc c s f :
  has_byte c s = false → has_byte c (strings.TrimRightFunc s f) = false.
Proof.
  intros H. unfold strings.TrimRightFunc. destruct (strings.lastIndexFunc s f false); [|done].
  destruct (_ <=? _)%N; by apply has_byte_slice_to.
Qed.

Lemma has_byte_TrimSpace_start c s start t :
  has_byte c t = false → has_byte c (strings.TrimSpace_start s start t) = false.
Proof.
  revert start. induction t as [|a t IH]; intros start; [done|].
  intros H. cbn [strings.TrimSpace_start].
  destruct (_ <=? _)%N.
  { unfold strings.TrimFunc. by apply has_byte_TrimRightFunc, has_byte_TrimLeftFunc. }
  destruct (strings.asciiSpace _).
  { apply IH. simpl in H. by apply orb_false_iff in H as [_ ?]. }
  destruct (strings.TrimSpace_stop _ _ _).
  - by apply has_byte_slice_to.
  - by apply has_byte_TrimRightFunc, has_byte_slice_to.
Qed.

Lemma has_byte_TrimSpace c s :
  has_byte c s = false → has_byte c (strings.TrimSpace s) = false.
Proof. apply has_byte_TrimSpace_start. Qed.

(** ** Splitting at a byte *)

Lemma genSplit_absent c k s :
  has_byte c s = false → strings.genSplit k s (String c EmptyString) = [s].
Proof. intros H. destruct k; [done|]. simpl. by rewrite Index_absent. Qed.

Lemma genSplit_first c k pre post :
  has_byte c pre = false →
  strings.genSplit (S k) (pre +:+ String c post) (String c EmptyString)
  = pre :: strings.genSplit k post (String c EmptyString).
Proof.
  intros H. cbn [strings.genSplit]. rewrite Index_first by done.
  rewrite (proj2 (Z.ltb_ge _ _)) by lia. rewrite Nat2Z.id, slice_to_app.
  f_equal. f_equal.
  replace (String.length pre + String.length (String c EmptyString))
    with (String.length (pre +:+ String c EmptyString)).
  2:{ by rewrite length_app'. }
  change (String c post) with (String c EmptyString +:+ post).
  by rewrite <- app_assoc', slice_from_app.
Qed.

Lemma genSplit_parts c k s :
  has_byte c s = false →
  ∀ sep, Forall (λ p, has_byte c p = false) (strings.genSplit k s sep).
Proof.
  revert s. induction k as [|k IH]; intros s H sep; simpl.
  - by constructor.
  - destruct (_ <? _)%Z; [by constructor|]. constructor.
    + by apply has_byte_slice_to.
    + apply IH. by apply has_byte_slice_from.
Qed.

(** A part without a colon is passed over. *)
Lemma parse_part_no_colon acc part :
  has_byte ":" part = false → parse_part acc part = acc.
Proof.
  intros H. unfold parse_part, strings.SplitN.
  by rewrite genSplit_absent by (by apply has_byte_TrimSpace).
Qed.

Lemma fold_parse_part_no_colon parts acc :
  Forall (λ p, has_byte ":" p = false) parts → fold_left parse_part parts acc = acc.
Proof.
  revert acc. induction parts as [|p parts IH]; intros acc; [done|].
  intros [Hp Hps]%Forall_cons. simpl. rewrite parse_part_no_colon by done. by apply IH.
Qed.

(** ** White space around plain text *)

Lemma all_bytes_byte_at P s i :
  strings.all_bytes P s = true → i < String.length s → P (byte_at s i) = true.
Proof.
  revert i. induction s as [|a s IH]; intros i; simpl; [lia|].
  intros [Ha Hs]%andb_true_iff Hi. destruct i as [|i]; [done|].
  unfold byte_at. simpl. apply (IH i Hs). lia.
Qed.

Lemma plain_byte_not_space c :
  plain_byte c = true → (utf8.RuneSelf <=? c)%N = false ∧ strings.asciiSpace c = false.
Proof.
  unfold plain_byte, strings.asciiSpace, utf8.RuneSelf.
  intros [H1 H2]%andb_true_iff. apply N.leb_le in H1, H2. split.
  - apply N.leb_gt. lia.
  - repeat (apply orb_false_iff; split); apply N.eqb_neq; lia.
Qed.

Lemma TrimSpace_stop_plain s k :
  0 < k → plain_byte (byte_at s (k - 1)) = true →
  strings.TrimSpace_stop s 0 k = inl k.
Proof.
  destruct k as [|k]; [lia|]. intros _ H. simpl.
  replace (S k - 1) with k in H by lia.
  by destruct (plain_byte_not_space _ H) as [-> ->].
Qed.

(** Text that begins and ends with a plain byte is not trimmed. *)
Lemma TrimSpace_tight s :
  plain_byte (byte_at s 0) = true →
  plain_byte (byte_at s (String.length s - 1)) = true →
  strings.TrimSpace s = s.
Proof.
  destruct s as [|a t]; [done|]. intros H0 Hlast.
  unfold strings.TrimSpace. cbn [strings.TrimSpace_start].
  change (byte_at (String a t) 0) with (byte_val a) in H0.
  destruct (plain_byte_not_space _ H0) as [-> ->].
  rewrite TrimSpace_stop_plain; [|simpl; lia|done].
  by rewrite Nat.sub_0_r, slice_to_all.
Qed.

Lemma TrimSpace_plain s : plain s = true → strings.TrimSpace s = s.
Proof.
  intros H. destruct s as [|a t]; [done|]. apply TrimSpace_tight.
  - apply (all_bytes_byte_at _ _ 0 H). simpl. lia.
  - apply (all_bytes_byte_at _ _ _ H). simpl. lia.
Qed.

Lemma all_bytes_app P s t :
  strings.all_bytes P (s +:+ t) = strings.all_bytes P s && strings.all_bytes P t.
Proof.
  induction s as [|a s IH]; [done|]. rewrite app_cons. simpl.
  by rewrite IH, andb_assoc.
Qed.

(** ** Keys *)

(** [strings.ToUpper] on an all-ASCII string *)
Lemma ToUpper_ascii s :
  strings.all_bytes (λ c, (c <? utf8.RuneSelf)%N) s = true →
  strings.ToUpper s
  = strings.map_bytes (λ c, if strings.is_lower c then (c - 0x20)%N else c) s.
Proof.
  intros H. unfold strings.ToUpper. rewrite H.
  destruct (strings.all_bytes (λ c, negb (strings.is_lower c)) s) eqn:Hl; simpl; [|done].
  clear H. induction s as [|a s IH]; [done|]. simpl in *.
  apply andb_true_iff in Hl as [Ha Hs]. rewrite <- IH by done.
  apply negb_true_iff in Ha. rewrite Ha. f_equal.
  unfold byte_of, byte_val. rewrite N.mod_small by apply N_ascii_bounded.
  by rewrite ascii_N_embedding.
Qed.


Lemma lower_upper_byte a :
  (byte_val a <? utf8.RuneSelf)%N = true → lower_byte (upper_byte a) = lower_byte a.
Proof. destruct a as [[] [] [] [] [] [] [] []]; vm_compute; done. Qed.

Lemma lower_ascii_ToUpper s :
  strings.all_bytes (λ c, (c <? utf8.RuneSelf)%N) s = true →
  lower_ascii (strings.ToUpper s) = lower_ascii s.
Proof.
  intros H. rewrite ToUpper_ascii by done.
  induction s as [|a s IH]; [done|]. simpl in H. apply andb_true_iff in H as [Ha Hs].
  unfold lower_ascii in *. simpl. rewrite IH by done. f_equal.
  by apply (lower_upper_byte a).
Qed.

Lemma plain_ascii s :
  plain s = true → strings.all_bytes (λ c, (c <? utf8.RuneSelf)%N) s = true.
Proof.
  induction s as [|a s IH]; [done|]. unfold plain. simpl.
  intros [Ha Hs]%andb_true_iff. rewrite (IH Hs), andb_true_r.
  unfold plain_byte, utf8.RuneSelf in *. apply andb_true_iff in Ha as [_ Ha].
  apply N.leb_le in Ha. apply N.ltb_lt. lia.
Qed.

Lemma lower_byte_cases a b :
  lower_byte a = b →
  (0x61 <=? byte_val b)%N && (byte_val b <=? 0x7A)%N = true →
  a = b ∨ a = byte_of (byte_val b - 0x20).
Proof.
  intros <-. destruct a as [[] [] [] [] [] [] [] []]; vm_compute; intros; auto; done.
Qed.

Lemma lower_ascii_cons a s :
  lower_ascii (String a s) = String (lower_byte a) (lower_ascii s).
Proof. done. Qed.

(** A key that reads "room" or "user" up to the case of its letters is
    one of sixteen strings, each of which [ToUpper] sends to the key. *)
Lemma key_variant (k target : string) :
  (target = "room" ∨ target = "user") →
  lower_ascii k = target →
  strings.ToUpper k = strings.ToUpper target ∧ plain k = true ∧ has_byte ":" k = false.
Proof.
  intros Ht Hk.
  destruct k as [|a1 [|a2 [|a3 [|a4 [|a5 k]]]]];
    try (destruct Ht as [-> | ->]; discriminate Hk).
  rewrite !lower_ascii_cons in Hk.
  destruct Ht as [-> | ->]; injection Hk as H1 H2 H3 H4;
    apply lower_byte_cases in H1 as [-> | ->]; try done;
    apply lower_byte_cases in H2 as [-> | ->]; try done;
    apply lower_byte_cases in H3 as [-> | ->]; try done;
    apply lower_byte_cases in H4 as [-> | ->]; try done;
    vm_compute; done.
Qed.

Lemma plain_has_byte c s :
  plain_byte (byte_val c) = false → plain s = true → has_byte c s = false.
Proof.
  intros Hc. induction s as [|a s IH]; [done|]. unfold plain. simpl.
  intros [Ha Hs]%andb_true_iff. rewrite (IH Hs), orb_false_r.
  destruct (Ascii.eqb_spec a c) as [->|]; [congruence|done].
Qed.

Lemma plain_app s t : plain (s +:+ t) = plain s && plain t.
Proof. apply all_bytes_app. Qed.

(** A part [k:v] of plain text: the key is compared in upper case. *)
Lemma parse_part_pair acc k v :
  plain k = true → has_byte ":" k = false → plain v = true →
  parse_part acc (k +:+ ":" +:+ v)
  = if String.eqb (strings.ToUpper k) "ROOM" then (v, snd acc)
    else if String.eqb (strings.ToUpper k) "USER" then (fst acc, v)
    else acc.
Proof.
  intros Hk Hc Hv. unfold parse_part.
  rewrite TrimSpace_plain by (rewrite !plain_app, Hk, Hv; done).
  unfold strings.SplitN. change (2 - 1) with 1.
  change (":" +:+ v) with (String ":"%char v).
  rewrite genSplit_first by done. cbn [strings.genSplit].
  by rewrite !TrimSpace_plain by done.
Qed.

Lemma parse_part_unrecognized acc k v :
  plain k = true → has_byte ":" k = false → plain v = true →
  lower_ascii k ≠ "room" → lower_ascii k ≠ "user" →
  parse_part acc (k +:+ ":" +:+ v) = acc.
Proof.
  intros Hk Hc Hv Hr Hu. rewrite parse_part_pair by done.
  pose proof (lower_ascii_ToUpper k (plain_ascii k Hk)) as Hlow.
  destruct (String.eqb_spec (strings.ToUpper k) "ROOM") as [Heq|_].
  { rewrite Heq in Hlow. by destruct Hr. }
  destruct (String.eqb_spec (strings.ToUpper k) "USER") as [Heq|_]; [|done].
  rewrite Heq in Hlow. by destruct Hu.
Qed.

Lemma Split_two p1 p2 :
  has_byte ";" p1 = false → has_byte ";" p2 = false →
  strings.Split (p1 +:+ ";" +:+ p2) ";" = [p1; p2].
Proof.
  intros H1 H2. unfold strings.Split.
  change (";" +:+ p2) with (String ";"%char p2).
  rewrite length_app'. simpl String.length. rewrite Nat.add_succ_r.
  rewrite genSplit_first by done. by rewrite genSplit_absent.
Qed.

(** The header [ROOM:vr;USER:vu] with its keys in any case. *)
Lemma parseUDPFrame_room_user kr ku vr vu payload :
  lower_ascii kr = "room" → lower_ascii ku = "user" →
  plain vr = true → plain vu = true →
  has_byte ";" vr = false → has_byte ";" vu = false →
  parseUDPFrame (kr +:+ ":" +:+ vr +:+ ";" +:+ ku +:+ ":" +:+ vu +:+ LF +:+ payload)
  = (vr, vu, payload).
Proof.
  intros Hkr Hku Hvr Hvu Hsr Hsu.
  destruct (key_variant kr "room") as (Hur & Hpr & Hcr); [by left | done |].
  destruct (key_variant ku "user") as (Huu & Hpu & Hcu); [by right | done |].
  assert (Hk_semi : ∀ k, plain k = true → has_byte ":" k = false →
            lower_ascii k = "room" ∨ lower_ascii k = "user" →
            has_byte ";" k = false).
  { intros k _ _ Hk.
    destruct k as [|a1 [|a2 [|a3 [|a4 [|a5 k]]]]];
      try (destruct Hk as [Hk|Hk]; discriminate Hk).
    rewrite !lower_ascii_cons in Hk.
    destruct Hk as [Hk|Hk]; injection Hk as H1 H2 H3 H4;
      apply lower_byte_cases in H1 as [-> | ->]; try done;
      apply lower_byte_cases in H2 as [-> | ->]; try done;
      apply lower_byte_cases in H3 as [-> | ->]; try done;
      apply lower_byte_cases in H4 as [-> | ->]; try done. }
  set (p1 := kr +:+ ":" +:+ vr). set (p2 := ku +:+ ":" +:+ vu).
  replace (kr +:+ ":" +:+ vr +:+ ";" +:+ ku +:+ ":" +:+ vu +:+ LF +:+ payload)
    with ((p1 +:+ ";" +:+ p2) +:+ LF +:+ payload).
  2:{ unfold p1, p2. by rewrite !app_assoc'. }
  assert (Hp1 : has_byte ";" p1 = false).
  { unfold p1. rewrite !has_byte_app, Hsr, (Hk_semi kr) by auto. done. }
  assert (Hp2 : has_byte ";" p2 = false).
  { unfold p2. rewrite !has_byte_app, Hsu, (Hk_semi ku) by auto. done. }
  rewrite parseUDPFrame_cut.
  2:{ apply plain_has_byte; [done|]. unfold p1, p2.
      rewrite !plain_app, Hpr, Hpu, Hvr, Hvu. done. }
  rewrite Split_two by done. unfold p1, p2. simpl.
  rewrite !parse_part_pair by done. rewrite Hur, Huu. done.
Qed.

(** ** Generated names *)

Lemma to_int_nonnil z :
  Z.to_int z ≠ Decimal.Pos Decimal.Nil ∧ Z.to_int z ≠ Decimal.Neg Decimal.Nil.
Proof.
  destruct z as [|p|p]; simpl; split; intros [=];
    by apply (DecimalPos.Unsigned.to_uint_nonnil p).
Qed.

Lemma int_of_string_Itoa z :
  NilZero.int_of_string (strconv.Itoa z) = Some (Z.to_int z).
Proof. unfold strconv.Itoa. apply NilZero.isi; apply to_int_nonnil. Qed.

Lemma Itoa_inj z1 z2 : strconv.Itoa z1 = strconv.Itoa z2 → z1 = z2.
Proof.
  intros H. apply (f_equal NilZero.int_of_string) in H.
  rewrite !int_of_string_Itoa in H. injection H as H.
  apply (f_equal Z.of_int) in H. by rewrite !DecimalZ.of_to in H.
Qed.


Lemma ToUpper_is_key k (key KEY : string) :
  (key = "room" ∧ KEY = "ROOM") ∨ (key = "user" ∧ KEY = "USER") →
  plain k = true →
  String.eqb (strings.ToUpper k) KEY = String.eqb (lower_ascii k) key.
Proof.
  intros Hkey Hk.
  pose proof (lower_ascii_ToUpper k (plain_ascii k Hk)) as Hlow.
  destruct (String.eqb_spec (lower_ascii k) key) as [Heq|Hne].
  - destruct (key_variant k key) as (Hu & _); [destruct Hkey as [[-> _]|[-> _]]; auto | done |].
    rewrite Hu. destruct Hkey as [[-> ->]|[-> ->]]; done.
  - apply String.eqb_neq. intros Heq. rewrite Heq in Hlow.
    destruct Hkey as [[-> ->]|[-> ->]]; by destruct Hne.
Qed.


Lemma clean_pair_part kv : clean_pair kv → has_byte ";" (part_of kv) = false.
Proof.
  intros (_ & _ & Hk & _ & Hv). unfold part_of. by rewrite !has_byte_app, Hk, Hv.
Qed.

Lemma join_header_cons kv kv' rest :
  join_header (kv :: kv' :: rest)
  = part_of kv +:+ String ";"%char (join_header (kv' :: rest)).
Proof.
  destruct kv as [k v]. unfold part_of. cbn [join_header fst snd].
  by rewrite !app_assoc'.
Qed.

Lemma join_header_one kv : join_header [kv] = part_of kv.
Proof. by destruct kv. Qed.

Lemma genSplit_join_header pairs n :
  Forall clean_pair pairs → String.length (join_header pairs) ≤ n →
  strings.genSplit n (join_header pairs) ";"
  = match pairs with [] => [EmptyString] | _ => part_of <$> pairs end.
Proof.
  revert n. induction pairs as [|kv rest IH]; intros n Hclean Hlen.
  - by destruct n.
  - apply Forall_cons in Hclean as [Hkv Hrest].
    pose proof (clean_pair_part _ Hkv) as Hsemi. destruct rest as [|kv' rest].
    + rewrite join_header_one. by rewrite genSplit_absent.
    + rewrite join_header_cons in *.
      rewrite length_app' in Hlen. cbn [String.length] in Hlen.
      destruct n as [|n]; [lia|].
      rewrite genSplit_first by done. rewrite IH; [done | done | lia].
Qed.

Lemma fold_parse_part_pairs pairs acc :
  Forall clean_pair pairs →
  fold_left parse_part (part_of <$> pairs) acc
  = (spec_header_value "room" pairs acc.1, spec_header_value "user" pairs acc.2).
Proof.
  revert acc. induction pairs as [|[k v] rest IH]; intros [r u] Hclean.
  - done.
  - apply Forall_cons in Hclean as [(Hk & Hc & _ & Hv & _) Hrest].
    cbn [fst snd] in Hk, Hc, Hv.
    rewrite fmap_cons. cbn [fold_left].
    change (part_of (k, v)) with (k +:+ ":" +:+ v).
    rewrite parse_part_pair by done.
    rewrite (ToUpper_is_key k "room" "ROOM") by auto.
    rewrite (ToUpper_is_key k "user" "USER") by auto.
    cbn [spec_header_value fst snd].
    destruct (String.eqb_spec (lower_ascii k) "room") as [Hr|Hr].
    + rewrite IH by done. cbn [fst snd]. rewrite Hr. done.
    + destruct (String.eqb_spec (lower_ascii k) "user") as [Hu|Hu];
        by rewrite IH by done.
Qed.

Lemma plain_join_header pairs :
  Forall clean_pair pairs → plain (join_header pairs) = true.
Proof.
  induction pairs as [|[k v] rest IH]; [done|].
  intros [(Hk & _ & _ & Hv & _) Hrest]%Forall_cons. simpl in Hk, Hv.
  destruct rest as [|kv' rest].
  - rewrite join_header_one. unfold part_of. cbn [fst snd].
    by rewrite !plain_app, Hk, Hv.
  - rewrite join_header_cons. unfold part_of. cbn [fst snd].
    change (String ";"%char (join_header (kv' :: rest)))
      with (";" +:+ join_header (kv' :: rest)).
    rewrite !plain_app, Hk, Hv, IH by done. done.
Qed.

(** The header read by the code is the header as specified. *)
Lemma parseUDPFrame_header pairs payload :
  Forall clean_pair pairs →
  parseUDPFrame (join_header pairs +:+ LF +:+ payload)
  = (spec_header_value "room" pairs EmptyString,
     spec_header_value "user" pairs EmptyString, payload).
Proof.
  intros Hclean. rewrite parseUDPFrame_cut.
  2:{ apply plain_has_byte; [done|]. by apply plain_join_header. }
  unfold strings.Split. rewrite genSplit_join_header by done.
  destruct pairs as [|kv rest]; [done|].
  by rewrite fold_parse_part_pairs.
Qed.

(** C9.  A datagram with a line break is cut at the first one: the bytes
    before it are read as the header, whatever they are, and the payload
    is what follows it.  A first line without a colon names neither room
    nor user, and still the payload has lost it: the payload is shorter
    than the datagram and differs from it. *)
Theorem parseUDPFrame_cuts_at_first_line_break (pre post : string) :
  has_byte LF_byte pre = false →
  ∃ room user,
    parseUDPFrame (pre +:+ LF +:+ post) = (room, user, post) ∧
    (has_byte ":" pre = false → room = EmptyString ∧ user = EmptyString) ∧
    String.length post < String.length (pre +:+ LF +:+ post) ∧
    post ≠ pre +:+ LF +:+ post.
Proof.
  intros Hpre. rewrite parseUDPFrame_cut by done.
  destruct (fold_left parse_part (strings.Split pre ";") (EmptyString, EmptyString))
    as [room user] eqn:Hfold.
  exists room, user. split; [done|].
  assert (Hlen : String.length post < String.length (pre +:+ LF +:+ post)).
  { rewrite !length_app'. simpl. lia. }
  split; [|split; [done|]].
  - intros Hcolon. rewrite fold_parse_part_no_colon in Hfold.
    + by injection Hfold as <- <-.
    + by apply genSplit_parts.
  - intros Heq. rewrite <- Heq in Hlen. lia.
Qed.

Lemma parseUDPFrame_cuts_at_first_line_break_witness :
  ∃ room user,
    parseUDPFrame ("binary" +:+ LF +:+ "payload") = (room, user, "payload") ∧
    (has_byte ":" "binary" = false → room = EmptyString ∧ user = EmptyString) ∧
    String.length "payload" < String.length ("binary" +:+ LF +:+ "payload") ∧
    "payload" ≠ "binary" +:+ LF +:+ "payload".
Proof.
  apply (parseUDPFrame_cuts_at_first_line_break "binary" "payload"). reflexivity.
Defined.

(** The bridge forwards and injects the cut payload: of the datagram
    [binary LF payload], [payload]. *)
Example headerless_datagram_truncated :
  udp_identity ("binary" +:+ LF +:+ "payload") 7 = ("global", "udp-7", "payload").
Proof. vm_compute. reflexivity. Qed.

(** C5.  The first line of a datagram, when it is a list of pairs
    [KEY:value] joined by semicolons, gives as room the value of the last
    pair whose key reads ROOM in any case, as user that of the last pair
    whose key reads USER in any case, and nothing else: a pair under
    another key and a part without a colon leave room and user as they
    were.  A datagram without a line break is payload as a whole.  The
    bridge then takes [global] for an empty room and a name made from the
    clock for an empty user; names made at different clock readings
    differ. *)
Theorem udp_header_and_defaults :
  (∀ pairs payload, Forall clean_pair pairs →
     parseUDPFrame (join_header pairs +:+ LF +:+ payload)
     = (spec_header_value "room" pairs EmptyString,
        spec_header_value "user" pairs EmptyString, payload)) ∧
  (∀ acc k v, plain k = true → has_byte ":" k = false → plain v = true →
     lower_ascii k ≠ "room" → lower_ascii k ≠ "user" →
     parse_part acc (k +:+ ":" +:+ v) = acc) ∧
  (∀ acc part, has_byte ":" part = false → parse_part acc part = acc) ∧
  (∀ b, has_byte LF_byte b = false → parseUDPFrame b = (EmptyString, EmptyString, b)) ∧
  (∀ data t,
     udp_identity data t
     = (let '(r, u, p) := parseUDPFrame data in
        (if String.eqb r EmptyString then "global" else r,
         if String.eqb u EmptyString then "udp-" +:+ strconv.Itoa t else u, p))) ∧
  (∀ b t, has_byte LF_byte b = false →
     udp_identity b t = ("global", "udp-" +:+ strconv.Itoa t, b)) ∧
  (∀ t1 t2, "udp-" +:+ strconv.Itoa t1 = "udp-" +:+ strconv.Itoa t2 → t1 = t2).
Proof.
  split; [intros; by apply parseUDPFrame_header|].
  split; [intros; by apply parse_part_unrecognized|].
  split; [intros; by apply parse_part_no_colon|].
  split; [intros; by apply parseUDPFrame_no_line_break|].
  split; [|split].
  - intros data t. unfold udp_identity. by destruct (parseUDPFrame data) as [[r u] p].
  - intros b t Hb. unfold udp_identity. by rewrite parseUDPFrame_no_line_break.
  - intros t1 t2 H. apply Itoa_inj. by simplify_eq/=.
Qed.

(** keys in mixed case, a key that is not known, a part that is no pair,
    and white space around keys and values *)
Example udp_header_demo :
  parseUDPFrame ("rOoM:alpha;color:red;junk;User:bob" +:+ LF +:+ "data")
  = ("alpha", "bob", "data")
  ∧ parseUDPFrame (" room : alpha ; USER:b:ob " +:+ LF +:+ "data")
  = ("alpha", "b:ob", "data")
  ∧ udp_identity ("color:red" +:+ LF +:+ "data") 42 = ("global", "udp-42", "data")
  ∧ udp_identity "no header at all" 42 = ("global", "udp-42", "no header at all").
Proof. repeat split; vm_compute; reflexivity. Qed.

(** ** UTF-8 *)

Ltac lia_div := zify; Z.to_euclidean_division_equations; lia.

Lemma land_mul_pow2_small (h l k : N) : (l < 2 ^ k)%N → N.land (h * 2 ^ k) l = 0%N.
Proof.
  intros Hl. apply N.bits_inj_0. intros n. rewrite N.land_spec.
  destruct (N.lt_ge_cases n k) as [Hn|Hn].
  - by rewrite N.mul_pow2_bits_low.
  - destruct (N.eq_dec l 0%N) as [->|Hl0]; [by rewrite N.bits_0, andb_false_r|].
    rewrite (N.bits_above_log2 l n), andb_false_r; [done|].
    apply N.log2_lt_pow2; [lia|].
    eapply N.lt_le_trans; [exact Hl|]. by apply N.pow_le_mono_r.
Qed.

Lemma lor_mul_pow2_small (h l k : N) :
  (l < 2 ^ k)%N → N.lor (h * 2 ^ k) l = (h * 2 ^ k + l)%N.
Proof.
  intros Hl. pose proof (land_mul_pow2_small h l k Hl) as H0.
  rewrite <- N.lxor_lor by done. symmetry. by apply N.add_nocarry_lxor.
Qed.

Lemma lor_shiftl6 (h l : N) : (l < 64)%N → N.lor (N.shiftl h 6) l = (h * 64 + l)%N.
Proof. intros. rewrite N.shiftl_mul_pow2. by apply (lor_mul_pow2_small h l 6). Qed.

Lemma horner3 (a b c : N) :
  (b < 64)%N → (c < 64)%N →
  N.lor (N.lor (N.shiftl a 12) (N.shiftl b 6)) c = ((a * 64 + b) * 64 + c)%N.
Proof.
  intros Hb Hc.
  replace (N.shiftl a 12) with (N.shiftl (N.shiftl a 6) 6)
    by (by rewrite N.shiftl_shiftl).
  rewrite <- N.shiftl_lor. by rewrite !lor_shiftl6.
Qed.

Lemma horner4 (a b c d : N) :
  (b < 64)%N → (c < 64)%N → (d < 64)%N →
  N.lor (N.lor (N.lor (N.shiftl a 18) (N.shiftl b 12)) (N.shiftl c 6)) d
  = (((a * 64 + b) * 64 + c) * 64 + d)%N.
Proof.
  intros Hb Hc Hd.
  replace (N.shiftl a 18) with (N.shiftl (N.shiftl (N.shiftl a 6) 6) 6)
    by (by rewrite !N.shiftl_shiftl).
  replace (N.shiftl b 12) with (N.shiftl (N.shiftl b 6) 6)
    by (by rewrite N.shiftl_shiftl).
  rewrite <- !N.shiftl_lor. by rewrite !lor_shiftl6.
Qed.

Lemma land_3F x : N.land x 0x3F = (x mod 64)%N.
Proof. apply (N.land_ones x 6). Qed.
Lemma land_1F x : N.land x 0x1F = (x mod 32)%N.
Proof. apply (N.land_ones x 5). Qed.
Lemma land_0F x : N.land x 0x0F = (x mod 16)%N.
Proof. apply (N.land_ones x 4). Qed.
Lemma land_07 x : N.land x 0x07 = (x mod 8)%N.
Proof. apply (N.land_ones x 3). Qed.

Lemma lor_80 l : (l < 64)%N → N.lor 0x80 l = (128 + l)%N.
Proof. intros. apply (lor_mul_pow2_small 2 l 6). done. Qed.
Lemma lor_C0 h : (h < 32)%N → N.lor 0xC0 h = (192 + h)%N.
Proof. intros. apply (lor_mul_pow2_small 6 h 5). done. Qed.
Lemma lor_E0 h : (h < 16)%N → N.lor 0xE0 h = (224 + h)%N.
Proof. intros. apply (lor_mul_pow2_small 14 h 4). done. Qed.
Lemma lor_F0 h : (h < 8)%N → N.lor 0xF0 h = (240 + h)%N.
Proof. intros. apply (lor_mul_pow2_small 30 h 3). done. Qed.

Lemma div_mod_64 (x l : N) :
  (l < 64)%N → ((x * 64 + l) / 64 = x ∧ (x * 64 + l) mod 64 = l)%N.
Proof. intros. lia_div. Qed.

Lemma byte_of_val a : byte_of (byte_val a) = a.
Proof.
  unfold byte_of, byte_val. rewrite N.mod_small by apply N_ascii_bounded.
  apply ascii_N_embedding.
Qed.

Lemma byte_val_bound a : (byte_val a < 256)%N.
Proof. apply N_ascii_bounded. Qed.

Lemma cont_byte_spec (x : N) (a : ascii) :
  utf8.is_cont (byte_val a) = true → (x mod 64 = byte_val a mod 64)%N →
  utf8.cont_byte x = a.
Proof.
  unfold utf8.is_cont, utf8.cont_byte. intros [H1 H2]%andb_true_iff Hx.
  apply N.leb_le in H1, H2. rewrite land_3F, lor_80 by lia_div.
  rewrite <- (byte_of_val a). f_equal. lia_div.
Qed.

Lemma first_cases (s0 : N) :
  match utf8.first s0 with
  | None => True
  | Some (sz, lo, hi) =>
      (sz = 2 ∧ (lo = 0x80 ∧ hi = 0xBF ∧ 0xC2 ≤ s0 ≤ 0xDF)%N) ∨
      (sz = 3 ∧ (lo = 0xA0 ∧ hi = 0xBF ∧ s0 = 0xE0)%N) ∨
      (sz = 3 ∧ (lo = 0x80 ∧ hi = 0xBF ∧ (0xE1 ≤ s0 ≤ 0xEC ∨ 0xEE ≤ s0 ≤ 0xEF))%N) ∨
      (sz = 3 ∧ (lo = 0x80 ∧ hi = 0x9F ∧ s0 = 0xED)%N) ∨
      (sz = 4 ∧ (lo = 0x90 ∧ hi = 0xBF ∧ s0 = 0xF0)%N) ∨
      (sz = 4 ∧ (lo = 0x80 ∧ hi = 0xBF ∧ 0xF1 ≤ s0 ≤ 0xF3)%N) ∨
      (sz = 4 ∧ (lo = 0x80 ∧ hi = 0x8F ∧ s0 = 0xF4)%N)
  end.
Proof.
  unfold utf8.first.
  repeat match goal with
         | |- context [if (?a <? ?b)%N then _ else _] => destruct (N.ltb_spec a b)
         | |- context [if (?a <=? ?b)%N then _ else _] => destruct (N.leb_spec a b)
         | |- context [if (?a =? ?b)%N then _ else _] => destruct (N.eqb_spec a b)
         end; try done;
    repeat (first [ solve [repeat split; (done || lia)]
                  | left; solve [repeat split; (done || lia)]
                  | right ]).
Qed.

(** the value and the encoding of a well-formed sequence of two bytes *)
Lemma rune2 (s0 s1 : N) :
  (0xC2 ≤ s0 ≤ 0xDF)%N → (0x80 ≤ s1 ≤ 0xBF)%N →
  let r := N.lor (N.shiftl (N.land s0 0x1F) 6) (N.land s1 0x3F) in
  (0x80 ≤ r ≤ 0x7FF)%N ∧
  utf8.EncodeRune r = String (byte_of s0) (String (byte_of s1) EmptyString).
Proof.
  intros H0 H1 r. subst r. rewrite land_1F, land_3F.
  assert (Hh : (s0 mod 32 + 192 = s0 ∧ 2 ≤ s0 mod 32 < 32)%N) by lia_div.
  assert (Hl : (s1 mod 64 + 128 = s1 ∧ s1 mod 64 < 64)%N) by lia_div.
  set (h := (s0 mod 32)%N) in *. set (l := (s1 mod 64)%N) in *.
  rewrite lor_shiftl6 by lia.
  destruct (div_mod_64 h l) as [Hd Hm]; [lia|].
  split; [lia|]. unfold utf8.EncodeRune, utf8.RuneSelf, utf8.cont_byte.
  rewrite (proj2 (N.ltb_ge _ _)) by lia. rewrite (proj2 (N.leb_le _ _)) by lia.
  rewrite N.shiftr_div_pow2, land_3F. change (2 ^ 6)%N with 64%N.
  rewrite Hd, Hm, lor_C0, lor_80 by lia.
  replace (192 + h)%N with s0 by lia. by replace (128 + l)%N with s1 by lia.
Qed.

Lemma rune3 (s0 s1 s2 : N) :
  (0xE0 ≤ s0 ≤ 0xEF)%N → (0x80 ≤ s1 ≤ 0xBF)%N → (0x80 ≤ s2 ≤ 0xBF)%N →
  (s0 = 0xE0 → 0xA0 ≤ s1)%N → (s0 = 0xED → s1 ≤ 0x9F)%N →
  let r := N.lor (N.lor (N.shiftl (N.land s0 0x0F) 12) (N.shiftl (N.land s1 0x3F) 6))
                 (N.land s2 0x3F) in
  (0x800 ≤ r ≤ 0xFFFF)%N ∧
  utf8.EncodeRune r
  = String (byte_of s0) (String (byte_of s1) (String (byte_of s2) EmptyString)).
Proof.
  intros H0 H1 H2 HE0 HED r. subst r. rewrite land_0F, !land_3F.
  assert (Hh : (s0 mod 16 + 224 = s0 ∧ s0 mod 16 < 16)%N) by lia_div.
  assert (Hl1 : (s1 mod 64 + 128 = s1 ∧ s1 mod 64 < 64)%N) by lia_div.
  assert (Hl2 : (s2 mod 64 + 128 = s2 ∧ s2 mod 64 < 64)%N) by lia_div.
  set (h := (s0 mod 16)%N) in *. set (l1 := (s1 mod 64)%N) in *.
  set (l2 := (s2 mod 64)%N) in *.
  rewrite horner3 by lia.
  destruct (div_mod_64 (h * 64 + l1) l2) as [Hd2 Hm2]; [lia|].
  destruct (div_mod_64 h l1) as [Hd1 Hm1]; [lia|].
  assert (Hsur : ¬ (0xD800 ≤ (h * 64 + l1) * 64 + l2 ≤ 0xDFFF)%N) by lia.
  split; [lia|]. unfold utf8.EncodeRune, utf8.RuneSelf, utf8.MaxRune, utf8.cont_byte.
  rewrite (proj2 (N.ltb_ge _ _)) by lia.
  rewrite (proj2 (N.leb_gt _ _)) by lia.
  rewrite (proj2 (N.ltb_ge 0x10FFFF _)) by lia.
  replace ((0xD800 <=? (h * 64 + l1) * 64 + l2)%N && ((h * 64 + l1) * 64 + l2 <=? 0xDFFF)%N)
    with false.
  2:{ symmetry. apply andb_false_iff.
      destruct (N.leb_spec 0xD800 ((h * 64 + l1) * 64 + l2)); [right|by left].
      apply N.leb_gt. lia. }
  simpl orb. cbv iota. rewrite (proj2 (N.leb_le _ 0xFFFF)) by lia.
  replace (N.shiftr ((h * 64 + l1) * 64 + l2) 12) with h.
  2:{ replace 12%N with (6 + 6)%N by done. rewrite <- N.shiftr_shiftr.
      rewrite !N.shiftr_div_pow2. change (2 ^ 6)%N with 64%N. by rewrite Hd2, Hd1. }
  rewrite !land_3F, N.shiftr_div_pow2. change (2 ^ 6)%N with 64%N.
  rewrite Hd2, Hm2, Hm1, lor_E0, !lor_80 by lia.
  replace (224 + h)%N with s0 by lia. replace (128 + l1)%N with s1 by lia.
  by replace (128 + l2)%N with s2 by lia.
Qed.

Lemma rune4 (s0 s1 s2 s3 : N) :
  (0xF0 ≤ s0 ≤ 0xF4)%N → (0x80 ≤ s1 ≤ 0xBF)%N → (0x80 ≤ s2 ≤ 0xBF)%N →
  (0x80 ≤ s3 ≤ 0xBF)%N →
  (s0 = 0xF0 → 0x90 ≤ s1)%N → (s0 = 0xF4 → s1 ≤ 0x8F)%N →
  let r := N.lor (N.lor (N.lor (N.shiftl (N.land s0 0x07) 18)
                               (N.shiftl (N.land s1 0x3F) 12))
                        (N.shiftl (N.land s2 0x3F) 6))
                 (N.land s3 0x3F) in
  (0x10000 ≤ r ≤ 0x10FFFF)%N ∧
  utf8.EncodeRune r
  = String (byte_of s0) (String (byte_of s1) (String (byte_of s2)
      (String (byte_of s3) EmptyString))).
Proof.
  intros H0 H1 H2 H3 HF0 HF4 r. subst r. rewrite land_07, !land_3F.
  assert (Hh : (s0 mod 8 + 240 = s0 ∧ s0 mod 8 < 8)%N) by lia_div.
  assert (Hl1 : (s1 mod 64 + 128 = s1 ∧ s1 mod 64 < 64)%N) by lia_div.
  assert (Hl2 : (s2 mod 64 + 128 = s2 ∧ s2 mod 64 < 64)%N) by lia_div.
  assert (Hl3 : (s3 mod 64 + 128 = s3 ∧ s3 mod 64 < 64)%N) by lia_div.
  set (h := (s0 mod 8)%N) in *. set (l1 := (s1 mod 64)%N) in *.
  set (l2 := (s2 mod 64)%N) in *. set (l3 := (s3 mod 64)%N) in *.
  rewrite horner4 by lia.
  destruct (div_mod_64 ((h * 64 + l1) * 64 + l2) l3) as [Hd3 Hm3]; [lia|].
  destruct (div_mod_64 (h * 64 + l1) l2) as [Hd2 Hm2]; [lia|].
  destruct (div_mod_64 h l1) as [Hd1 Hm1]; [lia|].
  set (r := (((h * 64 + l1) * 64 + l2) * 64 + l3)%N) in *.
  assert (Hr : (0x10000 ≤ r ≤ 0x10FFFF)%N) by (subst r; lia).
  split; [done|]. unfold utf8.EncodeRune, utf8.RuneSelf, utf8.MaxRune, utf8.cont_byte.
  rewrite (proj2 (N.ltb_ge _ _)) by lia.
  rewrite (proj2 (N.leb_gt _ _)) by lia.
  rewrite (proj2 (N.ltb_ge 0x10FFFF _)) by lia.
  replace ((0xD800 <=? r)%N && (r <=? 0xDFFF)%N) with false.
  2:{ symmetry. apply andb_false_iff. right. apply N.leb_gt. lia. }
  simpl orb. cbv iota. rewrite (proj2 (N.leb_gt _ 0xFFFF)) by lia.
  assert (Hs6 : N.shiftr r 6 = ((h * 64 + l1) * 64 + l2)%N).
  { rewrite N.shiftr_div_pow2. change (2 ^ 6)%N with 64%N. done. }
  assert (Hs12 : N.shiftr r 12 = (h * 64 + l1)%N).
  { replace 12%N with (6 + 6)%N by done. rewrite <- N.shiftr_shiftr, Hs6.
    rewrite N.shiftr_div_pow2. change (2 ^ 6)%N with 64%N. done. }
  assert (Hs18 : N.shiftr r 18 = h).
  { replace 18%N with (12 + 6)%N by done. rewrite <- N.shiftr_shiftr, Hs12.
    rewrite N.shiftr_div_pow2. change (2 ^ 6)%N with 64%N. done. }
  rewrite Hs18, Hs12, Hs6, !land_3F, Hm3, Hm2, Hm1, lor_F0, !lor_80 by lia.
  replace (240 + h)%N with s0 by lia. replace (128 + l1)%N with s1 by lia.
  replace (128 + l2)%N with s2 by lia. by replace (128 + l3)%N with s3 by lia.
Qed.

Lemma byte_at_0 a t : byte_at (String a t) 0 = byte_val a.
Proof. done. Qed.
Lemma byte_at_S a t i : byte_at (String a t) (S i) = byte_at t i.
Proof. done. Qed.

Lemma is_cont_range b : utf8.is_cont b = true ↔ (0x80 ≤ b ≤ 0xBF)%N.
Proof. unfold utf8.is_cont. rewrite andb_true_iff, !N.leb_le. done. Qed.

Lemma range_test s lo hi :
  (s <? lo)%N || (hi <? s)%N = false ↔ (lo ≤ s ≤ hi)%N.
Proof. rewrite orb_false_iff, !N.ltb_ge. done. Qed.

Lemma Decode2 a0 a1 t lo hi :
  (byte_val a0 <? utf8.RuneSelf)%N = false →
  utf8.first (byte_val a0) = Some (2, lo, hi) →
  (byte_val a1 <? lo)%N || (hi <? byte_val a1)%N = false →
  utf8.DecodeRuneInString (String a0 (String a1 t))
  = (N.lor (N.shiftl (N.land (byte_val a0) 0x1F) 6) (N.land (byte_val a1) 0x3F), 2).
Proof.
  intros H0 Hf H1. unfold utf8.DecodeRuneInString.
  cbn [String.length Nat.ltb Nat.leb]. rewrite !byte_at_S, !byte_at_0, H0, Hf.
  cbn [Nat.ltb Nat.leb]. by rewrite H1.
Qed.

Lemma Decode3 a0 a1 a2 t lo hi :
  (byte_val a0 <? utf8.RuneSelf)%N = false →
  utf8.first (byte_val a0) = Some (3, lo, hi) →
  (byte_val a1 <? lo)%N || (hi <? byte_val a1)%N = false →
  utf8.is_cont (byte_val a2) = true →
  utf8.DecodeRuneInString (String a0 (String a1 (String a2 t)))
  = (N.lor (N.lor (N.shiftl (N.land (byte_val a0) 0x0F) 12)
                  (N.shiftl (N.land (byte_val a1) 0x3F) 6))
           (N.land (byte_val a2) 0x3F), 3).
Proof.
  intros H0 Hf H1 H2. unfold utf8.DecodeRuneInString.
  cbn [String.length Nat.ltb Nat.leb]. rewrite !byte_at_S, !byte_at_0, H0, Hf.
  cbn [Nat.ltb Nat.leb]. by rewrite H1, H2.
Qed.

Lemma Decode4 a0 a1 a2 a3 t lo hi :
  (byte_val a0 <? utf8.RuneSelf)%N = false →
  utf8.first (byte_val a0) = Some (4, lo, hi) →
  (byte_val a1 <? lo)%N || (hi <? byte_val a1)%N = false →
  utf8.is_cont (byte_val a2) = true →
  utf8.is_cont (byte_val a3) = true →
  utf8.DecodeRuneInString (String a0 (String a1 (String a2 (String a3 t))))
  = (N.lor (N.lor (N.lor (N.shiftl (N.land (byte_val a0) 0x07) 18)
                         (N.shiftl (N.land (byte_val a1) 0x3F) 12))
                  (N.shiftl (N.land (byte_val a2) 0x3F) 6))
           (N.land (byte_val a3) 0x3F), 4).
Proof.
  intros H0 Hf H1 H2 H3. unfold utf8.DecodeRuneInString.
  cbn [String.length Nat.ltb Nat.leb]. rewrite !byte_at_S, !byte_at_0, H0, Hf.
  cbn [Nat.ltb Nat.leb]. by rewrite H1, H2, H3.
Qed.


Lemma DecodeRune_head s :
  ∃ r size, utf8.DecodeRuneInString s = (r, size) ∧ rune_head s r size.
Proof.
  destruct s as [|a0 t0].
  { exists utf8.RuneError, 0. split; [done|]. by left. }
  destruct (N.ltb_spec (byte_val a0) utf8.RuneSelf) as [Hlt|Hge].
  { exists (byte_val a0), 1. split.
    - unfold utf8.DecodeRuneInString. cbn [String.length Nat.ltb Nat.leb].
      rewrite byte_at_0. by rewrite (proj2 (N.ltb_lt _ _) Hlt).
    - right. left. by exists a0, t0. }
  assert (H0 : (byte_val a0 <? utf8.RuneSelf)%N = false) by by apply N.ltb_ge.
  assert (Hbad : ∀ t, utf8.DecodeRuneInString (String a0 t) = (utf8.RuneError, 1) →
            ∃ r size, utf8.DecodeRuneInString (String a0 t) = (r, size) ∧
                      rune_head (String a0 t) r size).
  { intros t Ht. exists utf8.RuneError, 1. split; [done|].
    do 2 right. left. by exists a0, t. }
  pose proof (first_cases (byte_val a0)) as Hfc.
  destruct (utf8.first (byte_val a0)) as [[[sz lo] hi]|] eqn:Hf.
  2:{ apply Hbad. unfold utf8.DecodeRuneInString. cbn [String.length Nat.ltb Nat.leb].
      by rewrite byte_at_0, H0, Hf. }
  (* the second byte *)
  destruct t0 as [|a1 t1].
  { apply Hbad. unfold utf8.DecodeRuneInString. cbn [String.length Nat.ltb Nat.leb].
    rewrite byte_at_0, H0, Hf.
    destruct Hfc as [[-> _]|[[-> _]|[[-> _]|[[-> _]|[[-> _]|[[-> _]|[-> _]]]]]]]; done. }
  destruct ((byte_val a1 <? lo)%N || (hi <? byte_val a1)%N) eqn:H1.
  { apply Hbad. unfold utf8.DecodeRuneInString. cbn [String.length Nat.ltb Nat.leb].
    rewrite !byte_at_S, !byte_at_0, H0, Hf.
    destruct Hfc as [[-> _]|[[-> _]|[[-> _]|[[-> _]|[[-> _]|[[-> _]|[-> _]]]]]]];
      cbn [Nat.ltb Nat.leb]; try (by rewrite H1);
      destruct t1 as [|? [|? ?]]; cbn [String.length Nat.ltb Nat.leb]; try done;
      by rewrite H1. }
  pose proof (proj1 (range_test _ _ _) H1) as R1.
  assert (Hsz2 : sz = 2 →
            ∃ r size, utf8.DecodeRuneInString (String a0 (String a1 t1)) = (r, size) ∧
                      rune_head (String a0 (String a1 t1)) r size).
  { intros ->.
    assert (R0 : (0xC2 ≤ byte_val a0 ≤ 0xDF)%N ∧ lo = 0x80%N ∧ hi = 0xBF%N).
    { destruct Hfc as [(_ & -> & -> & ?)|[[[=] _]|[[[=] _]|[[[=] _]|[[[=] _]|[[[=] _]|[[=] _]]]]]]]. done. }
    destruct R0 as (R0 & -> & ->).
    destruct (rune2 (byte_val a0) (byte_val a1) R0 R1) as [Hr Henc].
    rewrite !byte_of_val in Henc.
    eexists _, 2. split; [by eapply Decode2|].
    do 3 right. exists a0, (String a1 EmptyString), t1.
    repeat split; try done; try (simpl; lia); try lia.
    intros t'. by eapply Decode2. }
  (* the third byte *)
  destruct (decide (sz = 2)) as [Heq|Hne2]; [by apply Hsz2|].
  destruct t1 as [|a2 t2].
  { apply Hbad. unfold utf8.DecodeRuneInString. cbn [String.length Nat.ltb Nat.leb].
    rewrite !byte_at_S, !byte_at_0, H0, Hf.
    destruct Hfc as [[-> _]|[[-> _]|[[-> _]|[[-> _]|[[-> _]|[[-> _]|[-> _]]]]]]]; done. }
  destruct (utf8.is_cont (byte_val a2)) eqn:H2.
  2:{ apply Hbad. unfold utf8.DecodeRuneInString. cbn [String.length Nat.ltb Nat.leb].
      rewrite !byte_at_S, !byte_at_0, H0, Hf.
      destruct Hfc as [[-> _]|[[-> _]|[[-> _]|[[-> _]|[[-> _]|[[-> _]|[-> _]]]]]]];
        cbn [Nat.ltb Nat.leb]; try done; rewrite H1;
        try (cbn [Nat.leb]; by rewrite H2);
        destruct t2 as [|? ?]; cbn [String.length Nat.ltb Nat.leb]; try done;
        cbn [Nat.leb]; by rewrite H2. }
  pose proof (proj1 (is_cont_range _) H2) as R2.
  assert (Hsz3 : sz = 3 →
            ∃ r size,
              utf8.DecodeRuneInString (String a0 (String a1 (String a2 t2))) = (r, size) ∧
              rune_head (String a0 (String a1 (String a2 t2))) r size).
  { intros ->.
    assert (R0 : (0xE0 ≤ byte_val a0 ≤ 0xEF)%N ∧ (0x80 ≤ byte_val a1 ≤ 0xBF)%N ∧
                 (byte_val a0 = 0xE0 → 0xA0 ≤ byte_val a1)%N ∧
                 (byte_val a0 = 0xED → byte_val a1 ≤ 0x9F)%N).
    { destruct Hfc as [[[=] _]|[(_ & -> & -> & ?)|[(_ & -> & -> & ?)|[(_ & -> & -> & ?)|[[[=] _]|[[[=] _]|[[=] _]]]]]]];
        repeat split; lia. }
    destruct R0 as (R0 & R1' & RE0 & RED).
    destruct (rune3 (byte_val a0) (byte_val a1) (byte_val a2) R0 R1' R2 RE0 RED)
      as [Hr Henc].
    rewrite !byte_of_val in Henc.
    eexists _, 3. split; [by eapply Decode3|].
    do 3 right. exists a0, (String a1 (String a2 EmptyString)), t2.
    repeat split; try done; try (simpl; lia); try lia.
    intros t'. by eapply Decode3. }
  destruct (decide (sz = 3)) as [Heq|Hne3]; [by apply Hsz3|].
  (* the fourth byte *)
  assert (sz = 4) as ->.
  { destruct Hfc as [[-> _]|[[-> _]|[[-> _]|[[-> _]|[[-> _]|[[-> _]|[-> _]]]]]]]; done. }
  destruct t2 as [|a3 t3].
  { apply Hbad. unfold utf8.DecodeRuneInString. cbn [String.length Nat.ltb Nat.leb].
    by rewrite !byte_at_S, !byte_at_0, H0, Hf. }
  destruct (utf8.is_cont (byte_val a3)) eqn:H3.
  2:{ apply Hbad. unfold utf8.DecodeRuneInString. cbn [String.length Nat.ltb Nat.leb].
      rewrite !byte_at_S, !byte_at_0, H0, Hf. cbn [Nat.ltb Nat.leb].
      by rewrite H1, H2, H3. }
  pose proof (proj1 (is_cont_range _) H3) as R3.
  assert (R0 : (0xF0 ≤ byte_val a0 ≤ 0xF4)%N ∧ (0x80 ≤ byte_val a1 ≤ 0xBF)%N ∧
               (byte_val a0 = 0xF0 → 0x90 ≤ byte_val a1)%N ∧
               (byte_val a0 = 0xF4 → byte_val a1 ≤ 0x8F)%N).
  { destruct Hfc as [[[=] _]|[[[=] _]|[[[=] _]|[[[=] _]|[(_ & -> & -> & ?)|[(_ & -> & -> & ?)|(_ & -> & -> & ?)]]]]]];
      repeat split; lia. }
  destruct R0 as (R0 & R1' & RF0 & RF4).
  destruct (rune4 (byte_val a0) (byte_val a1) (byte_val a2) (byte_val a3)
              R0 R1' R2 R3 RF0 RF4) as [Hr Henc].
  rewrite !byte_of_val in Henc.
  eexists _, 4. split; [by eapply Decode4|].
  do 3 right. exists a0, (String a1 (String a2 (String a3 EmptyString))), t3.
  repeat split; try done; try (simpl; lia); try lia.
  intros t'. by eapply Decode4.
Qed.

(** ** The path of a stream connection *)


Lemma byte_val_inj a b : byte_val a = byte_val b → a = b.
Proof.
  unfold byte_val. intros H. apply (f_equal ascii_of_N) in H.
  by rewrite !ascii_N_embedding in H.
Qed.



Lemma runes_cons_ascii a t :
  (byte_val a < 0x80)%N → utf8.runes (String a t) = byte_val a :: utf8.runes t.
Proof.
  intros Ha. unfold utf8.runes. cbn [utf8.runes_from].
  unfold utf8.DecodeRuneInString. cbn [String.length Nat.ltb Nat.leb].
  rewrite byte_at_0. unfold utf8.RuneSelf. by rewrite (proj2 (N.ltb_lt _ _) Ha).
Qed.





Lemma Trim_nil cutset : strings.Trim EmptyString cutset = EmptyString.
Proof. done. Qed.

Lemma trimLeftASCII_plain s :
  plain s = true → has_byte "/" s = false → strings.trimLeftASCII s "/ " = s.
Proof.
  destruct s as [|a t]; [done|]. unfold plain. simpl.
  intros [Ha _]%andb_true_iff [Hs _]%orb_false_iff.
  unfold strings.in_cutset. simpl. rewrite Hs. simpl.
  destruct (Ascii.eqb_spec a " ") as [->|]; [done|done].
Qed.

Lemma trimRightASCII_plain s :
  plain s = true → has_byte "/" s = false → strings.trimRightASCII s "/ " = s.
Proof.
  induction s as [|a t IH]; [done|]. unfold plain. simpl.
  intros [Ha Ht]%andb_true_iff [Hs Hst]%orb_false_iff.
  rewrite IH by done. destruct t as [|b t]; [|done].
  unfold strings.in_cutset. simpl. rewrite Hs. simpl.
  destruct (Ascii.eqb_spec a " ") as [->|]; [done|done].
Qed.

Lemma Trim_plain s :
  plain s = true → has_byte "/" s = false → strings.Trim s "/ " = s.
Proof.
  intros Hp Hs. unfold strings.Trim.
  by rewrite trimRightASCII_plain, trimLeftASCII_plain.
Qed.

Lemma EncodeRune_ascii a :
  (byte_val a < 0x80)%N → utf8.EncodeRune (byte_val a) = String a EmptyString.
Proof.
  intros Ha. unfold utf8.EncodeRune, utf8.RuneSelf.
  by rewrite (proj2 (N.ltb_lt _ _) Ha), byte_of_val.
Qed.





(** The path of the claim, next to the path with a room; a second segment
    of white space only leaves the defaults. *)
Example ws_identity_demo :
  ws_identity "/ws//alice" 5 = ("alice", "anon-5")
  ∧ ws_identity "/ws/lobby/alice" 5 = ("lobby", "alice")
  ∧ ws_identity "/ws/alice" 5 = ("alice", "anon-5")
  ∧ ws_identity "/ws// " 5 = ("global", "anon-5")
  ∧ ws_identity "/ws" 5 = ("global", "anon-5").
Proof. repeat split; vm_compute; reflexivity. Qed.

(** ** One round of the UDP relay loop *)

Lemma udp_forward_filter un payload entries :
  udp_forward un payload entries
  = (λ e, (payload, addr e.2)) <$> filter (λ e, e.1 ≠ un) entries.
Proof.
  induction entries as [|[uname p] rest IH]; [done|]. simpl.
  rewrite filter_cons. simpl.
  destruct (String.eqb_spec uname un) as [->|Hne].
  - by rewrite decide_False by (intros ?; done).
  - rewrite decide_True by done. simpl. by rewrite IH.
Qed.

Lemma filter_all {A} (P : A → Prop) `{∀ x, Decision (P x)} (l : list A) :
  Forall P l → filter P l = l.
Proof.
  induction 1 as [|x l Hx Hl IH]; [done|]. by rewrite filter_cons_True, IH.
Qed.

(** One datagram to every entry of the table under another username. *)
Lemma udp_forward_others un payload entries (table : gmap string peer) pr :
  entries ≡ₚ map_to_list table → table !! un = Some pr →
  udp_forward un payload entries
  ≡ₚ (λ e, (payload, addr e.2)) <$> map_to_list (delete un table).
Proof.
  intros Hperm Hun. rewrite udp_forward_filter. apply fmap_Permutation.
  rewrite Hperm, <- (map_to_list_delete table un pr Hun).
  rewrite filter_cons, decide_False by (intros ?; done).
  rewrite filter_all; [done|].
  apply Forall_forall. intros [k v] Hin. simpl.
  apply elem_of_map_to_list in Hin. intros ->. by rewrite lookup_delete_eq in Hin.
Qed.

Lemma udp_upsert_lookup rn un remote t_last (rooms : gmap string (gmap string peer)) :
  ∃ table,
    udp_upsert rn un remote t_last rooms !! rn = Some table ∧
    table !! un = Some (mkPeer remote t_last) ∧
    (∀ un', un' ≠ un → table !! un' = rooms !! rn ≫= (λ t, t !! un')) ∧
    (∀ rn', rn' ≠ rn → udp_upsert rn un remote t_last rooms !! rn' = rooms !! rn').
Proof.
  unfold udp_upsert. destruct (rooms !! rn) as [old|] eqn:Hold.
  - rewrite Hold. simpl. eexists. split; [apply lookup_insert_eq|].
    split; [apply lookup_insert_eq|]. split.
    + intros un' Hne. by rewrite lookup_insert_ne.
    + intros rn' Hne. by rewrite lookup_insert_ne.
  - exists (<[un := mkPeer remote t_last]> ∅).
    rewrite !lookup_insert_eq. simpl. split; [done|].
    split; [done|]. split.
    + intros un' Hne. by rewrite lookup_insert_ne.
    + intros rn' Hne. by rewrite !lookup_insert_ne.
Qed.

(** A broadcast in progress that is not interleaved with anything runs
    through its members as [broadcast_range] does. *)
Lemma flight_offers i w f :
  world_inv w → flights w !! i = Some f →
  ∃ w2, run (replicate (length (fl_todo f)) (EvOffer i)) w = Next w2 ∧
        broadcast_range (fl_todo f) (fl_sender f) (fl_msg f) (client_heap w)
        = Some (client_heap w2) ∧
        flights w2 !! i = Some (mkFlight (fl_room f) (fl_sender f) (fl_msg f) []) ∧
        room_heap w2 = room_heap w.
Proof.
  destruct f as [r sender msg todo]. simpl. revert w.
  induction todo as [|c rest IH]; intros w Hinv Hf.
  - exists w. by repeat split.
  - pose proof (step_no_panic (EvOffer i) w Hinv) as Hnp.
    cbn [replicate length run step] in *. unfold step_offer in *.
    rewrite Hf in *. cbn [fl_todo fl_sender fl_msg fl_room] in *.
    destruct (broadcast_body sender msg c (client_heap w)) as [ch|] eqn:Hb; [|done].
    set (w1 := set_flights _ _).
    assert (Hinv1 : world_inv w1).
    { apply (step_inv (EvOffer i) w); [done|]. cbn [step]. unfold step_offer.
      rewrite Hf. cbn [fl_todo fl_sender fl_msg fl_room]. by rewrite Hb. }
    destruct (IH w1 Hinv1) as (w2 & Hrun & Hbr & Hfl & Hrh).
    { subst w1. simpl. apply lookup_insert_eq. }
    exists w2. split; [done|]. cbn [broadcast_range]. rewrite Hb. simpl.
    split; [done|]. split; [done|]. by rewrite Hrh.
Qed.

Lemma world_inv_queues_open w rp rm sender :
  world_inv w → room_heap w !! rp = Some rm → queues_open rm sender (client_heap w).
Proof.
  intros Hinv Hrm. unfold queues_open. apply Forall_forall. intros c Hc.
  apply elem_of_members in Hc. right.
  destruct (inv_member w Hinv _ _ _ Hrm Hc) as (cl & s & Hcl & _ & _ & Hopen & _).
  unfold queue_open. by rewrite Hcl.
Qed.

(** C6.  One round of the UDP loop in a reachable world: the entry of the
    sender is written into the table of its room, the other entries of
    that table and the other tables are left as they were; the payload, as
    [parseUDPFrame] returned it, is written once to the address of every
    other entry of that table and to no other address; and a broadcast
    with no sender of the envelope of room, username, clock reading and
    payload is started in the room the hub holds under the room name,
    which, run through, offers that envelope to every member of the
    room. *)
Theorem datagram_forwarded_and_injected
    (evs : list event) (w w' : World) (data : string) (remote : UDPAddr)
    (t_user t_last t_env : Z) (entries : list (string * peer))
    (order : list client_ptr) :
  run evs init_world = Next w →
  step (EvDatagram data remote t_user t_last t_env entries order) w = Next w' →
  ∃ rn un payload table r rm i env,
    udp_identity data t_user = (rn, un, payload) ∧
    udp_rooms w' !! rn = Some table ∧
    table !! un = Some (mkPeer remote t_last) ∧
    (∀ un', un' ≠ un → table !! un' = udp_rooms w !! rn ≫= (λ t, t !! un')) ∧
    (∀ rn', rn' ≠ rn → udp_rooms w' !! rn' = udp_rooms w !! rn') ∧
    (∃ out, udp_sent w' = udp_sent w ++ out ∧
            out ≡ₚ (λ e, (payload, addr e.2)) <$> map_to_list (delete un table)) ∧
    env = json.Marshal (mkEnvelope rn un t_env (Some payload)) ∧
    rooms (hub w') !! rn = Some r ∧ room_heap w' !! r = Some rm ∧ name rm = rn ∧
    flights w !! i = None ∧
    flights w' !! i = Some (mkFlight r None env order) ∧
    order ≡ₚ members rm ∧
    client_heap w' = client_heap w ∧
    ∃ w2, run (replicate (length order) (EvOffer i)) w' = Next w2 ∧
          (∀ c, is_member c rm →
                ∃ cl, client_heap w' !! c = Some cl ∧
                      client_heap w2 !! c = Some (offered env cl)) ∧
          (∀ c, ¬ is_member c rm → client_heap w2 !! c = client_heap w' !! c).
Proof.
  intros Hrun Hstep.
  assert (Hinv : world_inv w) by (apply reachable_inv; by exists evs).
  pose proof (step_inv _ _ _ Hinv Hstep) as Hinv'.
  cbn [step] in Hstep. unfold step_datagram in Hstep.
  destruct (udp_busy w); [done|].
  destruct (udp_identity data t_user) as [[rn un] payload] eqn:Hid.
  destruct (decide _) as [Hent|]; [|done].
  destruct (world_getRoom rn w) as [r w1] eqn:Hg.
  destruct (world_getRoom_inv _ _ _ _ Hinv Hg)
    as (Hinv1 & (rm & Hrm & Hname) & Hhub & Hch & Hss & Hfl & _).
  rewrite Hrm in Hstep. destruct (decide _) as [Hperm|]; [|done].
  injection Hstep as <-.
  destruct (udp_upsert_lookup rn un remote t_last (udp_rooms w))
    as (table & Htable & Hun & Hothers & Hrooms).
  set (env := MarshalEnvelope rn un t_env (Some payload)).
  set (i := fresh (dom (flights w1))).
  exists rn, un, payload, table, r, rm, i, env.
  split; [done|]. split; [done|]. split; [done|]. split; [done|]. split; [done|].
  split.
  { eexists. split; [done|]. eapply udp_forward_others; [|exact Hun].
    by rewrite Htable in Hent. }
  split; [done|]. split; [done|]. split; [done|]. split; [done|].
  assert (Hfresh : flights w1 !! i = None) by apply not_elem_of_dom, is_fresh.
  split; [by rewrite <- Hfl|]. split; [apply lookup_insert_eq|].
  split; [done|]. split; [done|].
  match type of Hinv' with world_inv ?W => set (w' := W) in * end.
  assert (Hf : flights w' !! i = Some (mkFlight r None env order))
    by apply lookup_insert_eq.
  destruct (flight_offers i w' _ Hinv' Hf) as (w2 & Hrun2 & Hbr & _ & _).
  cbn [fl_todo fl_sender fl_msg] in Hrun2, Hbr.
  assert (Hrm' : room_heap w' !! r = Some rm) by done.
  destruct (broadcast_range_members rm order None env (client_heap w') Hperm)
    as (cs' & Hbr' & Hcs').
  { by eapply world_inv_queues_open. }
  rewrite Hbr in Hbr'. injection Hbr' as <-.
  exists w2. split; [done|]. split.
  - intros c Hm. rewrite Hcs', decide_True by done.
    destruct (inv_member w' Hinv' _ _ _ Hrm' Hm) as (cl & _ & Hcl & _).
    exists cl. split; [done|]. by rewrite Hcl.
  - intros c Hm. rewrite Hcs', decide_False; [done|]. by intros [? _].
Qed.

Lemma udp_demo_prefix_runs : run udp_demo_prefix init_world = Next udp_demo_before.
Proof. vm_compute. reflexivity. Qed.

Lemma udp_demo_datagram_steps :
  step udp_demo_datagram udp_demo_before = Next udp_demo_after.
Proof. vm_compute. reflexivity. Qed.

Lemma udp_demo :
  (udp_sent udp_demo_after,
   buf ∘ sendCh <$> client_heap udp_demo_after !! 1%positive,
   fl_msg <$> flights udp_demo_after !! 1%positive)
  = ([("pq", mkUDPAddr "10.0.0.7" 4000)],
     Some [MarshalEnvelope "lab" "bob" 3 (Some "xyz")],
     Some (MarshalEnvelope "lab" "carol" 6 (Some "pq"))).
Proof. vm_compute. reflexivity. Qed.

Lemma datagram_forwarded_and_injected_witness :
  ∃ rn un payload table r rm i env,
    udp_identity ("user: carol ; room:lab" +:+ LF +:+ "pq") 4 = (rn, un, payload) ∧
    udp_rooms udp_demo_after !! rn = Some table ∧
    table !! un = Some (mkPeer (mkUDPAddr "10.0.0.9" 4100) 5) ∧
    (∀ un', un' ≠ un → table !! un' = udp_rooms udp_demo_before !! rn ≫= (λ t, t !! un')) ∧
    (∀ rn', rn' ≠ rn → udp_rooms udp_demo_after !! rn' = udp_rooms udp_demo_before !! rn') ∧
    (∃ out, udp_sent udp_demo_after = udp_sent udp_demo_before ++ out ∧
            out ≡ₚ (λ e, (payload, addr e.2)) <$> map_to_list (delete un table)) ∧
    env = json.Marshal (mkEnvelope rn un 6 (Some payload)) ∧
    rooms (hub udp_demo_after) !! rn = Some r ∧
    room_heap udp_demo_after !! r = Some rm ∧ name rm = rn ∧
    flights udp_demo_before !! i = None ∧
    flights udp_demo_after !! i = Some (mkFlight r None env [1%positive]) ∧
    [1%positive] ≡ₚ members rm ∧
    client_heap udp_demo_after = client_heap udp_demo_before ∧
    ∃ w2, run (replicate (length [1%positive]) (EvOffer i)) udp_demo_after = Next w2 ∧
          (∀ c, is_member c rm →
                ∃ cl, client_heap udp_demo_after !! c = Some cl ∧
                      client_heap w2 !! c = Some (offered env cl)) ∧
          (∀ c, ¬ is_member c rm → client_heap w2 !! c = client_heap udp_demo_after !! c).
Proof.
  apply (datagram_forwarded_and_injected udp_demo_prefix udp_demo_before udp_demo_after
           ("user: carol ; room:lab" +:+ LF +:+ "pq") (mkUDPAddr "10.0.0.9" 4100) 4 5 6
           [("carol", mkPeer (mkUDPAddr "10.0.0.9" 4100) 5);
            ("bob", mkPeer (mkUDPAddr "10.0.0.7" 4000) 2)] [1%positive]).
  - vm_compute. reflexivity.
  - vm_compute. reflexivity.
Defined.

(** * The envelope codec *)

(** ** Base64 *)

Lemma enc_facts (i : N) :
  (i < 64)%N →
  base64.dec (base64.enc i) = Some i ∧
  Ascii.eqb (base64.enc i) base64.padChar = false ∧
  Ascii.eqb (base64.enc i) "010"%char || Ascii.eqb (base64.enc i) "013"%char = false ∧
  Ascii.eqb (base64.enc i) DQUOTE = false ∧
  Ascii.eqb (base64.enc i) BACKSLASH = false ∧
  (0x20 <=? byte_val (base64.enc i))%N && (byte_val (base64.enc i) <? 0x80)%N = true.
Proof.
  intros Hi. rewrite <- (N2Nat.id i). assert (Hn : N.to_nat i < 64) by lia.
  generalize dependent (N.to_nat i). clear. intros n Hn.
  do 64 (destruct n as [|n]; [vm_compute; done|]). lia.
Qed.

Lemma sextet_lt v k : (N.land (N.shiftr v k) 0x3F < 64)%N.
Proof. rewrite land_3F. by apply N.mod_lt. Qed.

Lemma sextets_quantum (v : N) :
  (v < 2 ^ 24)%N →
  base64.quantum (N.land (N.shiftr v 18) 0x3F) (N.land (N.shiftr v 12) 0x3F)
                 (N.land (N.shiftr v 6) 0x3F) (N.land (N.shiftr v 0) 0x3F) = v.
Proof.
  intros Hv. unfold base64.quantum.
  rewrite horner4 by apply sextet_lt.
  rewrite !land_3F, !N.shiftr_div_pow2, N.pow_0_r, N.div_1_r.
  change (2 ^ 18)%N with (64 * 64 * 64)%N. change (2 ^ 12)%N with (64 * 64)%N.
  change (2 ^ 6)%N with 64%N. rewrite <- !N.Div0.div_div by done.
  set (y1 := (v / 64)%N). set (y2 := (y1 / 64)%N). set (y3 := (y2 / 64)%N).
  assert (y3 < 64)%N by (subst y1 y2 y3; change (2 ^ 24)%N with 16777216%N in Hv; lia_div).
  rewrite (N.mod_small y3) by done.
  pose proof (N.div_mod v 64). pose proof (N.div_mod y1 64). pose proof (N.div_mod y2 64).
  fold y1 in H0. fold y2 in H1. fold y3 in H2. lia.
Qed.

Lemma bytes3 (a b c : N) :
  (b < 256)%N → (c < 256)%N →
  N.lor (N.lor (N.shiftl a 16) (N.shiftl b 8)) c = ((a * 256 + b) * 256 + c)%N.
Proof.
  intros Hb Hc.
  replace (N.shiftl a 16) with (N.shiftl (N.shiftl a 8) 8) by (by rewrite N.shiftl_shiftl).
  rewrite <- N.shiftl_lor, !N.shiftl_mul_pow2.
  rewrite (lor_mul_pow2_small a b 8) by done.
  by rewrite (lor_mul_pow2_small _ c 8) by done.
Qed.

Lemma byte_of_eq (n : N) (a : ascii) : (n mod 256 = byte_val a)%N → byte_of n = a.
Proof. intros H. unfold byte_of. rewrite H. apply ascii_N_embedding. Qed.

Lemma decode_bytes (a b c : ascii) :
  let v := (((byte_val a) * 256 + byte_val b) * 256 + byte_val c)%N in
  byte_of (N.shiftr v 16) = a ∧ byte_of (N.shiftr v 8) = b ∧ byte_of v = c ∧
  (v < 2 ^ 24)%N.
Proof.
  intros v. pose proof (byte_val_bound a). pose proof (byte_val_bound b).
  pose proof (byte_val_bound c). subst v.
  rewrite !N.shiftr_div_pow2. change (2 ^ 16)%N with 65536%N. change (2 ^ 8)%N with 256%N.
  change (2 ^ 24)%N with 16777216%N.
  repeat split; [apply byte_of_eq; lia_div..|lia].
Qed.

Lemma sextet_facts v k :
  let x := N.land (N.shiftr v k) 0x3F in
  base64.dec (base64.sextet v k) = Some x ∧
  Ascii.eqb (base64.sextet v k) base64.padChar = false.
Proof.
  intros x. destruct (enc_facts x (sextet_lt v k)) as (? & ? & _). done.
Qed.

Lemma decode_quanta_encode (n : nat) (s : string) :
  String.length s ≤ n → base64.decode_quanta (base64.EncodeToString s) = Some s.
Proof.
  revert s. induction (lt_wf n) as [n _ IH].
  intros [|a [|b [|c t]]] Hlen; [done|..].
  - (* one byte *)
    cbn [base64.EncodeToString base64.decode_quanta].
    set (v := N.shiftl (byte_val a) 16).
    destruct (sextet_facts v 18) as [-> _]. destruct (sextet_facts v 12) as [-> _].
    change (Ascii.eqb base64.padChar base64.padChar) with true.
    cbn [andb String.eqb].
    destruct (decode_bytes a "000"%char "000"%char) as (Ha & _ & _ & Hv).
    cbn zeta in Ha, Hv. change (byte_val "000"%char) with 0%N in Ha, Hv.
    assert (Hv' : v = ((byte_val a * 256 + 0) * 256 + 0)%N).
    { subst v. rewrite N.shiftl_mul_pow2. change (2^16)%N with 65536%N. lia. }
    pose proof (sextets_quantum v) as Hq. rewrite Hv' in Hq at 1. specialize (Hq Hv).
    assert (H2 : N.land (N.shiftr v 6) 63 = 0%N).
    { rewrite land_3F, N.shiftr_div_pow2, Hv'. change (2^6)%N with 64%N. lia_div. }
    assert (H3 : N.land (N.shiftr v 0) 63 = 0%N).
    { rewrite land_3F, N.shiftr_div_pow2, Hv'. change (2^0)%N with 1%N. lia_div. }
    rewrite H2, H3 in Hq. rewrite Hq, Hv'. by rewrite Ha.
  - (* two bytes *)
    cbn [base64.EncodeToString base64.decode_quanta].
    set (v := N.lor (N.shiftl (byte_val a) 16) (N.shiftl (byte_val b) 8)).
    destruct (sextet_facts v 18) as [-> _]. destruct (sextet_facts v 12) as [-> _].
    destruct (sextet_facts v 6) as [-> ->].
    change (Ascii.eqb base64.padChar base64.padChar) with true.
    cbn [andb String.eqb].
    destruct (decode_bytes a b "000"%char) as (Ha & Hb & _ & Hv).
    cbn zeta in Ha, Hb, Hv. change (byte_val "000"%char) with 0%N in Ha, Hb, Hv.
    assert (Hv' : v = ((byte_val a * 256 + byte_val b) * 256 + 0)%N).
    { subst v. rewrite <- bytes3 by (done || apply byte_val_bound).
      by rewrite N.lor_0_r. }
    pose proof (sextets_quantum v) as Hq. rewrite Hv' in Hq at 1. specialize (Hq Hv).
    assert (H3 : N.land (N.shiftr v 0) 63 = 0%N).
    { rewrite land_3F, N.shiftr_div_pow2, Hv'. change (2^0)%N with 1%N. lia_div. }
    rewrite H3 in Hq. rewrite Hq, Hv'. by rewrite Ha, Hb.
  - (* three bytes and the rest *)
    cbn [base64.EncodeToString base64.decode_quanta].
    set (v := N.lor (N.lor (N.shiftl (byte_val a) 16) (N.shiftl (byte_val b) 8)) (byte_val c)).
    destruct (sextet_facts v 18) as [-> _]. destruct (sextet_facts v 12) as [-> _].
    destruct (sextet_facts v 6) as [-> ->]. destruct (sextet_facts v 0) as [-> ->].
    rewrite (IH (String.length t)) by (simpl in Hlen; lia || done).
    destruct (decode_bytes a b c) as (Ha & Hb & Hc & Hv). cbn zeta in Ha, Hb, Hc, Hv.
    assert (Hv' : v = ((byte_val a * 256 + byte_val b) * 256 + byte_val c)%N)
      by (subst v; apply bytes3; apply byte_val_bound).
    rewrite sextets_quantum by (by rewrite Hv').
    rewrite Hv'. by rewrite Ha, Hb, Hc.
Qed.

Lemma enc_literal i :
  (i < 64)%N →
  literal_byte (byte_val (base64.enc i)) = true ∧
  Ascii.eqb (base64.enc i) "010"%char || Ascii.eqb (base64.enc i) "013"%char = false.
Proof.
  intros Hi. rewrite <- (N2Nat.id i). assert (Hn : N.to_nat i < 64) by lia.
  generalize dependent (N.to_nat i). clear. intros n Hn.
  do 64 (destruct n as [|n]; [vm_compute; done|]). lia.
Qed.

Lemma sextet_literal v k :
  literal_byte (byte_val (base64.sextet v k)) = true ∧
  Ascii.eqb (base64.sextet v k) "010"%char || Ascii.eqb (base64.sextet v k) "013"%char = false.
Proof. apply enc_literal, sextet_lt. Qed.

Lemma EncodeToString_literal (n : nat) (s : string) :
  String.length s ≤ n →
  strings.all_bytes literal_byte (base64.EncodeToString s) = true ∧
  base64.drop_newlines (base64.EncodeToString s) = base64.EncodeToString s.
Proof.
  revert s. induction (lt_wf n) as [n _ IH].
  intros [|a [|b [|c t]]] Hlen; [done|..];
    cbn [base64.EncodeToString strings.all_bytes base64.drop_newlines];
    repeat match goal with
    | |- context [base64.sextet ?v ?k] =>
        let H1 := fresh in let H2 := fresh in
        destruct (sextet_literal v k) as [H1 H2]; rewrite ?H1, ?H2;
        generalize dependent (base64.sextet v k); intros
    end; [done..|].
  destruct (IH (String.length t)) with (s := t) as [-> ->]; [simpl in Hlen; lia|done|done].
Qed.

Lemma DecodeString_EncodeToString s :
  base64.DecodeString (base64.EncodeToString s) = Some s.
Proof.
  unfold base64.DecodeString.
  rewrite (proj2 (EncodeToString_literal _ s (le_n _))).
  by apply (decode_quanta_encode (String.length s)).
Qed.

(** ** String literals *)

Lemma eqb_byte a c : Ascii.eqb a c = (byte_val a =? byte_val c)%N.
Proof.
  destruct (Ascii.eqb_spec a c) as [->|Hne]; [by rewrite N.eqb_refl|].
  symmetry. apply N.eqb_neq. intros H. by apply Hne, byte_val_inj.
Qed.

Lemma unquote_literal s tail :
  strings.all_bytes literal_byte s = true →
  json.unquote_from 0 (s +:+ String DQUOTE tail) = Some (s, tail).
Proof.
  induction s as [|a t IH]; [done|].
  cbn [strings.all_bytes]. intros [Ha Ht]%andb_true_iff.
  rewrite app_cons. cbn [json.unquote_from]. rewrite !eqb_byte.
  unfold literal_byte in Ha.
  apply andb_true_iff in Ha as [[[H1 H2]%andb_true_iff H3]%andb_true_iff H4].
  apply negb_true_iff in H3, H4.
  change (byte_val DQUOTE) with 0x22%N. change (byte_val BACKSLASH) with 0x5C%N.
  rewrite H3, H4. apply N.leb_le in H1.
  rewrite (proj2 (N.ltb_ge _ _) H1). unfold utf8.RuneSelf. rewrite H2.
  by rewrite IH.
Qed.

(** The bytes of a rune already decoded are passed over. *)
Lemma unquote_skip p r :
  json.unquote_from (String.length p) (p +:+ r) = json.unquote_from 0 r.
Proof. induction p as [|a p IH]; [done|]. rewrite app_cons. exact IH. Qed.

Lemma appendString_from_O copy s :
  json.appendString_from 0 copy s = json.appendString_from 0 true s.
Proof. by destruct s. Qed.

Lemma appendString_copy p t :
  json.appendString_from (String.length p) true (p +:+ t)
  = p +:+ json.appendString_from 0 true t.
Proof.
  induction p as [|a p IH]; [done|]. rewrite !app_cons. cbn [String.length json.appendString_from].
  by rewrite IH.
Qed.

Lemma appendString_drop p t :
  json.appendString_from (String.length p) false (p +:+ t)
  = json.appendString_from 0 true t.
Proof.
  induction p as [|a p IH]; [apply appendString_from_O|]. rewrite !app_cons. exact IH.
Qed.

Lemma valid_skip p t :
  utf8.valid_from (String.length p) (p +:+ t) = utf8.valid_from 0 t.
Proof. induction p as [|a p IH]; [done|]. rewrite app_cons. exact IH. Qed.

(** What the encoder writes for an ASCII byte is read back as that byte. *)
Lemma unquote_ascii a rest :
  (byte_val a < 0x80)%N →
  json.unquote_from 0
    ((if json.htmlSafe (byte_val a) then String a EmptyString
      else json.escape_ascii (byte_val a)) +:+ rest)
  = json.cons_result (String a EmptyString) (json.unquote_from 0 rest).
Proof.
  destruct a as [b0 b1 b2 b3 b4 b5 b6 [|]]; [by destruct b0, b1, b2, b3, b4, b5, b6|].
  intros _. destruct b0, b1, b2, b3, b4, b5, b6; reflexivity.
Qed.

Lemma Decode_ascii a t :
  (byte_val a < 0x80)%N → utf8.DecodeRuneInString (String a t) = (byte_val a, 1).
Proof.
  intros Ha. unfold utf8.DecodeRuneInString. cbn [String.length Nat.ltb Nat.leb].
  rewrite byte_at_0. unfold utf8.RuneSelf. by rewrite (proj2 (N.ltb_lt _ _) Ha).
Qed.

Lemma unquote_line_separator (d : ascii) rest :
  d = "8"%char ∨ d = "9"%char →
  json.unquote_from 0 (String BACKSLASH "u202" +:+ String d EmptyString +:+ rest)
  = json.cons_result
      (utf8.EncodeRune (if Ascii.eqb d "8"%char then 0x2028 else 0x2029)%N)
      (json.unquote_from 0 rest).
Proof. by intros [-> | ->]. Qed.

Lemma unquote_replacement rest :
  json.unquote_from 0 (String BACKSLASH "ufffd" +:+ rest)
  = json.cons_result (utf8.EncodeRune utf8.RuneError) (json.unquote_from 0 rest).
Proof. reflexivity. Qed.

(** What the encoder writes for a string is read back as a string that is
    the same when the string is valid UTF-8 and longer when it is not. *)
Lemma unquote_appendString (n : nat) (s tail : string) :
  String.length s ≤ n →
  ∃ d, json.unquote_from 0 (json.appendString_from 0 true s +:+ String DQUOTE tail)
       = Some (d, tail) ∧
       (utf8.valid_from 0 s = true → d = s) ∧
       (utf8.valid_from 0 s = false → String.length s < String.length d) ∧
       String.length s ≤ String.length d.
Proof.
  revert s. induction (lt_wf n) as [n _ IH]. intros [|a t] Hlen.
  { exists EmptyString. by repeat split. }
  cbn [String.length] in Hlen. cbn [utf8.valid_from].
  cbn [json.appendString_from]. unfold utf8.RuneSelf.
  destruct (N.ltb_spec (byte_val a) 0x80) as [Hlt|Hge].
  - rewrite (Decode_ascii a t Hlt).
    assert (Hne : (byte_val a =? utf8.RuneError)%N = false)
      by (apply N.eqb_neq; unfold utf8.RuneError; lia).
    rewrite Hne. cbn [andb Nat.sub].
    destruct (IH (String.length t)) with (s := t) as (d & Hd & Hv & Hi & Hl); [lia|done|].
    exists (String a d). split; [|cbn [String.length]; repeat split].
    + transitivity (json.unquote_from 0
        ((if json.htmlSafe (byte_val a) then String a EmptyString
          else json.escape_ascii (byte_val a))
         +:+ (json.appendString_from 0 true t +:+ String DQUOTE tail))).
      { by destruct (json.htmlSafe (byte_val a)); rewrite ?app_assoc'. }
      by rewrite (unquote_ascii a _ Hlt), Hd.
    + intros H. by rewrite (Hv H).
    + intros H. specialize (Hi H). lia.
    + lia.
  - destruct (DecodeRune_head (String a t)) as (c & size & Hdec & Hhead).
    rewrite Hdec.
    destruct Hhead as [(? & _)|[(a' & t' & [= <- <-] & _ & Hlt & _)|
      [(a' & t' & _ & -> & _ & ->)|
       (a' & p & t' & Hs & -> & Hp & _ & Hc & Henc & Hany)]]]; [done|lia|..].
    + (* a byte that starts no well-formed sequence *)
      rewrite N.eqb_refl. cbn [Nat.eqb andb].
      destruct (IH (String.length t)) with (s := t) as (d & Hd & Hv & Hi & Hl); [lia|done|].
      exists (utf8.EncodeRune utf8.RuneError +:+ d).
      split; [|change (utf8.EncodeRune utf8.RuneError)
                 with (String "239" (String "191" (String "189" EmptyString)));
               rewrite !app_cons, app_nil_l; cbn [String.length]; repeat split].
      * by rewrite app_assoc', unquote_replacement, Hd.
      * done.
      * intros _. lia.
      * lia.
    + rewrite app_cons in Hs. injection Hs as <- ->.
      assert (Hsz : (S (String.length p) =? 1) = false) by (apply Nat.eqb_neq; lia).
      rewrite Hsz, andb_false_r.
      replace (S (String.length p) - 1) with (String.length p) in * by lia.
      rewrite valid_skip. rewrite length_app' in Hlen.
      destruct (IH (String.length t')) with (s := t') as (d & Hrest & Hv & Hi & Hl);
        [lia|done|].
      exists (String a p +:+ d). split.
      { destruct ((c =? 0x2028)%N || (c =? 0x2029)%N) eqn:Hsep.
        - rewrite appendString_drop.
          assert (Hd : ∃ x, (x = "8"%char ∨ x = "9"%char) ∧
                     json.hex_digit (N.land c 0xF) = x ∧
                     (if Ascii.eqb x "8"%char then 0x2028 else 0x2029)%N = c).
          { apply orb_true_iff in Hsep as [->%N.eqb_eq | ->%N.eqb_eq];
              [exists "8"%char|exists "9"%char]; (split; [auto|done]). }
          destruct Hd as (x & Hx & -> & Hcx).
          rewrite !app_assoc'.
          rewrite (unquote_line_separator x _ Hx), Hcx, Henc, Hrest. done.
        - rewrite appendString_copy, app_cons, app_assoc'.
          cbn [json.unquote_from]. rewrite !eqb_byte.
          change (byte_val DQUOTE) with 0x22%N. change (byte_val BACKSLASH) with 0x5C%N.
          rewrite (proj2 (N.eqb_neq _ _)) by lia. rewrite (proj2 (N.eqb_neq _ _)) by lia.
          rewrite (proj2 (N.ltb_ge _ _)) by lia. unfold utf8.RuneSelf.
          rewrite (proj2 (N.ltb_ge _ _)) by lia.
          rewrite <- app_cons, Hany, Henc.
          replace (S (String.length p) - 1) with (String.length p) by lia.
          rewrite unquote_skip, Hrest. done. }
      rewrite !app_cons. cbn [String.length]. rewrite !length_app'. repeat split.
      * intros H. by rewrite (Hv H).
      * intros H. specialize (Hi H). lia.
      * lia.
Qed.

(** ** Integer literals *)

Lemma to_uint_canonical p :
  Pos.to_uint p ≠ Decimal.Nil ∧ ∀ d', Pos.to_uint p ≠ Decimal.D0 d'.
Proof.
  split; [apply DecimalPos.Unsigned.to_uint_nonnil|]. intros d'.
  assert (Hn : Decimal.unorm (Pos.to_uint p) = Pos.to_uint p).
  { rewrite <- DecimalPos.Unsigned.to_of, DecimalPos.Unsigned.of_to. done. }
  destruct (Decimal.nzhead (Pos.to_uint p)) eqn:Hz.
  { apply DecimalFacts.unorm_0 in Hz. rewrite Hn in Hz.
    by destruct (DecimalPos.Unsigned.to_uint_nonzero p). }
  all: rewrite DecimalFacts.unorm_nzhead in Hn by (by rewrite Hz);
       rewrite <- Hn; apply DecimalFacts.nzhead_nonzero.
Qed.

Lemma span_digits_uint d sep rest :
  json.is_digit sep = false →
  json.span_digits (NilEmpty.string_of_uint d +:+ String sep rest)
  = (NilEmpty.string_of_uint d, String sep rest).
Proof.
  intros Hsep. induction d; cbn [NilEmpty.string_of_uint];
    rewrite ?app_cons, ?app_nil_l; cbn [json.span_digits]; rewrite ?Hsep; [done|..];
    (match goal with |- context [json.is_digit ?c] => change (json.is_digit c) with true end);
    by rewrite IHd.
Qed.

(** The first byte of a decimal: a digit or the minus sign. *)
Lemma first_of_decimal (a : ascii) :
  a = "-"%char ∨ json.is_digit a = true →
  json.isSpace a = false ∧ Ascii.eqb a DQUOTE = false ∧
  Ascii.eqb a "n"%char = false ∧ Ascii.eqb a "t"%char = false ∧
  Ascii.eqb a "f"%char = false.
Proof.
  intros [->|H]; [done|]. revert H.
  destruct a as [[] [] [] [] [] [] [] []]; by vm_compute.
Qed.

Lemma Itoa_shape z :
  ∃ sign d a more,
    strconv.Itoa z = sign +:+ NilEmpty.string_of_uint d ∧
    (sign = EmptyString ∨ sign = "-") ∧
    NilEmpty.string_of_uint d = String a more ∧
    json.is_digit a = true ∧
    (Ascii.eqb a "0"%char = true → more = EmptyString).
Proof.
  assert (Hpos : ∀ p, ∃ a more,
             NilZero.string_of_uint (Pos.to_uint p) = NilEmpty.string_of_uint (Pos.to_uint p) ∧
             NilEmpty.string_of_uint (Pos.to_uint p) = String a more ∧
             json.is_digit a = true ∧ (Ascii.eqb a "0"%char = true → more = EmptyString)).
  { intros p. destruct (to_uint_canonical p) as [Hnil Hz].
    destruct (Pos.to_uint p) as [|d|d|d|d|d|d|d|d|d|d]; [done|by destruct (Hz d)|..];
      eexists _, _; (split; [done|]); (split; [done|]); (split; [done|]);
      by intros [=]. }
  unfold strconv.Itoa. destruct z as [|p|p]; cbn [Z.to_int NilZero.string_of_int].
  - exists EmptyString, Decimal.zero, "0"%char, EmptyString. by repeat split; auto.
  - destruct (Hpos p) as (a & more & -> & Hs & Ha & H0).
    exists EmptyString, (Pos.to_uint p), a, more. by repeat split; auto.
  - destruct (Hpos p) as (a & more & -> & Hs & Ha & H0).
    exists "-", (Pos.to_uint p), a, more. by repeat split; auto.
Qed.

Lemma scan_int_Itoa z sep rest :
  json.is_digit sep = false →
  Ascii.eqb sep "."%char || Ascii.eqb sep "e"%char || Ascii.eqb sep "E"%char = false →
  json.scan_int (strconv.Itoa z +:+ String sep rest)
  = Some (strconv.Itoa z, String sep rest).
Proof.
  intros Hsep Hfrac.
  destruct (Itoa_shape z) as (sign & d & a & more & -> & Hsign & Hd & Ha & H0).
  destruct (first_of_decimal a (or_intror Ha)) as (_ & _ & _ & _ & _).
  assert (Hminus : Ascii.eqb a "-"%char = false).
  { revert Ha. clear. destruct a as [[] [] [] [] [] [] [] []]; by vm_compute. }
  pose proof (span_digits_uint d sep rest Hsep) as Hspan.
  rewrite Hd in Hspan |- *. rewrite app_cons in Hspan.
  assert (Hlead : Ascii.eqb a "0"%char && negb (String.eqb more EmptyString) = false).
  { destruct (Ascii.eqb a "0"%char); [|done]. by rewrite (H0 eq_refl). }
  unfold json.scan_int.
  destruct Hsign as [-> | ->]; rewrite ?app_nil_l, !app_cons; cbv beta iota.
  - rewrite Hminus, Hspan, Hlead, Hfrac. done.
  - change (Ascii.eqb "-"%char "-"%char) with true. cbv beta iota.
    rewrite app_nil_l, app_cons, Hspan, Hlead, Hfrac. done.
Qed.

Lemma ParseInt64_Itoa z :
  (- 2 ^ 63 ≤ z < 2 ^ 63)%Z → strconv.ParseInt64 (strconv.Itoa z) = Some z.
Proof.
  intros [Hlo Hhi]. unfold strconv.ParseInt64.
  rewrite int_of_string_Itoa, DecimalZ.of_to.
  by rewrite (proj2 (Z.leb_le _ _) Hlo), (proj2 (Z.ltb_lt _ _) Hhi).
Qed.

Lemma parse_value_int z sep rest :
  json.is_digit sep = false →
  Ascii.eqb sep "."%char || Ascii.eqb sep "e"%char || Ascii.eqb sep "E"%char = false →
  json.skip_ws (strconv.Itoa z +:+ String sep rest) = strconv.Itoa z +:+ String sep rest ∧
  json.parse_value (strconv.Itoa z +:+ String sep rest)
  = Some (json.VInt (strconv.Itoa z), String sep rest).
Proof.
  intros Hsep Hfrac. pose proof (scan_int_Itoa z sep rest Hsep Hfrac) as Hscan.
  destruct (Itoa_shape z) as (sign & d & a & more & Hz & Hsign & Hd & Ha & _).
  assert (∃ a' t', strconv.Itoa z = String a' t' ∧ (a' = "-"%char ∨ json.is_digit a' = true))
    as (a' & t' & Hs & Ha').
  { rewrite Hz. destruct Hsign as [-> | ->].
    - rewrite app_nil_l, Hd. eauto.
    - rewrite app_cons. eauto. }
  destruct (first_of_decimal a' Ha') as (Hsp & Hq & Hn & Ht & Hf).
  rewrite Hs in *. rewrite app_cons in *. split.
  - cbn [json.skip_ws]. by rewrite Hsp.
  - unfold json.parse_value. rewrite Hq. cbn [strings.HasPrefix].
    by rewrite Hn, Ht, Hf, Hscan.
Qed.

(** ** The envelope read back *)

Lemma parse_member fuel k vtxt v rest env env' :
  strings.all_bytes literal_byte k = true →
  json.skip_ws (vtxt +:+ rest) = vtxt +:+ rest →
  json.parse_value (vtxt +:+ rest) = Some (v, rest) →
  json.store k v env = Some env' →
  json.parse_members (S fuel) (json.key k +:+ vtxt +:+ rest) env
  = after_member fuel rest env'.
Proof.
  intros Hk Hws Hv Hst. unfold json.key. rewrite app_cons.
  cbn [json.parse_members]. change (Ascii.eqb DQUOTE DQUOTE) with true. cbv iota.
  rewrite app_assoc', !app_cons, app_nil_l, (unquote_literal k _ Hk).
  cbn [json.skip_ws]. change (json.isSpace ":"%char) with false. cbv iota.
  change (Ascii.eqb ":"%char ":"%char) with true. cbv iota.
  rewrite Hws, Hv, Hst. done.
Qed.

Lemma parse_value_string s rest :
  ∃ d, json.skip_ws (json.appendString s +:+ rest) = json.appendString s +:+ rest ∧
       json.parse_value (json.appendString s +:+ rest) = Some (json.VString d, rest) ∧
       (d = s ↔ utf8.ValidString s = true).
Proof.
  destruct (unquote_appendString (String.length s) s rest (le_n _))
    as (d & Hd & Hv & Hi & _).
  exists d. unfold json.appendString. rewrite app_cons. split; [done|]. split.
  - unfold json.parse_value. change (Ascii.eqb DQUOTE DQUOTE) with true. cbv iota.
    by rewrite app_assoc', app_cons, app_nil_l, Hd.
  - unfold utf8.ValidString. split; [|done]. intros ->.
    destruct (utf8.valid_from 0 s); [done|]. specialize (Hi eq_refl). lia.
Qed.

Lemma parse_value_bytes p rest :
  ∃ v, json.skip_ws (json.appendBytes p +:+ rest) = json.appendBytes p +:+ rest ∧
       json.parse_value (json.appendBytes p +:+ rest) = Some (v, rest) ∧
       ∀ r u t, json.store "payload" v (mkEnvelope r u t None)
                = Some (mkEnvelope r u t p).
Proof.
  destruct p as [b|]; cbn [json.appendBytes].
  - exists (json.VString (base64.EncodeToString b)). rewrite app_cons.
    split; [reflexivity|]. split.
    + unfold json.parse_value. change (Ascii.eqb DQUOTE DQUOTE) with true. cbv iota.
      rewrite app_assoc', app_cons, app_nil_l.
      by rewrite unquote_literal
        by apply (EncodeToString_literal (String.length b)), le_n.
    + intros r u t. unfold json.store. change (json.field_of "payload") with (Some 3).
      cbv iota. by rewrite DecodeString_EncodeToString.
  - exists json.VNull. split; [reflexivity|]. split; [|reflexivity].
    unfold json.parse_value. rewrite !app_cons, app_nil_l. cbn [strings.HasPrefix].
    change (Ascii.eqb "n"%char DQUOTE) with false. cbv iota.
    rewrite !Ascii.eqb_refl. by destruct rest.
Qed.

(** C4, as amended.  For every payload, the nil and the empty slice and
    bytes that are not UTF-8 among them, every room and every username,
    [json.Unmarshal] of what [MarshalEnvelope] returns succeeds and gives
    an envelope with the clock reading and the payload, byte for byte, it
    was made from; its room is the room it was made from exactly when that
    room is valid UTF-8, and so for the username. *)
Theorem envelope_round_trip (room user : string) (now : Z) (payload : option string) :
  (- 2 ^ 63 ≤ now < 2 ^ 63)%Z →
  ∃ env, json.Unmarshal (MarshalEnvelope room user now payload) = Some env ∧
         Payload env = payload ∧ Ts env = now ∧
         (Room_ env = room ↔ utf8.ValidString room = true) ∧
         (Username env = user ↔ utf8.ValidString user = true).
Proof.
  intros Hnow. unfold MarshalEnvelope, json.Marshal.
  cbn [Room_ Username Ts Payload].
  set (s4 := json.key "payload" +:+ json.appendBytes payload +:+ "}").
  set (s3 := json.key "ts" +:+ strconv.Itoa now +:+ "," +:+ s4).
  set (s2 := json.key "username" +:+ json.appendString user +:+ "," +:+ s3).
  set (s1 := json.key "room" +:+ json.appendString room +:+ "," +:+ s2).
  destruct (parse_value_string room ("," +:+ s2)) as (room' & Hws1 & Hv1 & Hroom).
  destruct (parse_value_string user ("," +:+ s3)) as (user' & Hws2 & Hv2 & Huser).
  exists (mkEnvelope room' user' now payload). split; [|done].
  unfold json.Unmarshal.
  assert (Hfuel : ∃ fuel, String.length ("{" +:+ s1) = S (S (S (S fuel)))).
  { subst s1 s2 s3. unfold json.key. rewrite !length_app'.
    cbn [String.length]. eexists. rewrite !Nat.add_succ_r, !Nat.add_succ_l. done. }
  destruct Hfuel as [fuel ->].
  rewrite app_cons, app_nil_l. cbn [json.skip_ws]. change (json.isSpace "{"%char) with false.
  cbv iota. change (Ascii.eqb "{"%char "{"%char) with true. cbv iota.
  assert (Hs1 : json.skip_ws s1 = s1) by done. rewrite Hs1.
  assert (Hhead : ∃ t, s1 = String DQUOTE t) by (by eexists).
  destruct Hhead as [t Ht]. rewrite Ht at 1.
  change (Ascii.eqb DQUOTE "}"%char) with false. cbv iota. clear t Ht Hs1.
  (* room *)
  subst s1. rewrite (parse_member _ "room" _ _ _ _ _ eq_refl Hws1 Hv1 eq_refl).
  unfold after_member at 1. rewrite app_cons, app_nil_l. cbn [json.skip_ws].
  change (json.isSpace ","%char) with false. cbv iota.
  change (Ascii.eqb ","%char ","%char) with true. cbv iota.
  assert (Hs2 : json.skip_ws s2 = s2) by done. rewrite Hs2. clear Hws1 Hv1 Hs2.
  (* username *)
  subst s2. rewrite (parse_member _ "username" _ _ _ _ _ eq_refl Hws2 Hv2 eq_refl).
  unfold after_member at 1. rewrite app_cons, app_nil_l. cbn [json.skip_ws].
  change (json.isSpace ","%char) with false. cbv iota.
  change (Ascii.eqb ","%char ","%char) with true. cbv iota.
  assert (Hs3 : json.skip_ws s3 = s3) by done. rewrite Hs3. clear Hws2 Hv2 Hs3.
  (* ts *)
  destruct (parse_value_int now ","%char s4 eq_refl eq_refl) as [Hws Hv].
  subst s3. rewrite app_cons, app_nil_l.
  rewrite (parse_member _ "ts" _ _ _ _
             (mkEnvelope room' user' now None) eq_refl Hws Hv).
  2:{ unfold json.store. change (json.field_of "ts") with (Some 2). cbv iota.
      by rewrite ParseInt64_Itoa. }
  unfold after_member at 1. cbn [json.skip_ws].
  change (json.isSpace ","%char) with false. cbv iota.
  change (Ascii.eqb ","%char ","%char) with true. cbv iota.
  assert (Hs4 : json.skip_ws s4 = s4) by done. rewrite Hs4. clear Hws Hv Hs4.
  (* payload *)
  destruct (parse_value_bytes payload "}") as (v & Hws & Hv & Hst).
  subst s4. rewrite (parse_member _ "payload" _ _ _ _ _ eq_refl Hws Hv (Hst _ _ _)).
  done.
Qed.

Lemma envelope_round_trip_witness :
  ∃ env, json.Unmarshal
           (MarshalEnvelope "lab" (String "122" (String "111" (String "195" (String "171" ""))))
              1700000000000000000 (Some (String "255" (String "000" (String "010" "")))))
         = Some env ∧
         Payload env = Some (String "255" (String "000" (String "010" ""))) ∧
         Ts env = 1700000000000000000%Z ∧
         (Room_ env = "lab" ↔ utf8.ValidString "lab" = true) ∧
         (Username env = String "122" (String "111" (String "195" (String "171" "")))
          ↔ utf8.ValidString (String "122" (String "111" (String "195" (String "171" ""))))
            = true).
Proof.
  apply (envelope_round_trip "lab"
           (String "122" (String "111" (String "195" (String "171" ""))))
           1700000000000000000 (Some (String "255" (String "000" (String "010" ""))))).
  lia.
Defined.

(** The round trip as C4 has it fails for a room that is not UTF-8: the
    datagram [ROOM:\xff;USER:bob\nxyz] gives the room of the single byte
    255, [json.Marshal] writes it as the escape of U+FFFD, and the room
    read back is the three bytes of U+FFFD. *)
Lemma envelope_room_not_utf8 :
  udp_identity ("ROOM:" +:+ String "255" "" +:+ ";USER:bob" +:+ LF +:+ "xyz") 1
  = (String "255" "", "bob", "xyz") ∧
  MarshalEnvelope (String "255" "") "bob" 7 (Some "xyz")
  = "{" +:+ json.key "room" +:+ String DQUOTE (String BACKSLASH "ufffd")
        +:+ String DQUOTE "," +:+ json.key "username" +:+ String DQUOTE "bob"
        +:+ String DQUOTE "," +:+ json.key "ts" +:+ "7," +:+ json.key "payload"
        +:+ String DQUOTE "eHl6" +:+ String DQUOTE "}" ∧
  json.Unmarshal (MarshalEnvelope (String "255" "") "bob" 7 (Some "xyz"))
  = Some (mkEnvelope (String "239" (String "191" (String "189" ""))) "bob" 7 (Some "xyz")) ∧
  String "239" (String "191" (String "189" "")) ≠ String "255" "".
Proof. repeat split; [vm_compute; reflexivity..|discriminate]. Qed.

Lemma envelope_nil_and_empty_payload :
  json.Unmarshal (MarshalEnvelope "r" "u" 0 None) = Some (mkEnvelope "r" "u" 0 None) ∧
  json.Unmarshal (MarshalEnvelope "r" "u" 0 (Some EmptyString))
  = Some (mkEnvelope "r" "u" 0 (Some EmptyString)).
Proof. split; vm_compute; reflexivity. Qed.

(** * More of the server *)

(** ** What one step does to one client *)

Lemma step_client ev w w' c cl s :
  world_inv w → step ev w = Next w' →
  client_heap w !! c = Some cl → sessions w !! c = Some s →
  ∃ cl' s',
    client_heap w' !! c = Some cl' ∧ sessions w' !! c = Some s' ∧
    username cl' = username cl ∧ room cl' = room cl ∧
    roomName s' = roomName s ∧ cap (sendCh cl') = cap (sendCh cl) ∧
    ((cl' = cl ∧ s' = s) ∨
     (ev = EvJoin c ∧ cl' = cl ∧ h_pc s = Connected ∧
      s' = set_h_pc Joined s) ∨
     (∃ msg now order i,
        ev = EvRead c msg now order ∧ cl' = cl ∧ h_pc s = Joined ∧
        s' = set_h_pc (Broadcasting i) s ∧ flights w !! i = None ∧
        flights w' !! i
        = Some (mkFlight (room cl) (Some c)
                  (MarshalEnvelope (roomName s) (username cl) now (Some msg)) order)) ∨
     (∃ i f rest,
        ev = EvOffer i ∧ flights w !! i = Some f ∧ fl_todo f = c :: rest ∧
        fl_sender f ≠ Some c ∧ s' = s ∧ cl' = offered (fl_msg f) cl) ∨
     (∃ i, ev = EvDone i ∧ cl' = cl ∧ h_pc s = Broadcasting i ∧
           s' = set_h_pc Joined s) ∨
     (ev = EvLeave c ∧ cl' = cl ∧ h_pc s = Joined ∧ s' = set_h_pc Left s) ∨
     (ev = EvClose c ∧ h_pc s = Left ∧ closed (sendCh cl) = false ∧
      s' = set_h_pc Closed s ∧
      cl' = set_sendCh (mkChan (buf (sendCh cl)) (cap (sendCh cl)) true) cl) ∨
     (∃ m rest ok,
        ev = EvWrite c ok ∧ w_pc s = Running ∧ buf (sendCh cl) = m :: rest ∧
        s' = (if ok then s else set_w_pc Exited s) ∧
        cl' = set_conn (if ok then mkConn (written (conn cl) ++ [m]) (conn_closed (conn cl))
                        else mkConn (written (conn cl)) true)
                (set_sendCh (mkChan rest (cap (sendCh cl)) (closed (sendCh cl))) cl)) ∨
     (ev = EvWriterEnd c ∧ w_pc s = Running ∧ buf (sendCh cl) = [] ∧
      closed (sendCh cl) = true ∧ s' = set_w_pc Exited s ∧
      cl' = set_conn (mkConn (written (conn cl)) true) cl) ∨
     (ev = EvGo c ∧ cl' = cl ∧ h_pc s = Joined ∧ w_pc s = NotStarted ∧
      s' = set_w_pc Running s)).
Proof.
  intros Hinv H Hc Hs.
  destruct ev as [path now|d|d|d msg now order|i|i|d|d|d ok|d|
                  data remote t_user t_last t_env entries order]; cbn [step] in H.
  - (* connect *)
    unfold step_connect in H. destruct (ws_identity path now) as [rn un].
    destruct (world_getRoom rn w) as [r w1] eqn:Hg.
    destruct (world_getRoom_inv _ _ _ _ Hinv Hg) as (_ & _ & _ & Hch & Hss & _).
    injection H as <-. cbn.
    assert (Hne : c ≠ fresh (dom (client_heap w1))).
    { rewrite Hch. intros ->.
      pose proof (is_fresh (dom (client_heap w))) as Hf.
      apply not_elem_of_dom in Hf. congruence. }
    rewrite !lookup_insert_ne by done. rewrite Hch, Hss.
    exists cl, s. repeat (split; [done|]). by left.
  - (* join *)
    unfold step_join in H. step_cases H. cbn.
    destruct (decide (c = d)) as [->|Hne].
    + rewrite lookup_insert_eq. simplify_eq.
      eexists _, _. repeat (split; [done|]). right. left. done.
    + rewrite lookup_insert_ne by done.
      exists cl, s. repeat (split; [done|]). by left.
  - (* go *)
    unfold step_go in H. step_cases H. cbn.
    destruct (decide (c = d)) as [->|Hne].
    + rewrite lookup_insert_eq. simplify_eq.
      match goal with Hpc : _ ∧ _ |- _ => pose proof Hpc as [Hj Hn] end.
      eexists _, _. repeat (split; [done|]). do 9 right. done.
    + rewrite lookup_insert_ne by done.
      exists cl, s. repeat (split; [done|]). by left.
  - (* read *)
    unfold step_read in H. step_cases H. cbn.
    match goal with Hpc : _ ∧ _ |- _ => pose proof Hpc as [Hj Hn] end.
    destruct (decide (c = d)) as [->|Hne].
    + rewrite lookup_insert_eq. simplify_eq.
      eexists _, _. repeat (split; [done|]). right. right. left.
      eexists _, _, _, _. split; [done|]. split; [done|]. split; [done|].
      split; [done|]. split; [apply not_elem_of_dom, is_fresh|].
      apply lookup_insert_eq.
    + rewrite lookup_insert_ne by done.
      exists cl, s. repeat (split; [done|]). by left.
  - (* offer *)
    unfold step_offer in H. step_cases H. cbn.
    rename c0 into d, g into ch.
    match goal with Hb : broadcast_body _ _ _ _ = Some _ |- _ =>
      unfold broadcast_body in Hb; destruct (decide (Some d = fl_sender f)) as [Hsnd|Hsnd] end.
    + simplify_eq. exists cl, s. repeat (split; [done|]). by left.
    + destruct (client_heap w !! d) as [dl|] eqn:Hd; [|done]. simpl in *.
      destruct (try_send (fl_msg f) (sendCh dl)) as [q|] eqn:Hq; [|done]. simpl in *.
      simplify_eq. unfold try_send in Hq. destruct (closed (sendCh dl)) eqn:Hcl; [done|].
      injection Hq as <-.
      destruct (decide (c = d)) as [->|Hne].
      * rewrite lookup_insert_eq. simplify_eq.
        eexists _, s. split; [done|]. split; [done|].
        split; [done|]. split; [done|]. split; [done|].
        split; [unfold enqueue; by case_decide|].
        do 3 right. left. eexists _, _, _. repeat (split; [done|]). done.
      * rewrite lookup_insert_ne by done.
        exists cl, s. repeat (split; [done|]). by left.
  - (* done *)
    unfold step_done in H. step_cases H; cbn.
    + rename c0 into d.
      destruct (inv_owner w Hinv _ _ _ Heqo Heqo0) as (sd & Hsd & Hpc).
      destruct (decide (c = d)) as [->|Hne].
      * rewrite lookup_insert_eq. simplify_eq.
        eexists _, _. repeat (split; [done|]). do 4 right. left.
        exists i. done.
      * rewrite lookup_insert_ne by done.
        exists cl, s. repeat (split; [done|]). by left.
    + exists cl, s. repeat (split; [done|]). by left.
  - (* leave *)
    unfold step_leave in H. step_cases H. cbn.
    match goal with Hpc : _ ∧ _ |- _ => pose proof Hpc as [Hj Hn] end.
    destruct (decide (c = d)) as [->|Hne].
    + rewrite lookup_insert_eq. simplify_eq.
      eexists _, _. repeat (split; [done|]). do 5 right. left. done.
    + rewrite lookup_insert_ne by done.
      exists cl, s. repeat (split; [done|]). by left.
  - (* close *)
    unfold step_close in H. step_cases H. cbn.
    match goal with Hq : close_chan _ = Some _ |- _ =>
      unfold close_chan in Hq; destruct (closed (sendCh _)) eqn:Hcl; [done|];
      injection Hq as <- end.
    destruct (decide (c = d)) as [->|Hne].
    + rewrite !lookup_insert_eq. simplify_eq.
      eexists _, _. repeat (split; [done|]). do 6 right. left. done.
    + rewrite !lookup_insert_ne by done.
      exists cl, s. repeat (split; [done|]). by left.
  - (* write *)
    unfold step_write in H.
    destruct (sessions w !! d) as [sd|] eqn:Hsd; [|done].
    destruct (client_heap w !! d) as [dl|] eqn:Hd; [|done].
    destruct (decide (w_pc sd = Running)) as [Hrun|]; [|done].
    unfold try_recv in H. destruct (buf (sendCh dl)) as [|m rest] eqn:Hbuf; [done|].
    injection H as <-. cbn.
    destruct (decide (c = d)) as [->|Hne].
    + rewrite !lookup_insert_eq. simplify_eq.
      eexists _, _. split; [done|]. split; [done|].
      split; [done|]. split; [done|]. split; [by destruct ok|]. split; [done|].
      do 7 right. left. exists m, rest, ok. done.
    + rewrite !lookup_insert_ne by done.
      exists cl, s. repeat (split; [done|]). by left.
  - (* writer end *)
    unfold step_writer_end in H. step_cases H. cbn.
    destruct (decide (c = d)) as [->|Hne].
    + rewrite !lookup_insert_eq. simplify_eq.
      eexists _, _. repeat (split; [done|]). do 8 right. left. done.
    + rewrite !lookup_insert_ne by done.
      exists cl, s. repeat (split; [done|]). by left.
  - (* datagram *)
    unfold step_datagram in H. 
    destruct (udp_busy w); [done|].
    destruct (udp_identity data t_user) as [[rn un] payload].
    destruct (decide _); [|done].
    destruct (world_getRoom rn w) as [r w1] eqn:Hg.
    destruct (world_getRoom_inv _ _ _ _ Hinv Hg) as (_ & _ & _ & Hch & Hss & _).
    destruct (room_heap w1 !! r); [|done]. destruct (decide _); [|done].
    injection H as <-. cbn. rewrite Hch, Hss.
    exists cl, s. repeat (split; [done|]). by left.
Qed.

(** A client that a step brings into the world is the one [HandleWebSocket]
    has just built. *)
Lemma step_client_new ev w w' c cl' :
  world_inv w → step ev w = Next w' →
  client_heap w !! c = None → client_heap w' !! c = Some cl' →
  ∃ path now rn un rm,
    ev = EvConnect path now ∧ ws_identity path now = (rn, un) ∧
    cl' = mkClient un (room cl') (mkConn [] false) (make_chan 256) ∧
    sessions w' !! c = Some (mkSession rn Connected NotStarted) ∧
    rooms (hub w') !! rn = Some (room cl') ∧
    room_heap w' !! room cl' = Some rm ∧ name rm = rn.
Proof.
  intros Hinv H Hc Hc'.
  destruct ev as [path now|d|d|d msg now order|i|i|d|d|d ok|d|
                  data remote t_user t_last t_env entries order]; cbn [step] in H.
  - unfold step_connect in H. destruct (ws_identity path now) as [rn un] eqn:Hid.
    destruct (world_getRoom rn w) as [r w1] eqn:Hg.
    destruct (world_getRoom_inv _ _ _ _ Hinv Hg)
      as (_ & (rm & Hrm & Hnm) & Hhub & Hch & Hss & _).
    injection H as <-. cbn in *.
    destruct (decide (c = fresh (dom (client_heap w1)))) as [->|Hne].
    + rewrite lookup_insert_eq in Hc'. injection Hc' as <-. cbn.
      exists path, now, rn, un, rm. rewrite lookup_insert_eq. done.
    + rewrite lookup_insert_ne, Hch in Hc' by done. congruence.
  - unfold step_join in H. step_cases H. cbn in Hc'. congruence.
  - unfold step_go in H. step_cases H. cbn in Hc'. congruence.
  - unfold step_read in H. step_cases H. cbn in Hc'. congruence.
  - unfold step_offer in H. step_cases H. cbn in Hc'.
    rename c0 into d, g into ch.
    match goal with Hb : broadcast_body _ _ _ _ = Some _ |- _ =>
      unfold broadcast_body in Hb; destruct (decide (Some d = fl_sender f)) as [Hsnd|Hsnd] end.
    + simplify_eq.
    + destruct (client_heap w !! d) as [dl|] eqn:Hd; [|done]. simpl in *.
      destruct (try_send (fl_msg f) (sendCh dl)) as [q|] eqn:Hq; [|done]. simpl in *.
      simplify_eq. destruct (decide (c = d)) as [->|Hne]; [congruence|].
      rewrite lookup_insert_ne in Hc' by done. congruence.
  - unfold step_done in H. step_cases H; cbn in Hc'; congruence.
  - unfold step_leave in H. step_cases H. cbn in Hc'. congruence.
  - unfold step_close in H. step_cases H. cbn in Hc'.
    destruct (decide (c = d)) as [->|Hne]; [congruence|].
    rewrite lookup_insert_ne in Hc' by done. congruence.
  - unfold step_write in H. step_cases H; cbn in Hc';
      (destruct (decide (c = d)) as [->|Hne]; [congruence|]);
      rewrite lookup_insert_ne in Hc' by done; congruence.
  - unfold step_writer_end in H. step_cases H. cbn in Hc'.
    destruct (decide (c = d)) as [->|Hne]; [congruence|].
    rewrite lookup_insert_ne in Hc' by done. congruence.
  - unfold step_datagram in H.
    destruct (udp_busy w); [done|].
    destruct (udp_identity data t_user) as [[rn un] payload].
    destruct (decide _); [|done].
    destruct (world_getRoom rn w) as [r w1] eqn:Hg.
    destruct (world_getRoom_inv _ _ _ _ Hinv Hg) as (_ & _ & _ & Hch & Hss & _).
    destruct (room_heap w1 !! r); [|done]. destruct (decide _); [|done].
    injection H as <-. cbn in Hc'. congruence.
Qed.

(** What one step does to one room: a room is created empty under its
    name, or keeps its name and changes at most by the client that joins
    or leaves. *)
Lemma step_room ev w w' r rm' :
  world_inv w → step ev w = Next w' → room_heap w' !! r = Some rm' →
  (room_heap w !! r = None ∧ rm' = mkRoom (name rm') ∅ ∧
   rooms (hub w) !! name rm' = None ∧ rooms (hub w') !! name rm' = Some r) ∨
  (∃ rm, room_heap w !! r = Some rm ∧ name rm' = name rm ∧
         (rm' = rm ∨
          (∃ c cl, ev = EvJoin c ∧ client_heap w !! c = Some cl ∧ room cl = r ∧
                   rm' = join c rm) ∨
          (∃ c cl, ev = EvLeave c ∧ client_heap w !! c = Some cl ∧ room cl = r ∧
                   rm' = leave c rm))).
Proof.
  intros Hinv H Hr.
  assert (Hget : ∀ nm r0 w1, world_getRoom nm w = (r0, w1) →
            room_heap w1 !! r = Some rm' →
            (room_heap w !! r = None ∧ rm' = mkRoom (name rm') ∅ ∧
             rooms (hub w) !! name rm' = None ∧ rooms (hub w1) !! name rm' = Some r) ∨
            room_heap w !! r = Some rm').
  { intros nm r0 w1 Hg Hr1. unfold world_getRoom in Hg.
    destruct (getRoom nm (hub w) (room_heap w)) as [[r1 h1] rh1] eqn:Hgr.
    injection Hg as <- <-. cbn in *.
    destruct (getRoom_new_rooms _ _ _ _ _ _ _ _ Hgr Hr1) as [?|(Hnone & -> & ->)]; [by right|].
    left. cbn. split; [done|]. split; [done|].
    destruct (getRoom_cases nm (hub w) (room_heap w)) as [(r2 & Hr2 & Heq)|[Hn Heq]];
      rewrite Heq in Hgr; injection Hgr as <- <- <-.
    - destruct (inv_hub w Hinv _ _ Hr2) as (? & ? & _). congruence.
    - split; [done|]. cbn. apply lookup_insert_eq. }
  destruct ev as [path now|d|d|d msg now order|i|i|d|d|d ok|d|
                  data remote t_user t_last t_env entries order]; cbn [step] in H.
  - unfold step_connect in H. destruct (ws_identity path now) as [rn un].
    destruct (world_getRoom rn w) as [r0 w1] eqn:Hg.
    injection H as <-. cbn in Hr.
    destruct (Hget _ _ _ Hg Hr) as [(? & ? & ? & ?)|?]; [left|right; eauto].
    by repeat split.
  - unfold step_join in H. step_cases H. cbn in Hr.
    match goal with Hd : client_heap w !! d = Some ?dl |- _ =>
      destruct (decide (r = room dl)) as [->|Hne] end.
    + rewrite lookup_insert_eq in Hr. injection Hr as <-.
      right. eexists. split; [done|]. split; [done|]. right. left. by eexists _, _.
    + rewrite lookup_insert_ne in Hr by done. right. eauto.
  - unfold step_go in H. step_cases H. cbn in Hr. right. eauto.
  - unfold step_read in H. step_cases H. cbn in Hr. right. eauto.
  - unfold step_offer in H. step_cases H. cbn in Hr. right. eauto.
  - unfold step_done in H. step_cases H; cbn in Hr; right; eauto.
  - unfold step_leave in H. step_cases H. cbn in Hr.
    match goal with Hd : client_heap w !! d = Some ?dl |- _ =>
      destruct (decide (r = room dl)) as [->|Hne] end.
    + rewrite lookup_insert_eq in Hr. injection Hr as <-.
      right. eexists. split; [done|]. split; [done|]. right. right. by eexists _, _.
    + rewrite lookup_insert_ne in Hr by done. right. eauto.
  - unfold step_close in H. step_cases H. cbn in Hr. right. eauto.
  - unfold step_write in H. step_cases H; cbn in Hr; right; eauto.
  - unfold step_writer_end in H. step_cases H. cbn in Hr. right. eauto.
  - unfold step_datagram in H.
    destruct (udp_busy w); [done|].
    destruct (udp_identity data t_user) as [[rn un] payload].
    destruct (decide _); [|done].
    destruct (world_getRoom rn w) as [r0 w1] eqn:Hg.
    destruct (room_heap w1 !! r0); [|done]. destruct (decide _); [|done].
    injection H as <-. cbn in Hr.
    destruct (Hget _ _ _ Hg Hr) as [(? & ? & ? & ?)|?]; [left|right; eauto].
    by repeat split.
Qed.

(** A name the hub holds after a step was there before, or was registered
    by this step for a room that did not exist. *)
Lemma step_hub_back ev w w' nm r :
  world_inv w → step ev w = Next w' → rooms (hub w') !! nm = Some r →
  rooms (hub w) !! nm = Some r ∨
  (rooms (hub w) !! nm = None ∧ room_heap w !! r = None).
Proof.
  intros Hinv H Hr.
  assert (Hget : ∀ nm0 r0 w1, world_getRoom nm0 w = (r0, w1) →
            rooms (hub w1) !! nm = Some r →
            rooms (hub w) !! nm = Some r ∨
            (rooms (hub w) !! nm = None ∧ room_heap w !! r = None)).
  { intros nm0 r0 w1 Hg Hr1. unfold world_getRoom in Hg.
    destruct (getRoom nm0 (hub w) (room_heap w)) as [[r1 h1] rh1] eqn:Hgr.
    injection Hg as <- <-. cbn in *.
    destruct (getRoom_names_back _ _ _ _ _ _ _ _ Hgr Hr1) as [?|[-> ->]]; [by left|].
    destruct (getRoom_cases nm0 (hub w) (room_heap w)) as [(r2 & Hr2 & Heq)|[Hn Heq]];
      rewrite Heq in Hgr; injection Hgr as <- <- <-.
    - by left.
    - right. split; [done|]. apply fresh_room_unallocated. }
  destruct ev as [path now|d|d|d msg now order|i|i|d|d|d ok|d|
                  data remote t_user t_last t_env entries order]; cbn [step] in H.
  - unfold step_connect in H. destruct (ws_identity path now) as [rn un].
    destruct (world_getRoom rn w) as [r0 w1] eqn:Hg.
    injection H as <-. cbn in Hr. eauto.
  - unfold step_join in H. step_cases H. cbn in Hr. eauto.
  - unfold step_go in H. step_cases H. cbn in Hr. eauto.
  - unfold step_read in H. step_cases H. cbn in Hr. eauto.
  - unfold step_offer in H. step_cases H. cbn in Hr. eauto.
  - unfold step_done in H. step_cases H; cbn in Hr; eauto.
  - unfold step_leave in H. step_cases H. cbn in Hr. eauto.
  - unfold step_close in H. step_cases H. cbn in Hr. eauto.
  - unfold step_write in H. step_cases H; cbn in Hr; eauto.
  - unfold step_writer_end in H. step_cases H. cbn in Hr. eauto.
  - unfold step_datagram in H.
    destruct (udp_busy w); [done|].
    destruct (udp_identity data t_user) as [[rn un] payload].
    destruct (decide _); [|done].
    destruct (world_getRoom rn w) as [r0 w1] eqn:Hg.
    destruct (room_heap w1 !! r0); [|done]. destruct (decide _); [|done].
    injection H as <-. cbn in Hr. eauto.
Qed.

(** ** The queues stay within their capacity *)

Lemma enqueue_bound msg ch :
  length (buf ch) ≤ cap ch → length (buf (enqueue msg ch)) ≤ cap ch.
Proof.
  unfold enqueue. case_decide; [|done]. cbn. rewrite length_app. cbn. lia.
Qed.

Lemma step_queues_bounded ev w w' :
  world_inv w → queues_bounded w → step ev w = Next w' → queues_bounded w'.
Proof.
  intros Hinv Hq H c cl' Hc'.
  destruct (client_heap w !! c) as [cl|] eqn:Hc.
  - destruct (inv_client w Hinv _ _ Hc) as [_ [s Hs]].
    destruct (Hq _ _ Hc) as [Hcap Hlen].
    destruct (step_client _ _ _ _ _ _ Hinv H Hc Hs)
      as (cl1 & s1 & Hc1 & _ & _ & _ & _ & Hcap1 & Hcase).
    assert (cl1 = cl') as -> by congruence.
    split; [congruence|].
    destruct Hcase as [[-> _]|[(_ & -> & _)|[(? & ? & ? & ? & _ & -> & _)|
      [(i & f & rest & _ & _ & _ & _ & _ & ->)|[(? & _ & -> & _)|[(_ & -> & _)|
      [(_ & _ & _ & _ & ->)|[(m & rest & ok & _ & _ & Hbuf & _ & ->)|
      [(_ & _ & _ & _ & _ & ->)|(_ & -> & _)]]]]]]]]]; try done.
    + cbn. rewrite <- Hcap. apply enqueue_bound. lia.
    + cbn. rewrite Hbuf in Hlen. cbn in Hlen. lia.
  - destruct (step_client_new _ _ _ _ _ Hinv H Hc Hc')
      as (? & ? & ? & ? & ? & _ & _ & -> & _). cbn. split; [done|lia].
Qed.

Lemma run_queues_bounded evs w w' :
  world_inv w → queues_bounded w → run evs w = Next w' → queues_bounded w'.
Proof.
  revert w. induction evs as [|ev evs IH]; intros w Hinv Hq Hrun.
  - by injection Hrun as <-.
  - apply run_cons_inv in Hrun as (w1 & Hstep & Hrun).
    eapply IH; [by eapply step_inv | by eapply step_queues_bounded | done].
Qed.

(** X1.  In every world the server can reach, the outbound queue of every
    client has the capacity 256 it was made with and holds at most 256
    frames: [broadcast] never grows a queue beyond its capacity. *)
Theorem queue_never_exceeds_capacity (w : World) (c : client_ptr) (cl : Client) :
  reachable w → client_heap w !! c = Some cl →
  cap (sendCh cl) = 256 ∧ length (buf (sendCh cl)) ≤ 256.
Proof.
  intros [evs Hrun] Hc.
  assert (Hq : queues_bounded w).
  { eapply run_queues_bounded; [apply world_inv_init| |exact Hrun].
    intros c0 cl0 H0. cbn in H0. by rewrite lookup_empty in H0. }
  by apply Hq in Hc.
Qed.

Lemma queue_never_exceeds_capacity_witness :
  ∃ cl, client_heap demo_world !! 3%positive = Some cl ∧
        cap (sendCh cl) = 256 ∧ length (buf (sendCh cl)) ≤ 256.
Proof.
  eexists. split; [vm_compute; reflexivity|].
  apply (queue_never_exceeds_capacity demo_world 3%positive).
  - exists demo_schedule. vm_compute. reflexivity.
  - vm_compute. reflexivity.
Defined.

(** ** The writer and the connection *)

Lemma lifecycle_init : lifecycle init_world.
Proof. intros c cl s Hc. cbn in Hc. by rewrite lookup_empty in Hc. Qed.

Lemma step_started ev w w' c s :
  step ev w = Next w' → sessions w !! c = Some s →
  (∃ msg now order, ev = EvRead c msg now order) ∨ ev = EvLeave c →
  w_pc s ≠ NotStarted.
Proof.
  intros H Hs [(msg & now & order & ->)| ->]; cbn in H.
  - unfold step_read in H. rewrite Hs in H. step_cases H.
    match goal with Hpc : _ ∧ _ |- _ => apply Hpc end.
  - unfold step_leave in H. rewrite Hs in H. step_cases H.
    match goal with Hpc : _ ∧ _ |- _ => apply Hpc end.
Qed.

Lemma step_lifecycle ev w w' :
  world_inv w → lifecycle w → step ev w = Next w' → lifecycle w'.
Proof.
  intros Hinv Hl H c cl' s' Hc' Hs'.
  destruct (client_heap w !! c) as [cl|] eqn:Hc.
  - destruct (inv_client w Hinv _ _ Hc) as [_ [s Hs]].
    destruct (Hl _ _ _ Hc Hs) as (Hstart & Hconn & Hnot).
    destruct (step_client _ _ _ _ _ _ Hinv H Hc Hs)
      as (cl1 & s1 & Hc1 & Hs1 & _ & _ & _ & _ & Hcase).
    assert (cl1 = cl') as -> by congruence. assert (s1 = s') as -> by congruence.
    destruct Hcase as [[-> ->]|[(_ & -> & Hpc & ->)|
      [(msg & now & order & i & Hev & -> & Hpc & -> & _)|
      [(i & f & rest & -> & Hf & Htodo & Hsnd & -> & ->)|[(? & _ & -> & Hpc & ->)|
      [(Hev & -> & Hpc & ->)|[(_ & Hpc & _ & -> & ->)|
      [(m & rest & ok & _ & Hw & Hbuf & -> & ->)|
      [(_ & Hw & _ & _ & -> & ->)|(_ & -> & Hpc & Hw & ->)]]]]]]]]]; cbn.
    + done.
    + (* join *)
      split; [done|]. split; [done|]. intros Hn. split; [by right|]. by apply Hnot.
    + (* read *)
      assert (w_pc s ≠ NotStarted) by (eapply step_started; eauto).
      split; [done|]. split; [done|]. done.
    + (* an offer goes to a member *)
      destruct (inv_flight w Hinv _ _ Hf) as (rm & Hrm & Hmem).
      assert (Hm : is_member c rm) by (apply Hmem; rewrite Htodo; left).
      destruct (inv_member w Hinv _ _ _ Hrm Hm) as (cl0 & s0 & Hc0 & Hs0 & _ & _ & Hpc).
      simplify_eq. split; [|split; [done|done]].
      intros Hn. destruct Hpc as [?|[? ?]]; congruence.
    + (* the broadcast is over *)
      split; [done|]. split; [done|]. intros Hn. split; [by right|]. by apply Hnot.
    + (* leave *)
      assert (w_pc s ≠ NotStarted) by (eapply step_started; eauto).
      split; [done|]. split; [done|]. done.
    + (* close *)
      split; [done|]. split; [done|]. intros Hn.
      destruct (Hnot Hn) as [[?|?] _]; congruence.
    + (* write *)
      destruct ok; cbn.
      * split; [intros Hn; apply Hstart in Hn as [? _]; congruence|].
        split; [done|]. intros Hn. congruence.
      * split; [intros Hn; apply Hstart in Hn as [? _]; congruence|].
        split; [done|]. done.
    + (* the writer returns *)
      split; [intros Hn; apply Hstart in Hn as [? _]; congruence|].
      split; [done|]. done.
    + (* go *)
      split; [intros; congruence|]. split; [|done].
      rewrite Hconn, Hw. split; intros; congruence.
  - destruct (step_client_new _ _ _ _ _ Hinv H Hc Hc')
      as (path & now & rn & un & rm & _ & _ & -> & Hs1 & _).
    assert (s' = mkSession rn Connected NotStarted) as -> by congruence. cbn.
    split; [done|]. split; [done|]. intros _. split; [by left|done].
Qed.

Lemma run_lifecycle evs w w' :
  world_inv w → lifecycle w → run evs w = Next w' → lifecycle w'.
Proof.
  revert w. induction evs as [|ev evs IH]; intros w Hinv Hq Hrun.
  - by injection Hrun as <-.
  - apply run_cons_inv in Hrun as (w1 & Hstep & Hrun).
    eapply IH; [by eapply step_inv | by eapply step_lifecycle | done].
Qed.

Lemma reachable_lifecycle w : reachable w → lifecycle w.
Proof.
  intros [evs H]. eapply run_lifecycle; [apply world_inv_init|apply lifecycle_init|done].
Qed.

Lemma step_conn_closed ev w w' c cl :
  world_inv w → lifecycle w → step ev w = Next w' →
  client_heap w !! c = Some cl → conn_closed (conn cl) = true →
  ∃ cl', client_heap w' !! c = Some cl' ∧ conn cl' = conn cl.
Proof.
  intros Hinv Hl H Hc Hclosed.
  destruct (inv_client w Hinv _ _ Hc) as [_ [s Hs]].
  destruct (Hl _ _ _ Hc Hs) as (_ & Hconn & _). apply Hconn in Hclosed.
  destruct (step_client _ _ _ _ _ _ Hinv H Hc Hs)
    as (cl' & s' & Hc' & _ & _ & _ & _ & _ & Hcase).
  exists cl'. split; [done|].
  destruct Hcase as [[-> _]|[(_ & -> & _)|[(? & ? & ? & ? & _ & -> & _)|
    [(i & f & rest & _ & _ & _ & _ & _ & ->)|[(? & _ & -> & _)|[(_ & -> & _)|
    [(_ & _ & _ & _ & ->)|[(m & rest & ok & _ & Hw & _)|
    [(_ & Hw & _)|(_ & -> & _)]]]]]]]]]; try done; congruence.
Qed.

(** X2.  The connection of a client is closed by its writer alone, when
    the writer returns: in every reachable world the connection is closed
    exactly when the writer has returned.  The handler starts the writer
    between its [room.join] and its reader loop: before the join the
    writer is not started and the queue of the client is empty; as long as
    the writer is not started the handler stands before its join or right
    after it, and nothing has been written to the connection, though
    frames of other broadcasts may wait in the queue already.  Once the
    connection is closed no schedule writes another frame to it. *)
Theorem connection_closed_by_writer_only
    (w : World) (c : client_ptr) (cl : Client) (s : Session) :
  reachable w → client_heap w !! c = Some cl → sessions w !! c = Some s →
  (conn_closed (conn cl) = true ↔ w_pc s = Exited) ∧
  (h_pc s = Connected → w_pc s = NotStarted ∧ buf (sendCh cl) = []) ∧
  (w_pc s = NotStarted →
   (h_pc s = Connected ∨ h_pc s = Joined) ∧ written (conn cl) = []) ∧
  (conn_closed (conn cl) = true →
   ∀ evs w', run evs w = Next w' →
     ∃ cl', client_heap w' !! c = Some cl' ∧ conn cl' = conn cl).
Proof.
  intros Hreach Hc Hs.
  pose proof (reachable_inv w Hreach) as Hinv.
  pose proof (reachable_lifecycle w Hreach) as Hl.
  destruct (Hl _ _ _ Hc Hs) as (Hstart & Hconn & Hnot).
  split; [done|]. split; [done|]. split; [done|].
  intros Hclosed evs. clear Hs Hstart Hconn Hnot Hreach.
  revert w cl Hinv Hl Hc Hclosed.
  induction evs as [|ev evs IH]; intros w cl Hinv Hl Hc Hclosed w' Hrun.
  - injection Hrun as <-. by exists cl.
  - apply run_cons_inv in Hrun as (w1 & Hstep & Hrun).
    destruct (step_conn_closed _ _ _ _ _ Hinv Hl Hstep Hc Hclosed) as (cl1 & Hc1 & Heq).
    destruct (IH w1 cl1) with (w' := w') as (cl' & Hc' & Heq'); try done.
    + by eapply step_inv.
    + by eapply step_lifecycle.
    + by rewrite Heq.
    + exists cl'. split; [done|]. by rewrite Heq', Heq.
Qed.

(** In the world of the two datagrams the client has joined its room and
    its writer is not started yet: the frame of the first datagram waits
    in its queue. *)
Lemma connection_closed_by_writer_only_witness :
  ∃ cl s, client_heap udp_demo_before !! 1%positive = Some cl ∧
          sessions udp_demo_before !! 1%positive = Some s ∧
          h_pc s = Joined ∧ w_pc s = NotStarted ∧ length (buf (sendCh cl)) = 1 ∧
    (conn_closed (conn cl) = true ↔ w_pc s = Exited) ∧
    (h_pc s = Connected → w_pc s = NotStarted ∧ buf (sendCh cl) = []) ∧
    (w_pc s = NotStarted →
     (h_pc s = Connected ∨ h_pc s = Joined) ∧ written (conn cl) = []) ∧
    (conn_closed (conn cl) = true →
     ∀ evs w', run evs udp_demo_before = Next w' →
       ∃ cl', client_heap w' !! 1%positive = Some cl' ∧ conn cl' = conn cl).
Proof.
  eexists _, _. split; [vm_compute; reflexivity|]. split; [vm_compute; reflexivity|].
  split; [vm_compute; reflexivity|]. split; [vm_compute; reflexivity|].
  split; [vm_compute; reflexivity|].
  apply (connection_closed_by_writer_only udp_demo_before 1%positive).
  - exists udp_demo_prefix. vm_compute. reflexivity.
  - vm_compute. reflexivity.
  - vm_compute. reflexivity.
Defined.

(** ** The registry of rooms *)

Lemma registry_init : registry init_world.
Proof.
  split.
  - intros r rm H. cbn in H. by rewrite lookup_empty in H.
  - intros c cl s H. cbn in H. by rewrite lookup_empty in H.
Qed.

Lemma step_registry ev w w' :
  world_inv w → registry w → step ev w = Next w' → registry w'.
Proof.
  intros Hinv [Hreg Hcl] H. split.
  - intros r rm' Hr.
    destruct (step_room _ _ _ _ _ Hinv H Hr) as [(_ & _ & _ & Hnew)|(rm & Hrm & Hnm & _)].
    + done.
    + rewrite Hnm. eapply step_hub; [done|]. by apply Hreg.
  - intros c cl' s' Hc' Hs'.
    destruct (client_heap w !! c) as [cl|] eqn:Hc.
    + destruct (inv_client w Hinv _ _ Hc) as [_ [s Hs]].
      destruct (step_client _ _ _ _ _ _ Hinv H Hc Hs)
        as (cl1 & s1 & Hc1 & Hs1 & _ & Hroom & Hname & _).
      simplify_eq. rewrite Hroom, Hname. eapply step_hub; [done|]. by eapply Hcl.
    + destruct (step_client_new _ _ _ _ _ Hinv H Hc Hc')
        as (path & now & rn & un & rm & _ & _ & _ & Hs1 & Hhub & _).
      simplify_eq. done.
Qed.

Lemma run_registry evs w w' :
  world_inv w → registry w → run evs w = Next w' → registry w'.
Proof.
  revert w. induction evs as [|ev evs IH]; intros w Hinv Hq Hrun.
  - by injection Hrun as <-.
  - apply run_cons_inv in Hrun as (w1 & Hstep & Hrun).
    eapply IH; [by eapply step_inv | by eapply step_registry | done].
Qed.

Lemma reachable_registry w : reachable w → registry w.
Proof.
  intros [evs H]. eapply run_registry; [apply world_inv_init|apply registry_init|done].
Qed.

(** X3.  In every reachable world the names of the hub and the rooms
    correspond one to one: a name leads to a room of that name, no two
    names lead to the same room, and there is no room besides those the
    hub holds, each under its own name. *)
Theorem hub_names_and_rooms_correspond (w : World) :
  reachable w →
  (∀ nm r, rooms (hub w) !! nm = Some r →
     ∃ rm, room_heap w !! r = Some rm ∧ name rm = nm) ∧
  (∀ n1 n2 r, rooms (hub w) !! n1 = Some r → rooms (hub w) !! n2 = Some r → n1 = n2) ∧
  (∀ r rm, room_heap w !! r = Some rm → rooms (hub w) !! name rm = Some r).
Proof.
  intros Hreach. pose proof (reachable_inv w Hreach) as Hinv.
  destruct (reachable_registry w Hreach) as [Hreg _].
  split; [apply (inv_hub w Hinv)|]. split; [|done].
  intros n1 n2 r H1 H2.
  destruct (inv_hub w Hinv _ _ H1) as (rm1 & Hr1 & <-).
  destruct (inv_hub w Hinv _ _ H2) as (rm2 & Hr2 & <-). congruence.
Qed.

Lemma hub_names_and_rooms_correspond_witness :
  (∀ nm r, rooms (hub demo_world) !! nm = Some r →
     ∃ rm, room_heap demo_world !! r = Some rm ∧ name rm = nm) ∧
  (∀ n1 n2 r, rooms (hub demo_world) !! n1 = Some r →
              rooms (hub demo_world) !! n2 = Some r → n1 = n2) ∧
  (∀ r rm, room_heap demo_world !! r = Some rm →
           rooms (hub demo_world) !! name rm = Some r).
Proof.
  apply (hub_names_and_rooms_correspond demo_world).
  exists demo_schedule. vm_compute. reflexivity.
Defined.

(** X4.  A client is a member of no room but its own, which is the room
    the hub holds under the room name of its handler; and it is a member of
    that room exactly while its handler stands after its [join] and before
    its [leave]. *)
Theorem member_of_own_room_while_reading
    (w : World) (c : client_ptr) (cl : Client) (s : Session) :
  reachable w → client_heap w !! c = Some cl → sessions w !! c = Some s →
  (∀ r rm, room_heap w !! r = Some rm → is_member c rm →
     r = room cl ∧ rooms (hub w) !! roomName s = Some r ∧ name rm = roomName s) ∧
  ((∃ rm, room_heap w !! room cl = Some rm ∧ is_member c rm)
   ↔ (h_pc s = Joined ∨ ∃ i, h_pc s = Broadcasting i)).
Proof.
  intros Hreach Hc Hs. pose proof (reachable_inv w Hreach) as Hinv.
  destruct (reachable_registry w Hreach) as [Hreg Hcl]. split.
  - intros r rm Hr Hm.
    destruct (inv_member w Hinv _ _ _ Hr Hm) as (cl0 & s0 & Hc0 & Hs0 & Hroom & _).
    simplify_eq. split; [done|].
    pose proof (Hcl _ _ _ Hc Hs) as Hhub. split; [done|].
    destruct (inv_hub w Hinv _ _ Hhub) as (rm' & Hrm' & Hnm). congruence.
  - split.
    + intros (rm & Hr & Hm).
      destruct (inv_member w Hinv _ _ _ Hr Hm) as (cl0 & s0 & Hc0 & Hs0 & _ & _ & Hpc).
      by simplify_eq.
    + intros Hpc. by apply (inv_joined w Hinv _ _ _ Hc Hs).
Qed.

Lemma member_of_own_room_while_reading_witness :
  ∃ cl s, client_heap reading_demo !! 1%positive = Some cl ∧
          sessions reading_demo !! 1%positive = Some s ∧
          h_pc s = Broadcasting 1%positive ∧
    (∀ r rm, room_heap reading_demo !! r = Some rm → is_member 1%positive rm →
       r = room cl ∧ rooms (hub reading_demo) !! roomName s = Some r ∧
       name rm = roomName s) ∧
    ((∃ rm, room_heap reading_demo !! room cl = Some rm ∧ is_member 1%positive rm)
     ↔ (h_pc s = Joined ∨ ∃ i, h_pc s = Broadcasting i)).
Proof.
  eexists _, _. split; [vm_compute; reflexivity|]. split; [vm_compute; reflexivity|].
  split; [vm_compute; reflexivity|].
  apply (member_of_own_room_while_reading reading_demo 1%positive).
  - exists reading_demo_schedule. vm_compute. reflexivity.
  - vm_compute. reflexivity.
  - vm_compute. reflexivity.
Defined.

(** ** Frames stay in their room *)

(** A broadcast in progress after a step was in progress before, with the
    same room and frame, or has just been started by a reader or by the
    UDP loop. *)
Lemma step_flight ev w w' i f' :
  world_inv w → step ev w = Next w' → flights w' !! i = Some f' →
  (∃ f, flights w !! i = Some f ∧ fl_room f' = fl_room f ∧ fl_msg f' = fl_msg f ∧
        fl_sender f' = fl_sender f ∧
        (fl_todo f' = fl_todo f ∨ ∃ c, fl_todo f = c :: fl_todo f')) ∨
  (∃ c cl s msg now order rm,
     ev = EvRead c msg now order ∧ client_heap w !! c = Some cl ∧
     sessions w !! c = Some s ∧
     room_heap w !! room cl = Some rm ∧ order ≡ₚ members rm ∧
     f' = mkFlight (room cl) (Some c)
            (MarshalEnvelope (roomName s) (username cl) now (Some msg)) order) ∨
  (∃ data remote t_user t_last t_env entries order rn un payload rm,
     ev = EvDatagram data remote t_user t_last t_env entries order ∧
     udp_identity data t_user = (rn, un, payload) ∧
     rooms (hub w') !! rn = Some (fl_room f') ∧
     room_heap w' !! fl_room f' = Some rm ∧ order ≡ₚ members rm ∧
     f' = mkFlight (fl_room f') None (MarshalEnvelope rn un t_env (Some payload)) order).
Proof.
  intros Hinv H Hf.
  assert (Hold : ∀ f, flights w !! i = Some f → f' = f →
            ∃ f, flights w !! i = Some f ∧ fl_room f' = fl_room f ∧
                 fl_msg f' = fl_msg f ∧ fl_sender f' = fl_sender f ∧
                 (fl_todo f' = fl_todo f ∨ ∃ c, fl_todo f = c :: fl_todo f')).
  { intros f Hf0 ->. exists f. repeat (split; [done|]). by left. }
  destruct ev as [path now|d|d|d msg now order|j|j|d|d|d ok|d|
                  data remote t_user t_last t_env entries order]; cbn [step] in H.
  - unfold step_connect in H. destruct (ws_identity path now) as [rn un].
    destruct (world_getRoom rn w) as [r w1] eqn:Hg.
    destruct (world_getRoom_inv _ _ _ _ Hinv Hg) as (_ & _ & _ & _ & _ & Hfl & _).
    injection H as <-. cbn in Hf. rewrite Hfl in Hf. left. by apply (Hold f').
  - unfold step_join in H. step_cases H. cbn in Hf. left. by apply (Hold f').
  - unfold step_go in H. step_cases H. cbn in Hf. left. by apply (Hold f').
  - unfold step_read in H. step_cases H. cbn in Hf.
    destruct (decide (i = fresh (dom (flights w)))) as [->|Hne].
    + rewrite lookup_insert_eq in Hf. injection Hf as <-.
      right. left. eexists _, _, _, _, _, _, _. done.
    + rewrite lookup_insert_ne in Hf by done. left. by apply (Hold f').
  - unfold step_offer in H. step_cases H. cbn in Hf.
    destruct (decide (i = j)) as [->|Hne].
    + rewrite lookup_insert_eq in Hf. injection Hf as <-. left. eexists.
      split; [done|]. cbn. repeat (split; [done|]). right. by eexists.
    + rewrite lookup_insert_ne in Hf by done. left. by apply (Hold f').
  - unfold step_done in H. step_cases H; cbn in Hf;
      apply lookup_delete_Some in Hf as [_ Hf]; left; by apply (Hold f').
  - unfold step_leave in H. step_cases H. cbn in Hf. left. by apply (Hold f').
  - unfold step_close in H. step_cases H. cbn in Hf. left. by apply (Hold f').
  - unfold step_write in H. step_cases H; cbn in Hf; left; by apply (Hold f').
  - unfold step_writer_end in H. step_cases H. cbn in Hf. left. by apply (Hold f').
  - unfold step_datagram in H.
    destruct (udp_busy w); [done|].
    destruct (udp_identity data t_user) as [[rn un] payload] eqn:Hid.
    destruct (decide _); [|done].
    destruct (world_getRoom rn w) as [r w1] eqn:Hg.
    destruct (world_getRoom_inv _ _ _ _ Hinv Hg) as (_ & _ & Hhub & _ & _ & Hfl & _).
    destruct (room_heap w1 !! r) as [rm|] eqn:Hrm; [|done].
    destruct (decide _) as [Hperm|]; [|done].
    injection H as <-. cbn in Hf |- *.
    destruct (decide (i = fresh (dom (flights w1)))) as [->|Hne].
    + rewrite lookup_insert_eq in Hf. injection Hf as <-.
      right. right. eexists _, _, _, _, _, _, _, _, _, _, _. done.
    + rewrite lookup_insert_ne, Hfl in Hf by done. left. by apply (Hold f').
Qed.

Lemma room_name_kept ev w w' r rm rm' :
  world_inv w → step ev w = Next w' →
  room_heap w !! r = Some rm → room_heap w' !! r = Some rm' → name rm' = name rm.
Proof.
  intros Hinv H Hr Hr'.
  destruct (step_room _ _ _ _ _ Hinv H Hr') as [(Hn & _)|(rm0 & Hrm0 & Hnm & _)];
    congruence.
Qed.

(** the room of a client bears the room name of its handler *)
Lemma client_room_name w c cl s rm :
  world_inv w → registry w →
  client_heap w !! c = Some cl → sessions w !! c = Some s →
  room_heap w !! room cl = Some rm → name rm = roomName s.
Proof.
  intros Hinv [_ Hcl] Hc Hs Hrm.
  destruct (inv_hub w Hinv _ _ (Hcl _ _ _ Hc Hs)) as (rm' & Hrm' & Hnm). congruence.
Qed.

Lemma frames_in_room_init : frames_in_room init_world.
Proof.
  split.
  - intros i f H. cbn in H. by rewrite lookup_empty in H.
  - intros c cl s m H. cbn in H. by rewrite lookup_empty in H.
Qed.

Lemma step_frames_in_room ev w w' :
  world_inv w → registry w → frames_in_room w → step ev w = Next w' →
  frames_in_room w'.
Proof.
  intros Hinv Hreg [Hfl Hq] H.
  pose proof (step_inv _ _ _ Hinv H) as Hinv'. split.
  - intros i f' Hf'.
    destruct (inv_flight w' Hinv' _ _ Hf') as (rm' & Hrm' & _).
    exists rm'. split; [done|].
    destruct (step_flight _ _ _ _ _ Hinv H Hf')
      as [(f & Hf & Hroom & Hmsg & _)|
          [(c & cl & s & msg & now & order & ? & _ & Hc & Hs & _ & _ & ->)|
          (data & remote & t_user & t_last & t_env & entries & order & rn & un & payload
           & ? & _ & _ & Hhub & _ & _ & Hf)]].
    + destruct (Hfl _ _ Hf) as (rm & Hrm & Henv). rewrite Hroom in Hrm'.
      by rewrite Hmsg, (room_name_kept _ _ _ _ _ _ Hinv H Hrm Hrm').
    + cbn in *. destruct (inv_client w Hinv _ _ Hc) as [[rm Hrm] _].
      rewrite (room_name_kept _ _ _ _ _ _ Hinv H Hrm Hrm').
      rewrite (client_room_name _ _ _ _ _ Hinv Hreg Hc Hs Hrm). by eexists _, _, _.
    + destruct (inv_hub w' Hinv' _ _ Hhub) as (rm0 & Hrm0 & Hnm).
      assert (rm0 = rm') as -> by congruence. rewrite Hf. cbn. rewrite Hnm.
      by eexists _, _, _.
  - intros c cl' s' m Hc' Hs' Hm.
    destruct (client_heap w !! c) as [cl|] eqn:Hc.
    + destruct (inv_client w Hinv _ _ Hc) as [_ [s Hs]].
      pose proof (λ m0, Hq c cl s m0 Hc Hs) as Hold.
      destruct (step_client _ _ _ _ _ _ Hinv H Hc Hs)
        as (cl1 & s1 & Hc1 & Hs1 & _ & _ & Hname & _ & Hcase).
      assert (cl1 = cl') as -> by congruence. assert (s1 = s') as -> by congruence.
      rewrite Hname.
      destruct Hcase as [[-> _]|[(_ & -> & _)|[(? & ? & ? & ? & _ & -> & _)|
        [(i & f & rest & _ & Hf & Htodo & _ & _ & ->)|[(? & _ & -> & _)|[(_ & -> & _)|
        [(_ & _ & _ & _ & ->)|[(m0 & rest & ok & _ & _ & Hbuf & _ & ->)|
        [(_ & _ & _ & _ & _ & ->)|(_ & -> & _)]]]]]]]]]; try (by apply Hold).
      * (* an offer *)
        cbn in Hm. unfold enqueue in Hm. case_decide; [|by apply Hold].
        cbn in Hm. rewrite app_assoc in Hm.
        apply elem_of_app in Hm as [Hm|Hm]; [by apply Hold|].
        apply list_elem_of_singleton in Hm as ->.
        destruct (Hfl _ _ Hf) as (rm & Hrm & Henv).
        destruct (inv_flight w Hinv _ _ Hf) as (rm0 & Hrm0 & Hmem).
        assert (rm0 = rm) as -> by congruence.
        assert (Hmc : is_member c rm) by (apply Hmem; rewrite Htodo; left).
        destruct (inv_member w Hinv _ _ _ Hrm Hmc) as (cl0 & s0 & Hc0 & Hs0 & Hroom & _).
        simplify_eq. rewrite <- Hroom in Hrm.
        by rewrite <- (client_room_name _ _ _ _ _ Hinv Hreg Hc Hs Hrm).
      * (* a frame taken by the writer *)
        apply Hold. rewrite Hbuf. destruct ok; cbn in Hm.
        -- rewrite <- app_assoc in Hm. done.
        -- apply elem_of_app in Hm as [Hm|Hm]; apply elem_of_app; [by left|].
           right. by right.
    + destruct (step_client_new _ _ _ _ _ Hinv H Hc Hc')
        as (? & ? & ? & ? & ? & _ & _ & Heq & _). rewrite Heq in Hm. cbn in Hm.
      by apply elem_of_nil in Hm.
Qed.

Lemma run_frames_in_room evs w w' :
  world_inv w → registry w → frames_in_room w → run evs w = Next w' →
  frames_in_room w'.
Proof.
  revert w. induction evs as [|ev evs IH]; intros w Hinv Hreg Hq Hrun.
  - by injection Hrun as <-.
  - apply run_cons_inv in Hrun as (w1 & Hstep & Hrun).
    eapply IH; [by eapply step_inv | by eapply step_registry
               | by eapply step_frames_in_room | done].
Qed.

Lemma step_flights_signed ev w w' :
  world_inv w → flights_signed w → step ev w = Next w' → flights_signed w'.
Proof.
  intros Hinv Hsig H i f' c Hf' Hsnd.
  assert (Hkeep : ∀ cl s, client_heap w !! c = Some cl → sessions w !! c = Some s →
            ∃ cl' s', client_heap w' !! c = Some cl' ∧ sessions w' !! c = Some s' ∧
                      username cl' = username cl ∧ roomName s' = roomName s).
  { intros cl s Hc Hs.
    destruct (step_client _ _ _ _ _ _ Hinv H Hc Hs)
      as (cl' & s' & Hc' & Hs' & Hu & _ & Hn & _). by exists cl', s'. }
  destruct (step_flight _ _ _ _ _ Hinv H Hf')
    as [(f & Hf & _ & Hmsg & Hs0 & _)|
        [(c0 & cl & s & msg & now & order & ? & _ & Hc & Hs & _ & _ & ->)|
        (data & remote & t_user & t_last & t_env & entries & order & rn & un & payload
         & ? & _ & _ & _ & _ & _ & Hf)]].
  - rewrite Hs0 in Hsnd.
    destruct (Hsig _ _ _ Hf Hsnd) as (cl & s & ts & payload & Hc & Hs & Hm).
    destruct (Hkeep _ _ Hc Hs) as (cl' & s' & Hc' & Hs' & Hu & Hn).
    exists cl', s', ts, payload. by rewrite Hmsg, Hm, Hu, Hn.
  - cbn in Hsnd. injection Hsnd as ->.
    destruct (Hkeep _ _ Hc Hs) as (cl' & s' & Hc' & Hs' & Hu & Hn).
    exists cl', s', now, msg. cbn. by rewrite Hu, Hn.
  - rewrite Hf in Hsnd. done.
Qed.

Lemma run_flights_signed evs w w' :
  world_inv w → flights_signed w → run evs w = Next w' → flights_signed w'.
Proof.
  revert w. induction evs as [|ev evs IH]; intros w Hinv Hq Hrun.
  - by injection Hrun as <-.
  - apply run_cons_inv in Hrun as (w1 & Hstep & Hrun).
    eapply IH; [by eapply step_inv | by eapply step_flights_signed | done].
Qed.

(** X5.  Frames never cross rooms: in every reachable world, every frame
    in the queue of a client and every frame written to its connection is
    an envelope stamped with the room name of that client's handler; every
    broadcast in progress carries an envelope stamped with the name of the
    room it ranges over; and the broadcast of a reader carries the
    username of that reader's client. *)
Theorem frames_never_cross_rooms (w : World) :
  reachable w →
  (∀ c cl s m, client_heap w !! c = Some cl → sessions w !! c = Some s →
     m ∈ written (conn cl) ++ buf (sendCh cl) →
     ∃ user ts payload, m = MarshalEnvelope (roomName s) user ts (Some payload)) ∧
  (∀ i f, flights w !! i = Some f →
     ∃ rm user ts payload,
       room_heap w !! fl_room f = Some rm ∧
       fl_msg f = MarshalEnvelope (name rm) user ts (Some payload)) ∧
  (∀ i f c, flights w !! i = Some f → fl_sender f = Some c →
     ∃ cl s ts payload,
       client_heap w !! c = Some cl ∧ sessions w !! c = Some s ∧
       fl_msg f = MarshalEnvelope (roomName s) (username cl) ts (Some payload)).
Proof.
  intros [evs Hrun].
  assert (Hfr : frames_in_room w).
  { eapply run_frames_in_room;
      [apply world_inv_init|apply registry_init|apply frames_in_room_init|done]. }
  assert (Hsig : flights_signed w).
  { eapply run_flights_signed; [apply world_inv_init| |done].
    intros i f c H. cbn in H. by rewrite lookup_empty in H. }
  destruct Hfr as [Hfl Hq]. split; [|split].
  - intros c cl s m Hc Hs Hm. apply (Hq _ _ _ _ Hc Hs Hm).
  - intros i f Hf. destruct (Hfl _ _ Hf) as (rm & Hrm & user & ts & payload & Hmsg).
    by exists rm, user, ts, payload.
  - exact Hsig.
Qed.

Lemma frames_never_cross_rooms_witness :
  (∀ c cl s m, client_heap reading_demo !! c = Some cl → sessions reading_demo !! c = Some s →
     m ∈ written (conn cl) ++ buf (sendCh cl) →
     ∃ user ts payload, m = MarshalEnvelope (roomName s) user ts (Some payload)) ∧
  (∀ i f, flights reading_demo !! i = Some f →
     ∃ rm user ts payload,
       room_heap reading_demo !! fl_room f = Some rm ∧
       fl_msg f = MarshalEnvelope (name rm) user ts (Some payload)) ∧
  (∀ i f c, flights reading_demo !! i = Some f → fl_sender f = Some c →
     ∃ cl s ts payload,
       client_heap reading_demo !! c = Some cl ∧ sessions reading_demo !! c = Some s ∧
       fl_msg f = MarshalEnvelope (roomName s) (username cl) ts (Some payload)).
Proof.
  apply (frames_never_cross_rooms reading_demo).
  exists reading_demo_schedule. vm_compute. reflexivity.
Defined.

(** ** The order of the frames on a connection *)





(** ** The writer after the queue is closed *)







(** ** The datagram side *)

Lemma udp_upsert_keeps rn un remote t (tbl : gmap string (gmap string peer)) rn' un' :
  is_Some (tbl !! rn' ≫= (λ t, t !! un')) →
  is_Some (udp_upsert rn un remote t tbl !! rn' ≫= (λ t, t !! un')).
Proof.
  intros Hold.
  destruct (udp_upsert_lookup rn un remote t tbl) as (table & Ht & Hun & Hothers & Hrooms).
  destruct (decide (rn' = rn)) as [->|Hne].
  - rewrite Ht. cbn. destruct (decide (un' = un)) as [->|Hne'].
    + by rewrite Hun.
    + by rewrite Hothers.
  - by rewrite Hrooms.
Qed.

Lemma step_udp ev w w' :
  step ev w = Next w' →
  (udp_sent w' = udp_sent w ∧ udp_rooms w' = udp_rooms w) ∨
  (is_datagram ev = true ∧
   ∃ out rn un remote t,
     udp_sent w' = udp_sent w ++ out ∧
     udp_rooms w' = udp_upsert rn un remote t (udp_rooms w)).
Proof.
  intros H.
  destruct ev as [path now|d|d|d msg now order|j|j|d|d|d ok|d|
                  data remote t_user t_last t_env entries order]; cbn [step] in H.
  - unfold step_connect in H. destruct (ws_identity path now) as [rn un].
    unfold world_getRoom in H. destruct (getRoom _ _ _) as [[? ?] ?].
    injection H as <-. by left.
  - unfold step_join in H. step_cases H. by left.
  - unfold step_go in H. step_cases H. by left.
  - unfold step_read in H. step_cases H. by left.
  - unfold step_offer in H. step_cases H. by left.
  - unfold step_done in H. step_cases H; by left.
  - unfold step_leave in H. step_cases H. by left.
  - unfold step_close in H. step_cases H. by left.
  - unfold step_write in H. step_cases H; by left.
  - unfold step_writer_end in H. step_cases H. by left.
  - unfold step_datagram in H.
    destruct (udp_busy w); [done|].
    destruct (udp_identity data t_user) as [[rn un] payload].
    destruct (decide _); [|done].
    unfold world_getRoom in H. destruct (getRoom _ _ _) as [[? ?] ?].
    cbn in H. step_cases H. right. split; [done|]. cbn. by eexists _, _, _, _, _.
Qed.

(** X8.  The bridge is one way and forgets no peer.  Along every
    schedule, what has been written to the UDP socket only grows at its
    end and no entry of the peer table is ever removed; and a schedule
    without a datagram leaves both as they were: no frame of a websocket
    client is ever forwarded to a UDP peer. *)
Theorem websocket_frames_stay_off_udp (w w' : World) (evs : list event) :
  run evs w = Next w' →
  udp_sent w `prefix_of` udp_sent w' ∧
  (∀ rn un, is_Some (udp_rooms w !! rn ≫= (λ t, t !! un)) →
            is_Some (udp_rooms w' !! rn ≫= (λ t, t !! un))) ∧
  (Forall (λ ev, is_datagram ev = false) evs →
   udp_sent w' = udp_sent w ∧ udp_rooms w' = udp_rooms w).
Proof.
  revert w. induction evs as [|ev evs IH]; intros w Hrun.
  - injection Hrun as <-. done.
  - apply run_cons_inv in Hrun as (w1 & Hstep & Hrun).
    destruct (IH _ Hrun) as (Hpre & Hkeep & Hnone).
    destruct (step_udp _ _ _ Hstep)
      as [[Hs Hr]|(Hd & out & rn & un & remote & t & Hs & Hr)].
    + rewrite <- Hs, <- Hr. split; [done|]. split; [done|].
      intros Hall. apply Forall_cons in Hall as [_ Hall]. by apply Hnone.
    + split; [|split].
      * etrans; [|exact Hpre]. rewrite Hs. by apply prefix_app_r.
      * intros rn' un' Hold. apply Hkeep. rewrite Hr. by apply udp_upsert_keeps.
      * intros Hall. apply Forall_cons in Hall as [Hev _]. congruence.
Qed.

Lemma websocket_frames_stay_off_udp_witness :
  udp_sent init_world `prefix_of` udp_sent demo_world ∧
  (∀ rn un, is_Some (udp_rooms init_world !! rn ≫= (λ t, t !! un)) →
            is_Some (udp_rooms demo_world !! rn ≫= (λ t, t !! un))) ∧
  (Forall (λ ev, is_datagram ev = false) demo_schedule →
   udp_sent demo_world = udp_sent init_world ∧ udp_rooms demo_world = udp_rooms init_world).
Proof.
  apply (websocket_frames_stay_off_udp init_world demo_world demo_schedule).
  vm_compute. reflexivity.
Defined.

(** ** The lock of a room *)

(** No step changes a room a broadcast is ranging over. *)
Lemma step_room_locked ev w w' i f :
  world_inv w → step ev w = Next w' → flights w !! i = Some f →
  room_heap w' !! fl_room f = room_heap w !! fl_room f.
Proof.
  intros Hinv H Hf.
  destruct (inv_flight w Hinv _ _ Hf) as (rm & Hrm & _).
  pose proof (step_inv _ _ _ Hinv H) as Hinv'.
  destruct (room_heap w' !! fl_room f) as [rm'|] eqn:Hrm'.
  - destruct (step_room _ _ _ _ _ Hinv H Hrm')
      as [(Hnone & _)|(rm0 & Hrm0 & _ & [->|[(c & cl & -> & Hc & Hroom & _)|
                                           (c & cl & -> & Hc & Hroom & _)]])].
    + congruence.
    + congruence.
    + cbn in H. unfold step_join in H. rewrite Hc in H. step_cases H.
      match goal with Hu : unlocked _ _ = true |- _ =>
        by destruct (unlocked_no_flight _ _ _ _ Hu Hf) end.
    + cbn in H. unfold step_leave in H. rewrite Hc in H. step_cases H.
      match goal with Hu : unlocked _ _ = true |- _ =>
        by destruct (unlocked_no_flight _ _ _ _ Hu Hf) end.
  - (* the room is still there *)
    exfalso.
    assert (Hkeep : ∀ nm r w1, world_getRoom nm w = (r, w1) →
              room_heap w1 !! fl_room f = Some rm).
    { intros nm r w1 Hg. unfold world_getRoom in Hg.
      destruct (getRoom nm (hub w) (room_heap w)) as [[r1 h1] rh1] eqn:Hgr.
      injection Hg as <- <-. cbn. by eapply getRoom_keeps_rooms. }
    destruct ev as [path now|d|d|d msg now order|j|j|d|d|d ok|d|
                    data remote t_user t_last t_env entries order]; cbn [step] in H.
    + unfold step_connect in H. destruct (ws_identity path now) as [rn un].
      destruct (world_getRoom rn w) as [r w1] eqn:Hg. injection H as <-.
      cbn in Hrm'. rewrite (Hkeep _ _ _ Hg) in Hrm'. done.
    + unfold step_join in H. step_cases H. cbn in Hrm'.
      apply lookup_insert_None in Hrm' as [? _]. congruence.
    + unfold step_go in H. step_cases H. cbn in Hrm'. congruence.
    + unfold step_read in H. step_cases H. cbn in Hrm'. congruence.
    + unfold step_offer in H. step_cases H. cbn in Hrm'. congruence.
    + unfold step_done in H. step_cases H; cbn in Hrm'; congruence.
    + unfold step_leave in H. step_cases H. cbn in Hrm'.
      apply lookup_insert_None in Hrm' as [? _]. congruence.
    + unfold step_close in H. step_cases H. cbn in Hrm'. congruence.
    + unfold step_write in H. step_cases H; cbn in Hrm'; congruence.
    + unfold step_writer_end in H. step_cases H. cbn in Hrm'. congruence.
    + unfold step_datagram in H.
      destruct (udp_busy w); [done|].
      destruct (udp_identity data t_user) as [[rn un] payload].
      destruct (decide _); [|done].
      destruct (world_getRoom rn w) as [r w1] eqn:Hg.
      destruct (room_heap w1 !! r); [|done]. destruct (decide _); [|done].
      injection H as <-. cbn in Hrm'. rewrite (Hkeep _ _ _ Hg) in Hrm'. done.
Qed.

Lemma step_flights_nodup ev w w' :
  world_inv w → flights_nodup w → step ev w = Next w' → flights_nodup w'.
Proof.
  intros Hinv Hnd H i f' Hf'.
  destruct (step_flight _ _ _ _ _ Hinv H Hf')
    as [(f & Hf & _ & _ & _ & [->|[c Htodo]])|
        [(c & cl & s & msg & now & order & rm & _ & _ & _ & _ & Hperm & ->)|
        (data & remote & t_user & t_last & t_env & entries & order & rn & un & payload
         & rm & _ & _ & _ & _ & Hperm & ->)]].
  - by apply (Hnd _ _ Hf).
  - pose proof (Hnd _ _ Hf) as Hn. rewrite Htodo in Hn. by apply NoDup_cons in Hn as [_ ?].
  - cbn. rewrite Hperm. apply NoDup_members.
  - cbn. rewrite Hperm. apply NoDup_members.
Qed.

Lemma run_flights_nodup evs w w' :
  world_inv w → flights_nodup w → run evs w = Next w' → flights_nodup w'.
Proof.
  revert w. induction evs as [|ev evs IH]; intros w Hinv Hq Hrun.
  - by injection Hrun as <-.
  - apply run_cons_inv in Hrun as (w1 & Hstep & Hrun).
    eapply IH; [by eapply step_inv | by eapply step_flights_nodup | done].
Qed.

(** X9.  A broadcast and the changes of membership exclude each other.
    While a broadcast ranges over a room, no step of any goroutine changes
    that room: [join] and [leave] wait for the lock.  The members the
    broadcast has still to serve are members of the room and distinct, so
    each member is offered the frame at most once; and a reader has at
    most one broadcast in progress. *)
Theorem membership_frozen_during_broadcast
    (w : World) (i : flight_id) (f : Flight) :
  reachable w → flights w !! i = Some f →
  (∀ ev w', step ev w = Next w' →
     room_heap w' !! fl_room f = room_heap w !! fl_room f) ∧
  (∃ rm, room_heap w !! fl_room f = Some rm ∧ ∀ c, c ∈ fl_todo f → is_member c rm) ∧
  NoDup (fl_todo f) ∧
  (∀ j g c, flights w !! j = Some g → fl_sender f = Some c → fl_sender g = Some c →
            j = i).
Proof.
  intros Hreach Hf. pose proof (reachable_inv w Hreach) as Hinv.
  split; [|split; [|split]].
  - intros ev w' H. by eapply step_room_locked.
  - apply (inv_flight w Hinv _ _ Hf).
  - destruct Hreach as [evs Hrun].
    assert (Hnd : flights_nodup w).
    { eapply run_flights_nodup; [apply world_inv_init| |done].
      intros j g H. cbn in H. by rewrite lookup_empty in H. }
    by apply (Hnd _ _ Hf).
  - intros j g c Hg Hsf Hsg.
    destruct (inv_owner w Hinv _ _ _ Hf Hsf) as (s & Hs & Hpc).
    destruct (inv_owner w Hinv _ _ _ Hg Hsg) as (s' & Hs' & Hpc').
    congruence.
Qed.

Lemma membership_frozen_during_broadcast_witness :
  ∃ f, flights reading_demo !! 1%positive = Some f ∧
       fl_sender f = Some 1%positive ∧
  (∀ ev w', step ev reading_demo = Next w' →
     room_heap w' !! fl_room f = room_heap reading_demo !! fl_room f) ∧
  (∃ rm, room_heap reading_demo !! fl_room f = Some rm ∧
         ∀ c, c ∈ fl_todo f → is_member c rm) ∧
  NoDup (fl_todo f) ∧
  (∀ j g c, flights reading_demo !! j = Some g → fl_sender f = Some c →
            fl_sender g = Some c → j = 1%positive).
Proof.
  eexists. split; [vm_compute; reflexivity|]. split; [vm_compute; reflexivity|].
  apply (membership_frozen_during_broadcast reading_demo 1%positive).
  - exists reading_demo_schedule. vm_compute. reflexivity.
  - vm_compute. reflexivity.
Defined.

(** ** Paths of plain segments *)

Lemma splitTrim_unfold s sep :
  splitTrim s sep
  = if String.eqb (strings.TrimSpace s) EmptyString then []
    else splitTrim_finish
           (fold_left (splitTrim_step sep) (utf8.runes (strings.TrimSpace s))
              ([], EmptyString)).
Proof.
  unfold splitTrim, splitTrim_finish. destruct (String.eqb _ _); [done|].
  by destruct (fold_left _ _ _).
Qed.

Lemma splitTrim_finish_filter out cur :
  splitTrim_finish (out, cur)
  = filter (λ p, p ≠ EmptyString) (out ++ [strings.Trim cur "/ "]).
Proof.
  unfold splitTrim_finish. destruct cur as [|a t]; [|done].
  cbn [String.length Nat.ltb Nat.leb]. rewrite Trim_nil, filter_app.
  rewrite filter_cons, decide_False by (intros ?; done).
  by rewrite filter_nil, List.app_nil_r.
Qed.

Lemma fold_segment seg rest out cur :
  plain seg = true → has_byte "/" seg = false →
  fold_left (splitTrim_step SLASH) (utf8.runes (seg +:+ rest)) (out, cur)
  = fold_left (splitTrim_step SLASH) (utf8.runes rest) (out, cur +:+ seg).
Proof.
  revert cur. induction seg as [|a seg IH]; intros cur Hp Hs.
  - by rewrite app_nil_l, app_nil_r.
  - unfold plain in Hp. cbn in Hp, Hs.
    apply andb_true_iff in Hp as [Ha Hp]. apply orb_false_iff in Hs as [Hsl Hs].
    assert (Hlt : (byte_val a < 0x80)%N).
    { unfold plain_byte in Ha. apply andb_true_iff in Ha as [_ Ha].
      apply N.leb_le in Ha. lia. }
    rewrite app_cons, runes_cons_ascii by done. cbn [fold_left].
    unfold splitTrim_step at 2.
    assert (Hne : (byte_val a =? SLASH)%N = false).
    { apply N.eqb_neq. intros Heq. apply (byte_val_inj a "/") in Heq. subst a. done. }
    rewrite Hne, EncodeRune_ascii by done. rewrite (IH _ Hp Hs).
    by rewrite app_assoc', app_cons, app_nil_l.
Qed.

Lemma fold_slash rest out cur :
  fold_left (splitTrim_step SLASH) (utf8.runes ("/" +:+ rest)) (out, cur)
  = fold_left (splitTrim_step SLASH) (utf8.runes rest)
      (out ++ [strings.Trim cur "/ "], EmptyString).
Proof.
  rewrite app_cons, app_nil_l, runes_cons_ascii by done. done.
Qed.

Lemma segment_Trim s : segment s → strings.Trim s "/ " = s.
Proof. intros (_ & Hp & Hs). by apply Trim_plain. Qed.

Lemma fold_join_path segs tail out cur :
  Forall segment segs → tail = EmptyString ∨ tail = "/" →
  splitTrim_finish
    (fold_left (splitTrim_step SLASH) (utf8.runes (join_path segs +:+ tail)) (out, cur))
  = filter (λ p, p ≠ EmptyString) (out ++ [strings.Trim cur "/ "]) ++ segs.
Proof.
  intros Hsegs Htail. revert out cur.
  induction Hsegs as [|s segs Hs Hsegs IH]; intros out cur.
  - cbn [join_path]. rewrite app_nil_l, List.app_nil_r. destruct Htail as [-> | ->].
    + cbn. apply splitTrim_finish_filter.
    + change "/" with ("/" +:+ EmptyString). rewrite fold_slash. cbn [utf8.runes utf8.runes_from fold_left].
      rewrite splitTrim_finish_filter, Trim_nil, filter_app.
      rewrite (filter_cons _ EmptyString), decide_False by (intros ?; done).
      by rewrite filter_nil, List.app_nil_r.
  - cbn [join_path]. rewrite !app_assoc', fold_slash.
    destruct Hs as (Hne & Hp & Hsl).
    rewrite (fold_segment s _ _ _ Hp Hsl). rewrite app_nil_l, IH.
    rewrite (Trim_plain s Hp Hsl). rewrite !filter_app.
    rewrite (filter_cons _ s), decide_True by done.
    by rewrite filter_nil, <- app_assoc.
Qed.

Lemma plain_join_path segs tail :
  Forall segment segs → tail = EmptyString ∨ tail = "/" →
  plain (join_path segs +:+ tail) = true.
Proof.
  intros Hsegs Htail. rewrite plain_app. apply andb_true_iff. split.
  - induction Hsegs as [|s segs (_ & Hp & _) _ IH]; [done|].
    cbn [join_path]. rewrite !plain_app, Hp, IH. done.
  - by destruct Htail as [-> | ->].
Qed.

Lemma splitTrim_join_path segs tail :
  Forall segment segs → tail = EmptyString ∨ tail = "/" →
  splitTrim (join_path segs +:+ tail) SLASH = segs.
Proof.
  intros Hsegs Htail. rewrite splitTrim_unfold.
  rewrite TrimSpace_plain by by apply plain_join_path.
  destruct (String.eqb_spec (join_path segs +:+ tail) EmptyString) as [Heq|Hne].
  - destruct segs as [|s segs]; [done|]. cbn [join_path] in Heq.
    by rewrite !app_cons in Heq.
  - rewrite fold_join_path by done. rewrite Trim_nil. cbn [app].
    by rewrite filter_cons, decide_False, filter_nil by (intros ?; done).
Qed.

Lemma TrimPrefix_ws p : strings.TrimPrefix ("/ws" +:+ p) "/ws" = p.
Proof. by destruct p. Qed.

(** X10.  The path of a stream connection, read as [HandleWebSocket] reads
    it.  For a path [/ws/s1/.../sn], with or without a slash at its end,
    whose segments are plain text, [splitTrim] returns the segments; the
    first is the room name and the second the username, the default room
    [global] and the anonymous name made from the clock standing in for a
    segment that is missing; segments after the second are ignored. *)
Theorem path_segments_name_room_and_user
    (segs : list string) (tail : string) (now : Z) :
  Forall segment segs → tail = EmptyString ∨ tail = "/" →
  splitTrim (join_path segs +:+ tail) SLASH = segs ∧
  ws_identity ("/ws" +:+ join_path segs +:+ tail) now
  = (default "global" (segs !! 0%nat),
     default ("anon-" +:+ strconv.Itoa now) (segs !! 1%nat)).
Proof.
  intros Hsegs Htail.
  pose proof (splitTrim_join_path segs tail Hsegs Htail) as Hsplit.
  split; [done|]. unfold ws_identity. rewrite TrimPrefix_ws, Hsplit.
  destruct segs as [|s0 [|s1 rest]]; [done|..].
  - apply Forall_cons in Hsegs as [(Hne & _) _]. cbn.
    by rewrite (proj2 (String.eqb_neq _ _) Hne).
  - apply Forall_cons in Hsegs as [(Hne0 & _) Hsegs].
    apply Forall_cons in Hsegs as [(Hne1 & _) _]. cbn.
    by rewrite (proj2 (String.eqb_neq _ _) Hne0), (proj2 (String.eqb_neq _ _) Hne1).
Qed.

Lemma path_segments_name_room_and_user_witness :
  splitTrim (join_path ["lab"; "ann"; "x"] +:+ "/") SLASH = ["lab"; "ann"; "x"] ∧
  ws_identity ("/ws" +:+ join_path ["lab"; "ann"; "x"] +:+ "/") 7
  = (default "global" (["lab"; "ann"; "x"] !! 0%nat),
     default ("anon-" +:+ strconv.Itoa 7) (["lab"; "ann"; "x"] !! 1%nat)).
Proof.
  apply (path_segments_name_room_and_user ["lab"; "ann"; "x"] "/" 7).
  - repeat constructor; (discriminate || reflexivity).
  - right. reflexivity.
Defined.

(** ** Valid UTF-8 *)

Lemma byte_val_of n : byte_val (byte_of n) = (n mod 256)%N.
Proof.
  unfold byte_val, byte_of. apply N_ascii_embedding. by apply N.mod_lt.
Qed.

Lemma cont_byte_val x : byte_val (utf8.cont_byte x) = (128 + x mod 64)%N.
Proof.
  unfold utf8.cont_byte. rewrite byte_val_of, land_3F, lor_80 by (by apply N.mod_lt).
  apply N.mod_small. pose proof (N.mod_lt x 64). lia.
Qed.

(** after its first byte, the encoding of a rune holds continuation bytes *)
Lemma EncodeRune_tail r a p :
  utf8.EncodeRune r = String a p →
  strings.all_bytes (λ c, (0x80 <=? c)%N) p = true.
Proof.
  unfold utf8.EncodeRune.
  repeat match goal with |- context [if ?b then _ else _] => destruct b end;
    intros [= _ <-]; cbn [strings.all_bytes]; rewrite ?cont_byte_val;
    repeat (apply andb_true_iff; split); try done; apply N.leb_le, N.le_add_r.
Qed.

Lemma valid_cons_ascii a t :
  (byte_val a < 0x80)%N → utf8.valid_from 0 (String a t) = utf8.valid_from 0 t.
Proof.
  intros Ha. cbn [utf8.valid_from]. rewrite (Decode_ascii a t Ha).
  assert (Hne : (byte_val a =? utf8.RuneError)%N = false)
    by (apply N.eqb_neq; unfold utf8.RuneError; lia).
  by rewrite Hne.
Qed.

Lemma valid_ascii s :
  strings.all_bytes (λ c, (c <? utf8.RuneSelf)%N) s = true → utf8.ValidString s = true.
Proof.
  unfold utf8.ValidString. induction s as [|a t IH]; [done|]. cbn [strings.all_bytes].
  intros [Ha Ht]%andb_true_iff. apply N.ltb_lt in Ha.
  rewrite valid_cons_ascii by done. by apply IH.
Qed.

(** What [valid_from] does at the head of a string, by what
    [DecodeRuneInString] finds there. *)
Lemma valid_head a t :
  (0x80 ≤ byte_val a)%N → utf8.valid_from 0 (String a t) = true →
  ∃ r p t', t = p +:+ t' ∧ 1 ≤ String.length p ∧
            utf8.EncodeRune r = String a p ∧
            (∀ u, utf8.valid_from 0 (String a p +:+ u) = utf8.valid_from 0 u).
Proof.
  intros Hge Hv. cbn [utf8.valid_from] in Hv.
  destruct (DecodeRune_head (String a t)) as (c & size & Hdec & Hhead).
  rewrite Hdec in Hv.
  destruct Hhead as [(? & _)|[(a' & t' & [= <- <-] & _ & Hlt & _)|
    [(a' & t' & _ & -> & _ & ->)|
     (a' & p & t' & Hs & -> & Hp & _ & Hc & Henc & Hany)]]]; [done|lia|done|].
  rewrite app_cons in Hs. injection Hs as <- ->.
  exists c, p, t'. split; [done|]. split; [lia|]. split; [done|].
  intros u. rewrite app_cons. cbn [utf8.valid_from]. rewrite <- app_cons, Hany.
  assert (Hsz : (S (String.length p) =? 1) = false) by (apply Nat.eqb_neq; lia).
  rewrite Hsz, andb_false_r.
  replace (S (String.length p) - 1) with (String.length p) by lia.
  apply valid_skip.
Qed.

(** Valid text followed by any text is valid when what follows is. *)
Lemma valid_app (n : nat) s t :
  String.length s ≤ n → utf8.valid_from 0 s = true →
  utf8.valid_from 0 (s +:+ t) = utf8.valid_from 0 t.
Proof.
  revert s. induction (lt_wf n) as [n _ IH]. intros [|a s] Hlen Hv; [done|].
  cbn [String.length] in Hlen.
  destruct (N.lt_ge_cases (byte_val a) 0x80) as [Hlt|Hge].
  - rewrite app_cons, valid_cons_ascii by done. rewrite valid_cons_ascii in Hv by done.
    apply (IH (String.length s)); [lia|done|done].
  - destruct (valid_head a s Hge Hv) as (r & p & t' & -> & Hp & Henc & Hskip).
    rewrite <- app_cons, app_assoc', Hskip. rewrite <- app_cons, Hskip in Hv.
    rewrite length_app' in Hlen. apply (IH (String.length t')); [lia|done|done].
Qed.

Lemma app_split_high s u p t :
  s +:+ u = p +:+ t →
  strings.all_bytes (λ c, (0x80 <=? c)%N) p = true →
  strings.all_bytes (λ c, (c <? utf8.RuneSelf)%N) u = true →
  ∃ s', s = p +:+ s' ∧ t = s' +:+ u.
Proof.
  revert s. induction p as [|b p IH]; intros s Heq Hp Hu.
  - exists s. by rewrite !app_nil_l in *.
  - cbn [strings.all_bytes] in Hp. apply andb_true_iff in Hp as [Hb Hp].
    apply N.leb_le in Hb. destruct s as [|c s].
    + rewrite app_nil_l in Heq. subst u. rewrite app_cons in Hu.
      cbn [strings.all_bytes] in Hu. apply andb_true_iff in Hu as [Hb' _].
      apply N.ltb_lt in Hb'. unfold utf8.RuneSelf in Hb'. lia.
    + rewrite !app_cons in Heq. injection Heq as -> Heq.
      destruct (IH s Heq Hp Hu) as (s' & -> & ->). exists s'. by rewrite app_cons.
Qed.

(** Text that is valid with ASCII bytes after it is valid without them. *)
Lemma valid_before_ascii (n : nat) s u :
  String.length s ≤ n →
  strings.all_bytes (λ c, (c <? utf8.RuneSelf)%N) u = true →
  utf8.valid_from 0 (s +:+ u) = true → utf8.valid_from 0 s = true.
Proof.
  revert s. induction (lt_wf n) as [n _ IH]. intros [|a s] Hlen Hu Hv; [done|].
  cbn [String.length] in Hlen. rewrite app_cons in Hv.
  destruct (N.lt_ge_cases (byte_val a) 0x80) as [Hlt|Hge].
  - rewrite valid_cons_ascii in Hv |- * by done.
    apply (IH (String.length s)); [lia|done|done|done].
  - destruct (valid_head a _ Hge Hv) as (r & p & t' & Heq & Hp & Henc & Hskip).
    destruct (app_split_high _ _ _ _ Heq (EncodeRune_tail _ _ _ Henc) Hu)
      as (s' & -> & ->).
    rewrite <- app_cons, Hskip. rewrite app_assoc', <- app_cons, Hskip in Hv.
    rewrite length_app' in Hlen. apply (IH (String.length s')); [lia|done|done|done].
Qed.

Lemma in_cutset_ascii a :
  strings.in_cutset "/ " a = true → (byte_val a < 0x80)%N.
Proof.
  unfold strings.in_cutset. cbn. rewrite orb_false_r.
  intros [->%Ascii.eqb_eq | ->%Ascii.eqb_eq]%orb_true_iff; done.
Qed.

Lemma trimLeftASCII_valid s :
  utf8.valid_from 0 s = true → utf8.valid_from 0 (strings.trimLeftASCII s "/ ") = true.
Proof.
  induction s as [|a s IH]; [done|]. intros Hv. cbn [strings.trimLeftASCII].
  destruct (strings.in_cutset "/ " a) eqn:Hc; [|done].
  apply IH. by rewrite valid_cons_ascii in Hv by by apply in_cutset_ascii.
Qed.

Lemma trimRightASCII_split s :
  ∃ u, s = strings.trimRightASCII s "/ " +:+ u ∧
       strings.all_bytes (λ c, (c <? utf8.RuneSelf)%N) u = true.
Proof.
  induction s as [|a s (u & Hs & Hu)]; [by exists EmptyString|].
  cbn [strings.trimRightASCII].
  destruct (strings.trimRightASCII s "/ ") as [|b t] eqn:Ht.
  - destruct (strings.in_cutset "/ " a) eqn:Hc.
    + exists (String a u). rewrite app_nil_l in *. split; [by rewrite <- Hs|].
      cbn [strings.all_bytes]. rewrite Hu, andb_true_r.
      apply N.ltb_lt. by apply in_cutset_ascii.
    + exists u. rewrite app_nil_l in Hs. split; [|done].
      by rewrite app_cons, app_nil_l, <- Hs.
  - exists u. split; [|done]. by rewrite app_cons, <- Hs.
Qed.

Lemma Trim_valid s :
  utf8.ValidString s = true → utf8.ValidString (strings.Trim s "/ ") = true.
Proof.
  unfold utf8.ValidString, strings.Trim. intros Hv. apply trimLeftASCII_valid.
  destruct (trimRightASCII_split s) as (u & Hs & Hu).
  apply (valid_before_ascii (String.length (strings.trimRightASCII s "/ ")) _ u);
    [done|done|]. by rewrite <- Hs.
Qed.

(** ** What [splitTrim] returns is valid UTF-8 *)

Lemma valid_replacement u :
  utf8.valid_from 0 (utf8.EncodeRune utf8.RuneError +:+ u) = utf8.valid_from 0 u.
Proof.
  change (utf8.EncodeRune utf8.RuneError)
    with (String "239" (String "191" (String "189" EmptyString))).
  rewrite !app_cons, app_nil_l. cbn [utf8.valid_from].
  rewrite (Decode3 "239" "191" "189" u 0x80 0xBF) by done. done.
Qed.

(** every rune the [range] over a string yields is written back as valid
    UTF-8 *)
Lemma decoded_rune_valid s r size u :
  s ≠ EmptyString → utf8.DecodeRuneInString s = (r, size) →
  utf8.valid_from 0 (utf8.EncodeRune r +:+ u) = utf8.valid_from 0 u.
Proof.
  intros Hne Hdec. destruct (DecodeRune_head s) as (c & size' & Hdec' & Hhead).
  rewrite Hdec in Hdec'. injection Hdec' as <- <-.
  destruct Hhead as [(? & _)|[(a' & t' & -> & _ & Hlt & ->)|
    [(a' & t' & _ & _ & _ & ->)|
     (a' & p & t' & Hs & -> & Hp & _ & Hc & Henc & Hany)]]]; [done|..].
  - rewrite EncodeRune_ascii, app_cons, app_nil_l by done. by apply valid_cons_ascii.
  - apply valid_replacement.
  - rewrite Henc, app_cons. cbn [utf8.valid_from]. rewrite <- app_cons, Hany.
    assert (Hsz : (S (String.length p) =? 1) = false) by (apply Nat.eqb_neq; lia).
    rewrite Hsz, andb_false_r.
    replace (S (String.length p) - 1) with (String.length p) by lia.
    apply valid_skip.
Qed.

Lemma runes_from_valid s k :
  Forall (λ r, ∀ u, utf8.valid_from 0 (utf8.EncodeRune r +:+ u) = utf8.valid_from 0 u)
         (utf8.runes_from k s).
Proof.
  revert k. induction s as [|a t IH]; intros k; [constructor|].
  cbn [utf8.runes_from]. destruct k as [|k]; [|apply IH].
  destruct (utf8.DecodeRuneInString (String a t)) as [r size] eqn:Hdec.
  constructor; [|apply IH]. intros u.
  by apply (decoded_rune_valid (String a t) r size u).
Qed.

Lemma valid_app_valid s t :
  utf8.ValidString s = true → utf8.ValidString t = true →
  utf8.ValidString (s +:+ t) = true.
Proof.
  unfold utf8.ValidString. intros Hs Ht.
  by rewrite (valid_app (String.length s)) by done.
Qed.

Lemma fold_splitTrim_valid sep rs out cur :
  Forall (λ r, ∀ u, utf8.valid_from 0 (utf8.EncodeRune r +:+ u) = utf8.valid_from 0 u) rs →
  Forall (λ p, utf8.ValidString p = true) out → utf8.ValidString cur = true →
  let '(out', cur') := fold_left (splitTrim_step sep) rs (out, cur) in
  Forall (λ p, utf8.ValidString p = true) out' ∧ utf8.ValidString cur' = true.
Proof.
  intros Hrs. revert out cur. induction Hrs as [|r rs Hr Hrs IH]; intros out cur Hout Hcur.
  - done.
  - cbn [fold_left]. unfold splitTrim_step at 2. destruct (r =? sep)%N.
    + apply IH; [|done]. apply Forall_app. split; [done|].
      constructor; [|constructor]. by apply Trim_valid.
    + apply IH; [done|]. apply valid_app_valid; [done|].
      unfold utf8.ValidString. rewrite <- (app_nil_r (utf8.EncodeRune r)). by rewrite Hr.
Qed.

Lemma splitTrim_valid s sep :
  Forall (λ p, utf8.ValidString p = true) (splitTrim s sep).
Proof.
  unfold splitTrim. destruct (String.eqb _ _); [constructor|].
  pose proof (fold_splitTrim_valid sep (utf8.runes (strings.TrimSpace s)) [] EmptyString
                (runes_from_valid _ 0) (Forall_nil_2 _) eq_refl) as H.
  destruct (fold_left _ _ _) as [out cur]. destruct H as [Hout Hcur].
  apply Forall_forall. intros p Hp. apply list_elem_of_filter in Hp as [_ Hp].
  destruct (0 <? String.length cur)%nat.
  - apply elem_of_app in Hp as [Hp|Hp].
    + by apply (proj1 (Forall_forall _ _) Hout).
    + apply list_elem_of_singleton in Hp as ->. by apply Trim_valid.
  - by apply (proj1 (Forall_forall _ _) Hout).
Qed.

(** ** Decimals are ASCII *)

Lemma string_of_uint_ascii d :
  strings.all_bytes (λ c, (c <? utf8.RuneSelf)%N) (NilEmpty.string_of_uint d) = true.
Proof. induction d; cbn; by rewrite ?IHd. Qed.

Lemma Itoa_ascii z :
  strings.all_bytes (λ c, (c <? utf8.RuneSelf)%N) (strconv.Itoa z) = true.
Proof.
  unfold strconv.Itoa, NilZero.string_of_int, NilZero.string_of_uint.
  destruct (Z.to_int z) as [d|d]; destruct d; cbn [strings.all_bytes];
    try done; try apply string_of_uint_ascii;
    cbn; by rewrite ?string_of_uint_ascii.
Qed.

Lemma ws_identity_well_formed path now :
  (ws_identity path now).1 ≠ EmptyString ∧
  (ws_identity path now).2 ≠ EmptyString ∧
  utf8.ValidString (ws_identity path now).1 = true ∧
  utf8.ValidString (ws_identity path now).2 = true.
Proof.
  pose proof (splitTrim_valid (strings.TrimPrefix path "/ws") SLASH) as Hv.
  unfold ws_identity. set (parts := splitTrim _ _) in *.
  assert (Hanon : utf8.ValidString ("anon-" +:+ strconv.Itoa now) = true).
  { apply valid_ascii. rewrite all_bytes_app. apply andb_true_iff.
    split; [done|apply Itoa_ascii]. }
  cbn [fst snd].
  assert (H0 : ∀ (dflt : string) i (n : nat),
            dflt ≠ EmptyString → utf8.ValidString dflt = true →
            let x := match parts !! i with
                     | Some p => if (n <=? length parts)%nat && negb (String.eqb p EmptyString)
                                 then p else dflt
                     | None => dflt
                     end in
            x ≠ EmptyString ∧ utf8.ValidString x = true).
  { intros dflt i n Hd Hdv. cbn zeta.
    destruct (parts !! i) as [p|] eqn:Hp; [|done].
    destruct (_ <=? _)%nat; [|done]. cbn [andb].
    destruct (String.eqb_spec p EmptyString) as [->|Hne]; [done|]. cbn [negb].
    split; [done|]. apply (proj1 (Forall_forall _ _) Hv). by eapply list_elem_of_lookup_2. }
  destruct (H0 "global" 0%nat 1%nat) as [Hr1 Hr2]; [done|done|].
  destruct (H0 ("anon-" +:+ strconv.Itoa now) 1%nat 2%nat) as [Hu1 Hu2]; [done|done|].
  done.
Qed.

(** An envelope whose room and username are valid UTF-8 is read back as
    it was made. *)
Lemma Unmarshal_well_formed room user now payload :
  utf8.ValidString room = true → utf8.ValidString user = true →
  (- 2 ^ 63 ≤ now < 2 ^ 63)%Z →
  json.Unmarshal (MarshalEnvelope room user now payload)
  = Some (mkEnvelope room user now payload).
Proof.
  intros Hroom Huser Hnow. unfold MarshalEnvelope, json.Marshal.
  cbn [Room_ Username Ts Payload].
  set (s4 := json.key "payload" +:+ json.appendBytes payload +:+ "}").
  set (s3 := json.key "ts" +:+ strconv.Itoa now +:+ "," +:+ s4).
  set (s2 := json.key "username" +:+ json.appendString user +:+ "," +:+ s3).
  set (s1 := json.key "room" +:+ json.appendString room +:+ "," +:+ s2).
  destruct (parse_value_string room ("," +:+ s2)) as (room' & Hws1 & Hv1 & Hr).
  destruct (parse_value_string user ("," +:+ s3)) as (user' & Hws2 & Hv2 & Hu).
  apply Hr in Hroom as ->. apply Hu in Huser as ->. clear Hr Hu.
  destruct (parse_value_int now ","%char s4 eq_refl eq_refl) as [Hws3 Hv3].
  destruct (parse_value_bytes payload "}") as (v & Hws4 & Hv4 & Hst).
  unfold json.Unmarshal.
  assert (Hfuel : ∃ fuel, String.length ("{" +:+ s1) = S (S (S (S fuel)))).
  { subst s1 s2 s3. unfold json.key. rewrite !length_app'.
    cbn [String.length]. eexists. rewrite !Nat.add_succ_r, !Nat.add_succ_l. done. }
  destruct Hfuel as [fuel ->].
  assert (Hcomma : ∀ fl rest env, after_member fl ("," +:+ rest) env
                     = json.parse_members fl (json.skip_ws rest) env) by done.
  change (json.skip_ws ("{" +:+ s1)) with (String "{" s1).
  change (Ascii.eqb "{"%char "{"%char) with true. cbv iota.
  change (json.skip_ws s1) with s1.
  assert (Hhead : ∃ t, s1 = String DQUOTE t) by (by eexists).
  destruct Hhead as [t Ht]. rewrite Ht at 1.
  change (Ascii.eqb DQUOTE "}"%char) with false. cbv iota. clear t Ht.
  subst s1. rewrite (parse_member _ "room" _ _ _ _ _ eq_refl Hws1 Hv1 eq_refl), Hcomma.
  change (json.skip_ws s2) with s2.
  subst s2. rewrite (parse_member _ "username" _ _ _ _ _ eq_refl Hws2 Hv2 eq_refl), Hcomma.
  change (json.skip_ws s3) with s3.
  subst s3. rewrite app_cons, app_nil_l.
  rewrite (parse_member _ "ts" _ _ _ _ (mkEnvelope room user now None) eq_refl Hws3 Hv3).
  2:{ unfold json.store. change (json.field_of "ts") with (Some 2). cbv iota.
      by rewrite ParseInt64_Itoa. }
  change (String ","%char s4) with ("," +:+ s4). rewrite Hcomma.
  change (json.skip_ws s4) with s4.
  subst s4. by rewrite (parse_member _ "payload" _ _ _ _ _ eq_refl Hws4 Hv4 (Hst _ _ _)).
Qed.

(** X11.  Whatever the request path and the clock, the room name and the
    username [HandleWebSocket] takes from them are not empty and are valid
    UTF-8: [splitTrim] writes the runes of the path back, an ill-formed
    byte as U+FFFD, so each segment it returns is valid UTF-8. *)
Theorem stream_identity_well_formed (path : string) (now : Z) :
  (ws_identity path now).1 ≠ EmptyString ∧
  (ws_identity path now).2 ≠ EmptyString ∧
  utf8.ValidString (ws_identity path now).1 = true ∧
  utf8.ValidString (ws_identity path now).2 = true ∧
  (∀ s sep, Forall (λ p, utf8.ValidString p = true) (splitTrim s sep)).
Proof.
  destruct (ws_identity_well_formed path now) as (H1 & H2 & H3 & H4).
  repeat (split; [assumption|]). apply splitTrim_valid.
Qed.

(** X12.  Every envelope the reader loop of a stream connection builds is
    read back exactly: for every request path, clock reading and frame,
    and every timestamp in the range of [int64], [json.Unmarshal] of the
    envelope made of the room name and username taken from the path gives
    that room name, that username, the timestamp and the bytes of the
    frame. *)
Theorem stream_envelopes_decode_exactly
    (path : string) (now ts : Z) (msg : string) :
  (- 2 ^ 63 ≤ ts < 2 ^ 63)%Z →
  json.Unmarshal
    (MarshalEnvelope (ws_identity path now).1 (ws_identity path now).2 ts (Some msg))
  = Some (mkEnvelope (ws_identity path now).1 (ws_identity path now).2 ts (Some msg)).
Proof.
  intros Hts. destruct (ws_identity_well_formed path now) as (_ & _ & Hr & Hu).
  by apply Unmarshal_well_formed.
Qed.

Lemma stream_envelopes_decode_exactly_witness :
  json.Unmarshal
    (MarshalEnvelope (ws_identity "/ws/lab" 5).1 (ws_identity "/ws/lab" 5).2 1700000000
       (Some "hi"))
  = Some (mkEnvelope (ws_identity "/ws/lab" 5).1 (ws_identity "/ws/lab" 5).2 1700000000
            (Some "hi")).
Proof.
  apply (stream_envelopes_decode_exactly "/ws/lab" 5 1700000000 "hi"). lia.
Defined.

(** ** What a header value cannot hold *)

(** [strings.Index] for one byte finds its first occurrence. *)
Lemma Index_from_split c s i :
  (strings.Index_from i s (String c EmptyString) = -1)%Z ∧ has_byte c s = false ∨
  ∃ pre post, s = pre +:+ String c post ∧ has_byte c pre = false ∧
              strings.Index_from i s (String c EmptyString)
              = (i + Z.of_nat (String.length pre))%Z.
Proof.
  revert i. induction s as [|a s IH]; intros i.
  - left. done.
  - cbn [strings.Index_from]. rewrite HasPrefix_byte. cbn [has_byte].
    destruct (Ascii.eqb_spec a c) as [->|Hne].
    + right. exists EmptyString, s. cbn. split; [done|]. split; [done|]. lia.
    + destruct (IH (i + 1)%Z) as [[-> Hs]|(pre & post & -> & Hpre & ->)].
      * left. by rewrite Hs.
      * right. exists (String a pre), post. rewrite app_cons. cbn [has_byte String.length].
        rewrite Hpre, orb_false_r. split; [done|].
        split; [by apply Ascii.eqb_neq|]. lia.
Qed.

Lemma Index_split c s :
  (strings.Index s (String c EmptyString) = -1)%Z ∧ has_byte c s = false ∨
  ∃ pre post, s = pre +:+ String c post ∧ has_byte c pre = false ∧
              strings.Index s (String c EmptyString) = Z.of_nat (String.length pre).
Proof.
  destruct (Index_from_split c s 0) as [?|(pre & post & ? & ? & ?)]; [by left|].
  right. exists pre, post. unfold strings.Index. by rewrite Z.add_0_l in *.
Qed.

(** the pieces of [strings.Split] at a byte do not hold that byte *)
Lemma genSplit_clean c k s :
  String.length s ≤ k →
  Forall (λ p, has_byte c p = false) (strings.genSplit k s (String c EmptyString)).
Proof.
  revert s. induction k as [|k IH]; intros s Hlen.
  - destruct s; [|cbn in Hlen; lia]. by repeat constructor.
  - destruct (Index_split c s) as [[Hi Hs]|(pre & post & -> & Hpre & Hi)].
    + cbn [strings.genSplit]. rewrite Hi. by repeat constructor.
    + rewrite genSplit_first by done. constructor; [done|]. apply IH.
      rewrite length_app' in Hlen. cbn in Hlen. lia.
Qed.

Lemma parse_part_clean (c : ascii) acc part :
  has_byte c part = false →
  has_byte c acc.1 = false → has_byte c acc.2 = false →
  has_byte c (parse_part acc part).1 = false ∧
  has_byte c (parse_part acc part).2 = false.
Proof.
  intros Hp H1 H2. unfold parse_part, strings.SplitN. cbn [Nat.sub strings.genSplit].
  pose proof (has_byte_TrimSpace c part Hp) as Ht.
  destruct (_ <? _)%Z; [done|]. set (m := Z.to_nat _).
  set (v := strings.TrimSpace (slice_from _ _)).
  assert (Hv : has_byte c v = false).
  { subst v. by apply has_byte_TrimSpace, has_byte_slice_from. }
  destruct (String.eqb _ "ROOM"); [done|]. by destruct (String.eqb _ "USER").
Qed.

Lemma fold_parse_part_clean (c : ascii) parts acc :
  Forall (λ p, has_byte c p = false) parts →
  has_byte c acc.1 = false → has_byte c acc.2 = false →
  has_byte c (fold_left parse_part parts acc).1 = false ∧
  has_byte c (fold_left parse_part parts acc).2 = false.
Proof.
  intros Hparts. revert acc. induction Hparts as [|p parts Hp Hparts IH]; intros acc H1 H2.
  - done.
  - cbn [fold_left]. destruct (parse_part_clean c acc p Hp H1 H2). by apply IH.
Qed.

(** X13.  Whatever the datagram, the room and the username that
    [parseUDPFrame] returns hold no semicolon and no line break, and so do
    the room name and username of the UDP loop after its defaults; the
    payload is never longer than the datagram. *)
Theorem header_values_hold_no_separator (b : string) (t : Z) :
  let '(room, user, payload) := parseUDPFrame b in
  let '(roomName, username, _) := udp_identity b t in
  has_byte ";" room = false ∧ has_byte LF_byte room = false ∧
  has_byte ";" user = false ∧ has_byte LF_byte user = false ∧
  has_byte ";" roomName = false ∧ has_byte LF_byte roomName = false ∧
  has_byte ";" username = false ∧ has_byte LF_byte username = false ∧
  String.length payload ≤ String.length b.
Proof.
  assert (Hclean : ∀ room user payload, parseUDPFrame b = (room, user, payload) →
            has_byte ";" room = false ∧ has_byte LF_byte room = false ∧
            has_byte ";" user = false ∧ has_byte LF_byte user = false ∧
            String.length payload ≤ String.length b).
  { intros room user payload. unfold parseUDPFrame.
    destruct (Index_split LF_byte b) as [[Hi Hb]|(pre & post & Hb & Hpre & Hi)];
      change (String LF_byte EmptyString) with LF in Hi; rewrite Hi.
    - intros [= <- <- <-]. done.
    - rewrite (proj2 (Z.leb_le _ _)) by lia. rewrite Nat2Z.id. subst b.
      rewrite slice_to_app.
      replace (String.length pre + 1) with (String.length (pre +:+ String LF_byte EmptyString))
        by (rewrite length_app'; cbn; lia).
      replace (pre +:+ String LF_byte post)
        with ((pre +:+ String LF_byte EmptyString) +:+ post) by (by rewrite app_assoc').
      rewrite slice_from_app.
      destruct (fold_parse_part_clean ";" (strings.Split pre ";") (EmptyString, EmptyString))
        as [Hs1 Hs2]; [by apply genSplit_clean|done|done|].
      destruct (fold_parse_part_clean LF_byte (strings.Split pre ";") (EmptyString, EmptyString))
        as [Hl1 Hl2]; [by apply genSplit_parts|done|done|].
      destruct (fold_left _ _ _) as [r u]. intros [= <- <- <-].
      repeat (split; [done|]). rewrite !length_app'. lia. }
  pose proof (Itoa_ascii t) as Hdigits.
  unfold udp_identity. destruct (parseUDPFrame b) as [[room user] payload].
  destruct (Hclean room user payload eq_refl) as (H1 & H2 & H3 & H4 & H5).
  assert (Hname : has_byte ";" ("udp-" +:+ strconv.Itoa t) = false ∧
                  has_byte LF_byte ("udp-" +:+ strconv.Itoa t) = false).
  { rewrite !has_byte_app. cbn [orb]. change (has_byte ";" "udp-") with false.
    change (has_byte LF_byte "udp-") with false. cbn [orb].
    assert (Hd : ∀ c : ascii, json.is_digit c = false → c ≠ "-"%char →
                   has_byte c (strconv.Itoa t) = false).
    { intros c Hc Hm. destruct (Itoa_shape t) as (sign & d & a & more & -> & Hsign & _).
      rewrite has_byte_app. apply orb_false_iff. split.
      - destruct Hsign as [-> | ->]; [done|]. cbn [has_byte]. rewrite orb_false_r.
        apply Ascii.eqb_neq. congruence.
      - clear -Hc. induction d; cbn [NilEmpty.string_of_uint has_byte];
          rewrite ?IHd, ?orb_false_r; try done;
          match goal with |- Ascii.eqb ?k c = false =>
            destruct (Ascii.eqb_spec k c) as [<-|]; [done|done] end. }
    by rewrite !Hd. }
  destruct Hname as [Hn1 Hn2].
  repeat (split; [done|]). split; [by destruct (String.eqb room _)|].
  split; [by destruct (String.eqb room _)|]. split; [by destruct (String.eqb user _)|].
  split; [by destruct (String.eqb user _)|]. done.
Qed.

(** ** The text of an envelope *)

Lemma all_bytes_impl (P Q : N → bool) s :
  (∀ c, P c = true → Q c = true) →
  strings.all_bytes P s = true → strings.all_bytes Q s = true.
Proof.
  intros HPQ. induction s as [|a s IH]; [done|]. cbn [strings.all_bytes].
  intros [Ha Hs]%andb_true_iff. rewrite (HPQ _ Ha). by apply IH.
Qed.

Lemma all_bytes_and (P Q : N → bool) s :
  strings.all_bytes (λ c, P c && Q c) s
  = strings.all_bytes P s && strings.all_bytes Q s.
Proof.
  induction s as [|a s IH]; [done|]. cbn [strings.all_bytes]. rewrite IH.
  destruct (P (byte_val a)), (Q (byte_val a)), (strings.all_bytes P s); done.
Qed.

Lemma wire_no_line_break s :
  strings.all_bytes wire_byte s = true → has_byte LF_byte s = false.
Proof.
  induction s as [|a s IH]; [done|]. cbn [strings.all_bytes has_byte].
  intros [Ha Hs]%andb_true_iff. rewrite (IH Hs), orb_false_r.
  destruct (Ascii.eqb_spec a LF_byte) as [->|]; [|done]. by vm_compute in Ha.
Qed.

Lemma wire_high c : (0x80 ≤ c)%N → wire_byte c = true.
Proof.
  intros Hc. unfold wire_byte.
  rewrite (proj2 (N.leb_le _ _)) by lia.
  by rewrite !(proj2 (N.eqb_neq _ _)) by lia.
Qed.

Lemma ascii_transparent s u :
  strings.all_bytes (λ c, (c <? utf8.RuneSelf)%N) s = true →
  utf8.valid_from 0 (s +:+ u) = utf8.valid_from 0 u.
Proof.
  induction s as [|a s IH]; [done|]. cbn [strings.all_bytes].
  intros [Ha Hs]%andb_true_iff. apply N.ltb_lt in Ha.
  rewrite app_cons, valid_cons_ascii by done. by apply IH.
Qed.

Lemma text_wire s :
  strings.all_bytes text_byte s = true →
  strings.all_bytes wire_byte s = true ∧
  ∀ u, utf8.valid_from 0 (s +:+ u) = utf8.valid_from 0 u.
Proof.
  unfold text_byte. rewrite all_bytes_and. intros [Hw Ha]%andb_true_iff.
  split; [done|]. intros u. by apply ascii_transparent.
Qed.

Lemma hex_digit_text n : text_byte (byte_val (json.hex_digit n)) = true.
Proof.
  unfold json.hex_digit. generalize (N.to_nat n). intros k.
  do 17 (destruct k as [|k]; [done|]). done.
Qed.

Lemma escape_ascii_text b :
  (b < 0x80)%N → json.htmlSafe b = false →
  strings.all_bytes text_byte (json.escape_ascii b) = true.
Proof.
  intros Hb Hsafe. unfold json.escape_ascii.
  destruct (N.eqb_spec b 0x5C) as [->|H1]; [done|].
  destruct (N.eqb_spec b 0x22) as [->|H2]; [done|]. cbn [orb].
  repeat match goal with |- context [if ?c then _ else _] => destruct c end; try done.
  cbn [strings.all_bytes]. by rewrite !hex_digit_text.
Qed.

Lemma htmlSafe_text b :
  (b < 0x80)%N → json.htmlSafe b = true → wire_byte b = true.
Proof.
  unfold json.htmlSafe, wire_byte. intros _ H.
  repeat match type of H with _ && _ = true => apply andb_true_iff in H as [H ?] end.
  by repeat (apply andb_true_iff; split).
Qed.

(** What [appendString] writes between the quotes is valid UTF-8 before
    any valid tail, and holds no control character and none of the bytes
    escaped for HTML, whatever the bytes of its input. *)
Lemma appendString_from_wire (n : nat) (s : string) :
  String.length s ≤ n →
  strings.all_bytes wire_byte (json.appendString_from 0 true s) = true ∧
  ∀ u, utf8.valid_from 0 (json.appendString_from 0 true s +:+ u) = utf8.valid_from 0 u.
Proof.
  revert s. induction (lt_wf n) as [n _ IH]. intros [|a t] Hlen; [done|].
  cbn [String.length] in Hlen. cbn [json.appendString_from].
  destruct (N.ltb_spec (byte_val a) utf8.RuneSelf) as [Hlt|Hge].
  - destruct (IH (String.length t)) with (s := t) as [Hw Hv]; [lia|done|].
    destruct (json.htmlSafe (byte_val a)) eqn:Hsafe.
    + split.
      * cbn [strings.all_bytes]. by rewrite (htmlSafe_text _ Hlt Hsafe).
      * intros u. rewrite app_cons, valid_cons_ascii by done. apply Hv.
    + destruct (text_wire _ (escape_ascii_text _ Hlt Hsafe)) as [Hew Hev]. split.
      * by rewrite all_bytes_app, Hew.
      * intros u. by rewrite app_assoc', Hev.
  - destruct (DecodeRune_head (String a t)) as (c & size & Hdec & Hhead).
    rewrite Hdec.
    destruct Hhead as [(? & _)|[(a' & t' & [= <- <-] & _ & Hlt & _)|
      [(a' & t' & [= <- <-] & -> & _ & ->)|
       (a' & p & t' & Hs & -> & Hp & _ & Hc & Henc & Hany)]]];
      [done|unfold utf8.RuneSelf in Hge; lia|..].
    + destruct (IH (String.length t)) with (s := t) as [Hw Hv]; [lia|done|].
      rewrite N.eqb_refl. cbn [andb Nat.eqb]. split.
      * rewrite !app_cons, app_nil_l. cbn [strings.all_bytes]. by rewrite Hw.
      * intros u. rewrite app_assoc'.
        by rewrite (ascii_transparent (String BACKSLASH "ufffd")).
    + rewrite app_cons in Hs. injection Hs as <- ->.
      assert (Hsz : (S (String.length p) =? 1) = false) by (apply Nat.eqb_neq; lia).
      rewrite Hsz, andb_false_r.
      replace (S (String.length p) - 1) with (String.length p) by lia.
      rewrite length_app' in Hlen.
      destruct (IH (String.length t')) with (s := t') as [Hw Hv]; [lia|done|].
      destruct ((c =? 0x2028)%N || (c =? 0x2029)%N).
      * rewrite appendString_drop. split.
        -- pose proof (hex_digit_text (N.land c 0xF)) as Hh.
           unfold text_byte in Hh. apply andb_true_iff in Hh as [Hh _].
           rewrite !all_bytes_app, Hw. cbn [strings.all_bytes]. by rewrite Hh.
        -- intros u. rewrite !app_assoc'.
           rewrite (ascii_transparent (String BACKSLASH "u202")) by done.
           rewrite app_cons, app_nil_l, valid_cons_ascii; [apply Hv|].
           pose proof (hex_digit_text (N.land c 0xF)) as Hh.
           unfold text_byte in Hh. apply andb_true_iff in Hh as [_ Hh].
           by apply N.ltb_lt in Hh.
      * rewrite appendString_copy. split.
        -- cbn [strings.all_bytes]. rewrite wire_high by (unfold utf8.RuneSelf in Hge; lia).
           rewrite all_bytes_app, Hw, andb_true_r. cbn [andb].
           eapply all_bytes_impl; [|by eapply EncodeRune_tail].
           intros b Hb. apply wire_high. by apply N.leb_le in Hb.
        -- intros u. rewrite <- app_cons, app_assoc', <- Henc.
           rewrite (decoded_rune_valid (String a p +:+ t') c (S (String.length p)));
             [apply Hv|done|apply Hany].
Qed.

Lemma appendString_wire s :
  strings.all_bytes wire_byte (json.appendString s) = true ∧
  ∀ u, utf8.valid_from 0 (json.appendString s +:+ u) = utf8.valid_from 0 u.
Proof.
  destruct (appendString_from_wire (String.length s) s) as [Hw Hv]; [done|].
  unfold json.appendString. split.
  - cbn [strings.all_bytes]. by rewrite all_bytes_app, Hw.
  - intros u. rewrite app_cons, valid_cons_ascii by done.
    rewrite app_assoc', Hv. by rewrite app_cons, valid_cons_ascii.
Qed.

Lemma enc_text i : (i < 64)%N → text_byte (byte_val (base64.enc i)) = true.
Proof.
  intros Hi. rewrite <- (N2Nat.id i). assert (Hn : N.to_nat i < 64) by lia.
  generalize dependent (N.to_nat i). clear. intros n Hn.
  do 64 (destruct n as [|n]; [vm_compute; done|]). lia.
Qed.

Lemma EncodeToString_text (n : nat) (s : string) :
  String.length s ≤ n →
  strings.all_bytes text_byte (base64.EncodeToString s) = true.
Proof.
  revert s. induction (lt_wf n) as [n _ IH].
  intros [|a [|b [|c t]]] Hlen; [done|..];
    cbn [base64.EncodeToString strings.all_bytes];
    unfold base64.sextet; rewrite ?enc_text by apply sextet_lt; [done..|].
  cbn [andb]. apply (IH (String.length t)); [simpl in Hlen; lia|done].
Qed.

Lemma appendBytes_text p : strings.all_bytes text_byte (json.appendBytes p) = true.
Proof.
  destruct p as [b|]; [|done]. unfold json.appendBytes.
  cbn [strings.all_bytes]. rewrite all_bytes_app.
  by rewrite (EncodeToString_text (String.length b)).
Qed.

Lemma string_of_uint_text d :
  strings.all_bytes text_byte (NilEmpty.string_of_uint d) = true.
Proof. induction d; cbn; by rewrite ?IHd. Qed.

Lemma Itoa_text z : strings.all_bytes text_byte (strconv.Itoa z) = true.
Proof.
  unfold strconv.Itoa, NilZero.string_of_int, NilZero.string_of_uint.
  destruct (Z.to_int z) as [d|d]; destruct d; cbn [strings.all_bytes];
    try done; try apply string_of_uint_text;
    cbn; by rewrite ?string_of_uint_text.
Qed.

Lemma Marshal_wire env :
  strings.all_bytes wire_byte (json.Marshal env) = true ∧
  utf8.ValidString (json.Marshal env) = true.
Proof.
  destruct (appendString_wire (Room_ env)) as [Hrw Hrv].
  destruct (appendString_wire (Username env)) as [Huw Huv].
  destruct (text_wire _ (Itoa_text (Ts env))) as [Htw Htv].
  destruct (text_wire _ (appendBytes_text (Payload env))) as [Hpw Hpv].
  unfold json.Marshal, utf8.ValidString. split.
  - rewrite !all_bytes_app, Hrw, Huw, Htw, Hpw. done.
  - rewrite (ascii_transparent "{") by done.
    rewrite (ascii_transparent (json.key "room")) by done. rewrite Hrv.
    rewrite (ascii_transparent ",") by done.
    rewrite (ascii_transparent (json.key "username")) by done. rewrite Huv.
    rewrite (ascii_transparent ",") by done.
    rewrite (ascii_transparent (json.key "ts")) by done. rewrite Htv.
    rewrite (ascii_transparent ",") by done.
    rewrite (ascii_transparent (json.key "payload")) by done. rewrite Hpv. done.
Qed.

(** X14.  Whatever bytes the room name, the username and the payload
    hold, the envelope [MarshalEnvelope] returns is valid UTF-8 and holds
    no byte below 0x20, so no line feed and no carriage return, and none
    of the bytes [&], [<] and [>].  (The byte 0x7F is written as it is.) *)
Theorem envelope_is_one_line_of_text
    (room user : string) (now : Z) (payload : option string) :
  utf8.ValidString (MarshalEnvelope room user now payload) = true ∧
  strings.all_bytes wire_byte (MarshalEnvelope room user now payload) = true ∧
  has_byte LF_byte (MarshalEnvelope room user now payload) = false.
Proof.
  unfold MarshalEnvelope.
  destruct (Marshal_wire (mkEnvelope room user now payload)) as [Hw Hv].
  split; [exact Hv|]. split; [exact Hw|]. by apply wire_no_line_break.
Qed.

(** ** The insertion sort of the functional test *)

Section sorting.
Context {F : Type}.
Variable gt : F → F → bool.

Lemma index_app_r (l r : list F) x : index (l ++ x :: r) (Z.of_nat (length l)) = Some x.
Proof.
  unfold index. rewrite (proj2 (Z.leb_le _ _)) by lia. rewrite Nat2Z.id.
  by rewrite list_lookup_middle.
Qed.

Lemma assign_app_r (l r : list F) x y :
  assign (l ++ x :: r) (Z.of_nat (length l)) y = Some (l ++ y :: r).
Proof.
  unfold assign. rewrite length_app. cbn [length].
  rewrite (proj2 (Z.leb_le _ _)), (proj2 (Z.ltb_lt _ _)) by lia. cbn [andb].
  rewrite Nat2Z.id. f_equal. rewrite insert_app_r_alt by lia.
  by rewrite Nat.sub_diag.
Qed.

(** The inner loop moves the elements greater than [v] one place to the
    right and stops at the first that is not. *)
Lemma shift_right_spec v post :
  ∀ (l r : list F) (hole : F) (fuel : nat),
    length l ≤ fuel → Forall (λ x, gt x v = true) r →
    ∃ l1 l2 hole',
      shift_right gt fuel (l ++ hole :: r ++ post) (Z.of_nat (length l) - 1) v
      = Some (l1 ++ hole' :: (l2 ++ r) ++ post, (Z.of_nat (length l1) - 1)%Z) ∧
      l = l1 ++ l2 ∧ Forall (λ x, gt x v = true) l2 ∧
      (l1 = [] ∨ ∃ l0 x, l1 = l0 ++ [x] ∧ gt x v = false).
Proof.
  induction l as [|x l IH] using rev_ind; intros r hole fuel Hfuel Hr.
  - exists [], [], hole. cbn [length app]. destruct fuel; cbn; eauto.
  - rewrite length_app in *. cbn [length] in *.
    replace (Z.of_nat (length l + 1) - 1)%Z with (Z.of_nat (length l)) by lia.
    assert (Hidx : index ((l ++ [x]) ++ hole :: r ++ post) (Z.of_nat (length l)) = Some x).
    { rewrite <- app_assoc. apply index_app_r. }
    destruct (gt x v) eqn:Hx.
    + destruct fuel as [|fuel]; [lia|]. cbn [shift_right].
      rewrite (proj2 (Z.leb_le _ _)) by lia. rewrite Hidx. cbn. rewrite Hx.
      replace (Z.of_nat (length l) + 1)%Z with (Z.of_nat (length (l ++ [x])))
        by (rewrite length_app; cbn; lia).
      rewrite assign_app_r. cbn.
      destruct (IH (x :: r) x fuel) as (l1 & l2 & hole' & Hrun & -> & Hl2 & Hl1);
        [lia|by constructor|].
      exists l1, (l2 ++ [x]), hole'.
      replace ((l1 ++ l2) ++ [x]) with ((l1 ++ l2) ++ x :: []) by done.
      rewrite <- !app_assoc in *. cbn [app] in *.
      split; [exact Hrun|]. split; [done|]. split; [|done].
      apply Forall_app. split; [done|]. by constructor.
    + exists (l ++ [x]), [], hole. rewrite length_app. cbn [length app].
      replace (Z.of_nat (length l + 1) - 1)%Z with (Z.of_nat (length l)) by lia.
      split.
      * destruct fuel; cbn [shift_right]; rewrite (proj2 (Z.leb_le _ _)) by lia;
          rewrite Hidx; cbn; by rewrite Hx.
      * split; [by rewrite List.app_nil_r|]. split; [constructor|]. right. eauto.
Qed.

(** One round of the outer loop inserts the element at [i] into the
    slice before it. *)
Lemma insert_round pre v post :
  ∃ l1 l2 a1 j,
    shift_right gt (length pre) (pre ++ v :: post) (Z.of_nat (length pre) - 1) v
    = Some (a1, j) ∧
    assign a1 (j + 1) v = Some ((l1 ++ v :: l2) ++ post) ∧
    pre = l1 ++ l2 ∧ Forall (λ x, gt x v = true) l2 ∧
    (l1 = [] ∨ ∃ l0 x, l1 = l0 ++ [x] ∧ gt x v = false).
Proof.
  destruct (shift_right_spec v post pre [] v (length pre))
    as (l1 & l2 & hole' & Hrun & Hpre & Hl2 & Hl1); [done|constructor|].
  cbn [app] in Hrun. rewrite List.app_nil_r in Hrun.
  eexists l1, l2, _, _. split; [exact Hrun|].
  replace (Z.of_nat (length l1) - 1 + 1)%Z with (Z.of_nat (length l1)) by lia.
  rewrite assign_app_r. by rewrite <- !app_assoc.
Qed.

Lemma Sorted_insert l1 l2 v :
  (∀ x y, gt x y = true → gt y x = false) →
  Sorted (not_gt gt) (l1 ++ l2) →
  Forall (λ x, gt x v = true) l2 →
  (l1 = [] ∨ ∃ l0 x, l1 = l0 ++ [x] ∧ gt x v = false) →
  Sorted (not_gt gt) (l1 ++ v :: l2).
Proof.
  intros Hasym Hs Hl2 Hl1.
  assert (Htail : Sorted (not_gt gt) (v :: l2)).
  { constructor.
    - clear -Hs. induction l1 as [|x l1 IH]; [done|]. apply IH. by inversion Hs.
    - destruct Hl2 as [|y l2 Hy _]; constructor. by apply Hasym. }
  destruct Hl1 as [->|(l0 & x & -> & Hx)]; [done|].
  clear Hl2. rewrite <- app_assoc in *. cbn [app] in *.
  induction l0 as [|z l0 IH].
  - cbn. constructor; [done|]. by constructor.
  - cbn in *. inversion Hs as [|? ? Hs' Hhd]; subst. constructor; [by apply IH|].
    destruct l0; cbn in *; inversion Hhd; subst; by constructor.
Qed.

Lemma sort_from_spec :
  ∀ post pre fuel,
    length post < fuel →
    ∃ a', sort_from gt fuel (pre ++ post) (Z.of_nat (length pre)) = Some a' ∧
          a' ≡ₚ pre ++ post ∧
          ((∀ x y, gt x y = true → gt y x = false) → Sorted (not_gt gt) pre →
           Sorted (not_gt gt) a').
Proof.
  induction post as [|v post IH]; intros pre fuel Hfuel.
  - destruct fuel as [|fuel]; [cbn in Hfuel; lia|]. cbn [sort_from].
    rewrite List.app_nil_r. rewrite (proj2 (Z.ltb_ge _ _)) by lia. eauto.
  - destruct fuel as [|fuel]; [cbn in Hfuel; lia|]. cbn [sort_from].
    rewrite length_app. cbn [length] in *.
    rewrite (proj2 (Z.ltb_lt _ _)) by lia. rewrite index_app_r. cbn [mbind option_bind].
    destruct (insert_round pre v post) as (l1 & l2 & a1 & j & Hrun & Has & Hpre & Hl2 & Hl1).
    rewrite Nat2Z.id, Hrun. cbn [mbind option_bind]. rewrite Has. cbn [mbind option_bind].
    destruct (IH (l1 ++ v :: l2) fuel) as (a' & Hsort & Hperm & Hsorted); [lia|].
    replace (Z.of_nat (length pre) + 1)%Z with (Z.of_nat (length (l1 ++ v :: l2))).
    2:{ rewrite Hpre, !length_app. cbn. lia. }
    exists a'. split; [exact Hsort|]. split.
    + rewrite Hperm, Hpre, <- !app_assoc. cbn [app].
      apply Permutation_app_head. apply Permutation_middle.
    + intros Hasym Hs. apply Hsorted; [done|]. apply Sorted_insert; try done.
      by rewrite <- Hpre.
Qed.

End sorting.

(** X15.  [sortFloats] never indexes out of range, and the slice it leaves
    is a rearrangement of the one it was given; when the comparison is
    asymmetric (as [>] on float64 is, NaN included) no element of the
    result is greater than its right neighbour. *)
Theorem sortFloats_sorts_in_place {F : Type} (gt : F → F → bool) (a : list F) :
  ∃ a', sortFloats gt a = Some a' ∧ a' ≡ₚ a ∧ length a' = length a ∧
        ((∀ x y, gt x y = true → gt y x = false) → Sorted (not_gt gt) a').
Proof.
  unfold sortFloats. destruct a as [|x rest].
  - exists []. cbn. repeat split; try done.
  - destruct (sort_from_spec gt rest [x] (S (length (x :: rest))))
      as (a' & Hrun & Hperm & Hsorted); [cbn; lia|].
    exists a'. split; [exact Hrun|]. split; [exact Hperm|].
    split; [by rewrite Hperm|].
    intros Hasym. apply Hsorted; [done|]. repeat constructor.
Qed.

Lemma sortFloats_total {F : Type} (gt : F → F → bool) (a : list F) :
  ∃ a', sortFloats gt a = Some a' ∧ a' ≡ₚ a.
Proof.
  unfold sortFloats. destruct a as [|x rest].
  - by exists [].
  - destruct (sort_from_spec gt rest [x] (S (length (x :: rest))))
      as (a' & Hrun & Hperm & _); [cbn; lia|]. eauto.
Qed.

(** X16.  [percentile] returns 0 for an empty sample and otherwise one of
    the sample's values, whatever index the floating-point expression
    yields: the two clamps keep [cp[idx]] in range. *)
Theorem percentile_picks_a_sample {F : Type} (gt : F → F → bool) (zero : F)
    (vals : list F) (rank : Z) :
  ∃ x, percentile gt zero vals rank = Some x ∧
       (vals = [] → x = zero) ∧ (vals ≠ [] → x ∈ vals).
Proof.
  unfold percentile. destruct vals as [|v vals].
  - exists zero. cbn. by repeat split.
  - cbn [length Nat.eqb].
    destruct (sortFloats_total gt (v :: vals)) as (cp & -> & Hperm).
    cbn [mbind option_bind].
    assert (Hlen : length cp = S (length vals)) by (by rewrite Hperm).
    set (i := if (rank <? 0)%Z then 0%Z else rank).
    set (idx := if (Z.of_nat (length cp) <=? i)%Z then (Z.of_nat (length cp) - 1)%Z else i).
    assert (Hidx : (0 ≤ idx < Z.of_nat (length cp))%Z).
    { subst idx i. destruct (Z.ltb_spec rank 0);
        destruct (Z.leb_spec (Z.of_nat (length cp)) 0);
        destruct (Z.leb_spec (Z.of_nat (length cp)) rank); lia. }
    unfold index. rewrite (proj2 (Z.leb_le _ _)) by lia.
    destruct (lookup_lt_is_Some_2 cp (Z.to_nat idx)) as [x Hx]; [lia|].
    exists x. split; [exact Hx|]. split; [done|]. intros _.
    rewrite <- Hperm. by eapply list_elem_of_lookup_2.
Qed.
